(** * Octilinear grid-embedding optimizer (loom / octi): a shallow embedding

    The development follows the C++ sources:
    - [OctiHananGraph] (port angles, bend penalties, [writeNd], [ndMovePen]),
    - the ILP solver facade ([addRow], [addCol], [addColToRow],
      [getVarByName], [update]),
    - [ILPGridOptimizer] ([createProblem], [optimize]).

    Conventions.  C++ [double] values are idealised as rationals ([Q]);
    [size_t] is a 64-bit unsigned integer whose wrap-around is written out;
    [int] arithmetic is carried out in [Z].  Pointers to comb nodes and comb
    edges are addresses ([nat]); they are what [operator<<] prints into
    variable and row names. *)

From Stdlib Require Import ZArith QArith Qminmax Qabs List Bool Lia Arith PeanoNat.
From Stdlib Require String.
Import ListNotations.

Set Implicit Arguments.

Close Scope Q_scope.


(* ================================================================== *)
(** * Machine integers *)

Module MachInt.

Local Open Scope Z_scope.

(** [size_t] arithmetic wraps modulo 2^64. *)
Definition size_t_mod : Z := 2 ^ 64.
Definition wrap (z : Z) : Z := z mod size_t_mod.

(** [a - b] on two [size_t] values. *)
Definition size_sub (a b : nat) : Z := wrap (Z.of_nat a - Z.of_nat b).

(** Conversion of a [size_t] to a 32-bit [int] (two's complement). *)
Definition to_int (z : Z) : Z := ((z + 2 ^ 31) mod 2 ^ 32) - 2 ^ 31.

(** C's [%] on [int] truncates towards zero. *)
Definition c_rem (a b : Z) : Z := Z.rem a b.

End MachInt.

(* ================================================================== *)
(** * Vectors *)

Module Vec.

(** Update of a vector cell; out of range nothing is written. *)
Fixpoint upd {A} (l : list A) (i : nat) (f : A -> A) : list A :=
  match l, i with
  | [], _ => []
  | a :: l', O => f a :: l'
  | a :: l', S i' => a :: upd l' i' f
  end.

End Vec.

(* ================================================================== *)
(** * OctiHananGraph: port angles *)

Module Ang.

Import MachInt.
Local Open Scope Z_scope.

(** The signed formula:
    [int d = (int)(i) - (int)(j);
     int deg = abs((((d + 4) % 8) + 8) % 8 - 4) % 4;] *)
Definition angDeg (i j : Z) : Z :=
  let d := to_int i - to_int j in
  c_rem (Z.abs (c_rem (c_rem (d + 4) 8 + 8) 8 - 4)) 4.

(** The unsigned formula:
    [int ang = (8 + (i - j)) % 8; if (ang > 4) ang = 8 - ang; ang = ang % 4;]
    where [i - j] and the addition are [size_t] operations. *)
Definition angWrap (i j : Z) : Z :=
  let a := to_int (wrap (8 + wrap (i - j)) mod 8) in
  let a := if a >? 4 then 8 - a else a in
  c_rem a 4.

(** [OctiHananGraph::ang]: [None] stands for a failed [assert(deg == ang)]. *)
Definition ang (i j : Z) : option Z :=
  let deg := angDeg i j in
  let a := angWrap i j in
  if deg =? a then Some a else None.

(** The angle as used by callers that index [_bendCosts]. *)
Definition angIdx (i j : nat) : nat := Z.to_nat (angWrap (Z.of_nat i) (Z.of_nat j)).

End Ang.

(* ================================================================== *)
(** * OctiHananGraph: the grid arena and [writeNd] *)

Module OctiHanan.

Import MachInt Vec.

(** Edge and routing penalties ([_c]). *)
Record Penalties := mkPenalties {
  verticalPen : Q;
  horizontalPen : Q;
  diagonalPen : Q
}.

(** Payload of a grid node.  Pointers to grid nodes are indices into the
    node arena of the graph. *)
Record GridNodePL := mkGridNodePL {
  ndId : nat;
  ndSink : bool;
  ndX : nat;
  ndY : nat;
  ndParent : option nat;
  ndPorts : list (option nat);
  ndPos : Q * Q
}.

(** Payload of a grid edge, as built by [GridEdgePL(cost, secondary, flag)]
    followed by [setId]. *)
Record GridEdgePL := mkGridEdgePL {
  plCost : Q;
  plSecondary : bool;
  plSinkFlag : bool;
  plId : nat
}.

Record GridEdge := mkGridEdge {
  eFrom : nat;
  eTo : nat;
  ePl : GridEdgePL
}.

Record Graph := mkGraph {
  nodes : list GridNodePL;      (* node arena: pointer = index *)
  edges : list GridEdge;        (* edge arena, in creation order *)
  ndsVec : list nat;            (* [_nds] *)
  ndIdx : list nat;             (* [_ndIdx], sized width * height *)
  edgeCount : nat;              (* [_edgeCount] *)
  xWidth : nat;                 (* [_grid.getXWidth()] *)
  yHeight : nat;                (* [_grid.getYHeight()] *)
  cellSize : Q;
  spacer : Q;
  lowerLeft : Q * Q;            (* [_bbox.getLowerLeft()] *)
  bendCosts : nat -> Q;         (* [_bendCosts] *)
  pens : Penalties              (* [_c] *)
}.

Definition maxDeg : nat := 8.

Definition setNodes (g : Graph) (ns : list GridNodePL) : Graph :=
  mkGraph ns (edges g) (ndsVec g) (ndIdx g) (edgeCount g) (xWidth g) (yHeight g)
          (cellSize g) (spacer g) (lowerLeft g) (bendCosts g) (pens g).

Definition setEdges (g : Graph) (es : list GridEdge) (cnt : nat) : Graph :=
  mkGraph (nodes g) es (ndsVec g) (ndIdx g) cnt (xWidth g) (yHeight g)
          (cellSize g) (spacer g) (lowerLeft g) (bendCosts g) (pens g).

Definition setVecs (g : Graph) (v : list nat) (ix : list nat) : Graph :=
  mkGraph (nodes g) (edges g) v ix (edgeCount g) (xWidth g) (yHeight g)
          (cellSize g) (spacer g) (lowerLeft g) (bendCosts g) (pens g).

(** Modelled from the spec: the constructor of the node payload
    ([GridNodePL]) is not among the sources.  A fresh node is no sink (a
    sink is a node that [setSink] has made one), has no parent, eight empty
    port slots, id 0 and cell (0, 0). *)
Definition blankNode (pos : Q * Q) : GridNodePL :=
  mkGridNodePL 0 false 0 0 None (repeat None maxDeg) pos.

(** [addNd(DPoint)]: a fresh node; the pointer is its arena index. *)
Definition addNd (g : Graph) (pos : Q * Q) : Graph * nat :=
  (setNodes g (nodes g ++ [blankNode pos]), length (nodes g)).

Definition updNd (g : Graph) (n : nat) (f : GridNodePL -> GridNodePL) : Graph :=
  setNodes g (upd (nodes g) n f).

Definition setId (id : nat) (p : GridNodePL) : GridNodePL :=
  mkGridNodePL id (ndSink p) (ndX p) (ndY p) (ndParent p) (ndPorts p) (ndPos p).
Definition setSink (p : GridNodePL) : GridNodePL :=
  mkGridNodePL (ndId p) true (ndX p) (ndY p) (ndParent p) (ndPorts p) (ndPos p).
Definition setXY (x y : nat) (p : GridNodePL) : GridNodePL :=
  mkGridNodePL (ndId p) (ndSink p) x y (ndParent p) (ndPorts p) (ndPos p).
Definition setParent (n : nat) (p : GridNodePL) : GridNodePL :=
  mkGridNodePL (ndId p) (ndSink p) (ndX p) (ndY p) (Some n) (ndPorts p) (ndPos p).
Definition setPort (i : nat) (nn : nat) (p : GridNodePL) : GridNodePL :=
  mkGridNodePL (ndId p) (ndSink p) (ndX p) (ndY p) (ndParent p)
               (upd (ndPorts p) i (fun _ => Some nn)) (ndPos p).

Definition getPort (g : Graph) (n : nat) (i : nat) : option nat :=
  match nth_error (nodes g) n with
  | Some p => nth i (ndPorts p) None
  | None => None
  end.

Definition edgeIs (fr to : nat) (e : GridEdge) : bool :=
  (eFrom e =? fr)%nat && (eTo e =? to)%nat.

(** [getEdg(from, to)]: the edge between two nodes, if there is one. *)
Definition getEdg (g : Graph) (fr to : nat) : option GridEdge :=
  find (edgeIs fr to) (edges g).

Definition setEdgeId (id : nat) (e : GridEdge) : GridEdge :=
  mkGridEdge (eFrom e) (eTo e)
             (mkGridEdgePL (plCost (ePl e)) (plSecondary (ePl e)) (plSinkFlag (ePl e)) id).

(** A request [(from, to, cost, secondary, flag)] for [addEdg]. *)
Definition Req : Type := nat * nat * Q * bool * bool.

Definition reqKey (r : Req) : nat * nat :=
  let '(fr, to, _, _, _) := r in (fr, to).

Fixpoint setFirstId (fr to id : nat) (es : list GridEdge) : list GridEdge :=
  match es with
  | [] => []
  | e :: es' =>
      if edgeIs fr to e then setEdgeId id e :: es' else e :: setFirstId fr to id es'
  end.

(** [e = addEdg(fr, to, pl); e->pl().setId(_edgeCount); _edgeCount++;]
    on the edge arena and the edge counter.  [addEdg] hands back the
    existing edge when the two nodes are already connected; the id is then
    written to that edge. *)
Definition addE (st : list GridEdge * nat) (r : Req) : list GridEdge * nat :=
  let '(es, cnt) := st in
  let '(fr, to, c, sec, cl) := r in
  match find (edgeIs fr to) es with
  | Some _ => (setFirstId fr to cnt es, S cnt)
  | None => (es ++ [mkGridEdge fr to (mkGridEdgePL c sec cl cnt)], S cnt)
  end.

Definition edgeState (g : Graph) : list GridEdge * nat := (edges g, edgeCount g).

Definition addEdgId (g : Graph) (fr to : nat) (c : Q) (sec cl : bool) : Graph :=
  let st := addE (edgeState g) (fr, to, c, sec, cl) in
  setEdges g (fst st) (snd st).

Section WriteNd.

Variable INF : Q.

Local Open Scope Z_scope.

(** Port offsets:
    [int xi = (4 - (i % 8)) % 4; xi /= abs(abs(xi) - 1) + 1;]
    [int yi = (4 - ((i + 2) % 8)) % 4; yi /= abs(abs(yi) - 1) + 1;] *)
Definition portDx (i : Z) : Z :=
  let xi := c_rem (4 - c_rem i 8) 4 in
  Z.quot xi (Z.abs (Z.abs xi - 1) + 1).
Definition portDy (i : Z) : Z :=
  let yi := c_rem (4 - c_rem (i + 2) 8) 4 in
  Z.quot yi (Z.abs (Z.abs yi - 1) + 1).

Local Close Scope Z_scope.

(** [_bendCosts[ang(i, j)]] *)
Definition getBendPen (g : Graph) (i j : nat) : Q := bendCosts g (Ang.angIdx i j).

(** The four guards of the in-node loop, as the code has them: they look at
    [i] only, and [getXWidth() - 1] and [getYHeight() - 1] are [size_t]
    subtractions. *)
Definition onBorder (g : Graph) (x y i : nat) : bool :=
  ((x =? 0)%nat && ((i =? 5) || (i =? 6) || (i =? 7))%nat)
  || ((y =? 0)%nat && ((i =? 0) || (i =? 7) || (i =? 1))%nat)
  || ((Z.of_nat x =? size_sub (xWidth g) 1)%Z && ((i =? 1) || (i =? 2) || (i =? 3))%nat)
  || ((Z.of_nat y =? size_sub (yHeight g) 1)%Z && ((i =? 3) || (i =? 4) || (i =? 5))%nat).

Definition bendPenAt (g : Graph) (x y i j : nat) : Q :=
  if onBorder g x y i then INF else getBendPen g i j.

(** One round of the first loop: port [i] of sink [n] and its two sink edges. *)
Definition writePort (xPos yPos : Q) (n : nat) (g : Graph) (i : nat) : Graph :=
  let xi := inject_Z (portDx (Z.of_nat i)) in
  let yi := inject_Z (portDy (Z.of_nat i)) in
  let '(g, nn) := addNd g (xPos + xi * spacer g, yPos + yi * spacer g)%Q in
  let g := updNd g nn (setId (length (ndsVec g))) in
  let g := setVecs g (ndsVec g ++ [nn]) (ndIdx g) in
  let g := updNd g nn (setParent n) in
  let g := updNd g n (setPort i nn) in
  let g := addEdgId g n nn INF true true in
  addEdgId g nn n INF true true.

(** The body of the in-node loop for the port pair [(i, j)]. *)
Definition writeBend (x y : nat) (n : nat) (g : Graph) (ij : nat * nat) : Graph :=
  let '(i, j) := ij in
  let pen := bendPenAt g x y i j in
  match getPort g n i, getPort g n j with
  | Some pi, Some pj =>
      let g := addEdgId g pi pj pen true false in
      addEdgId g pj pi pen true false
  | _, _ => g
  end.

(** The pairs [(i, j)], [i < j < maxDeg], in loop order. *)
Definition portPairs : list (nat * nat) :=
  flat_map (fun i => map (fun j => (i, j)) (seq (S i) (maxDeg - S i))) (seq 0 maxDeg).

(** [_ndIdx[i] = v]; a write past the end of the vector has no defined
    result: [None]. *)
Definition setIdx (ix : list nat) (i v : nat) : option (list nat) :=
  if (i <? length ix)%nat then Some (upd ix i (fun _ => v)) else None.

(** [OctiHananGraph::writeNd(x, y)].  ([_grid.add(x, y, n)] enters the node
    into the spatial grid, which no function of this file reads.) *)
Definition writeNd (g : Graph) (x y : nat) : option (Graph * nat) :=
  let xPos := (fst (lowerLeft g) + inject_Z (Z.of_nat x) * cellSize g)%Q in
  let yPos := (snd (lowerLeft g) + inject_Z (Z.of_nat y) * cellSize g)%Q in
  let '(g, n) := addNd g (xPos, yPos) in
  let g := updNd g n (setId (length (ndsVec g))) in
  let g := setVecs g (ndsVec g ++ [n]) (ndIdx g) in
  match setIdx (ndIdx g) (x * yHeight g + y) (length (ndsVec g)) with
  | None => None
  | Some ix =>
      let g := setVecs g (ndsVec g) ix in
      let g := updNd g n setSink in
      let g := updNd g n (setXY x y) in
      let g := updNd g n (setParent n) in
      let g := fold_left (writePort xPos yPos n) (seq 0 8) g in
      let g := fold_left (writeBend x y n) portPairs g in
      Some (g, n)
  end.

End WriteNd.

(* ------------------------------------------------------------------ *)
(** ** [ndMovePen] *)

Section NdMovePen.

(** [util::geo::dist] on the two geometries. *)
Variable dist : Q * Q -> Q * Q -> Q.

Local Open Scope Q_scope.

Definition PEN : Q := 1 # 2.

Definition diagCost (g : Graph) : Q :=
  bendCosts g 0%nat +
  Qmin (diagonalPen (pens g))
       (horizontalPen (pens g) + verticalPen (pens g) + bendCosts g 2%nat).

Definition vertCost (g : Graph) : Q :=
  bendCosts g 0%nat +
  Qmin (verticalPen (pens g))
       (horizontalPen (pens g) + diagonalPen (pens g) + bendCosts g 3%nat).

Definition horiCost (g : Graph) : Q :=
  bendCosts g 0%nat +
  Qmin (horizontalPen (pens g))
       (verticalPen (pens g) + diagonalPen (pens g) + bendCosts g 3%nat).

Definition penPerGrid (g : Graph) : Q :=
  PEN + Qmax (diagCost g) (Qmax (vertCost g) (horiCost g)).

(** [OctiHananGraph::ndMovePen(cbNd, grNd)], on the two geometries. *)
Definition ndMovePen (g : Graph) (cbGeom grGeom : Q * Q) : Q :=
  let d := dist cbGeom grGeom in
  let gridD := d / cellSize g in
  gridD * penPerGrid g.

(** The per-hop budget in the words of the specification: every direction
    pays a bend penalty [lead] plus the smaller of the direct cost and the
    detour over the two other directions with one more bend [turn]. *)
Definition hopCost (lead turn direct seg1 seg2 : Q) : Q :=
  lead + Qmin direct (seg1 + seg2 + turn).

(** The specification's reading: [lead] is the 90 degree bend penalty and
    [turn] the 45 degree one in all three directions (angle indices
    0, 1, 2 = straight, 45, 90 degrees). *)
Definition penPerHop_spec (g : Graph) : Q :=
  let p90 := bendCosts g 2%nat in
  let p45 := bendCosts g 1%nat in
  let c := pens g in
  PEN + Qmax (hopCost p90 p45 (diagonalPen c) (horizontalPen c) (verticalPen c))
             (Qmax (hopCost p90 p45 (verticalPen c) (horizontalPen c) (diagonalPen c))
                   (hopCost p90 p45 (horizontalPen c) (verticalPen c) (diagonalPen c))).

Definition ndMovePen_spec (g : Graph) (cbGeom grGeom : Q * Q) : Q :=
  dist cbGeom grGeom / cellSize g * penPerHop_spec g.

(** What the code computes: the leading term is [_bendCosts[0]] in all three
    directions; the detour of a diagonal hop bends by [_bendCosts[2]], the
    detour of a vertical or horizontal hop by [_bendCosts[3]]. *)
Definition penPerHop_code (g : Graph) : Q :=
  let b0 := bendCosts g 0%nat in
  let c := pens g in
  PEN + Qmax (hopCost b0 (bendCosts g 2%nat) (diagonalPen c) (horizontalPen c) (verticalPen c))
             (Qmax (hopCost b0 (bendCosts g 3%nat) (verticalPen c) (horizontalPen c) (diagonalPen c))
                   (hopCost b0 (bendCosts g 3%nat) (horizontalPen c) (verticalPen c) (diagonalPen c))).

Local Close Scope Q_scope.

End NdMovePen.

End OctiHanan.

(* ================================================================== *)
(** * Names of variables and rows *)

Module Names.

(** Addresses of comb nodes and comb edges, as printed by [<<]. *)
Definition CombNode := nat.
Definition CombEdge := nat.

(** The strings built with [std::stringstream] in [createProblem], kept in
    structured form: the constructor stands for the literal text, the
    arguments for the numbers and addresses streamed into it. *)
Inductive Name : Type :=
| NSp (gridId : nat) (nd : CombNode)                 (* sp(id,nd) *)
| NEdg (fromId toId : nat) (ce : CombEdge)           (* edg(id,id,ce) *)
| NDir (nd : CombNode) (e : CombEdge)                (* d(nd,e) *)
| NVuln (nd : CombNode) (i : nat)                    (* vuln(nd,i) *)
| NNegdist (a b : CombEdge)                          (* negdist(a,b) *)
| NBucket (primed : bool) (pp : nat) (a b : CombEdge) (* d<pp>(a,b), d<pp>'(a,b) *)
| NOneass (nd : CombNode)                            (* oneass(nd) *)
| NUe (fromId toId : nat)                            (* ue(id,id) *)
| NAs (gridId : nat) (ce : CombEdge)                 (* as(id,ce) *)
| NSs (gridId : nat) (ce : CombEdge)                 (* ss(id,ce) *)
| NIu (gridId : nat)                                 (* iu(id) *)
| NNc (rowId : nat)                                  (* nc(k) *)
| NDc (nd : CombNode) (e : CombEdge)                 (* dc(nd,e) *)
| NVc (nd : CombNode)                                (* vc(nd) *)
| NOc (nd : CombNode) (i : nat)                      (* oc(nd,i) *)
| NNcLo (a b : CombEdge)                             (* nc(a,b)lo *)
| NNcUp (a b : CombEdge)                             (* nc(a,b)up *)
| NAc (a b : CombEdge)                               (* ac(a,b) *)
| NAsc (a b : CombEdge).                             (* asc(a,b) *)

Definition Name_eq_dec (a b : Name) : {a = b} + {a <> b}.
Proof.
  decide equality; try apply Nat.eq_dec; apply Bool.bool_dec.
Defined.

Definition name_eqb (a b : Name) : bool :=
  if Name_eq_dec a b then true else false.

(** Variables of the routing part: station positions and edge uses. *)
Definition isRoute (nm : Name) : bool :=
  match nm with
  | NSp _ _ | NEdg _ _ _ => true
  | _ => false
  end.

(** Direction variables. *)
Definition isDir (nm : Name) : bool :=
  match nm with
  | NDir _ _ => true
  | _ => false
  end.

End Names.

(* ================================================================== *)
(** * The solver facade ([shared::optim::ILPSolver]) *)

Module LP.

Import Names.

Inductive ColType := BIN | INT | CONT.
Inductive RowType := FIX | UP | LO.
Inductive SolveType := OPTIM | SUBOPTIM_TIMEOUT | INF_STATUS.

(** A column: name, kind, objective coefficient and, when given, bounds. *)
Record Col := mkCol {
  colName : Name;
  colType : ColType;
  colObj : Q;
  colBounds : option (Z * Z)
}.

(** A row: name, bound, sense and the terms [(column, coefficient)] in the
    order of the [addColToRow] calls.  Bounds and coefficients passed by
    [createProblem] are integers. *)
Record Row := mkRow {
  rowName : Name;
  rowRhs : Z;
  rowType : RowType;
  rowTerms : list (nat * Z)
}.

(** Modelled from the spec: the solver behind the facade is not part of the
    sources at hand.  It keeps the columns and rows in the order they were
    added, ids being positions; [update] finalises a batch of additions, and
    the name lookup is only promised for finalised columns. *)
Record Solver := mkSolver {
  cols : list Col;
  rows : list Row;
  visible : nat          (* columns finalised by the last [update] *)
}.

Definition emptySolver : Solver := mkSolver [] [] 0.

Definition addRow (lp : Solver) (nm : Name) (rhs : Z) (ty : RowType) : nat * Solver :=
  (length (rows lp),
   mkSolver (cols lp) (rows lp ++ [mkRow nm rhs ty []]) (visible lp)).

Definition addColB (lp : Solver) (nm : Name) (ty : ColType) (obj : Q)
           (bnd : option (Z * Z)) : nat * Solver :=
  (length (cols lp),
   mkSolver (cols lp ++ [mkCol nm ty obj bnd]) (rows lp) (visible lp)).

Definition addCol (lp : Solver) (nm : Name) (ty : ColType) (obj : Q) : nat * Solver :=
  addColB lp nm ty obj None.

Definition addTerm (c : nat) (k : Z) (r : Row) : Row :=
  mkRow (rowName r) (rowRhs r) (rowType r) (rowTerms r ++ [(c, k)]).

Definition addColToRow (lp : Solver) (row col : nat) (coef : Z) : Solver :=
  mkSolver (cols lp) (Vec.upd (rows lp) row (addTerm col coef)) (visible lp).

Definition update (lp : Solver) : Solver :=
  mkSolver (cols lp) (rows lp) (length (cols lp)).

Fixpoint findIdx (nm : Name) (l : list Col) (i : nat) : option nat :=
  match l with
  | [] => None
  | c :: l' => if name_eqb (colName c) nm then Some i else findIdx nm l' (S i)
  end.

(** [getVarByName]: the id of the column, [None] for the answer -1. *)
Definition getVarByName (lp : Solver) (nm : Name) : option nat :=
  findIdx nm (firstn (visible lp) (cols lp)) 0.

Definition getNumVars (lp : Solver) : nat := length (cols lp).
Definition getNumConstrs (lp : Solver) : nat := length (rows lp).

(** [if (col > -1) lp->addColToRow(row, col, coef)] *)
Definition addIfVar (row : nat) (coef : Z) (lp : Solver) (nm : Name) : Solver :=
  match getVarByName lp nm with
  | Some c => addColToRow lp row c coef
  | None => lp
  end.

End LP.

(* ================================================================== *)
(** * The base graph as seen by the optimizer ([octi::basegraph::BaseGraph]) *)

Module Grid.

(** Pointers to grid nodes and grid edges. *)
Definition GridNode := nat.
Definition GridEdge := nat.

(** The mutable part of an edge payload. *)
Record EdgeSt := mkEdgeSt {
  stCost : Q;          (* the cost written by [setCost] *)
  stClosed : bool;     (* [close()] / [open()] *)
  stBlocked : bool     (* [block()] / [unblock()] *)
}.

(** The interface of the base graph: the node list in iteration order, the
    payload readers, adjacency, the edge lookup and the bits of geometry and
    penalties [createProblem] asks for.  Only [edgeSt] is ever written. *)
Record BaseGraph := mkBaseGraph {
  getNds : list GridNode;
  isSink : GridNode -> bool;
  getId : GridNode -> nat;
  getDeg : GridNode -> nat;
  getGeom : GridNode -> Q * Q;
  getPort : GridNode -> nat -> option GridNode;
  getAdjList : GridNode -> list GridEdge;
  getAdjListIn : GridNode -> list GridEdge;
  getAdjListOut : GridNode -> list GridEdge;
  getFrom : GridEdge -> GridNode;
  getTo : GridEdge -> GridNode;
  isSecondary : GridEdge -> bool;
  edgId : GridEdge -> nat;
  getEdg : GridNode -> GridNode -> option GridEdge;
  edgeSt : GridEdge -> EdgeSt;
  getCellSize : Q;
  maxDeg : nat;
  getCosts : list Q;
  getCrossEdgPairs : list ((GridEdge * GridEdge) * (GridEdge * GridEdge));
  ndMovePen : Q * Q -> GridNode -> Q
}.

Definition withEdgeSt (gg : BaseGraph) (st : GridEdge -> EdgeSt) : BaseGraph :=
  mkBaseGraph (getNds gg) (isSink gg) (getId gg) (getDeg gg) (getGeom gg) (getPort gg)
              (getAdjList gg) (getAdjListIn gg) (getAdjListOut gg) (getFrom gg) (getTo gg)
              (isSecondary gg) (edgId gg) (getEdg gg) st (getCellSize gg) (maxDeg gg)
              (getCosts gg) (getCrossEdgPairs gg) (ndMovePen gg).

(** Write to the payload of one edge. *)
Definition modEdge (gg : BaseGraph) (e : GridEdge) (f : EdgeSt -> EdgeSt) : BaseGraph :=
  withEdgeSt gg (fun e' => if (e' =? e)%nat then f (edgeSt gg e') else edgeSt gg e').

(** The same for the edge between two nodes, when there is one. *)
Definition modEdgeBetween (gg : BaseGraph) (a b : GridNode) (f : EdgeSt -> EdgeSt)
  : BaseGraph :=
  match getEdg gg a b with
  | Some e => modEdge gg e f
  | None => gg
  end.

Definition stOpen (s : EdgeSt) : EdgeSt := mkEdgeSt (stCost s) false (stBlocked s).
Definition stClose (s : EdgeSt) : EdgeSt := mkEdgeSt (stCost s) true (stBlocked s).
Definition stUnblock (s : EdgeSt) : EdgeSt := mkEdgeSt (stCost s) (stClosed s) false.
Definition stSetCost (c : Q) (s : EdgeSt) : EdgeSt := mkEdgeSt c (stClosed s) (stBlocked s).

(** The ports of a node that are there, with their direction. *)
Definition portsOf (gg : BaseGraph) (n : GridNode) : list GridNode :=
  flat_map (fun p => match getPort gg n p with Some q => [q] | None => [] end)
           (seq 0 (maxDeg gg)).

Section Costs.

(** [basegraph::INF] and [basegraph::SOFT_INF]. *)
Variables INF SOFT_INF : Q.

(** Modelled from the spec: the payload class of grid edges is not among the
    sources.  A closed or blocked edge is raised to the sentinel; otherwise
    the cost is the one written last. *)
Definition cost (gg : BaseGraph) (e : GridEdge) : Q :=
  if stClosed (edgeSt gg e) || stBlocked (edgeSt gg e) then INF
  else stCost (edgeSt gg e).

(** [cost() >= SOFT_INF] *)
Definition isInf (gg : BaseGraph) (e : GridEdge) : bool :=
  Qle_bool SOFT_INF (cost gg e).

(** Modelled from the spec: [openSinkFr] / [openSinkTo] lower the cost of the
    sink edges of a candidate sink to the given value, [closeSinkFr] /
    [closeSinkTo] raise it to the sentinel again; [openTurns] opens the bend
    edges between the ports of a sink. *)
Definition openSinkFr (gg : BaseGraph) (n : GridNode) (c : Q) : BaseGraph :=
  fold_left (fun gg p => modEdgeBetween gg n p (stSetCost c)) (portsOf gg n) gg.

Definition openSinkTo (gg : BaseGraph) (n : GridNode) (c : Q) : BaseGraph :=
  fold_left (fun gg p => modEdgeBetween gg p n (stSetCost c)) (portsOf gg n) gg.

Definition closeSinkFr (gg : BaseGraph) (n : GridNode) : BaseGraph :=
  openSinkFr gg n INF.

Definition closeSinkTo (gg : BaseGraph) (n : GridNode) : BaseGraph :=
  openSinkTo gg n INF.

Definition openTurns (gg : BaseGraph) (n : GridNode) : BaseGraph :=
  fold_left (fun gg pq => if (fst pq =? snd pq)%nat then gg
                          else modEdgeBetween gg (fst pq) (snd pq) stOpen)
            (list_prod (portsOf gg n) (portsOf gg n)) gg.

End Costs.

End Grid.

(* ================================================================== *)
(** * The combinatorial graph ([octi::combgraph::CombGraph]) *)

Module Comb.

Import Names.

(** The input graph: nodes in iteration order, the incidence list of a node,
    the end points of an edge, the position of a node, the circular edge
    ordering of a node ([getEdgeOrdering().getOrderedSet()], first
    components) and the lines of the first child of an edge. *)
Record CombGraph := mkCombGraph {
  cgNds : list CombNode;
  cAdjList : CombNode -> list CombEdge;
  cFrom : CombEdge -> CombNode;
  cTo : CombEdge -> CombNode;
  cGeom : CombNode -> Q * Q;
  cOrder : CombNode -> list CombEdge;
  cLines : CombEdge -> list nat
}.

(** [nd->getDeg()] *)
Definition cDeg (cg : CombGraph) (nd : CombNode) : nat := length (cAdjList cg nd).

(** The loop header
    [for (nd : cg.getNds()) for (edg : nd->getAdjList())
       if (edg->getFrom() != nd) continue;] *)
Definition forCombEdges {S} (cg : CombGraph) (body : S -> CombEdge -> S) (s : S) : S :=
  fold_left (fun s nd =>
               fold_left (fun s edg => if (cFrom cg edg =? nd)%nat then body s edg else s)
                         (cAdjList cg nd) s)
            (cgNds cg) s.

(** The edges that loop visits, in order. *)
Definition outEdges (cg : CombGraph) (nd : CombNode) : list CombEdge :=
  filter (fun edg => (cFrom cg edg =? nd)%nat) (cAdjList cg nd).

Definition combEdges (cg : CombGraph) : list CombEdge :=
  flat_map (outEdges cg) (cgNds cg).

(** The number of lines of [a]'s first child that [b]'s first child has too. *)
Definition sharedLines (cg : CombGraph) (a b : CombEdge) : nat :=
  length (filter (fun l => existsb (Nat.eqb l) (cLines cg b)) (cLines cg a)).

End Comb.

(* ================================================================== *)
(** * [ILPGridOptimizer::createProblem] *)

Module ILP.

Import Names LP Grid Comb.

(** Steps that may hit a failed [assert] or follow a null pointer end the
    run: [None]. *)
Fixpoint foldM {S X} (f : S -> X -> option S) (l : list X) (s : S) : option S :=
  match l with
  | [] => Some s
  | x :: l' =>
      match f s x with
      | Some s' => foldM f l' s'
      | None => None
      end
  end.

Definition forCombEdgesM {S} (cg : CombGraph) (body : S -> CombEdge -> option S) (s : S)
  : option S :=
  foldM (fun s nd =>
           foldM (fun s edg => if (cFrom cg edg =? nd)%nat then body s edg else Some s)
                 (cAdjList cg nd) s)
        (cgNds cg) s.

Notation "x <- c1 ;; c2" :=
  (match c1 with Some x => c2 | None => None end)
    (at level 61, c1 at next level, right associativity).

(** [cands]: the pairs (comb node, grid node) entered so far. *)
Definition Cands := list (CombNode * GridNode).

Definition candCount (cands : Cands) (nd : CombNode) (n : GridNode) : bool :=
  existsb (fun c => (fst c =? nd)%nat && (snd c =? n)%nat) cands.

Section CreateProblem.

Variables INF SOFT_INF : Q.

(** [util::geo::dist] *)
Variable dist : Q * Q -> Q * Q -> Q.

Variable cg : CombGraph.

(** [geoPensMap], when given: penalty per comb edge and grid edge id. *)
Variable geoPensMap : option (CombEdge -> nat -> Q).

Variable maxGrDist : Q.

(** [getEdgUseVar(e, cg)] *)
Definition getEdgUseVar (gg : BaseGraph) (e : GridEdge) (ce : CombEdge) : Name :=
  NEdg (getId gg (getFrom gg e)) (getId gg (getTo gg e)) ce.

(** [getStatPosVar(n, nd)] *)
Definition getStatPosVar (gg : BaseGraph) (n : GridNode) (nd : CombNode) : Name :=
  NSp (getId gg n) nd.

(** [nonInfDeg(g)] *)
Definition nonInfDeg (gg : BaseGraph) (n : GridNode) : nat :=
  length (filter (fun e => negb (isInf INF SOFT_INF gg e)) (getAdjList gg n)).

(* ---------------------------------------------------------------- *)
(** ** Station positions: rows [oneass] and columns [sp] *)

(** The three tests that admit the sink [n] as a position of [nd]. *)
Definition isCand (gg : BaseGraph) (nd : CombNode) (n : GridNode) : bool :=
  isSink gg n
  && negb (getDeg gg n <? cDeg cg nd)
  && negb (Qle_bool (getCellSize gg * maxGrDist)%Q (dist (getGeom gg n) (cGeom cg nd))).

Definition candStep (nd : CombNode) (rowStat : nat)
           (st : BaseGraph * Solver * Cands) (n : GridNode)
  : BaseGraph * Solver * Cands :=
  let '(gg, lp, cands) := st in
  if negb (isSink gg n) then st
  else if getDeg gg n <? cDeg cg nd then st
  else
    let gridD := dist (getGeom gg n) (cGeom cg nd) in
    let maxDis := (getCellSize gg * maxGrDist)%Q in
    if Qle_bool maxDis gridD then st
    else
      let cands := (nd, n) :: cands in
      let gg := openSinkFr gg n 0%Q in
      let gg := openSinkTo gg n 0%Q in
      let '(col, lp) := addCol lp (getStatPosVar gg n nd) BIN
                               (ndMovePen gg (cGeom cg nd) n) in
      let lp := addColToRow lp rowStat col 1 in
      (gg, lp, cands).

Definition statPosStep (st : BaseGraph * Solver * Cands) (nd : CombNode)
  : BaseGraph * Solver * Cands :=
  let '(gg, lp, cands) := st in
  if cDeg cg nd =? 0 then st
  else
    let '(rowStat, lp) := addRow lp (NOneass nd) 1 FIX in
    fold_left (candStep nd rowStat) (getNds gg) (gg, lp, cands).

Definition statPosPhase (st : BaseGraph * Solver * Cands) : BaseGraph * Solver * Cands :=
  fold_left statPosStep (cgNds cg) st.

(* ---------------------------------------------------------------- *)
(** ** Edge use: columns [edg] *)

Definition edgUseCoef (gg : BaseGraph) (e : GridEdge) (edg : CombEdge) : Q :=
  match geoPensMap with
  | Some pens =>
      if negb (isSecondary gg e)
      then (cost INF gg e + pens edg (edgId gg e))%Q
      else cost INF gg e
  | None => cost INF gg e
  end.

Definition edgUseStep (gg : BaseGraph) (cands : Cands) (edg : CombEdge) (n : GridNode)
           (lp : Solver) (e : GridEdge) : Solver :=
  if negb (getFrom gg e =? n) then lp
  else if isInf INF SOFT_INF gg e then lp
  else if isSink gg (getFrom gg e) && negb (candCount cands (cFrom cg edg) (getFrom gg e))
  then lp
  else if isSink gg (getTo gg e) && negb (candCount cands (cTo cg edg) (getTo gg e))
  then lp
  else snd (addCol lp (getEdgUseVar gg e edg) BIN (edgUseCoef gg e edg)).

Definition edgUsePhase (gg : BaseGraph) (cands : Cands) (lp : Solver) : Solver :=
  forCombEdges cg
    (fun lp edg =>
       fold_left (fun lp n => fold_left (edgUseStep gg cands edg n) (getAdjList gg n) lp)
                 (getNds gg) lp)
    lp.

(* ---------------------------------------------------------------- *)
(** ** An edge is used once: rows [ue] *)

Definition uniqueEdgeStep (gg : BaseGraph) (st : Solver * list GridEdge) (e : GridEdge)
  : option (Solver * list GridEdge) :=
  let '(lp, proced) := st in
  if isSecondary gg e then Some st
  else if existsb (Nat.eqb e) proced then Some st
  else
    let f := getEdg gg (getTo gg e) (getFrom gg e) in
    let proced := match f with Some f' => f' :: e :: proced | None => e :: proced end in
    let '(row, lp) := addRow lp (NUe (getId gg (getFrom gg e)) (getId gg (getTo gg e))) 1 UP in
    lp <- forCombEdgesM cg
            (fun lp edg =>
               if isInf INF SOFT_INF gg e then Some lp
               else
                 f' <- f ;;
                 let lp := addIfVar row 1 lp (getEdgUseVar gg e edg) in
                 Some (addIfVar row 1 lp (getEdgUseVar gg f' edg)))
            lp ;;
    Some (lp, proced).

Definition uniqueEdgePhase (gg : BaseGraph) (lp : Solver) : option Solver :=
  st <- foldM (fun st n => foldM (uniqueEdgeStep gg) (getAdjList gg n) st)
              (getNds gg) (lp, []) ;;
  Some (fst st).

(* ---------------------------------------------------------------- *)
(** ** Flow conservation: rows [as] *)

Definition flowRow (gg : BaseGraph) (n : GridNode) (lp : Solver) (edg : CombEdge) : Solver :=
  let '(row, lp) := addRow lp (NAs (getId gg n) edg) 0 UP in
  let inCost := (-1)%Z in
  let outCost := if isSink gg n then 2%Z else 1%Z in
  let lp :=
    if isSink gg n then
      let lp := addIfVar row (-2) lp (getStatPosVar gg n (cFrom cg edg)) in
      addIfVar row 1 lp (getStatPosVar gg n (cTo cg edg))
    else lp in
  let lp := fold_left (fun lp e => addIfVar row inCost lp (getEdgUseVar gg e edg))
                      (getAdjListIn gg n) lp in
  fold_left (fun lp e => addIfVar row outCost lp (getEdgUseVar gg e edg))
            (getAdjListOut gg n) lp.

Definition flowStep (gg : BaseGraph) (lp : Solver) (n : GridNode) : Solver :=
  if nonInfDeg gg n =? 0 then lp
  else forCombEdges cg (flowRow gg n) lp.

Definition flowPhase (gg : BaseGraph) (lp : Solver) : Solver :=
  fold_left (flowStep gg) (getNds gg) lp.

(* ---------------------------------------------------------------- *)
(** ** One sink edge per station use: rows [ss] *)

Definition sinkEdgeRow (gg : BaseGraph) (cands : Cands) (n : GridNode)
           (lp : Solver) (e : CombEdge) : option Solver :=
  let '(row, lp) := addRow lp (NSs (getId gg n) e) 0 FIX in
  let lp :=
    if negb (candCount cands (cFrom cg e) n) && negb (candCount cands (cTo cg e) n)
    then lp
    else
      let lp := if candCount cands (cTo cg e) n
                then addIfVar row (-1) lp (getStatPosVar gg n (cTo cg e)) else lp in
      if candCount cands (cFrom cg e) n
      then addIfVar row (-1) lp (getStatPosVar gg n (cFrom cg e)) else lp in
  foldM (fun lp p =>
           match getPort gg n p with
           | None => Some lp
           | Some portNd =>
               eTo <- getEdg gg portNd n ;;
               eFr <- getEdg gg n portNd ;;
               let lp := addIfVar row 1 lp (getEdgUseVar gg eTo e) in
               Some (addIfVar row 1 lp (getEdgUseVar gg eFr e))
           end)
        (seq 0 (maxDeg gg)) lp.

Definition sinkEdgePhase (gg : BaseGraph) (cands : Cands) (lp : Solver) : option Solver :=
  foldM (fun lp n => if negb (isSink gg n) then Some lp
                     else forCombEdgesM cg (sinkEdgeRow gg cands n) lp)
        (getNds gg) lp.

(* ---------------------------------------------------------------- *)
(** ** Station or pass-through: rows [iu] *)

Definition innerUseRow (gg : BaseGraph) (lp : Solver) (n : GridNode) : option Solver :=
  if negb (isSink gg n) then Some lp
  else
    let '(row, lp) := addRow lp (NIu (getId gg n)) 1 UP in
    let lp := fold_left (fun lp nd => addIfVar row 1 lp (getStatPosVar gg n nd))
                        (cgNds cg) lp in
    foldM (fun lp pf =>
             match getPort gg n pf with
             | None => Some lp
             | Some from =>
                 foldM (fun lp pt =>
                          match getPort gg n pt with
                          | None => Some lp
                          | Some to =>
                              if from =? to then Some lp
                              else
                                forCombEdgesM cg
                                  (fun lp edg =>
                                     innerE <- getEdg gg from to ;;
                                     Some (addIfVar row 1 lp (getEdgUseVar gg innerE edg)))
                                  lp
                          end)
                       (seq 0 (maxDeg gg)) lp
             end)
          (seq 0 (maxDeg gg)) lp.

Definition innerUsePhase (gg : BaseGraph) (lp : Solver) : option Solver :=
  foldM (innerUseRow gg) (getNds gg) lp.

(* ---------------------------------------------------------------- *)
(** ** No crossings: rows [nc] *)

Definition crossRow (gg : BaseGraph) (st : Solver * nat)
           (edgPair : (GridEdge * GridEdge) * (GridEdge * GridEdge)) : Solver * nat :=
  let '(lp, rowId) := st in
  let '(row, lp) := addRow lp (NNc rowId) 1 UP in
  let lp :=
    forCombEdges cg
      (fun lp edg =>
         let lp := addIfVar row 1 lp (getEdgUseVar gg (fst (fst edgPair)) edg) in
         let lp := addIfVar row 1 lp (getEdgUseVar gg (snd (fst edgPair)) edg) in
         let lp := addIfVar row 1 lp (getEdgUseVar gg (fst (snd edgPair)) edg) in
         addIfVar row 1 lp (getEdgUseVar gg (snd (snd edgPair)) edg))
      lp in
  (lp, S rowId).

Definition crossPhase (gg : BaseGraph) (lp : Solver) : Solver :=
  fst (fold_left (crossRow gg) (getCrossEdgPairs gg) (lp, 0)).

(* ---------------------------------------------------------------- *)
(** ** Directions: columns [d], rows [dc] *)

Definition dirPorts (gg : BaseGraph) (nd : CombNode) (edg : CombEdge) (row : nat)
           (lp : Solver) (n : GridNode) : option Solver :=
  if negb (isSink gg n) then Some lp
  else
    match getVarByName lp (getStatPosVar gg n nd) with
    | None => Some lp
    | Some _ =>
        foldM (fun lp i =>
                 match getPort gg n i with
                 | None => Some lp
                 | Some portNd =>
                     e <- (if cFrom cg edg =? nd then getEdg gg n portNd
                           else getEdg gg portNd n) ;;
                     Some (addIfVar row (Z.of_nat i) lp (getEdgUseVar gg e edg))
                 end)
              (seq 1 (maxDeg gg - 1)) lp
    end.

Definition dirRow (gg : BaseGraph) (nd : CombNode) (lp : Solver) (edg : CombEdge)
  : option Solver :=
  let '(col, lp) := addColB lp (NDir nd edg) INT 0%Q
                            (Some (0%Z, Z.of_nat (maxDeg gg - 1))) in
  let '(row, lp) := addRow lp (NDc nd edg) 0 FIX in
  let lp := addColToRow lp row col (-1) in
  foldM (dirPorts gg nd edg row) (getNds gg) lp.

Definition dirPhase (gg : BaseGraph) (lp : Solver) : option Solver :=
  foldM (fun lp nd => if cDeg cg nd <? 2 then Some lp
                      else foldM (dirRow gg nd) (cAdjList cg nd) lp)
        (cgNds cg) lp.

(* ---------------------------------------------------------------- *)
(** ** Circular ordering: columns [vuln], rows [vc] and [oc] *)

(** [edgA] of round [i]: the last element for [i = 0], else element [i - 1]. *)
Definition orderPred (order : list CombEdge) (i : nat) : option CombEdge :=
  match i with
  | 0 => nth_error order (length order - 1)
  | S i' => nth_error order i'
  end.

Definition orderRow (gg : BaseGraph) (nd : CombNode) (order : list CombEdge)
           (lp : Solver) (i : nat) : option Solver :=
  edgA <- orderPred order i ;;
  edgB <- nth_error order i ;;
  if edgA =? edgB then None
  else
    colA <- getVarByName lp (NDir nd edgA) ;;
    colB <- getVarByName lp (NDir nd edgB) ;;
    let '(row, lp) := addRow lp (NOc nd i) 1 LO in
    vulnCol <- getVarByName lp (NVuln nd i) ;;
    let lp := addColToRow lp row colB 1 in
    let lp := addColToRow lp row colA (-1) in
    Some (addColToRow lp row vulnCol (Z.of_nat (maxDeg gg))).

Definition vulnCol (nd : CombNode) (vulnRow : nat) (lp : Solver) (i : nat) : Solver :=
  let '(col, lp) := addCol lp (NVuln nd i) BIN 0%Q in
  addColToRow lp vulnRow col 1.

Definition orderStep (gg : BaseGraph) (lp : Solver) (nd : CombNode) : option Solver :=
  if cDeg cg nd <? 3 then Some lp
  else
    let '(vulnRow, lp) := addRow lp (NVc nd) 1 FIX in
    let lp := fold_left (vulnCol nd vulnRow) (seq 0 (cDeg cg nd)) lp in
    let lp := update lp in
    let order := cOrder cg nd in
    if negb (2 <? length order) then None
    else foldM (orderRow gg nd order) (seq 0 (length order)) lp.

Definition orderPhase (gg : BaseGraph) (lp : Solver) : option Solver :=
  foldM (orderStep gg) (cgNds cg) lp.

(* ---------------------------------------------------------------- *)
(** ** Bend angles: columns [negdist] and [d<k>], rows [nc..lo/up], [ac], [asc] *)

(** Round [k] of the bucket loop: the index [pp] into [pens] and whether the
    name carries a prime. *)
Definition bucketIdx (m k : nat) : nat * bool :=
  if m <=? k then (k + 1 - m, true) else (m - 1 - k, false).

Definition bucketStep (pens : list Q) (edgA edgB : CombEdge) (rowAng rowSum : nat)
           (lp : Solver) (k : nat) : option Solver :=
  let '(pp, primed) := bucketIdx (length pens) k in
  pen <- nth_error pens pp ;;
  let '(col, lp) := addCol lp (NBucket primed pp edgA edgB) BIN pen in
  let lp := addColToRow lp rowAng col (- (Z.of_nat k + 1)) in
  Some (addColToRow lp rowSum col 1).

Definition anglePair (gg : BaseGraph) (nd : CombNode) (edgA : CombEdge)
           (lp : Solver) (edgB : CombEdge) : option Solver :=
  if edgA =? edgB then None
  else if sharedLines cg edgA edgB =? 0 then Some lp
  else
    let md := Z.of_nat (maxDeg gg) in
    let '(colNeg, lp) := addCol lp (NNegdist edgA edgB) BIN 0%Q in
    let '(row1, lp) := addRow lp (NNcLo edgA edgB) 0 LO in
    let '(row2, lp) := addRow lp (NNcUp edgA edgB) (Z.of_nat (maxDeg gg - 1)) UP in
    colA <- getVarByName lp (NDir nd edgA) ;;
    let lp := addColToRow lp row1 colA 1 in
    let lp := addColToRow lp row2 colA 1 in
    colB <- getVarByName lp (NDir nd edgB) ;;
    let lp := addColToRow lp row1 colB (-1) in
    let lp := addColToRow lp row2 colB (-1) in
    let lp := addColToRow lp row1 colNeg md in
    let lp := addColToRow lp row2 colNeg md in
    let '(rowAng, lp) := addRow lp (NAc edgA edgB) 0 FIX in
    let lp := addColToRow lp rowAng colA 1 in
    let lp := addColToRow lp rowAng colB (-1) in
    let lp := addColToRow lp rowAng colNeg md in
    let '(rowSum, lp) := addRow lp (NAsc edgA edgB) 1 UP in
    foldM (bucketStep (getCosts gg) edgA edgB rowAng rowSum)
          (seq 0 (maxDeg gg - 1)) lp.

(** The pairs [(adj[i], adj[j])], [i < j], of one node, row by row. *)
Fixpoint angleNode (gg : BaseGraph) (nd : CombNode) (adj : list CombEdge) (lp : Solver)
  : option Solver :=
  match adj with
  | [] => Some lp
  | edgA :: rest =>
      lp <- foldM (anglePair gg nd edgA) rest lp ;;
      angleNode gg nd rest lp
  end.

Definition anglePhase (gg : BaseGraph) (lp : Solver) : option Solver :=
  foldM (fun lp nd => angleNode gg nd (cAdjList cg nd) lp) (cgNds cg) lp.

(* ---------------------------------------------------------------- *)
(** ** The whole model *)

Definition createProblem (gg : BaseGraph) : option (BaseGraph * Solver) :=
  let lp := emptySolver in
  let '(gg, lp, cands) := statPosPhase (gg, lp, []) in
  let lp := edgUsePhase gg cands lp in
  let lp := update lp in
  lp <- uniqueEdgePhase gg lp ;;
  let lp := flowPhase gg lp in
  let lp := update lp in
  lp <- sinkEdgePhase gg cands lp ;;
  lp <- innerUsePhase gg lp ;;
  let lp := update lp in
  let lp := crossPhase gg lp in
  let lp := update lp in
  lp <- dirPhase gg lp ;;
  let lp := update lp in
  lp <- orderPhase gg lp ;;
  let lp := update lp in
  lp <- anglePhase gg lp ;;
  let lp := update lp in
  Some (gg, lp).

End CreateProblem.

End ILP.

(* ================================================================== *)
(** * The octilinear Hanan graph behind the base graph interface *)

Module Impl.

Import Vec OctiHanan Grid.

Definition nodeAt (g : Graph) (n : nat) : GridNodePL :=
  nth n (nodes g) (blankNode (0%Q, 0%Q)).

Definition edgeAt (g : Graph) (e : nat) : OctiHanan.GridEdge :=
  nth e (edges g) (mkGridEdge 0 0 (mkGridEdgePL 0%Q false false 0)).

(** Positions in the edge arena of the edges that satisfy [p]. *)
Definition edgeIdxs (g : Graph) (p : OctiHanan.GridEdge -> bool) : list nat :=
  filter (fun e => p (edgeAt g e)) (seq 0 (length (edges g))).

(** An arena graph read through the interface: node and edge pointers are
    arena positions, [getAdjList] lists the outgoing edges, the degree of a
    node is their number, and every edge starts open and unblocked.
    [getCrossEdgPairs()] reads [_edgePairs] through [getNEdg] and [getDir],
    which are not all among the sources: the list it returns is passed in as
    [crossPairs]. *)
Definition toBaseGraph (dist : Q * Q -> Q * Q -> Q) (g : Graph)
           (crossPairs : list ((Grid.GridEdge * Grid.GridEdge) * (Grid.GridEdge * Grid.GridEdge)))
  : BaseGraph :=
  mkBaseGraph
    (seq 0 (length (nodes g)))
    (fun n => ndSink (nodeAt g n))
    (fun n => ndId (nodeAt g n))
    (fun n => length (edgeIdxs g (fun e => eFrom e =? n)))
    (fun n => ndPos (nodeAt g n))
    (OctiHanan.getPort g)
    (fun n => edgeIdxs g (fun e => eFrom e =? n))
    (fun n => edgeIdxs g (fun e => eTo e =? n))
    (fun n => edgeIdxs g (fun e => eFrom e =? n))
    (fun e => eFrom (edgeAt g e))
    (fun e => eTo (edgeAt g e))
    (fun e => plSecondary (ePl (edgeAt g e)))
    (fun e => plId (ePl (edgeAt g e)))
    (fun a b => match edgeIdxs g (edgeIs a b) with e :: _ => Some e | [] => None end)
    (fun e => mkEdgeSt (plCost (ePl (edgeAt g e))) false false)
    (cellSize g)
    OctiHanan.maxDeg
    [bendCosts g 0; bendCosts g 1; bendCosts g 2; bendCosts g 3]
    crossPairs
    (fun cb n => OctiHanan.ndMovePen dist g cb (ndPos (nodeAt g n))).

End Impl.

(* ================================================================== *)
(** * OctiHananGraph: node index, neighbours, major edges, Hanan iterations *)

Module Hanan.

Import MachInt Vec OctiHanan ILP.

(** The graph together with its neighbour table [_neighs] (eight slots per
    entry of [_nds], a null pointer being [None]) and [_heurHopCost].  A read
    or write past the end of a vector and a call through a null pointer have
    no defined result: [None]. *)
Record HananGraph := mkHananGraph {
  hg : Graph;
  neighs : list (option nat);
  heurHopCost : Q
}.

(** [OctiHananGraph::getNode(x, y)] *)
Definition getNode (g : Graph) (x y : nat) : option (option nat) :=
  a <- nth_error (ndIdx g) (x * yHeight g + y) ;;
  if a =? 0 then Some None
  else n <- nth_error (ndsVec g) (a - 1) ;; Some (Some n).

(** [OctiHananGraph::neigh(cx, cy, i)] *)
Definition neigh (h : HananGraph) (cx cy i : nat) : option (option nat) :=
  a <- nth_error (ndIdx (hg h)) (cx * yHeight (hg h) + cy) ;;
  if a =? 0 then Some None
  else if 7 <? i then n <- nth_error (ndsVec (hg h)) (a - 1) ;; Some (Some n)
  else nth_error (neighs h) (a - 1 + i).

(** [(p + maxDeg() / 2) % maxDeg()] *)
Definition oppPort (p : nat) : nat := (p + maxDeg / 2) mod maxDeg.

(** [_neighs[i] = v] *)
Definition setNeigh (l : list (option nat)) (i v : nat) : option (list (option nat)) :=
  if i <? length l then Some (upd l i (fun _ => Some v)) else None.

(** [n->pl().getPort(p)] on the payload of a node. *)
Definition portOf (pl : GridNodePL) (p : nat) : option nat := nth p (ndPorts pl) None.

(** [OctiHananGraph::connectNodes(grNdFr, grNdTo, p)]: the pair of major
    edges between port [p] of the first and the opposite port of the second
    node, and the two entries of the neighbour table. *)
Definition connectNodes (h : HananGraph) (grNdFr grNdTo : option nat) (p : nat)
  : option HananGraph :=
  match grNdFr, grNdTo with
  | None, _ => Some h
  | _, None => Some h
  | Some a, Some b =>
      if a =? b then Some h
      else
        plA <- nth_error (nodes (hg h)) a ;;
        plB <- nth_error (nodes (hg h)) b ;;
        fr <- portOf plA p ;;
        to <- portOf plB (oppPort p) ;;
        let g := addEdgId (hg h) fr to 9%Q false false in
        ns <- setNeigh (neighs h) (ndId plA + p) b ;;
        ns <- setNeigh ns (ndId plB + oppPort p) a ;;
        let g := addEdgId g to fr 9%Q false false in
        Some (mkHananGraph g ns (heurHopCost h))
  end.

(* ------------------------------------------------------------------ *)
(** ** [writeInitialCosts] *)

Definition setCost (c : Q) (e : GridEdge) : GridEdge :=
  mkGridEdge (eFrom e) (eTo e)
             (mkGridEdgePL c (plSecondary (ePl e)) (plSinkFlag (ePl e)) (plId (ePl e))).

(** [getEdg(fr, to)->pl().setCost(c)] *)
Fixpoint setEdgCost (fr to : nat) (c : Q) (es : list GridEdge) : option (list GridEdge) :=
  match es with
  | [] => None
  | e :: es' =>
      if edgeIs fr to e then Some (setCost c e :: es')
      else es'' <- setEdgCost fr to c es' ;; Some (e :: es'')
  end.

(** [labs((int) a - (int) b)] *)
Definition cellDist (a b : nat) : Z :=
  Z.abs (to_int (Z.of_nat a) - to_int (Z.of_nat b)).

(** The cost of the major edge that leaves through port [p]. *)
Definition initialCost (c : Penalties) (hop : Q) (p : nat) (xDist yDist : Z) : Q :=
  if p mod 4 =? 0 then ((verticalPen c + hop) * inject_Z yDist - hop)%Q
  else if (p + 2) mod 4 =? 0 then ((horizontalPen c + hop) * inject_Z xDist - hop)%Q
  else if negb (p mod 2 =? 0) then ((diagonalPen c + hop) * inject_Z yDist - hop)%Q
  else 0%Q.

(** The body of the port loop for port [p] of the sink [n]. *)
Definition writePortCost (n : nat) (h : HananGraph) (p : nat) : option HananGraph :=
  pl <- nth_error (nodes (hg h)) n ;;
  let port := portOf pl p in
  neighbor <- neigh h (ndX pl) (ndY pl) p ;;
  match neighbor, port with
  | Some m, Some q =>
      plM <- nth_error (nodes (hg h)) m ;;
      oPort <- portOf plM (oppPort p) ;;
      let xDist := cellDist (ndX pl) (ndX plM) in
      let yDist := cellDist (ndY pl) (ndY plM) in
      es <- setEdgCost q oPort (initialCost (pens (hg h)) (heurHopCost h) p xDist yDist)
                       (edges (hg h)) ;;
      Some (mkHananGraph (setEdges (hg h) es (edgeCount (hg h))) (neighs h) (heurHopCost h))
  | _, _ => Some h
  end.

(** [OctiHananGraph::writeInitialCosts()], the nodes taken in arena order. *)
Definition writeInitialCosts (h : HananGraph) : option HananGraph :=
  foldM (fun h n =>
           pl <- nth_error (nodes (hg h)) n ;;
           if negb (ndSink pl) then Some h
           else foldM (writePortCost n) (seq 0 maxDeg) h)
        (seq 0 (length (nodes (hg h)))) h.

(* ------------------------------------------------------------------ *)
(** ** [getIterCoords] *)

Definition Coord : Type := nat * nat.

Definition coordLt (a b : Coord) : bool :=
  (fst a <? fst b) || ((fst a =? fst b) && (snd a <? snd b)).

Definition coordEqb (a b : Coord) : bool :=
  (fst a =? fst b) && (snd a =? snd b).

(** [std::set<std::pair<size_t, size_t>>]: the elements in increasing order. *)
Fixpoint setInsert (c : Coord) (s : list Coord) : list Coord :=
  match s with
  | [] => [c]
  | d :: s' =>
      if coordLt c d then c :: s
      else if coordEqb c d then s
      else d :: setInsert c s'
  end.

Definition setCount (c : Coord) (s : list Coord) : bool := existsb (coordEqb c) s.

(** [v[i].push_back(c)] and [v[i].size()] on a vector of vectors. *)
Definition pushAt (v : list (list Coord)) (i : nat) (c : Coord) : option (list (list Coord)) :=
  if i <? length v then Some (upd v i (fun l => l ++ [c])) else None.

Definition sizeAt (v : list (list Coord)) (i : nat) : option nat :=
  l <- nth_error v i ;; Some (length l).

(** The first loop nest of the second half: the crossings of the used
    columns with the used rows. *)
Definition hananCell (x : nat) (st : list Coord * list (list Coord) * list (list Coord))
           (y : nat) : option (list Coord * list (list Coord) * list (list Coord)) :=
  let '(ret, yAct, xAct) := st in
  sy <- sizeAt yAct y ;;
  if sy =? 0 then Some st
  else if setCount (x, y) ret then Some st
  else
    let ret := setInsert (x, y) ret in
    yAct <- pushAt yAct y (x, y) ;;
    xAct <- pushAt xAct x (x, y) ;;
    Some (ret, yAct, xAct).

Definition hananCol (H : nat) (st : list Coord * list (list Coord) * list (list Coord))
           (x : nat) : option (list Coord * list (list Coord) * list (list Coord)) :=
  sx <- sizeAt (snd st) x ;;
  if sx =? 0 then Some st
  else foldM (hananCell x) (seq 0 H) st.

(** The second loop nest: cells on a used diagonal that meet another used
    line.  All four reads are in range for [x] below the width and [y] below
    the height. *)
Definition diagCell (H : nat) (yAct xAct xyAct yxAct : list (list Coord)) (x : nat)
           (ret : list Coord) (y : nat) : option (list Coord) :=
  let xi := x + (H - 1 - y) in
  let yi := y + x in
  sxy <- sizeAt xyAct xi ;;
  syx <- sizeAt yxAct yi ;;
  sy <- sizeAt yAct y ;;
  sx <- sizeAt xAct x ;;
  let nz := fun k => negb (k =? 0) in
  if (nz sxy && (nz syx || nz sy || nz sx)) || (nz syx && (nz sxy || nz sy || nz sx))
  then Some (if negb (setCount (x, y) ret) then setInsert (x, y) ret else ret)
  else Some ret.

(** [OctiHananGraph::getIterCoords(inCoords)] on a grid of [W] columns and
    [H] rows; [inCoords] is listed in the order of the set. *)
Definition getIterCoords (W H : nat) (inCoords : list Coord) : option (list Coord) :=
  let xSorted := inCoords in
  yAct <- foldM (fun v c => pushAt v (snd c) c) xSorted (repeat [] H) ;;
  xAct <- foldM (fun v c => pushAt v (fst c) c) xSorted (repeat [] W) ;;
  xyAct <- foldM (fun v c => pushAt v (fst c + (H - 1 - snd c)) c) xSorted
                 (repeat [] (W + H)) ;;
  yxAct <- foldM (fun v c => pushAt v (snd c + fst c) c) xSorted (repeat [] (W + H)) ;;
  st <- foldM (hananCol H) (seq 0 W) ([], yAct, xAct) ;;
  let '(ret, yAct, xAct) := st in
  foldM (fun ret x => foldM (diagCell H yAct xAct xyAct yxAct x) (seq 0 H) ret)
        (seq 0 W) ret.

(* ------------------------------------------------------------------ *)
(** ** The steps of [init] *)

(** The grid [init] starts from: no nodes, no edges, the index as
    [_ndIdx.resize(width * height)] makes it, and a width and a height that
    are [size_t] values. *)
Definition emptyGrid (g : Graph) : Prop :=
  nodes g = [] /\ edges g = [] /\ ndsVec g = [] /\
  ndIdx g = repeat 0 (xWidth g * yHeight g) /\
  (Z.of_nat (xWidth g) < size_t_mod)%Z /\ (Z.of_nat (yHeight g) < size_t_mod)%Z.

Section Init.

Variable INF : Q.

(** [prunePorts()], which [init] calls between the last [connectNodes] and
    [writeInitialCosts], is not among the sources: it is a parameter. *)
Variable prunePorts : HananGraph -> option HananGraph.

(** The loop "write nodes" and the two loop nests after it: calls of
    [writeNd] for cells that have no node yet (the cells of the first loop
    are the elements of a set, the later loops ask [getNode] first). *)
Inductive Written (g0 : Graph) : Graph -> Prop :=
| written_none : Written g0 g0
| written_cell (g : Graph) (x y : nat) (g' : Graph) (n : nat) :
    Written g0 g ->
    getNode g x y = Some None ->
    writeNd INF g x y = Some (g', n) ->
    Written g0 g'.

(** [_neighs.resize(_nds.size() * 8)] and the calls of [connectNodes] that
    follow it; [init] passes the directions 2, 0, 1 and 3. *)
Inductive Connected (g0 : Graph) (hop : Q) : HananGraph -> Prop :=
| connected_none (g : Graph) :
    Written g0 g ->
    Connected g0 hop (mkHananGraph g (repeat None (length (ndsVec g) * 8)) hop)
| connected_pair (h : HananGraph) (a b : option nat) (p : nat) (h' : HananGraph) :
    Connected g0 hop h ->
    p < 4 ->
    connectNodes h a b p = Some h' ->
    Connected g0 hop h'.

(** The grid when [init] returns: at once if there is no cell, else after
    [prunePorts] and [writeInitialCosts]. *)
Inductive Built (g0 : Graph) (hop : Q) : HananGraph -> Prop :=
| built_empty (ns : list (option nat)) : Built g0 hop (mkHananGraph g0 ns hop)
| built_costs (h h1 h' : HananGraph) :
    Connected g0 hop h ->
    prunePorts h = Some h1 ->
    writeInitialCosts h1 = Some h' ->
    Built g0 hop h'.

End Init.

End Hanan.

(* ================================================================== *)
(** * [ILPGridOptimizer::extractFeasibleSol] *)

Module Starter.

Import Names LP Grid Comb ILP.

(** [StarterSol]: a map from variable names to values. *)
Definition StarterSol : Type := Name -> option Q.

Definition emptySol : StarterSol := fun _ => None.

(** [sol[varName] = v]: a new entry, or a new value for the entry. *)
Definition setSol (sol : StarterSol) (nm : Name) (v : Q) : StarterSol :=
  fun k => if name_eqb k nm then Some v else sol k.

Section ExtractFeasibleSol.

(** [util::geo::dist] *)
Variable dist : Q * Q -> Q * Q -> Q.

Variable cg : CombGraph.
Variable maxGrDist : Q.
Variable gg : BaseGraph.

(** [gg->getSettled(nd)], a null pointer being [None]. *)
Variable getSettled : CombNode -> option GridNode.

(** [d->getEdgPaths()]: per comb edge the ids of the grid edges of its path. *)
Variable getEdgPaths : list (CombEdge * list (nat * nat)).

(** [gg->getGrEdgById(xy)], a null pointer being [None]. *)
Variable getGrEdgById : nat * nat -> option GridEdge.

(** [for (cEdg : nd->getAdjList()) { if (cEdg->getFrom() != nd) continue;
     sol[getEdgUseVar(e, cEdg)] = 0; }] *)
Definition zeroEdg (nd : CombNode) (e : GridEdge) (sol : StarterSol) : StarterSol :=
  fold_left (fun sol cEdg =>
               if (cFrom cg cEdg =? nd)%nat then setSol sol (getEdgUseVar gg e cEdg) 0%Q
               else sol)
            (cAdjList cg nd) sol.

(** The settled sink: the bend edges at its ports are unused. *)
Definition settledPorts (nd : CombNode) (gnd : GridNode) (sol : StarterSol) : StarterSol :=
  fold_left (fun sol p =>
               match getPort gg gnd p with
               | None => sol
               | Some portNd =>
                   fold_left (fun sol bendEdg =>
                                if negb (isSecondary gg bendEdg) then sol
                                else zeroEdg nd bendEdg sol)
                             (getAdjList gg portNd) sol
               end)
            (seq 0 (maxDeg gg)) sol.

(** Any other sink in reach: its sink edges, which the code asserts to be
    secondary, are unused. *)
Definition unsettledSink (nd : CombNode) (gnd : GridNode) (sol : StarterSol)
  : option StarterSol :=
  foldM (fun sol sinkEdg =>
           if isSecondary gg sinkEdg then Some (zeroEdg nd sinkEdg sol) else None)
        (getAdjList gg gnd) sol.

(** The body of the loop over the grid nodes, for the comb node [nd]. *)
Definition statStep (nd : CombNode) (settled : option GridNode) (sol : StarterSol)
           (gnd : GridNode) : option StarterSol :=
  if negb (isSink gg gnd) then Some sol
  else if Qle_bool (getCellSize gg * maxGrDist)%Q (dist (cGeom cg nd) (getGeom gg gnd))
  then Some sol
  else if match settled with Some s => (gnd =? s)%nat | None => false end
  then Some (settledPorts nd gnd (setSol sol (getStatPosVar gg gnd nd) 1%Q))
  else unsettledSink nd gnd (setSol sol (getStatPosVar gg gnd nd) 0%Q).

Definition statPhase (sol : StarterSol) : option StarterSol :=
  foldM (fun sol nd =>
           if (cDeg cg nd =? 0)%nat then Some sol
           else foldM (statStep nd (getSettled nd)) (getNds gg) sol)
        (cgNds cg) sol.

(** "init edge use vars to 0" *)
Definition initPhase (sol : StarterSol) : StarterSol :=
  fold_left (fun sol grNd =>
               fold_left (fun sol grEdg =>
                            if isSecondary gg grEdg then sol
                            else forCombEdges cg
                                   (fun sol cEdg => setSol sol (getEdgUseVar gg grEdg cEdg) 0%Q)
                                   sol)
                         (getAdjListOut gg grNd) sol)
            (getNds gg) sol.

(** "write edge use vars from heuristic solution" *)
Definition pathPhase (sol : StarterSol) : option StarterSol :=
  foldM (fun sol a =>
           foldM (fun sol xy =>
                    grEdg <- getGrEdgById xy ;;
                    Some (setSol sol (getEdgUseVar gg grEdg (fst a)) 1%Q))
                 (snd a) sol)
        getEdgPaths sol.

(** [ILPGridOptimizer::extractFeasibleSol(d, gg, cg, maxGrDist)] *)
Definition extractFeasibleSol : option StarterSol :=
  sol <- statPhase emptySol ;;
  pathPhase (initPhase sol).

End ExtractFeasibleSol.

End Starter.

(* ================================================================== *)
(** * Small instances *)

Module Demo.

Import Names LP Grid Comb ILP OctiHanan Impl.

(** The distance of two points on a common axis-parallel line. *)
Definition distOnAxis (a b : Q * Q) : Q :=
  (Qabs (fst a - fst b) + Qabs (snd a - snd b))%Q.

(** Bend penalties 0, 1, 2, 3 for the angles 0 .. 3. *)
Definition bc (k : nat) : Q :=
  match k with
  | 0 => 0%Q | 1 => 1%Q | 2 => 2%Q | 3 => 3%Q | _ => 0%Q
  end.

(** A 3 x 3 grid without nodes, cell size 10, vertical and horizontal
    penalty 1, diagonal penalty 3/2. *)
Definition g0 : Graph :=
  mkGraph [] [] [] (repeat 0 9) 0 3 3 10%Q 1%Q (0%Q, 0%Q) bc
          (mkPenalties 1%Q 1%Q (3 # 2)%Q).

Definition withPens (v h d : Q) : Graph :=
  mkGraph [] [] [] [] 0 3 3 10%Q 1%Q (0%Q, 0%Q) bc (mkPenalties v h d).

(** [INF] and [SOFT_INF] of the instances. *)
Definition dINF : Q := 1000%Q.
Definition dSOFT_INF : Q := 500%Q.

(** Two sinks, in the cells (0, 0) and (1, 0), joined by a pair of major
    edges between port 2 of the first (node 3) and port 6 of the second
    (node 16). *)
Definition written (g : Graph) (x y : nat) : Graph :=
  match writeNd dINF g x y with
  | Some (g', _) => g'
  | None => g
  end.

Definition g2 : Graph := written (written g0 0 0) 1 0.

Definition g3 : Graph :=
  addEdgId (addEdgId g2 3 16 1%Q false false) 16 3 1%Q false false.

(** No sink of [g3] has a diagonal neighbour: there are no crossing pairs. *)
Definition bgDemo : BaseGraph := toBaseGraph distOnAxis g3 [].

(** A star: the centre at address 100 in cell (0, 0), three leaves at the
    addresses 200, 300, 400 in cell (1, 0), the edges 501, 502, 503 from the
    centre to the leaves, all on line 1. *)
Definition cgStar : CombGraph :=
  mkCombGraph
    [100; 200; 300; 400]
    (fun nd => match nd with
               | 100 => [501; 502; 503]
               | 200 => [501] | 300 => [502] | 400 => [503]
               | _ => []
               end)
    (fun _ => 100)
    (fun e => match e with 501 => 200 | 502 => 300 | _ => 400 end)
    (fun nd => match nd with 100 => (0%Q, 0%Q) | _ => (10%Q, 0%Q) end)
    (fun nd => match nd with
               | 100 => [501; 502; 503]
               | 200 => [501] | 300 => [502] | 400 => [503]
               | _ => []
               end)
    (fun _ => [1]).

(** The same star with every node and edge placed 4096 addresses higher. *)
Definition cgStarMoved : CombGraph :=
  mkCombGraph
    (map (Nat.add 4096) (cgNds cgStar))
    (fun nd => map (Nat.add 4096) (cAdjList cgStar (nd - 4096)))
    (fun e => 4096 + cFrom cgStar (e - 4096))
    (fun e => 4096 + cTo cgStar (e - 4096))
    (fun nd => cGeom cgStar (nd - 4096))
    (fun nd => map (Nat.add 4096) (cOrder cgStar (nd - 4096)))
    (fun e => cLines cgStar (e - 4096)).

(** The model of the star on the two-sink grid; every sink within 5 cells is
    a candidate. *)
Definition demoRun : option (BaseGraph * Solver) :=
  createProblem dINF dSOFT_INF distOnAxis cgStar None 5%Q bgDemo.

Definition demoGG : BaseGraph :=
  match demoRun with Some (gg, _) => gg | None => bgDemo end.

Definition demoLP : Solver :=
  match demoRun with Some (_, lp) => lp | None => emptySolver end.

Definition isSome {A} (o : option A) : bool :=
  match o with Some _ => true | None => false end.

End Demo.

(* ================================================================== *)
(** * Small instances of the Hanan graph *)

Module HananDemo.

Import OctiHanan Hanan Demo.

(** The two sinks of [g2] (arena slots 0 and 9, cells (0, 0) and (1, 0))
    before they are connected, with an empty neighbour table of eight slots
    per node. *)
Definition hDemo : HananGraph := mkHananGraph g2 (repeat None 144) 0%Q.

End HananDemo.

(* ================================================================== *)
(** * An instance with a pair of crossing edges *)

Module CrossDemo.

Import LP Grid Comb ILP Demo.

(** The grid of [bgDemo] with a list of crossing pairs that names the two
    major edges (the edges 144 and 145 of the arena) in both orders. *)
Definition bgCross : BaseGraph :=
  Impl.toBaseGraph distOnAxis g3 [((144, 145), (145, 144))].

Definition crossRun : option (BaseGraph * Solver) :=
  createProblem dINF dSOFT_INF distOnAxis cgStar None 5%Q bgCross.

Definition crossGG : BaseGraph :=
  match crossRun with Some (gg, _) => gg | None => bgCross end.

Definition crossLP : Solver :=
  match crossRun with Some (_, lp) => lp | None => emptySolver end.

End CrossDemo.

(* ================================================================== *)
(** * A starting solution for the small star *)

Module StarterDemo.

Import Names LP Grid Comb ILP Starter Demo.

(** The centre settled on the first sink, the leaves on the second. *)
Definition demoSettled (nd : CombNode) : option GridNode :=
  if (nd =? 100)%nat then Some 0 else Some 9.

(** Every edge of the star drawn along the major edge from port 2 of the
    first sink to port 6 of the second. *)
Definition demoPaths : list (CombEdge * list (nat * nat)) :=
  [(501, [(3, 16)]); (502, [(3, 16)]); (503, [(3, 16)])].

Definition demoEdgById (xy : nat * nat) : option GridEdge :=
  getEdg bgDemo (fst xy) (snd xy).

Definition demoStarter : option StarterSol :=
  extractFeasibleSol distOnAxis cgStar 5%Q bgDemo demoSettled demoPaths demoEdgById.

Definition demoSol : StarterSol :=
  match demoStarter with Some sol => sol | None => emptySol end.

End StarterDemo.

(* ================================================================== *)
(** * Grids as [init] builds them *)

Module BuiltDemo.

Import OctiHanan Hanan ILP Demo.

(** The payload of a sink in the middle cell when it is the first node of
    the arena, and of one in the cell (0, 1). *)
Definition sinkMid : GridNodePL :=
  mkGridNodePL 0 true 1 1 (Some 0)
               [Some 1; Some 2; Some 3; Some 4; Some 5; Some 6; Some 7; Some 8]
               (10%Q, 10%Q).

Definition sinkLeft : GridNodePL :=
  mkGridNodePL 0 true 0 1 (Some 0)
               [Some 1; Some 2; Some 3; Some 4; Some 5; Some 6; Some 7; Some 8]
               (0%Q, 10%Q).

(** A [prunePorts] that removes nothing. *)
Definition noPrune (h : HananGraph) : option HananGraph := Some h.

(** One sink, in the middle cell of the 3 x 3 grid; no neighbours, so
    [writeInitialCosts] finds nothing to write. *)
Definition hMid : HananGraph :=
  mkHananGraph (written g0 1 1) (repeat None 72) 1%Q.

(** One sink, in the cell (0, 1) on the left border. *)
Definition hLeft : HananGraph :=
  mkHananGraph (written g0 0 1) (repeat None 72) 1%Q.

(** Two sinks, in the cells (1, 1) and (1, 2) ... *)
Definition hPairStart : HananGraph :=
  mkHananGraph (written (written g0 1 1) 1 2) (repeat None 144) 1%Q.

(** ... joined along direction 0, *)
Definition hPairConn : HananGraph :=
  match connectNodes hPairStart (Some 0) (Some 9) 0 with
  | Some h => h
  | None => hPairStart
  end.

(** ... and the costs of the major edges written. *)
Definition hPair : HananGraph :=
  match writeInitialCosts hPairConn with
  | Some h => h
  | None => hPairConn
  end.

End BuiltDemo.

(* ================================================================== *)
(** * Properties of the port angle *)

Module AngFacts.

Import MachInt Ang.
Local Open Scope Z_scope.

Definition ports : list Z := [0; 1; 2; 3; 4; 5; 6; 7].

Lemma port_cases (i : Z) : 0 <= i < 8 -> In i ports.
Proof.
  intros H. unfold ports. simpl.
  assert (i = 0 \/ i = 1 \/ i = 2 \/ i = 3 \/ i = 4 \/ i = 5 \/ i = 6 \/ i = 7) by lia.
  intuition.
Qed.

(** A property of all pairs of ports is settled by running through the table. *)
Lemma forall_ports (P : Z -> Z -> bool) :
  forallb (fun i => forallb (P i) ports) ports = true ->
  forall i j, 0 <= i < 8 -> 0 <= j < 8 -> P i j = true.
Proof.
  intros H i j Hi Hj.
  rewrite forallb_forall in H.
  specialize (H i (port_cases Hi)).
  rewrite forallb_forall in H.
  exact (H j (port_cases Hj)).
Qed.

Definition opt_eqb (a b : option Z) : bool :=
  match a, b with
  | Some x, Some y => x =? y
  | None, None => true
  | _, _ => false
  end.

Lemma opt_eqb_eq a b : opt_eqb a b = true -> a = b.
Proof.
  destruct a, b; simpl; try discriminate; auto.
  intros H. apply Z.eqb_eq in H. now subst.
Qed.

Lemma angDeg_angWrap i j : 0 <= i < 8 -> 0 <= j < 8 -> angDeg i j = angWrap i j.
Proof.
  intros Hi Hj. apply Z.eqb_eq.
  revert i j Hi Hj.
  apply (forall_ports (fun i j => angDeg i j =? angWrap i j)).
  vm_compute. reflexivity.
Qed.

Lemma ang_sym i j : 0 <= i < 8 -> 0 <= j < 8 -> ang i j = ang j i.
Proof.
  intros Hi Hj. apply opt_eqb_eq.
  revert i j Hi Hj.
  apply (forall_ports (fun i j => opt_eqb (ang i j) (ang j i))).
  vm_compute. reflexivity.
Qed.

Lemma angWrap_range i j : 0 <= i < 8 -> 0 <= j < 8 -> 0 <= angWrap i j <= 3.
Proof.
  intros Hi Hj.
  assert (H : ((0 <=? angWrap i j) && (angWrap i j <=? 3))%bool = true).
  { revert i j Hi Hj.
    apply (forall_ports (fun i j => ((0 <=? angWrap i j) && (angWrap i j <=? 3))%bool)).
    vm_compute. reflexivity. }
  apply andb_true_iff in H. destruct H as [H1 H2].
  apply Z.leb_le in H1. apply Z.leb_le in H2. lia.
Qed.

Lemma angWrap_opposite i j :
  0 <= i < 8 -> 0 <= j < 8 -> Z.abs (i - j) = 4 -> angWrap i j = 0.
Proof.
  intros Hi Hj Ho.
  assert (H : (negb (Z.abs (i - j) =? 4) || (angWrap i j =? 0))%bool = true).
  { revert i j Hi Hj Ho. intros i j Hi Hj _. revert i j Hi Hj.
    apply (forall_ports (fun i j => (negb (Z.abs (i - j) =? 4) || (angWrap i j =? 0))%bool)).
    vm_compute. reflexivity. }
  apply orb_true_iff in H. destruct H as [H | H].
  - apply negb_true_iff in H. apply Z.eqb_neq in H. contradiction.
  - now apply Z.eqb_eq.
Qed.

(** C10.  For all port directions [i], [j] in 0..7 the signed ("deg") and the
    unsigned wrap-around ("ang") computations of [OctiHananGraph::ang] agree,
    so the assertion holds and [ang] returns; the result is symmetric, lies
    in 0..3, and opposite ports ([|i - j| = 4]) are mapped to 0. *)
Theorem ang_agree_sym_range (i j : Z) :
  0 <= i < 8 -> 0 <= j < 8 ->
  angDeg i j = angWrap i j /\
  ang i j = Some (angWrap i j) /\
  ang i j = ang j i /\
  0 <= angWrap i j <= 3 /\
  (Z.abs (i - j) = 4 -> ang i j = Some 0).
Proof.
  intros Hi Hj.
  pose proof (angDeg_angWrap Hi Hj) as E.
  assert (Ha : ang i j = Some (angWrap i j)).
  { unfold ang. rewrite E, Z.eqb_refl. reflexivity. }
  repeat split.
  - exact E.
  - exact Ha.
  - now apply ang_sym.
  - apply angWrap_range; assumption.
  - apply angWrap_range; assumption.
  - intros Ho. rewrite Ha. f_equal. now apply angWrap_opposite.
Qed.

Lemma ang_agree_sym_range_witness :
  angDeg 6 2 = angWrap 6 2 /\
  ang 6 2 = Some (angWrap 6 2) /\
  ang 6 2 = ang 2 6 /\
  0 <= angWrap 6 2 <= 3 /\
  (Z.abs (6 - 2) = 4 -> ang 6 2 = Some 0).
Proof.
  apply (@ang_agree_sym_range 6 2); lia.
Defined.

End AngFacts.

(* ================================================================== *)
(** * Generic list facts used below *)

Module ListFacts.

Import Vec.

Lemma fold_left_inv {A B} (f : A -> B -> A) (P : A -> Prop) (l : list B) :
  forall a, P a -> (forall a b, In b l -> P a -> P (f a b)) -> P (fold_left f l a).
Proof.
  induction l as [|b l IH]; intros a Ha Hstep; simpl; auto.
  apply IH.
  - apply Hstep; simpl; auto.
  - intros a' b' Hb'. apply Hstep. simpl; auto.
Qed.

Lemma find_app_none {A} (p : A -> bool) (l l' : list A) :
  find p l = None -> find p (l ++ l') = find p l'.
Proof.
  induction l as [|a l IH]; simpl; auto.
  destruct (p a); [discriminate | auto].
Qed.

Lemma find_none_iff {A} (p : A -> bool) (l : list A) :
  find p l = None <-> (forall a, In a l -> p a = false).
Proof.
  split.
  - intros H a Ha. exact (find_none p l H a Ha).
  - induction l as [|a l IH]; simpl; intros H; auto.
    rewrite (H a (or_introl eq_refl)). apply IH. intros b Hb. apply H. auto.
Qed.

Lemma upd_length {A} (l : list A) : forall i f, length (upd l i f) = length l.
Proof.
  induction l as [|a l IH]; intros [|i] f; simpl; auto.
Qed.

Lemma nth_error_upd_same {A} (l : list A) :
  forall i f, nth_error (upd l i f) i = option_map f (nth_error l i).
Proof.
  induction l as [|a l IH]; intros [|i] f; simpl; auto.
Qed.

Lemma nth_error_upd_other {A} (l : list A) :
  forall i j f, i <> j -> nth_error (upd l i f) j = nth_error l j.
Proof.
  induction l as [|a l IH]; intros [|i] [|j] f Hij; simpl; auto; try congruence.
Qed.

Lemma nth_upd_same {A} (l : list A) (d : A) :
  forall i f, i < length l -> nth i (upd l i f) d = f (nth i l d).
Proof.
  induction l as [|a l IH]; intros [|i] f Hi; simpl in *; try lia; auto.
  apply IH. lia.
Qed.

Lemma nth_upd_other {A} (l : list A) (d : A) :
  forall i j f, i <> j -> nth j (upd l i f) d = nth j l d.
Proof.
  induction l as [|a l IH]; intros [|i] [|j] f Hij; simpl; auto; try congruence.
Qed.

Lemma firstn_In {A} (l : list A) :
  forall n x, In x (firstn n l) -> In x l.
Proof.
  induction l as [|a l IH]; intros [|n] x H; simpl in *; auto.
  - contradiction.
  - destruct H as [H | H]; auto. right. eapply IH; eauto.
Qed.

End ListFacts.

(* ================================================================== *)
(** * [writeNd]: the cluster of a sink *)

Module OctiHananFacts.

Import Vec OctiHanan ListFacts Demo.

(** The edges made by a run of fresh requests. *)
Fixpoint mkEdges (cnt : nat) (rs : list Req) : list GridEdge :=
  match rs with
  | [] => []
  | (fr, to, c, sec, cl) :: rs' =>
      mkGridEdge fr to (mkGridEdgePL c sec cl cnt) :: mkEdges (S cnt) rs'
  end.

Definition keyIs (k : nat * nat) (e : GridEdge) : bool := edgeIs (fst k) (snd k) e.

Lemma edgeIs_true fr to e : edgeIs fr to e = true <-> (eFrom e = fr /\ eTo e = to).
Proof.
  unfold edgeIs. rewrite andb_true_iff, !Nat.eqb_eq. tauto.
Qed.

Lemma keyIs_mk_false k fr to pl :
  k <> (fr, to) -> keyIs k (mkGridEdge fr to pl) = false.
Proof.
  intros H. destruct k as [a b]. unfold keyIs. simpl.
  destruct (edgeIs a b (mkGridEdge fr to pl)) eqn:E; auto.
  apply edgeIs_true in E. simpl in E. destruct E; subst. congruence.
Qed.

Lemma addE_fresh es cnt fr to c sec cl :
  find (keyIs (fr, to)) es = None ->
  addE (es, cnt) (fr, to, c, sec, cl) =
  (es ++ [mkGridEdge fr to (mkGridEdgePL c sec cl cnt)], S cnt).
Proof.
  intros H. assert (E : find (edgeIs fr to) es = None) by exact H.
  unfold addE. rewrite E. reflexivity.
Qed.

Lemma addE_fold (rs : list Req) :
  forall es cnt,
    (forall r, In r rs -> find (keyIs (reqKey r)) es = None) ->
    NoDup (map reqKey rs) ->
    fold_left addE rs (es, cnt) = (es ++ mkEdges cnt rs, cnt + length rs).
Proof.
  induction rs as [|r rs IH]; intros es cnt Hfresh Hnd.
  - simpl. rewrite app_nil_r, Nat.add_0_r. reflexivity.
  - destruct r as [[[[fr to] c] sec] cl].
    cbn [fold_left]. rewrite addE_fresh.
    2:{ apply (Hfresh (fr, to, c, sec, cl)). simpl; auto. }
    inversion Hnd as [|k ks Hnotin Hnd']; subst.
    rewrite IH; auto.
    + simpl. rewrite <- app_assoc. simpl. f_equal. lia.
    + intros r Hr. rewrite find_app_none.
      * simpl. rewrite keyIs_mk_false; auto.
        intros E. apply Hnotin. simpl. rewrite <- E. apply in_map. exact Hr.
      * apply Hfresh. simpl; auto.
Qed.

Lemma find_mkEdges (rs : list Req) :
  forall cnt fr to c sec cl,
    NoDup (map reqKey rs) ->
    In (fr, to, c, sec, cl) rs ->
    exists id, find (keyIs (fr, to)) (mkEdges cnt rs) =
               Some (mkGridEdge fr to (mkGridEdgePL c sec cl id)).
Proof.
  induction rs as [|r rs IH]; intros cnt fr to c sec cl Hnd Hin.
  - destruct Hin.
  - inversion Hnd as [|k ks Hnotin Hnd']; subst.
    destruct Hin as [-> | Hin].
    + exists cnt. simpl. unfold keyIs, edgeIs. simpl. rewrite !Nat.eqb_refl. reflexivity.
    + destruct r as [[[[fr' to'] c'] sec'] cl']. simpl.
      rewrite keyIs_mk_false.
      * apply IH; auto.
      * intros E. apply Hnotin. simpl. rewrite <- E.
        change (fr, to) with (reqKey (fr, to, c, sec, cl)). apply in_map. exact Hin.
Qed.

(** A graph is well formed when its edges connect nodes of its arena. *)
Definition wfGraph (g : Graph) : Prop :=
  forall e, In e (edges g) -> eFrom e < length (nodes g) /\ eTo e < length (nodes g).

Section Cluster.

Variable INF : Q.
Variables (xPos yPos : Q).
Variable n : nat.

(** The requests of the first loop, ports [a .. a + k - 1]. *)
Definition sinkReqs (a k : nat) : list Req :=
  flat_map (fun i => [(n, n + 1 + i, INF, true, true); (n + 1 + i, n, INF, true, true)])
           (seq a k).

(** The requests of the in-node loop. *)
Definition bendReqs (g : Graph) (x y : nat) (l : list (nat * nat)) : list Req :=
  flat_map (fun ij : nat * nat =>
              let pen := bendPenAt INF g x y (fst ij) (snd ij) in
              [(n + 1 + fst ij, n + 1 + snd ij, pen, true, false);
               (n + 1 + snd ij, n + 1 + fst ij, pen, true, false)]) l.

(** The sink [n] has its ports [0 .. a - 1] installed. *)
Definition portsSet (a : nat) (g : Graph) : Prop :=
  length (nodes g) = n + 1 + a /\
  exists p, nth_error (nodes g) n = Some p /\
            length (ndPorts p) = 8 /\
            forall i, i < a -> nth i (ndPorts p) None = Some (n + 1 + i).

Definition sameConfig (g g' : Graph) : Prop :=
  xWidth g' = xWidth g /\ yHeight g' = yHeight g /\ bendCosts g' = bendCosts g.

Lemma sameConfig_refl g : sameConfig g g.
Proof. repeat split. Qed.

Lemma sameConfig_trans g1 g2 g3 : sameConfig g1 g2 -> sameConfig g2 g3 -> sameConfig g1 g3.
Proof. unfold sameConfig. intuition congruence. Qed.

Lemma bendPenAt_config g g' x y i j :
  sameConfig g g' -> bendPenAt INF g' x y i j = bendPenAt INF g x y i j.
Proof.
  intros (Hx & Hy & Hb). unfold bendPenAt, onBorder, getBendPen.
  rewrite Hx, Hy, Hb. reflexivity.
Qed.

Lemma edgeState_addEdgId g fr to c sec cl :
  edgeState (addEdgId g fr to c sec cl) = addE (edgeState g) (fr, to, c, sec, cl).
Proof.
  unfold addEdgId. generalize (addE (edgeState g) (fr, to, c, sec, cl)).
  intros [es cnt]. reflexivity.
Qed.

Lemma writePort_state g i :
  edgeState (writePort INF xPos yPos n g i) =
  addE (addE (edgeState g) (n, length (nodes g), INF, true, true))
       (length (nodes g), n, INF, true, true).
Proof.
  unfold writePort, addNd. cbv beta iota zeta.
  rewrite !edgeState_addEdgId. reflexivity.
Qed.

Lemma writePort_nodes g i :
  nodes (writePort INF xPos yPos n g i) =
  upd (upd (upd (nodes g ++ [blankNode
        (xPos + inject_Z (portDx (Z.of_nat i)) * spacer g,
         yPos + inject_Z (portDy (Z.of_nat i)) * spacer g)%Q])
        (length (nodes g)) (setId (length (ndsVec g))))
        (length (nodes g)) (setParent n))
        n (setPort i (length (nodes g))).
Proof. reflexivity. Qed.

Lemma writePort_config g i : sameConfig g (writePort INF xPos yPos n g i).
Proof. repeat split. Qed.

Lemma writePort_portsSet g a :
  a < 8 -> portsSet a g -> portsSet (S a) (writePort INF xPos yPos n g a).
Proof.
  intros Ha (Hlen & p & Hp & Hpl & Hports).
  assert (Hn : n < length (nodes g)) by lia.
  unfold portsSet. rewrite writePort_nodes. split.
  - rewrite !upd_length, length_app. simpl. lia.
  - exists (setPort a (length (nodes g)) p). split; [|split].
    + rewrite nth_error_upd_same.
      rewrite !nth_error_upd_other by lia.
      rewrite nth_error_app1 by lia. rewrite Hp. reflexivity.
    + simpl. rewrite upd_length. exact Hpl.
    + intros i Hi. simpl.
      destruct (Nat.eq_dec a i) as [<- | Hne].
      * rewrite nth_upd_same by lia. f_equal. lia.
      * rewrite nth_upd_other by exact Hne. apply Hports. lia.
Qed.

Lemma fold_writePort k :
  forall a g,
    a + k <= 8 -> portsSet a g ->
    let g' := fold_left (writePort INF xPos yPos n) (seq a k) g in
    portsSet (a + k) g' /\ sameConfig g g' /\
    edgeState g' = fold_left addE (sinkReqs a k) (edgeState g).
Proof.
  induction k as [|k IH]; intros a g Hk Hps; cbv zeta;
    unfold sinkReqs; cbn [seq fold_left flat_map app];
    [ | fold (sinkReqs (S a) k) ].
  - rewrite Nat.add_0_r.
    split; [exact Hps | split; [apply sameConfig_refl | reflexivity]].
  - assert (Hps' := @writePort_portsSet g a ltac:(lia) Hps).
    destruct (IH (S a) _ ltac:(lia) Hps') as (H1 & H2 & H3).
    split; [|split].
    + replace (a + S k) with (S a + k) by lia. exact H1.
    + eapply sameConfig_trans; [apply writePort_config | exact H2].
    + rewrite H3, writePort_state.
      destruct Hps as (Hlen & _). rewrite Hlen. reflexivity.
Qed.

Lemma getPort_portsSet g i : portsSet 8 g -> i < 8 -> getPort g n i = Some (n + 1 + i).
Proof.
  intros (_ & p & Hp & _ & Hports) Hi. unfold getPort. rewrite Hp. auto.
Qed.

Lemma writeBend_step g x y i j :
  portsSet 8 g -> i < 8 -> j < 8 ->
  let g' := writeBend INF x y n g (i, j) in
  nodes g' = nodes g /\ sameConfig g g' /\
  edgeState g' =
  addE (addE (edgeState g) (n + 1 + i, n + 1 + j, bendPenAt INF g x y i j, true, false))
       (n + 1 + j, n + 1 + i, bendPenAt INF g x y i j, true, false).
Proof.
  intros Hps Hi Hj. unfold writeBend.
  rewrite !getPort_portsSet by assumption.
  cbv zeta. rewrite !edgeState_addEdgId.
  repeat split.
Qed.

Lemma fold_writeBend g0 x y (l : list (nat * nat)) :
  forall g,
    (forall ij, In ij l -> fst ij < 8 /\ snd ij < 8) ->
    portsSet 8 g -> sameConfig g0 g ->
    let g' := fold_left (writeBend INF x y n) l g in
    portsSet 8 g' /\ sameConfig g0 g' /\
    edgeState g' = fold_left addE (bendReqs g0 x y l) (edgeState g).
Proof.
  induction l as [|[i j] l IH]; intros g Hl Hps Hcfg; cbv zeta;
    unfold bendReqs; cbn [fold_left flat_map app fst snd];
    [ | fold (bendReqs g0 x y l) ].
  - auto.
  - destruct (Hl (i, j) (or_introl eq_refl)) as [Hi Hj]. simpl in Hi, Hj.
    destruct (@writeBend_step g x y i j Hps Hi Hj) as (Hn & Hc & He).
    assert (Hps' : portsSet 8 (writeBend INF x y n g (i, j))).
    { unfold portsSet. rewrite Hn. exact Hps. }
    assert (Hc' : sameConfig g0 (writeBend INF x y n g (i, j))).
    { eapply sameConfig_trans; eauto. }
    destruct (IH _ (fun ij H => Hl ij (or_intror H)) Hps' Hc') as (H1 & H2 & H3).
    split; [exact H1 | split; [exact H2|]].
    rewrite H3, He. rewrite (bendPenAt_config _ _ _ _ Hcfg). reflexivity.
Qed.

End Cluster.

(** Duplicate-freeness of a list of node pairs, decided by a run through it. *)
Definition pairEqb (a b : nat * nat) : bool :=
  (fst a =? fst b) && (snd a =? snd b).

Fixpoint nodupb (l : list (nat * nat)) : bool :=
  match l with
  | [] => true
  | a :: l' => negb (existsb (pairEqb a) l') && nodupb l'
  end.

Lemma nodupb_sound l : nodupb l = true -> NoDup l.
Proof.
  induction l as [|a l IH]; simpl; intros H; constructor.
  - apply andb_true_iff in H. destruct H as [H _].
    apply negb_true_iff in H. intros Hin.
    assert (existsb (pairEqb a) l = true) as E.
    { apply existsb_exists. exists a. split; auto.
      unfold pairEqb. rewrite !Nat.eqb_refl. reflexivity. }
    congruence.
  - apply IH. apply andb_true_iff in H. tauto.
Qed.

(** The result of [writeNd] for a cell that has its slot in the index. *)
Definition writeNdAt (INF : Q) (g : Graph) (x y : nat) : Graph * nat :=
  let xPos := (fst (lowerLeft g) + inject_Z (Z.of_nat x) * cellSize g)%Q in
  let yPos := (snd (lowerLeft g) + inject_Z (Z.of_nat y) * cellSize g)%Q in
  let '(g, n) := addNd g (xPos, yPos) in
  let g := updNd g n (setId (length (ndsVec g))) in
  let g := setVecs g (ndsVec g ++ [n]) (ndIdx g) in
  let g := setVecs g (ndsVec g) (upd (ndIdx g) (x * yHeight g + y) (fun _ => length (ndsVec g))) in
  let g := updNd g n setSink in
  let g := updNd g n (setXY x y) in
  let g := updNd g n (setParent n) in
  let g := fold_left (writePort INF xPos yPos n) (seq 0 8) g in
  let g := fold_left (writeBend INF x y n) portPairs g in
  (g, n).

(** [writeNd] goes through exactly for the cells that have a slot. *)
Lemma writeNd_eq INF g x y :
  writeNd INF g x y
  = if x * yHeight g + y <? length (ndIdx g) then Some (writeNdAt INF g x y) else None.
Proof.
  unfold writeNd, writeNdAt, setIdx. cbv zeta. cbn [addNd setVecs updNd setNodes ndIdx yHeight ndsVec].
  destruct (x * yHeight g + y <? length (ndIdx g)); reflexivity.
Qed.

Lemma writeNd_some INF g x y :
  x * yHeight g + y < length (ndIdx g) -> writeNd INF g x y = Some (writeNdAt INF g x y).
Proof.
  intros H. rewrite writeNd_eq. apply Nat.ltb_lt in H. now rewrite H.
Qed.

(** Keys of the cluster relative to the address of the sink. *)
Definition relKeys : list (nat * nat) :=
  flat_map (fun i => [(0, 1 + i); (1 + i, 0)]) (seq 0 8) ++
  flat_map (fun ij : nat * nat => [(1 + fst ij, 1 + snd ij); (1 + snd ij, 1 + fst ij)])
           portPairs.

Definition clusterReqs (INF : Q) (g : Graph) (x y : nat) : list Req :=
  sinkReqs INF (length (nodes g)) 0 8 ++
  bendReqs INF (length (nodes g)) g x y portPairs.

Lemma clusterReqs_keys INF g x y :
  map (fun r => (fst (reqKey r) - length (nodes g), snd (reqKey r) - length (nodes g)))
      (clusterReqs INF g x y) = relKeys.
Proof.
  unfold clusterReqs, relKeys. generalize (length (nodes g)) as n. intros n.
  rewrite map_app. f_equal.
  - unfold sinkReqs. rewrite flat_map_concat_map, concat_map, map_map.
    rewrite flat_map_concat_map. f_equal. apply map_ext. intros i.
    simpl. repeat f_equal; lia.
  - unfold bendReqs. rewrite flat_map_concat_map, concat_map, map_map.
    rewrite flat_map_concat_map. f_equal. apply map_ext. intros [i j].
    simpl. repeat f_equal; lia.
Qed.

Lemma clusterReqs_NoDup INF g x y : NoDup (map reqKey (clusterReqs INF g x y)).
Proof.
  apply (NoDup_map_inv (fun k : nat * nat =>
                          (fst k - length (nodes g), snd k - length (nodes g)))).
  rewrite map_map, clusterReqs_keys.
  apply nodupb_sound. vm_compute. reflexivity.
Qed.

Lemma in_portPairs i j : In (i, j) portPairs <-> i < j < 8.
Proof.
  unfold portPairs, maxDeg. rewrite in_flat_map. split.
  - intros (a & Ha & Hin). apply in_map_iff in Hin.
    destruct Hin as (b & E & Hb). inversion E; subst.
    apply in_seq in Ha. apply in_seq in Hb. lia.
  - intros H. exists i. split.
    + apply in_seq. lia.
    + apply in_map_iff. exists j. split; auto. apply in_seq. lia.
Qed.

Lemma clusterReqs_from INF g x y r :
  In r (clusterReqs INF g x y) -> length (nodes g) <= fst (reqKey r).
Proof.
  unfold clusterReqs. intros H. apply in_app_or in H. destruct H as [H | H].
  - unfold sinkReqs in H. apply in_flat_map in H. destruct H as (i & _ & Hr).
    simpl in Hr. destruct Hr as [<- | [<- | []]]; simpl; lia.
  - unfold bendReqs in H. apply in_flat_map in H. destruct H as (ij & _ & Hr).
    simpl in Hr. destruct Hr as [<- | [<- | []]]; simpl; lia.
Qed.

Lemma clusterReqs_fresh INF g x y r :
  wfGraph g -> In r (clusterReqs INF g x y) -> find (keyIs (reqKey r)) (edges g) = None.
Proof.
  intros Hwf Hr. apply find_none_iff. intros e He.
  destruct (keyIs (reqKey r) e) eqn:E; auto.
  apply edgeIs_true in E. destruct E as [E _].
  pose proof (@clusterReqs_from _ _ _ _ _ Hr) as Hge.
  destruct (Hwf e He) as [Hlt _]. lia.
Qed.

(** The whole effect of [writeNd] on nodes and edges: a fresh sink with its
    eight ports, then the 16 sink edges and the 56 bend edges in loop order. *)
Lemma writeNd_cluster INF g x y :
  wfGraph g ->
  let n := length (nodes g) in
  let g' := fst (writeNdAt INF g x y) in
  snd (writeNdAt INF g x y) = n /\
  portsSet n 8 g' /\
  edges g' = edges g ++ mkEdges (edgeCount g) (clusterReqs INF g x y) /\
  edgeCount g' = edgeCount g + 72 /\
  sameConfig g g'.
Proof.
  intros Hwf n g'.
  set (xPos := (fst (lowerLeft g) + inject_Z (Z.of_nat x) * cellSize g)%Q).
  set (yPos := (snd (lowerLeft g) + inject_Z (Z.of_nat y) * cellSize g)%Q).
  set (g1 := updNd (updNd (updNd
               (setVecs (setVecs (updNd (setNodes g (nodes g ++ [blankNode (xPos, yPos)]))
                                        n (setId (length (ndsVec g))))
                                 (ndsVec g ++ [n]) (ndIdx g))
                        (ndsVec g ++ [n])
                        (upd (ndIdx g) (x * yHeight g + y)
                             (fun _ => length (ndsVec g ++ [n]))))
               n setSink) n (setXY x y)) n (setParent n)).
  assert (Hg' : g' = fold_left (writeBend INF x y n) portPairs
                       (fold_left (writePort INF xPos yPos n) (seq 0 8) g1)) by reflexivity.
  assert (Hps0 : portsSet n 0 g1).
  { unfold portsSet, g1. simpl. rewrite !upd_length, length_app. simpl.
    split; [lia|].
    eexists. split; [|split].
    - rewrite !nth_error_upd_same. rewrite nth_error_app2 by (fold n; lia).
      fold n. rewrite Nat.sub_diag. simpl. reflexivity.
    - reflexivity.
    - intros i Hi. lia. }
  destruct (@fold_writePort INF xPos yPos n 8 0 g1 ltac:(lia) Hps0) as (Hps8 & Hc1 & He1).
  simpl Nat.add in Hps8.
  destruct (@fold_writeBend INF n g x y portPairs _
              (fun ij H => ltac:(destruct ij as [i j]; apply in_portPairs in H; simpl; lia))
              Hps8 Hc1)
    as (Hps & Hcfg & He).
  rewrite <- Hg' in Hps, He, Hcfg.
  split; [reflexivity|]. split; [exact Hps|].
  rewrite He1 in He. rewrite <- fold_left_app in He.
  change (edgeState g1) with (edges g, edgeCount g) in He.
  change (sinkReqs INF n 0 8 ++ bendReqs INF n g x y portPairs)
    with (clusterReqs INF g x y) in He.
  rewrite addE_fold in He.
  - unfold edgeState in He. injection He as E1 E2.
    split; [exact E1|]. split; [rewrite E2; reflexivity | exact Hcfg].
  - intros r Hr. eapply clusterReqs_fresh; eauto.
  - apply clusterReqs_NoDup.
Qed.

(* ------------------------------------------------------------------ *)
(** ** Bend edges inside a sink *)

(** The graph has an edge [fr -> to]; it is secondary and carries cost [c]. *)
Definition hasBendEdge (g : Graph) (fr to : nat) (c : Q) : Prop :=
  exists e, getEdg g fr to = Some e /\
            (plCost (ePl e) == c)%Q /\ plSecondary (ePl e) = true.

Lemma wfGraph_g0 : wfGraph g0.
Proof. intros e []. Qed.

Lemma angIdx_le_3 i j : i < 8 -> j < 8 -> Ang.angIdx i j <= 3.
Proof.
  intros Hi Hj. unfold Ang.angIdx.
  pose proof (@AngFacts.angWrap_range (Z.of_nat i) (Z.of_nat j)
                ltac:(lia) ltac:(lia)) as H.
  lia.
Qed.

Lemma getEdg_cluster INF g x y fr to c sec cl :
  wfGraph g ->
  In (fr, to, c, sec, cl) (clusterReqs INF g x y) ->
  exists id, getEdg (fst (writeNdAt INF g x y)) fr to =
             Some (mkGridEdge fr to (mkGridEdgePL c sec cl id)).
Proof.
  intros Hwf Hin.
  destruct (writeNd_cluster INF x y Hwf) as (_ & _ & He & _).
  unfold getEdg. rewrite He.
  rewrite find_app_none.
  - apply (@find_mkEdges (clusterReqs INF g x y) (edgeCount g) fr to c sec cl).
    + apply clusterReqs_NoDup.
    + exact Hin.
  - exact (clusterReqs_fresh Hwf Hin).
Qed.

Lemma bendReqs_in INF g x y i j :
  i < j < 8 ->
  let n := length (nodes g) in
  let pen := bendPenAt INF g x y i j in
  In (n + 1 + i, n + 1 + j, pen, true, false) (clusterReqs INF g x y) /\
  In (n + 1 + j, n + 1 + i, pen, true, false) (clusterReqs INF g x y).
Proof.
  intros Hij n pen. unfold clusterReqs.
  split; apply in_or_app; right; unfold bendReqs; apply in_flat_map;
    exists (i, j); (split; [apply in_portPairs; exact Hij | simpl; auto]).
Qed.

(* ------------------------------------------------------------------ *)
(** ** The station move penalty *)

Section MovePen.

Variable dist : Q * Q -> Q * Q -> Q.

Lemma diagCost_hopCost g :
  diagCost g = hopCost (bendCosts g 0) (bendCosts g 2)
                       (diagonalPen (pens g)) (horizontalPen (pens g)) (verticalPen (pens g)).
Proof. reflexivity. Qed.

Lemma vertCost_hopCost g :
  vertCost g = hopCost (bendCosts g 0) (bendCosts g 3)
                       (verticalPen (pens g)) (horizontalPen (pens g)) (diagonalPen (pens g)).
Proof. reflexivity. Qed.

Lemma horiCost_hopCost g :
  horiCost g = hopCost (bendCosts g 0) (bendCosts g 3)
                       (horizontalPen (pens g)) (verticalPen (pens g)) (diagonalPen (pens g)).
Proof. reflexivity. Qed.

(** The per-hop budget dominates the additive constant plus every one of the
    three directional costs. *)
Lemma penPerGrid_dominates g :
  (PEN + diagCost g <= penPerGrid g)%Q /\
  (PEN + vertCost g <= penPerGrid g)%Q /\
  (PEN + horiCost g <= penPerGrid g)%Q.
Proof.
  unfold penPerGrid.
  pose proof (Q.le_max_l (diagCost g) (Qmax (vertCost g) (horiCost g))) as H1.
  pose proof (Q.le_max_r (diagCost g) (Qmax (vertCost g) (horiCost g))) as H2.
  pose proof (Q.le_max_l (vertCost g) (horiCost g)) as H3.
  pose proof (Q.le_max_r (vertCost g) (horiCost g)) as H4.
  repeat split; apply Qplus_le_r.
  - exact H1.
  - eapply Qle_trans; eauto.
  - eapply Qle_trans; eauto.
Qed.

(** C8 (amended).  [ndMovePen] returns the distance of the two nodes divided
    by the cell size, times [PEN + max(diagCost, max(vertCost, horiCost))]
    with [PEN] = 1/2.  Each of the three costs is [_bendCosts[0]] plus the
    smaller of the direct penalty and the sum of the two other penalties and
    one more bend, which is [_bendCosts[2]] for the diagonal and
    [_bendCosts[3]] for the vertical and the horizontal direction. *)
Theorem ndMovePen_formula (g : Graph) (cb gr : Q * Q) :
  ndMovePen dist g cb gr = (dist cb gr / cellSize g * penPerHop_code g)%Q /\
  penPerHop_code g = (PEN + Qmax (diagCost g) (Qmax (vertCost g) (horiCost g)))%Q /\
  (PEN == 1 / 2)%Q /\
  diagCost g = (bendCosts g 0 +
                Qmin (diagonalPen (pens g))
                     (horizontalPen (pens g) + verticalPen (pens g) + bendCosts g 2))%Q /\
  vertCost g = (bendCosts g 0 +
                Qmin (verticalPen (pens g))
                     (horizontalPen (pens g) + diagonalPen (pens g) + bendCosts g 3))%Q /\
  horiCost g = (bendCosts g 0 +
                Qmin (horizontalPen (pens g))
                     (verticalPen (pens g) + diagonalPen (pens g) + bendCosts g 3))%Q.
Proof.
  repeat split.
Qed.

End MovePen.

(** C8 as stated fails.  With bend penalties 0, 1, 2, 3 (straight, 45, 90
    degrees, ...), vertical and horizontal penalty 1, diagonal penalty 3/2
    and cell size 10, a station moved by one cell costs 2, while a budget made
    of the 90 degree penalty plus a detour with a 45 degree bend gives 4. *)
Lemma ndMovePen_spec_fails :
  (ndMovePen distOnAxis g0 (0, 0)%Q (10, 0)%Q == 2)%Q /\
  (ndMovePen_spec distOnAxis g0 (0, 0)%Q (10, 0)%Q == 4)%Q /\
  ~ (ndMovePen distOnAxis g0 (0, 0)%Q (10, 0)%Q ==
     ndMovePen_spec distOnAxis g0 (0, 0)%Q (10, 0)%Q)%Q.
Proof.
  repeat split; vm_compute; congruence.
Qed.

(** The uniform reading with bend index [a] in front and bend index [b] in
    the detour, for all three directions. *)
Definition penPerHop_uniform (a b : nat) (g : Graph) : Q :=
  let c := pens g in
  (PEN + Qmax (hopCost (bendCosts g a) (bendCosts g b)
                      (diagonalPen c) (horizontalPen c) (verticalPen c))
             (Qmax (hopCost (bendCosts g a) (bendCosts g b)
                            (verticalPen c) (horizontalPen c) (diagonalPen c))
                   (hopCost (bendCosts g a) (bendCosts g b)
                            (horizontalPen c) (verticalPen c) (diagonalPen c))))%Q.

(** No choice of one leading and one detour bend index among 0 .. 3 turns the
    uniform reading into what the code computes for all penalties. *)
Lemma penPerHop_no_uniform_reading (a b : nat) :
  a < 4 -> b < 4 ->
  exists g, ~ (penPerHop_uniform a b g == penPerGrid g)%Q.
Proof.
  intros Ha Hb.
  destruct a as [|a].
  - destruct b as [|[|[|[|b]]]]; try lia.
    + exists (withPens 100 1 1)%Q. vm_compute. congruence.
    + exists (withPens 100 1 1)%Q. vm_compute. congruence.
    + exists (withPens 100 1 1)%Q. vm_compute. congruence.
    + exists (withPens 1 1 100)%Q. vm_compute. congruence.
  - exists (withPens 1 1 1)%Q.
    destruct a as [|[|[|a]]]; try lia;
      destruct b as [|[|[|[|b]]]]; try lia; vm_compute; congruence.
Qed.

End OctiHananFacts.

(* ================================================================== *)
(** * The solver facade: how a model grows *)

Module LPFacts.

Import Vec Names LP ILP ListFacts.

Lemma upd_app_r {A} (l l' : list A) (k : nat) (f : A -> A) :
  upd (l ++ l') (length l + k) f = l ++ upd l' k f.
Proof.
  induction l as [|a l IH]; simpl; auto. now rewrite IH.
Qed.

Lemma upd_last {A} (l : list A) (a : A) (f : A -> A) :
  upd (l ++ [a]) (length l) f = l ++ [f a].
Proof.
  rewrite <- (Nat.add_0_r (length l)). rewrite upd_app_r. reflexivity.
Qed.

Lemma name_eqb_eq a b : name_eqb a b = true <-> a = b.
Proof.
  unfold name_eqb. destruct (Name_eq_dec a b); split; auto; discriminate.
Qed.

Lemma name_eqb_refl a : name_eqb a a = true.
Proof. now apply name_eqb_eq. Qed.

(** ** Columns and rows as values *)

Definition pushCol (lp : Solver) (c : Col) : Solver :=
  mkSolver (cols lp ++ [c]) (rows lp) (visible lp).

Definition pushRow (lp : Solver) (r : Row) : Solver :=
  mkSolver (cols lp) (rows lp ++ [r]) (visible lp).

Definition pushCols (lp : Solver) (cs : list Col) : Solver :=
  mkSolver (cols lp ++ cs) (rows lp) (visible lp).

Definition pushRows (lp : Solver) (rs : list Row) : Solver :=
  mkSolver (cols lp) (rows lp ++ rs) (visible lp).

Definition addTerms (ts : list (nat * Z)) (r : Row) : Row :=
  mkRow (rowName r) (rowRhs r) (rowType r) (rowTerms r ++ ts).

(** The term a lookup contributes. *)
Definition optTerm (lp : Solver) (coef : Z) (nm : Name) : list (nat * Z) :=
  match getVarByName lp nm with
  | Some c => [(c, coef)]
  | None => []
  end.

Definition termsOf (lp : Solver) (coef : Z) (nms : list Name) : list (nat * Z) :=
  flat_map (optTerm lp coef) nms.

Lemma addRow_push lp nm rhs ty :
  addRow lp nm rhs ty = (length (rows lp), pushRow lp (mkRow nm rhs ty [])).
Proof. reflexivity. Qed.

Lemma addColB_push lp nm ty obj bnd :
  addColB lp nm ty obj bnd = (length (cols lp), pushCol lp (mkCol nm ty obj bnd)).
Proof. reflexivity. Qed.

Lemma addCol_push lp nm ty obj :
  addCol lp nm ty obj = (length (cols lp), pushCol lp (mkCol nm ty obj None)).
Proof. reflexivity. Qed.

Lemma addColToRow_last lp r c k :
  addColToRow (pushRow lp r) (length (rows lp)) c k = pushRow lp (addTerms [(c, k)] r).
Proof.
  unfold addColToRow, pushRow. simpl. rewrite upd_last. reflexivity.
Qed.

Lemma addTerms_addTerms ts ts' r : addTerms ts' (addTerms ts r) = addTerms (ts ++ ts') r.
Proof. unfold addTerms. simpl. now rewrite app_assoc. Qed.

Lemma addTerms_nil r : addTerms [] r = r.
Proof. destruct r. unfold addTerms. simpl. now rewrite app_nil_r. Qed.

Lemma getVarByName_pushRow lp r nm : getVarByName (pushRow lp r) nm = getVarByName lp nm.
Proof. reflexivity. Qed.

Lemma getVarByName_pushRows lp rs nm : getVarByName (pushRows lp rs) nm = getVarByName lp nm.
Proof. reflexivity. Qed.

Lemma optTerm_pushRow lp r coef nm : optTerm (pushRow lp r) coef nm = optTerm lp coef nm.
Proof. reflexivity. Qed.

Lemma addIfVar_last lp r coef nm :
  addIfVar (length (rows lp)) coef (pushRow lp r) nm =
  pushRow lp (addTerms (optTerm lp coef nm) r).
Proof.
  unfold addIfVar, optTerm. rewrite getVarByName_pushRow.
  destruct (getVarByName lp nm).
  - apply addColToRow_last.
  - now rewrite addTerms_nil.
Qed.

(** A loop of guarded [addColToRow] calls on the row added last. *)
Lemma fold_addIfVar {X} (nmOf : X -> Name) (coef : Z) (xs : list X) :
  forall lp r,
    fold_left (fun s x => addIfVar (length (rows lp)) coef s (nmOf x)) xs (pushRow lp r)
    = pushRow lp (addTerms (termsOf lp coef (map nmOf xs)) r).
Proof.
  induction xs as [|x xs IH]; intros lp r; simpl.
  - now rewrite addTerms_nil.
  - rewrite addIfVar_last, IH, addTerms_addTerms. reflexivity.
Qed.

(** ** Lookup *)

Lemma findIdx_app nm (l l' : list Col) :
  forall i, findIdx nm (l ++ l') i =
            match findIdx nm l i with
            | Some c => Some c
            | None => findIdx nm l' (i + length l)
            end.
Proof.
  induction l as [|c l IH]; intros i; simpl.
  - now rewrite Nat.add_0_r.
  - destruct (name_eqb (colName c) nm); auto.
    rewrite IH. now rewrite Nat.add_succ_comm.
Qed.

Lemma findIdx_none nm (l : list Col) :
  forall i, (forall c, In c l -> colName c <> nm) -> findIdx nm l i = None.
Proof.
  induction l as [|c l IH]; intros i H; simpl; auto.
  destruct (name_eqb (colName c) nm) eqn:E.
  - apply name_eqb_eq in E. exfalso. apply (H c); simpl; auto.
  - apply IH. intros c' Hc'. apply H. simpl; auto.
Qed.

Lemma findIdx_some nm (l : list Col) :
  forall i c, findIdx nm l i = Some c ->
              i <= c /\ exists col, nth_error l (c - i) = Some col /\ colName col = nm.
Proof.
  induction l as [|a l IH]; intros i c H; simpl in H; [discriminate|].
  destruct (name_eqb (colName a) nm) eqn:E.
  - injection H as <-. split; [lia|]. rewrite Nat.sub_diag. simpl.
    exists a. split; auto. now apply name_eqb_eq.
  - destruct (IH _ _ H) as (Hle & col & Hn & Hc). split; [lia|].
    exists col. split; auto.
    replace (c - i) with (S (c - S i)) by lia. exact Hn.
Qed.

Lemma findIdx_none_inv nm (l : list Col) :
  forall i, findIdx nm l i = None -> forall c, In c l -> colName c <> nm.
Proof.
  induction l as [|a l IH]; intros i H c Hc; simpl in *; [contradiction|].
  destruct (name_eqb (colName a) nm) eqn:E; [discriminate|].
  destruct Hc as [<- | Hc].
  - intros Heq. apply name_eqb_eq in Heq. congruence.
  - eapply IH; eauto.
Qed.

(** All columns are finalised. *)
Definition updated (lp : Solver) : Prop := visible lp = length (cols lp).

Lemma updated_update lp : updated (update lp).
Proof. reflexivity. Qed.

Lemma getVarByName_updated lp nm :
  updated lp -> getVarByName lp nm = findIdx nm (cols lp) 0.
Proof.
  unfold updated, getVarByName. intros ->. now rewrite firstn_all.
Qed.

(** What a successful lookup finds, and what a failed one rules out. *)
Lemma getVarByName_some lp nm c :
  getVarByName lp nm = Some c ->
  exists col, nth_error (cols lp) c = Some col /\ colName col = nm.
Proof.
  unfold getVarByName. intros H.
  destruct (findIdx_some _ _ _ H) as (_ & col & Hn & Hc).
  rewrite Nat.sub_0_r in Hn. exists col. split; auto.
  assert (Hlt : c < length (firstn (visible lp) (cols lp))).
  { apply nth_error_Some. congruence. }
  rewrite <- (firstn_skipn (visible lp) (cols lp)).
  rewrite nth_error_app1; auto.
Qed.

Lemma getVarByName_none lp nm :
  updated lp -> getVarByName lp nm = None ->
  forall col, In col (cols lp) -> colName col <> nm.
Proof.
  intros Hu H. rewrite getVarByName_updated in H by exact Hu.
  eapply findIdx_none_inv; eauto.
Qed.

(** ** Growth between two states *)

Definition Grows (KC KR : Name -> bool) (lp lp' : Solver) : Prop :=
  visible lp <= length (cols lp) ->
  visible lp' <= length (cols lp') /\
  visible lp <= visible lp' /\
  exists cs rs,
    cols lp' = cols lp ++ cs /\ rows lp' = rows lp ++ rs /\
    Forall (fun c => KC (colName c) = true) cs /\
    Forall (fun r => KR (rowName r) = true) rs.

Definition noName (nm : Name) : bool := false.

Lemma Grows_refl KC KR lp : Grows KC KR lp lp.
Proof.
  intros Hwf. repeat split; auto.
  exists [], []. rewrite !app_nil_r. auto.
Qed.

Lemma Grows_trans KC KR lp1 lp2 lp3 :
  Grows KC KR lp1 lp2 -> Grows KC KR lp2 lp3 -> Grows KC KR lp1 lp3.
Proof.
  intros H12 H23 Hwf.
  destruct (H12 Hwf) as (Hwf2 & Hv12 & cs & rs & Hc & Hr & Hkc & Hkr).
  destruct (H23 Hwf2) as (Hwf3 & Hv23 & cs' & rs' & Hc' & Hr' & Hkc' & Hkr').
  split; [exact Hwf3|]. split; [lia|].
  exists (cs ++ cs'), (rs ++ rs').
  rewrite Hc', Hr', Hc, Hr, !app_assoc.
  repeat split; auto; apply Forall_app; auto.
Qed.

Lemma Grows_weaken (KC KR KC' KR' : Name -> bool) lp lp' :
  (forall nm, KC nm = true -> KC' nm = true) ->
  (forall nm, KR nm = true -> KR' nm = true) ->
  Grows KC KR lp lp' -> Grows KC' KR' lp lp'.
Proof.
  intros HC HR H Hwf.
  destruct (H Hwf) as (Hwf' & Hv & cs & rs & Hc & Hr & Hkc & Hkr).
  repeat split; auto. exists cs, rs. repeat split; auto.
  - eapply Forall_impl; [|exact Hkc]. intros c. apply HC.
  - eapply Forall_impl; [|exact Hkr]. intros r. apply HR.
Qed.

Lemma Grows_pushRow (KC KR : Name -> bool) lp r :
  KR (rowName r) = true -> Grows KC KR lp (pushRow lp r).
Proof.
  intros Hk Hwf. simpl. repeat split; auto.
  exists [], [r]. rewrite app_nil_r. repeat split; auto.
Qed.

Lemma Grows_pushRows (KC KR : Name -> bool) lp rs :
  Forall (fun r => KR (rowName r) = true) rs -> Grows KC KR lp (pushRows lp rs).
Proof.
  intros Hk Hwf. simpl. repeat split; auto.
  exists [], rs. rewrite app_nil_r. repeat split; auto.
Qed.

Lemma Grows_pushCol (KC KR : Name -> bool) lp c :
  KC (colName c) = true -> Grows KC KR lp (pushCol lp c).
Proof.
  intros Hk Hwf. simpl. rewrite length_app. simpl. split; [lia|]. split; [lia|].
  exists [c], []. rewrite app_nil_r. repeat split; auto.
Qed.

Lemma Grows_update (KC KR : Name -> bool) lp : Grows KC KR lp (update lp).
Proof.
  intros Hwf. simpl. split; [lia|]. split; [lia|].
  exists [], []. rewrite !app_nil_r. auto.
Qed.

Lemma Grows_fold {X} (KC KR : Name -> bool) (f : Solver -> X -> Solver) (l : list X) :
  (forall s x, In x l -> Grows KC KR s (f s x)) ->
  forall lp, Grows KC KR lp (fold_left f l lp).
Proof.
  intros Hstep lp.
  apply (fold_left_inv f (fun s => Grows KC KR lp s)).
  - apply Grows_refl.
  - intros s x Hx Hs. eapply Grows_trans; [exact Hs | apply Hstep; exact Hx].
Qed.

Lemma foldM_inv {S X} (f : S -> X -> option S) (P : S -> Prop) (l : list X) :
  (forall s x s', In x l -> P s -> f s x = Some s' -> P s') ->
  forall s s', P s -> foldM f l s = Some s' -> P s'.
Proof.
  induction l as [|x l IH]; intros Hstep s s' Hs H; simpl in H.
  - injection H as <-. exact Hs.
  - destruct (f s x) as [s1|] eqn:E; [|discriminate].
    apply (IH (fun s0 x0 s0' Hx0 => Hstep s0 x0 s0' (or_intror Hx0)) s1 s'); auto.
    apply (Hstep s x s1); simpl; auto.
Qed.

Lemma Grows_foldM {X} (KC KR : Name -> bool) (f : Solver -> X -> option Solver)
      (l : list X) :
  (forall s x s', In x l -> f s x = Some s' -> Grows KC KR s s') ->
  forall lp lp', foldM f l lp = Some lp' -> Grows KC KR lp lp'.
Proof.
  intros Hstep lp lp' H.
  apply (foldM_inv f (fun s => Grows KC KR lp s) l) with (s := lp); auto.
  - intros s x s' Hx Hs E. eapply Grows_trans; [exact Hs | eapply Hstep; eauto].
  - apply Grows_refl.
Qed.

(** A lookup of a name the new columns cannot have is not disturbed. *)
Lemma Grows_lookup (KC KR : Name -> bool) lp lp' nm :
  Grows KC KR lp lp' -> updated lp -> KC nm = false ->
  getVarByName lp' nm = getVarByName lp nm.
Proof.
  intros H Hu Hk.
  destruct (H ltac:(unfold updated in Hu; lia)) as (_ & Hv & cs & rs & Hc & _ & Hkc & _).
  rewrite (getVarByName_updated _ Hu).
  unfold getVarByName. rewrite Hc.
  rewrite firstn_app. unfold updated in Hu.
  rewrite firstn_all2 by lia.
  rewrite findIdx_app.
  destruct (findIdx nm (cols lp) 0); auto.
  apply findIdx_none. intros c Hin Heq.
  apply firstn_In in Hin.
  rewrite Forall_forall in Hkc. specialize (Hkc c Hin). congruence.
Qed.

(** A column that was found stays the answer. *)
Lemma Grows_lookup_some (KC KR : Name -> bool) lp lp' nm c :
  Grows KC KR lp lp' -> updated lp -> getVarByName lp nm = Some c ->
  getVarByName lp' nm = Some c.
Proof.
  intros H Hu Hf.
  destruct (H ltac:(unfold updated in Hu; lia)) as (_ & Hv & cs & rs & Hc & _ & _ & _).
  rewrite (getVarByName_updated _ Hu) in Hf.
  unfold getVarByName. rewrite Hc.
  rewrite firstn_app. unfold updated in Hu.
  rewrite firstn_all2 by lia.
  rewrite findIdx_app, Hf. reflexivity.
Qed.

(** Lookups do not see columns that are not finalised. *)
Lemma getVarByName_pushCols lp cs nm :
  visible lp <= length (cols lp) ->
  getVarByName (pushCols lp cs) nm = getVarByName lp nm.
Proof.
  intros Hwf. unfold getVarByName, pushCols. simpl.
  rewrite firstn_app.
  replace (visible lp - length (cols lp)) with 0 by lia.
  simpl. now rewrite app_nil_r.
Qed.

Lemma Grows_rows (KC KR : Name -> bool) lp lp' r :
  Grows KC KR lp lp' -> visible lp <= length (cols lp) ->
  In r (rows lp) -> In r (rows lp').
Proof.
  intros H Hwf Hin. destruct (H Hwf) as (_ & _ & cs & rs & _ & Hr & _).
  rewrite Hr. apply in_or_app. auto.
Qed.

Lemma Grows_cols (KC KR : Name -> bool) lp lp' c col :
  Grows KC KR lp lp' -> visible lp <= length (cols lp) ->
  nth_error (cols lp) c = Some col -> nth_error (cols lp') c = Some col.
Proof.
  intros H Hwf Hn. destruct (H Hwf) as (_ & _ & cs & rs & Hc & _).
  rewrite Hc. rewrite nth_error_app1; auto.
  apply nth_error_Some. congruence.
Qed.

Lemma Grows_wf (KC KR : Name -> bool) lp lp' :
  Grows KC KR lp lp' -> visible lp <= length (cols lp) ->
  visible lp' <= length (cols lp').
Proof. intros H Hwf. now destruct (H Hwf). Qed.

(** When no column may be added, the columns and the finalised part stay. *)
Lemma Grows_noCols KR lp lp' :
  Grows noName KR lp lp' -> updated lp -> cols lp' = cols lp /\ updated lp'.
Proof.
  intros H Hu.
  destruct (H ltac:(unfold updated in Hu; lia)) as (Hwf & Hv & cs & rs & Hc & _ & Hkc & _).
  assert (cs = []) as ->.
  { destruct cs as [|c cs]; auto. inversion Hkc; subst. discriminate. }
  rewrite app_nil_r in Hc. split; auto.
  unfold updated in *. rewrite Hc in *. lia.
Qed.

(** New rows or columns of a kind that excludes [nm]. *)
Lemma Grows_new_row (KC KR : Name -> bool) lp lp' r :
  Grows KC KR lp lp' -> visible lp <= length (cols lp) ->
  In r (rows lp') -> KR (rowName r) = false -> In r (rows lp).
Proof.
  intros H Hwf Hin Hk. destruct (H Hwf) as (_ & _ & cs & rs & _ & Hr & _ & Hkr).
  rewrite Hr in Hin. apply in_app_or in Hin. destruct Hin as [Hin | Hin]; auto.
  rewrite Forall_forall in Hkr. specialize (Hkr r Hin). congruence.
Qed.

Lemma Grows_new_col (KC KR : Name -> bool) lp lp' c :
  Grows KC KR lp lp' -> visible lp <= length (cols lp) ->
  In c (cols lp') -> KC (colName c) = false -> In c (cols lp).
Proof.
  intros H Hwf Hin Hk. destruct (H Hwf) as (_ & _ & cs & rs & Hc & _ & Hkc & _).
  rewrite Hc in Hin. apply in_app_or in Hin. destruct Hin as [Hin | Hin]; auto.
  rewrite Forall_forall in Hkc. specialize (Hkc c Hin). congruence.
Qed.

(** ** Growth without finalising *)

Definition Adds (KC KR : Name -> bool) (lp lp' : Solver) : Prop :=
  visible lp' = visible lp /\
  exists cs rs,
    cols lp' = cols lp ++ cs /\ rows lp' = rows lp ++ rs /\
    Forall (fun c => KC (colName c) = true) cs /\
    Forall (fun r => KR (rowName r) = true) rs.

Lemma Adds_refl KC KR lp : Adds KC KR lp lp.
Proof.
  split; auto. exists [], []. rewrite !app_nil_r. auto.
Qed.

Lemma Adds_trans KC KR lp1 lp2 lp3 :
  Adds KC KR lp1 lp2 -> Adds KC KR lp2 lp3 -> Adds KC KR lp1 lp3.
Proof.
  intros (Hv & cs & rs & Hc & Hr & Hkc & Hkr) (Hv' & cs' & rs' & Hc' & Hr' & Hkc' & Hkr').
  split; [congruence|].
  exists (cs ++ cs'), (rs ++ rs').
  rewrite Hc', Hr', Hc, Hr, !app_assoc.
  repeat split; auto; apply Forall_app; auto.
Qed.

Lemma Adds_Grows KC KR lp lp' : Adds KC KR lp lp' -> Grows KC KR lp lp'.
Proof.
  intros (Hv & cs & rs & Hc & Hr & Hkc & Hkr) Hwf.
  rewrite Hv, Hc, length_app. split; [lia|]. split; [lia|].
  exists cs, rs. auto.
Qed.

Lemma Adds_wf KC KR lp lp' :
  Adds KC KR lp lp' -> visible lp <= length (cols lp) -> visible lp' <= length (cols lp').
Proof.
  intros (Hv & cs & rs & Hc & _) Hwf. rewrite Hv, Hc, length_app. lia.
Qed.

Lemma Adds_lookup KC KR lp lp' nm :
  Adds KC KR lp lp' -> visible lp <= length (cols lp) ->
  getVarByName lp' nm = getVarByName lp nm.
Proof.
  intros (Hv & cs & rs & Hc & _) Hwf.
  unfold getVarByName. rewrite Hv, Hc, firstn_app.
  replace (visible lp - length (cols lp)) with 0 by lia.
  simpl. now rewrite app_nil_r.
Qed.

Lemma Adds_rows KC KR lp lp' r : Adds KC KR lp lp' -> In r (rows lp) -> In r (rows lp').
Proof.
  intros (_ & cs & rs & _ & Hr & _) Hin. rewrite Hr. apply in_or_app. auto.
Qed.

Lemma Adds_cols KC KR lp lp' c col :
  Adds KC KR lp lp' -> nth_error (cols lp) c = Some col -> nth_error (cols lp') c = Some col.
Proof.
  intros (_ & cs & rs & Hc & _) Hn. rewrite Hc, nth_error_app1; auto.
  apply nth_error_Some. congruence.
Qed.

(** A loop whose rounds add to the model and leave a fact behind each. *)
Lemma foldM_adds {X} (KC KR : Name -> bool) (Post : X -> Solver -> Solver -> Prop)
      (f : Solver -> X -> option Solver) :
  (forall s x s', f s x = Some s' -> visible s <= length (cols s) ->
                  Adds KC KR s s' /\ Post x s s') ->
  (forall x b s s', Post x b s -> Adds KC KR s s' -> Post x b s') ->
  (forall x b b' s, Post x b' s -> Adds KC KR b b' -> visible b <= length (cols b) ->
                    Post x b s) ->
  forall l lp lp',
    foldM f l lp = Some lp' -> visible lp <= length (cols lp) ->
    Adds KC KR lp lp' /\ forall x, In x l -> Post x lp lp'.
Proof.
  intros Hstep Hmono Hbase.
  induction l as [|x l IH]; intros lp lp' H Hwf; simpl in H.
  - injection H as <-. split; [apply Adds_refl|]. intros x [].
  - destruct (f lp x) as [s1|] eqn:E; [|discriminate].
    destruct (Hstep _ _ _ E Hwf) as (Ha & Hp).
    destruct (IH _ _ H (Adds_wf Ha Hwf)) as (Ha' & Hall).
    split; [eapply Adds_trans; eauto|].
    intros y [<- | Hy].
    + eapply Hmono; eauto.
    + eapply Hbase; eauto.
Qed.

End LPFacts.

(* ================================================================== *)
(** * [createProblem]: what each part adds *)

Module PhaseFacts.

Import Vec Names LP Grid Comb ILP ListFacts LPFacts.

(** ** Loop headers *)

Lemma fold_left_filter {S X} (p : X -> bool) (body : S -> X -> S) (l : list X) :
  forall s, fold_left (fun s x => if p x then body s x else s) l s
            = fold_left body (filter p l) s.
Proof.
  induction l as [|x l IH]; intros s; simpl; auto.
  destruct (p x); simpl; apply IH.
Qed.

Lemma fold_left_flat_map {S X Y} (f : S -> Y -> S) (g : X -> list Y) (l : list X) :
  forall s, fold_left (fun s x => fold_left f (g x) s) l s = fold_left f (flat_map g l) s.
Proof.
  induction l as [|x l IH]; intros s; simpl; auto.
  rewrite fold_left_app. apply IH.
Qed.

Lemma forCombEdges_combEdges {S} (cg : CombGraph) (body : S -> CombEdge -> S) (s : S) :
  forCombEdges cg body s = fold_left body (combEdges cg) s.
Proof.
  unfold forCombEdges, combEdges, outEdges.
  rewrite <- fold_left_flat_map.
  revert s. induction (cgNds cg) as [|nd l IH]; intros s; simpl; auto.
  rewrite fold_left_filter. apply IH.
Qed.

Lemma foldM_app {S X} (f : S -> X -> option S) (l l' : list X) :
  forall s, foldM f (l ++ l') s =
            match foldM f l s with Some s' => foldM f l' s' | None => None end.
Proof.
  induction l as [|x l IH]; intros s; simpl; auto.
  destruct (f s x); auto.
Qed.

Lemma foldM_filter {S X} (p : X -> bool) (body : S -> X -> option S) (l : list X) :
  forall s, foldM (fun s x => if p x then body s x else Some s) l s
            = foldM body (filter p l) s.
Proof.
  induction l as [|x l IH]; intros s; simpl; auto.
  destruct (p x); simpl; [destruct (body s x)|]; auto.
Qed.

Lemma forCombEdgesM_combEdges {S} (cg : CombGraph) (body : S -> CombEdge -> option S) (s : S) :
  forCombEdgesM cg body s = foldM body (combEdges cg) s.
Proof.
  unfold forCombEdgesM, combEdges, outEdges.
  revert s. induction (cgNds cg) as [|nd l IH]; intros s; simpl; auto.
  rewrite foldM_app, foldM_filter.
  destruct (foldM body _ s); auto.
Qed.

(** ** Kinds of names *)

Definition isSp nm := match nm with NSp _ _ => true | _ => false end.
Definition isEdg nm := match nm with NEdg _ _ _ => true | _ => false end.
Definition isVuln nm := match nm with NVuln _ _ => true | _ => false end.
Definition isAngCol nm :=
  match nm with NNegdist _ _ | NBucket _ _ _ _ => true | _ => false end.
Definition isOneass nm := match nm with NOneass _ => true | _ => false end.
Definition isUe nm := match nm with NUe _ _ => true | _ => false end.
Definition isAs nm := match nm with NAs _ _ => true | _ => false end.
Definition isSs nm := match nm with NSs _ _ => true | _ => false end.
Definition isIu nm := match nm with NIu _ => true | _ => false end.
Definition isNc nm := match nm with NNc _ => true | _ => false end.
Definition isDc nm := match nm with NDc _ _ => true | _ => false end.
Definition isOrdRow nm := match nm with NVc _ | NOc _ _ => true | _ => false end.
Definition isAngRow nm :=
  match nm with NNcLo _ _ | NNcUp _ _ | NAc _ _ | NAsc _ _ => true | _ => false end.

(** ** A row under construction *)

(** [s] is [lp] with one more row, named [nm]. *)
Definition openRow (lp : Solver) (nm : Name) (s : Solver) : Prop :=
  exists r, s = pushRow lp r /\ rowName r = nm.

Lemma openRow_init lp nm rhs ty : openRow lp nm (snd (addRow lp nm rhs ty)).
Proof. eexists. split; reflexivity. Qed.

Lemma openRow_addColToRow lp nm s c k :
  openRow lp nm s -> openRow lp nm (addColToRow s (length (rows lp)) c k).
Proof.
  intros (r & -> & Hn). rewrite addColToRow_last. eexists. split; [reflexivity|exact Hn].
Qed.

Lemma openRow_addIfVar lp nm s coef nm' :
  openRow lp nm s -> openRow lp nm (addIfVar (length (rows lp)) coef s nm').
Proof.
  intros (r & -> & Hn). rewrite addIfVar_last. eexists. split; [reflexivity|exact Hn].
Qed.

Lemma openRow_Grows (KC KR : Name -> bool) lp nm s :
  KR nm = true -> openRow lp nm s -> Grows KC KR lp s.
Proof.
  intros Hk (r & -> & Hn). apply Grows_pushRow. now rewrite Hn.
Qed.

Lemma openRow_fold {X} lp nm (f : Solver -> X -> Solver) (l : list X) :
  (forall s x, openRow lp nm s -> openRow lp nm (f s x)) ->
  forall s, openRow lp nm s -> openRow lp nm (fold_left f l s).
Proof.
  intros Hstep s Hs. apply fold_left_inv; auto.
Qed.

Lemma openRow_foldM {X} lp nm (f : Solver -> X -> option Solver) (l : list X) :
  (forall s x s', openRow lp nm s -> f s x = Some s' -> openRow lp nm s') ->
  forall s s', openRow lp nm s -> foldM f l s = Some s' -> openRow lp nm s'.
Proof.
  intros Hstep s s' Hs H.
  eapply (foldM_inv f (openRow lp nm)); eauto.
Qed.

Section Frames.

Variables INF SOFT_INF : Q.
Variable dist : Q * Q -> Q * Q -> Q.
Variable cg : CombGraph.
Variable geoPensMap : option (CombEdge -> nat -> Q).
Variable maxGrDist : Q.

(** *** Columns [edg] *)

Lemma edgUsePhase_Grows gg cands lp :
  Grows isEdg noName lp (edgUsePhase INF SOFT_INF cg geoPensMap gg cands lp).
Proof.
  unfold edgUsePhase. rewrite forCombEdges_combEdges.
  apply Grows_fold. intros s edg _.
  apply Grows_fold. intros s1 n _.
  apply Grows_fold. intros s2 e _.
  unfold edgUseStep.
  repeat match goal with
         | |- Grows _ _ ?a (if ?c then _ else _) => destruct c; [apply Grows_refl|]
         end.
  rewrite addCol_push. simpl. apply Grows_pushCol. reflexivity.
Qed.

(** *** Rows [ue] *)

Lemma uniqueEdgePhase_Grows gg lp lp' :
  uniqueEdgePhase INF SOFT_INF cg gg lp = Some lp' -> Grows noName isUe lp lp'.
Proof.
  unfold uniqueEdgePhase. intros H.
  destruct (foldM _ _ _) as [st|] eqn:E; [|discriminate].
  injection H as <-.
  revert E. generalize (@nil GridEdge) as proced. intros proced E.
  change lp with (fst (lp, proced)).
  eapply (foldM_inv _ (fun st' => Grows noName isUe lp (fst st'))); [| |exact E].
  2:{ apply Grows_refl. }
  intros st1 n st2 _ H1 E1. cbv beta in E1.
  eapply (foldM_inv _ (fun st' => Grows noName isUe lp (fst st'))); [| exact H1 |exact E1].
  intros [s pr] e st3 _ Hs E2. cbv beta in E2. simpl in Hs.
  unfold uniqueEdgeStep in E2.
  destruct (isSecondary gg e); [injection E2 as <-; exact Hs|].
  destruct (existsb (Nat.eqb e) pr); [injection E2 as <-; exact Hs|].
  rewrite addRow_push in E2.
  destruct (forCombEdgesM _ _ _) as [s'|] eqn:E3; [|discriminate].
  injection E2 as <-. simpl.
  eapply Grows_trans; [exact Hs|].
  apply (@openRow_Grows noName isUe s (NUe (getId gg (getFrom gg e)) (getId gg (getTo gg e))));
    [reflexivity|].
  rewrite forCombEdgesM_combEdges in E3.
  eapply openRow_foldM; [| |exact E3].
  - intros s0 edg s0' Hs0 E4. cbv beta in E4.
    destruct (isInf INF SOFT_INF gg e); [injection E4 as <-; exact Hs0|].
    destruct (getEdg gg (getTo gg e) (getFrom gg e)); [|discriminate].
    injection E4 as <-.
    apply openRow_addIfVar. apply openRow_addIfVar. exact Hs0.
  - eexists. split; reflexivity.
Qed.

(** *** Rows [ss] *)

Lemma sinkEdgeRow_Grows gg cands n lp e lp' :
  sinkEdgeRow cg gg cands n lp e = Some lp' -> Grows noName isSs lp lp'.
Proof.
  unfold sinkEdgeRow. rewrite addRow_push. intros H.
  apply (@openRow_Grows noName isSs lp (NSs (getId gg n) e)); [reflexivity|].
  eapply openRow_foldM; [| |exact H].
  - intros s p s' Hs E. cbv beta in E.
    destruct (getPort gg n p) as [portNd|]; [|injection E as <-; exact Hs].
    destruct (getEdg gg portNd n); [|discriminate].
    destruct (getEdg gg n portNd); [|discriminate].
    injection E as <-. apply openRow_addIfVar. apply openRow_addIfVar. exact Hs.
  - assert (H0 : openRow lp (NSs (getId gg n) e)
                         (pushRow lp (mkRow (NSs (getId gg n) e) 0 FIX []))).
    { eexists. split; reflexivity. }
    destruct (negb _ && negb _); [exact H0|].
    destruct (candCount cands (cTo cg e) n);
      destruct (candCount cands (cFrom cg e) n);
      repeat apply openRow_addIfVar; exact H0.
Qed.

Lemma sinkEdgePhase_Grows gg cands lp lp' :
  sinkEdgePhase cg gg cands lp = Some lp' -> Grows noName isSs lp lp'.
Proof.
  unfold sinkEdgePhase. apply Grows_foldM.
  intros s n s' _ E. cbv beta in E.
  destruct (negb (isSink gg n)); [injection E as <-; apply Grows_refl|].
  rewrite forCombEdgesM_combEdges in E.
  revert E. apply Grows_foldM.
  intros s0 e s0' _ E. cbv beta in E. eapply sinkEdgeRow_Grows; eauto.
Qed.

(** *** Rows [iu] *)

Lemma innerUseRow_Grows gg lp n lp' :
  innerUseRow cg gg lp n = Some lp' -> Grows noName isIu lp lp'.
Proof.
  unfold innerUseRow.
  destruct (negb (isSink gg n)); [intros E; injection E as <-; apply Grows_refl|].
  rewrite addRow_push. intros H.
  apply (@openRow_Grows noName isIu lp (NIu (getId gg n))); [reflexivity|].
  eapply openRow_foldM; [| |exact H].
  - intros s pf s' Hs E. cbv beta in E.
    destruct (getPort gg n pf) as [from|]; [|injection E as <-; exact Hs].
    eapply openRow_foldM; [| exact Hs |exact E].
    intros s1 pt s1' Hs1 E1. cbv beta in E1.
    destruct (getPort gg n pt) as [to|]; [|injection E1 as <-; exact Hs1].
    destruct (from =? to); [injection E1 as <-; exact Hs1|].
    rewrite forCombEdgesM_combEdges in E1.
    eapply openRow_foldM; [| exact Hs1 |exact E1].
    intros s2 edg s2' Hs2 E2. cbv beta in E2.
    destruct (getEdg gg from to); [|discriminate].
    injection E2 as <-. apply openRow_addIfVar. exact Hs2.
  - apply openRow_fold.
    + intros s nd Hs. apply openRow_addIfVar. exact Hs.
    + eexists. split; reflexivity.
Qed.

Lemma innerUsePhase_Grows gg lp lp' :
  innerUsePhase cg gg lp = Some lp' -> Grows noName isIu lp lp'.
Proof.
  unfold innerUsePhase. apply Grows_foldM.
  intros s n s' _ E. cbv beta in E. eapply innerUseRow_Grows; eauto.
Qed.

(** *** Rows [nc] *)

Lemma crossPhase_Grows gg lp : Grows noName isNc lp (crossPhase cg gg lp).
Proof.
  unfold crossPhase.
  generalize 0 as k. intros k.
  change lp with (fst (lp, k)) at 1.
  apply (fold_left_inv (crossRow cg gg) (fun st => Grows noName isNc lp (fst st))).
  - apply Grows_refl.
  - intros [s j] pr _ Hs. simpl in Hs. unfold crossRow.
    rewrite addRow_push. simpl.
    eapply Grows_trans; [exact Hs|].
    apply (@openRow_Grows noName isNc s (NNc j)); [reflexivity|].
    rewrite forCombEdges_combEdges.
    apply openRow_fold.
    + intros s0 edg Hs0. repeat apply openRow_addIfVar. exact Hs0.
    + eexists. split; reflexivity.
Qed.

(** *** Columns [d], rows [dc] *)

Lemma dirRow_Grows gg nd lp edg lp' :
  dirRow cg gg nd lp edg = Some lp' -> Grows isDir isDc lp lp'.
Proof.
  unfold dirRow. rewrite addColB_push, addRow_push. intros H.
  set (lp1 := pushCol lp (mkCol (NDir nd edg) INT 0%Q
                                (Some (0%Z, Z.of_nat (maxDeg gg - 1))))) in *.
  apply Grows_trans with lp1; [apply Grows_pushCol; reflexivity|].
  apply (@openRow_Grows isDir isDc lp1 (NDc nd edg)); [reflexivity|].
  eapply openRow_foldM; [| |exact H].
  - intros s n s' Hs E. cbv beta in E. unfold dirPorts in E.
    destruct (negb (isSink gg n)); [injection E as <-; exact Hs|].
    destruct (getVarByName s _); [|injection E as <-; exact Hs].
    eapply openRow_foldM; [| exact Hs |exact E].
    intros s1 i s1' Hs1 E1. cbv beta in E1.
    destruct (getPort gg n i) as [portNd|]; [|injection E1 as <-; exact Hs1].
    destruct (cFrom cg edg =? nd).
    + destruct (getEdg gg n portNd); [|discriminate].
      injection E1 as <-. apply (@openRow_addIfVar lp1). exact Hs1.
    + destruct (getEdg gg portNd n); [|discriminate].
      injection E1 as <-. apply (@openRow_addIfVar lp1). exact Hs1.
  - apply (@openRow_addColToRow lp1). eexists. split; reflexivity.
Qed.

Lemma dirPhase_Grows gg lp lp' :
  dirPhase cg gg lp = Some lp' -> Grows isDir isDc lp lp'.
Proof.
  unfold dirPhase. apply Grows_foldM.
  intros s nd s' _ E. cbv beta in E.
  destruct (cDeg cg nd <? 2); [injection E as <-; apply Grows_refl|].
  revert E. apply Grows_foldM.
  intros s0 e s0' _ E. cbv beta in E. eapply dirRow_Grows; eauto.
Qed.

End Frames.

End PhaseFacts.

(* ================================================================== *)
(** * Flow conservation rows *)

Module FlowFacts.

Import Vec Names LP Grid Comb ILP ListFacts LPFacts PhaseFacts.

Lemma fold_left_ext {S X} (f g : S -> X -> S) (l : list X) :
  (forall s x, f s x = g s x) -> forall s, fold_left f l s = fold_left g l s.
Proof.
  intros H. induction l as [|x l IH]; intros s; simpl; auto.
  rewrite H. apply IH.
Qed.

Lemma pushRows_nil lp : pushRows lp [] = lp.
Proof. destruct lp. unfold pushRows. simpl. now rewrite app_nil_r. Qed.

Lemma pushRow_pushRows lp rs r : pushRow (pushRows lp rs) r = pushRows lp (rs ++ [r]).
Proof. unfold pushRow, pushRows. simpl. now rewrite app_assoc. Qed.

Lemma pushRows_pushRows lp rs rs' : pushRows (pushRows lp rs) rs' = pushRows lp (rs ++ rs').
Proof. unfold pushRows. simpl. now rewrite app_assoc. Qed.

(** A loop that appends one finished row per round, the row depending on the
    state only through the columns. *)
Lemma fold_pushRow_map {X} (R : Solver -> X -> Row) (lp : Solver) (xs : list X) :
  (forall rs x, R (pushRows lp rs) x = R lp x) ->
  forall rs0,
    fold_left (fun s x => pushRow s (R s x)) xs (pushRows lp rs0)
    = pushRows lp (rs0 ++ map (R lp) xs).
Proof.
  intros HR. induction xs as [|x xs IH]; intros rs0; simpl.
  - now rewrite app_nil_r.
  - rewrite HR, pushRow_pushRows, IH, <- app_assoc. reflexivity.
Qed.

Section Flow.

Variables INF SOFT_INF : Q.
Variable cg : CombGraph.

(** The terms of the row [as(n, f)], read off the columns of [lp]:
    for a sink [-2 sp(n, from f)] and [+1 sp(n, to f)] where these columns
    exist, then [-1] for every incoming edge [e] with a column [edg(e, f)],
    then [+1] (at a sink: [+2]) for every such outgoing edge. *)
Definition flowTerms (lp : Solver) (gg : BaseGraph) (n : GridNode) (f : CombEdge)
  : list (nat * Z) :=
  (if isSink gg n
   then optTerm lp (-2) (getStatPosVar gg n (cFrom cg f)) ++
        optTerm lp 1 (getStatPosVar gg n (cTo cg f))
   else []) ++
  termsOf lp (-1) (map (fun e => getEdgUseVar gg e f) (getAdjListIn gg n)) ++
  termsOf lp (if isSink gg n then 2 else 1)
          (map (fun e => getEdgUseVar gg e f) (getAdjListOut gg n)).

Definition flowRowOf (lp : Solver) (gg : BaseGraph) (n : GridNode) (f : CombEdge) : Row :=
  mkRow (NAs (getId gg n) f) 0 UP (flowTerms lp gg n f).

(** All rows of the flow part, in the order of their creation. *)
Definition flowRowsOf (lp : Solver) (gg : BaseGraph) : list Row :=
  flat_map (fun n => if nonInfDeg INF SOFT_INF gg n =? 0 then []
                     else map (flowRowOf lp gg n) (combEdges cg))
           (getNds gg).

Lemma flowRow_spec gg n lp f :
  flowRow cg gg n lp f = pushRow lp (flowRowOf lp gg n f).
Proof.
  unfold flowRow, flowRowOf, flowTerms. rewrite addRow_push.
  destruct (isSink gg n).
  - rewrite !addIfVar_last.
    rewrite (fold_addIfVar (fun e => getEdgUseVar gg e f) (-1) (getAdjListIn gg n)).
    rewrite (fold_addIfVar (fun e => getEdgUseVar gg e f) 2 (getAdjListOut gg n)).
    rewrite !addTerms_addTerms. unfold addTerms. simpl.
    rewrite <- !app_assoc. reflexivity.
  - rewrite (fold_addIfVar (fun e => getEdgUseVar gg e f) (-1) (getAdjListIn gg n)).
    rewrite (fold_addIfVar (fun e => getEdgUseVar gg e f) 1 (getAdjListOut gg n)).
    rewrite !addTerms_addTerms. unfold addTerms. simpl. reflexivity.
Qed.

Lemma flowPhase_from gg lp (ns : list GridNode) :
  forall rs0,
    fold_left (flowStep INF SOFT_INF cg gg) ns (pushRows lp rs0)
    = pushRows lp (rs0 ++
        flat_map (fun n => if nonInfDeg INF SOFT_INF gg n =? 0 then []
                           else map (flowRowOf lp gg n) (combEdges cg)) ns).
Proof.
  induction ns as [|n ns IH]; intros rs0; simpl.
  - now rewrite app_nil_r.
  - unfold flowStep at 2.
    destruct (nonInfDeg INF SOFT_INF gg n =? 0).
    + apply IH.
    + rewrite forCombEdges_combEdges.
      rewrite (fold_left_ext (flowRow cg gg n)
                             (fun s f => pushRow s (flowRowOf s gg n f)))
        by (intros; apply flowRow_spec).
      rewrite (fold_pushRow_map (fun s f => flowRowOf s gg n f)) by reflexivity.
      rewrite IH, <- app_assoc. reflexivity.
Qed.

Lemma flowPhase_spec gg lp :
  flowPhase INF SOFT_INF cg gg lp = pushRows lp (flowRowsOf lp gg).
Proof.
  unfold flowPhase, flowRowsOf.
  rewrite <- (pushRows_nil lp) at 1.
  apply (flowPhase_from gg lp (getNds gg) []).
Qed.

Lemma flowPhase_Grows gg lp :
  Grows noName isAs lp (flowPhase INF SOFT_INF cg gg lp).
Proof.
  rewrite flowPhase_spec. apply Grows_pushRows.
  unfold flowRowsOf. apply Forall_forall. intros r Hr.
  apply in_flat_map in Hr. destruct Hr as (n & _ & Hr).
  destruct (nonInfDeg INF SOFT_INF gg n =? 0); [contradiction|].
  apply in_map_iff in Hr. destruct Hr as (f & <- & _). reflexivity.
Qed.

Lemma flowRowsOf_In gg lp n f :
  In n (getNds gg) -> nonInfDeg INF SOFT_INF gg n <> 0 -> In f (combEdges cg) ->
  In (flowRowOf lp gg n f) (flowRowsOf lp gg).
Proof.
  intros Hn Hd Hf. unfold flowRowsOf. apply in_flat_map. exists n. split; auto.
  destruct (nonInfDeg INF SOFT_INF gg n =? 0) eqn:E.
  - apply Nat.eqb_eq in E. contradiction.
  - apply in_map. exact Hf.
Qed.

(** The terms only depend on what the lookup answers. *)
Lemma flowTerms_ext lp lp' gg n f :
  (forall nm, isRoute nm = true -> getVarByName lp' nm = getVarByName lp nm) ->
  flowTerms lp' gg n f = flowTerms lp gg n f.
Proof.
  intros H.
  assert (Ho : forall k nm, isRoute nm = true -> optTerm lp' k nm = optTerm lp k nm).
  { intros k nm Hr. unfold optTerm. now rewrite H. }
  unfold flowTerms, termsOf. f_equal; [|f_equal].
  - destruct (isSink gg n); auto. rewrite !Ho by reflexivity. reflexivity.
  - rewrite !flat_map_concat_map, !map_map. f_equal.
    apply map_ext. intros e. apply Ho. reflexivity.
  - rewrite !flat_map_concat_map, !map_map. f_equal.
    apply map_ext. intros e. apply Ho. reflexivity.
Qed.

End Flow.

End FlowFacts.

(* ================================================================== *)
(** * Station position rows *)

Module StatPosFacts.

Import Vec Names LP Grid Comb ILP ListFacts LPFacts PhaseFacts FlowFacts.

Lemma pushCols_nil lp : pushCols lp [] = lp.
Proof. destruct lp. unfold pushCols. simpl. now rewrite app_nil_r. Qed.

(** Opening sink edges writes edge payloads and nothing else. *)
Lemma modEdgeBetween_struct gg a b f :
  exists st, modEdgeBetween gg a b f = withEdgeSt gg st.
Proof.
  unfold modEdgeBetween. destruct (getEdg gg a b).
  - eexists. reflexivity.
  - exists (edgeSt gg). destruct gg. reflexivity.
Qed.

Lemma fold_struct {X} (gg : BaseGraph) (step : BaseGraph -> X -> BaseGraph) (l : list X) :
  (forall g x, (exists st, g = withEdgeSt gg st) ->
               exists st, step g x = withEdgeSt gg st) ->
  forall g, (exists st, g = withEdgeSt gg st) ->
            exists st, fold_left step l g = withEdgeSt gg st.
Proof.
  intros Hstep g Hg.
  apply (fold_left_inv step (fun g => exists st, g = withEdgeSt gg st)); auto.
Qed.

Lemma withEdgeSt_self gg : gg = withEdgeSt gg (edgeSt gg).
Proof. destruct gg. reflexivity. Qed.

Lemma openSinkFr_struct gg st n c :
  exists st', openSinkFr (withEdgeSt gg st) n c = withEdgeSt gg st'.
Proof.
  unfold openSinkFr. apply fold_struct.
  - intros g p (st0 & ->).
    destruct (modEdgeBetween_struct (withEdgeSt gg st0) n p (stSetCost c)) as (st1 & ->).
    eexists. reflexivity.
  - eexists. reflexivity.
Qed.

Lemma openSinkTo_struct gg st n c :
  exists st', openSinkTo (withEdgeSt gg st) n c = withEdgeSt gg st'.
Proof.
  unfold openSinkTo. apply fold_struct.
  - intros g p (st0 & ->).
    destruct (modEdgeBetween_struct (withEdgeSt gg st0) p n (stSetCost c)) as (st1 & ->).
    eexists. reflexivity.
  - eexists. reflexivity.
Qed.

Section StatPos.

Variable dist : Q * Q -> Q * Q -> Q.
Variable cg : CombGraph.
Variable maxGrDist : Q.

Local Notation "'isCand'" := (ILP.isCand dist cg maxGrDist).

(** The sinks admitted for [nd], in the order of the grid nodes. *)
Definition candsOf (gg : BaseGraph) (nd : CombNode) : list GridNode :=
  filter (isCand gg nd) (getNds gg).

Definition spCol (gg : BaseGraph) (nd : CombNode) (n : GridNode) : Col :=
  mkCol (NSp (getId gg n) nd) BIN (ndMovePen gg (cGeom cg nd) n) None.

Definition unitTerms (base k : nat) : list (nat * Z) :=
  map (fun c => (c, 1%Z)) (seq base k).

(** The columns and rows of the whole part; [base] is the number of columns
    before the first round. *)
Definition statPosCols (gg : BaseGraph) (vs : list CombNode) : list Col :=
  flat_map (fun v => if cDeg cg v =? 0 then [] else map (spCol gg v) (candsOf gg v)) vs.

Fixpoint statPosRows (gg : BaseGraph) (vs : list CombNode) (base : nat) : list Row :=
  match vs with
  | [] => []
  | v :: vs' =>
      if cDeg cg v =? 0 then statPosRows gg vs' base
      else
        let k := length (candsOf gg v) in
        mkRow (NOneass v) 1 FIX (unitTerms base k) :: statPosRows gg vs' (base + k)
  end.

Lemma isCand_iff gg nd n :
  isCand gg nd n = true <->
  isSink gg n = true /\ cDeg cg nd <= getDeg gg n /\
  (dist (getGeom gg n) (cGeom cg nd) < getCellSize gg * maxGrDist)%Q.
Proof.
  unfold ILP.isCand. rewrite !andb_true_iff, !negb_true_iff, Nat.ltb_ge.
  assert (Hq : forall a b : Q, Qle_bool a b = false <-> (b < a)%Q).
  { intros a b. split.
    - intros H. apply Qnot_le_lt. intros Hle. apply Qle_bool_iff in Hle. congruence.
    - intros H. destruct (Qle_bool a b) eqn:E; auto.
      apply Qle_bool_iff in E. exfalso. apply (Qlt_not_le _ _ H E). }
  rewrite Hq. tauto.
Qed.

(** The inner loop over the grid nodes [ns]. *)
Lemma candFold gg nd (cols0 : list Col) (rows0 : list Row) (v : nat) (ns : list GridNode) :
  forall st cs r cands,
  exists st' cands',
    fold_left (candStep dist cg maxGrDist nd (length rows0)) ns
              (withEdgeSt gg st, mkSolver (cols0 ++ cs) (rows0 ++ [r]) v, cands)
    = (withEdgeSt gg st',
       mkSolver (cols0 ++ cs ++ map (spCol gg nd) (filter (isCand gg nd) ns))
                (rows0 ++ [addTerms (unitTerms (length (cols0 ++ cs))
                                               (length (filter (isCand gg nd) ns))) r])
                v,
       cands').
Proof.
  induction ns as [|n ns IH]; intros st cs r cands.
  - exists st, cands. simpl. unfold unitTerms. simpl.
    rewrite addTerms_nil, app_nil_r. reflexivity.
  - cbn [fold_left filter].
    unfold candStep at 2.
    change (ILP.isCand dist cg maxGrDist gg nd n) with
      (isSink gg n && negb (getDeg gg n <? cDeg cg nd)
       && negb (Qle_bool (getCellSize gg * maxGrDist)%Q
                         (dist (getGeom gg n) (cGeom cg nd)))).
    change (isSink (withEdgeSt gg st) n) with (isSink gg n).
    change (getDeg (withEdgeSt gg st) n) with (getDeg gg n).
    change (getGeom (withEdgeSt gg st) n) with (getGeom gg n).
    change (getCellSize (withEdgeSt gg st)) with (getCellSize gg).
    destruct (isSink gg n); [|apply IH].
    destruct (getDeg gg n <? cDeg cg nd); [apply IH|].
    destruct (Qle_bool _ _); [apply IH|].
    cbn [negb andb].
    destruct (openSinkFr_struct gg st n 0%Q) as (st1 & ->).
    destruct (openSinkTo_struct gg st1 n 0%Q) as (st2 & ->).
    rewrite addCol_push. cbv beta iota zeta.
    change (pushCol (mkSolver (cols0 ++ cs) (rows0 ++ [r]) v)
                    (mkCol (getStatPosVar (withEdgeSt gg st2) n nd) BIN
                           (ndMovePen (withEdgeSt gg st2) (cGeom cg nd) n) None))
      with (pushRow (mkSolver ((cols0 ++ cs) ++ [spCol gg nd n]) rows0 v) r).
    change (length (cols (mkSolver (cols0 ++ cs) (rows0 ++ [r]) v)))
      with (length (cols0 ++ cs)).
    rewrite (addColToRow_last (mkSolver ((cols0 ++ cs) ++ [spCol gg nd n]) rows0 v)).
    unfold pushRow. cbn [cols rows visible].
    rewrite <- app_assoc.
    destruct (IH st2 (cs ++ [spCol gg nd n])
                 (addTerms [(length (cols0 ++ cs), 1%Z)] r) ((nd, n) :: cands))
      as (st' & cands' & E).
    exists st', cands'. etransitivity; [exact E|]. f_equal. f_equal. f_equal.
    + cbn [map]. rewrite <- !app_assoc. reflexivity.
    + f_equal. rewrite addTerms_addTerms. f_equal.
      unfold unitTerms. cbn [length seq map]. f_equal.
      rewrite !length_app. cbn [length].
      replace (length cols0 + (length cs + 1)) with (S (length cols0 + length cs)) by lia.
      reflexivity.
Qed.

Lemma statPosStep_spec gg st lp cands nd :
  exists st' cands',
    statPosStep dist cg maxGrDist (withEdgeSt gg st, lp, cands) nd
    = (withEdgeSt gg st',
       pushRows (pushCols lp (statPosCols gg [nd])) (statPosRows gg [nd] (length (cols lp))),
       cands').
Proof.
  unfold statPosStep, statPosCols, statPosRows. cbn [flat_map].
  destruct (cDeg cg nd =? 0).
  - exists st, cands. cbn [app]. rewrite pushCols_nil, pushRows_nil. reflexivity.
  - rewrite addRow_push. cbv beta iota zeta.
    destruct (candFold gg nd (cols lp) (rows lp) (visible lp) (getNds gg)
                       st [] (mkRow (NOneass nd) 1 FIX []) cands)
      as (st' & cands' & E).
    exists st', cands'.
    rewrite app_nil_r in E.
    change (getNds (withEdgeSt gg st)) with (getNds gg).
    unfold pushRow. rewrite E. unfold pushRows, pushCols, candsOf. cbn.
    rewrite !app_nil_r. reflexivity.
Qed.

Lemma statPosRows_app gg vs vs' base :
  statPosRows gg (vs ++ vs') base =
  statPosRows gg vs base ++ statPosRows gg vs' (base + length (statPosCols gg vs)).
Proof.
  revert base. induction vs as [|v vs IH]; intros base; simpl.
  - now rewrite Nat.add_0_r.
  - unfold statPosCols. cbn [flat_map]. fold (statPosCols gg vs).
    destruct (cDeg cg v =? 0); simpl.
    + apply IH.
    + rewrite IH, length_app, length_map. f_equal. f_equal. f_equal. lia.
Qed.

Lemma statPosFold gg (vs : list CombNode) :
  forall st lp cands,
  exists st' cands',
    fold_left (statPosStep dist cg maxGrDist) vs (withEdgeSt gg st, lp, cands)
    = (withEdgeSt gg st',
       pushRows (pushCols lp (statPosCols gg vs)) (statPosRows gg vs (length (cols lp))),
       cands').
Proof.
  induction vs as [|v vs IH]; intros st lp cands.
  - exists st, cands. simpl. rewrite pushCols_nil, pushRows_nil. reflexivity.
  - cbn [fold_left].
    destruct (statPosStep_spec gg st lp cands v) as (st1 & cands1 & ->).
    destruct (IH st1 (pushRows (pushCols lp (statPosCols gg [v]))
                               (statPosRows gg [v] (length (cols lp)))) cands1)
      as (st' & cands' & ->).
    exists st', cands'. f_equal. f_equal.
    change (v :: vs) with ([v] ++ vs).
    rewrite statPosRows_app.
    unfold statPosCols at 4. rewrite flat_map_app. fold (statPosCols gg [v]).
    fold (statPosCols gg vs).
    unfold pushRows, pushCols. cbn [cols rows visible].
    rewrite !length_app, !app_assoc. reflexivity.
Qed.

(** The station position part as a whole. *)
Lemma statPosPhase_spec gg :
  exists st cands,
    statPosPhase dist cg maxGrDist (gg, emptySolver, [])
    = (withEdgeSt gg st,
       mkSolver (statPosCols gg (cgNds cg)) (statPosRows gg (cgNds cg) 0) 0,
       cands).
Proof.
  unfold statPosPhase.
  destruct (statPosFold gg (cgNds cg) (edgeSt gg) emptySolver []) as (st & cands & E).
  exists st, cands.
  rewrite <- (withEdgeSt_self gg) in E. exact E.
Qed.

(** Reading the rows: node [v] of positive degree owns the row [oneass(v)];
    its terms are the columns [base .. base + k - 1], which are the [sp]
    columns of its candidates. *)
Lemma statPosRows_In gg (vs : list CombNode) v :
  forall base,
    In v vs -> cDeg cg v <> 0 ->
    exists b,
      base <= b /\
      In (mkRow (NOneass v) 1 FIX (unitTerms b (length (candsOf gg v))))
         (statPosRows gg vs base) /\
      forall k, k < length (candsOf gg v) ->
        nth_error (skipn (b - base) (statPosCols gg vs)) k
        = option_map (spCol gg v) (nth_error (candsOf gg v) k).
Proof.
  induction vs as [|w vs IH]; intros base Hin Hd; [contradiction|].
  cbn [statPosRows]. unfold statPosCols. cbn [flat_map]. fold (statPosCols gg vs).
  destruct Hin as [-> | Hin].
  - destruct (cDeg cg v =? 0) eqn:E; [apply Nat.eqb_eq in E; contradiction|].
    exists base. split; [lia|]. split; [simpl; auto|].
    intros k Hk. rewrite Nat.sub_diag. cbn [skipn].
    rewrite nth_error_app1 by (rewrite length_map; exact Hk).
    apply nth_error_map.
  - destruct (cDeg cg w =? 0).
    + destruct (IH base Hin Hd) as (b & Hb & Hr & Hc). exists b. auto.
    + destruct (IH (base + length (candsOf gg w)) Hin Hd) as (b & Hb & Hr & Hc).
      exists b. split; [lia|]. split; [simpl; auto|].
      intros k Hk. rewrite <- (Hc k Hk). f_equal.
      replace (b - base) with (length (map (spCol gg w) (candsOf gg w))
                               + (b - (base + length (candsOf gg w))))
        by (rewrite length_map; lia).
      rewrite skipn_app.
      rewrite skipn_all2 by lia. cbn [app].
      f_equal. lia.
Qed.

Lemma statPosRows_names gg (vs : list CombNode) :
  forall base r, In r (statPosRows gg vs base) ->
                 exists v, In v vs /\ cDeg cg v <> 0 /\ rowName r = NOneass v.
Proof.
  induction vs as [|w vs IH]; intros base r Hr; [contradiction|].
  cbn [statPosRows] in Hr.
  destruct (cDeg cg w =? 0) eqn:E.
  - destruct (IH _ _ Hr) as (v & Hv & Hd & Hn). exists v. simpl; auto.
  - destruct Hr as [<- | Hr].
    + exists w. apply Nat.eqb_neq in E. simpl; auto.
    + destruct (IH _ _ Hr) as (v & Hv & Hd & Hn). exists v. simpl; auto.
Qed.

Lemma statPosCols_names gg (vs : list CombNode) c :
  In c (statPosCols gg vs) ->
  exists v n, In v vs /\ cDeg cg v <> 0 /\ In n (candsOf gg v) /\ c = spCol gg v n.
Proof.
  unfold statPosCols. intros H. apply in_flat_map in H.
  destruct H as (v & Hv & Hc).
  destruct (cDeg cg v =? 0) eqn:E; [contradiction|].
  apply in_map_iff in Hc. destruct Hc as (n & <- & Hn).
  exists v, n. apply Nat.eqb_neq in E. auto.
Qed.

(** With every node listed once there is one row per node. *)
Lemma statPosRows_count gg (vs : list CombNode) v :
  forall base,
    NoDup vs -> In v vs -> cDeg cg v <> 0 ->
    length (filter (fun r => name_eqb (rowName r) (NOneass v)) (statPosRows gg vs base)) = 1.
Proof.
  induction vs as [|w vs IH]; intros base Hnd Hin Hd; [contradiction|].
  inversion Hnd as [|? ? Hnotin Hnd']; subst.
  cbn [statPosRows].
  destruct Hin as [-> | Hin].
  - destruct (cDeg cg v =? 0) eqn:E; [apply Nat.eqb_eq in E; contradiction|].
    cbn [filter rowName]. rewrite name_eqb_refl. cbn [length]. f_equal.
    apply length_zero_iff_nil.
    destruct (filter _ _) as [|r rs] eqn:F; auto.
    assert (Hr : In r (filter (fun r => name_eqb (rowName r) (NOneass v))
                              (statPosRows gg vs (base + length (candsOf gg v))))).
    { rewrite F. simpl; auto. }
    apply filter_In in Hr. destruct Hr as [Hr Hn].
    apply name_eqb_eq in Hn.
    destruct (statPosRows_names _ _ _ _ Hr) as (v' & Hv' & _ & Hn').
    rewrite Hn in Hn'. injection Hn' as <-. contradiction.
  - destruct (cDeg cg w =? 0).
    + apply IH; auto.
    + cbn [filter rowName].
      destruct (name_eqb (NOneass w) (NOneass v)) eqn:E.
      * apply name_eqb_eq in E. injection E as ->. contradiction.
      * apply IH; auto.
Qed.

End StatPos.

End StatPosFacts.

(* ================================================================== *)
(** * Circular ordering rows *)

Module OrderFacts.

Import Vec Names LP Grid Comb ILP ListFacts LPFacts PhaseFacts FlowFacts StatPosFacts.

Section Order.

Variable cg : CombGraph.

Definition vulnColOf (nd : CombNode) (i : nat) : Col := mkCol (NVuln nd i) BIN 0%Q None.

(** The names this part may add: they all belong to nodes of degree 3 or more. *)
Definition ordCol (nm : Name) : bool :=
  match nm with
  | NVuln v _ => 3 <=? cDeg cg v
  | _ => false
  end.

Definition ordRow (nm : Name) : bool :=
  match nm with
  | NVc v | NOc v _ => 3 <=? cDeg cg v
  | _ => false
  end.

(** The loop that adds the [vuln] columns to the row [vc]. *)
Lemma vulnFold nd (cols0 : list Col) (rows0 : list Row) (v : nat) (ixs : list nat) :
  forall cs r,
    fold_left (vulnCol nd (length rows0)) ixs (mkSolver (cols0 ++ cs) (rows0 ++ [r]) v)
    = mkSolver (cols0 ++ cs ++ map (vulnColOf nd) ixs)
               (rows0 ++ [addTerms (unitTerms (length (cols0 ++ cs)) (length ixs)) r])
               v.
Proof.
  induction ixs as [|i ixs IH]; intros cs r.
  - simpl. unfold unitTerms. simpl. rewrite addTerms_nil, app_nil_r. reflexivity.
  - cbn [fold_left]. unfold vulnCol at 2. rewrite addCol_push. cbv beta iota zeta.
    change (pushCol (mkSolver (cols0 ++ cs) (rows0 ++ [r]) v) (mkCol (NVuln nd i) BIN 0%Q None))
      with (pushRow (mkSolver ((cols0 ++ cs) ++ [vulnColOf nd i]) rows0 v) r).
    change (length (cols (mkSolver (cols0 ++ cs) (rows0 ++ [r]) v)))
      with (length (cols0 ++ cs)).
    rewrite (addColToRow_last (mkSolver ((cols0 ++ cs) ++ [vulnColOf nd i]) rows0 v)).
    unfold pushRow. cbn [cols rows visible].
    rewrite <- app_assoc.
    etransitivity; [apply (IH (cs ++ [vulnColOf nd i]))|].
    f_equal.
    + cbn [map]. rewrite <- !app_assoc. reflexivity.
    + f_equal. rewrite addTerms_addTerms. f_equal. f_equal.
      unfold unitTerms. cbn [length seq map]. f_equal.
      rewrite !length_app. cbn [length].
      replace (length cols0 + (length cs + 1)) with (S (length cols0 + length cs)) by lia.
      reflexivity.
Qed.

(** The row [oc(nd, i)] as seen from the columns of [s]. *)
Definition ocRowAt (gg : BaseGraph) (nd : CombNode) (s : Solver) (i : nat) (r : Row) : Prop :=
  exists a b colA colB vc,
    orderPred (cOrder cg nd) i = Some a /\
    nth_error (cOrder cg nd) i = Some b /\
    a <> b /\
    getVarByName s (NDir nd a) = Some colA /\
    getVarByName s (NDir nd b) = Some colB /\
    getVarByName s (NVuln nd i) = Some vc /\
    r = mkRow (NOc nd i) 1 LO [(colB, 1%Z); (colA, (-1)%Z); (vc, Z.of_nat (maxDeg gg))].

Lemma orderRow_spec gg nd s i s' :
  orderRow gg nd (cOrder cg nd) s i = Some s' ->
  exists r, ocRowAt gg nd s i r /\ s' = pushRow s r.
Proof.
  unfold orderRow. intros H.
  destruct (orderPred (cOrder cg nd) i) as [a|] eqn:Ea; [|discriminate].
  destruct (nth_error (cOrder cg nd) i) as [b|] eqn:Eb; [|discriminate].
  destruct (a =? b) eqn:Eab; [discriminate|].
  destruct (getVarByName s (NDir nd a)) as [colA|] eqn:EA; [|discriminate].
  destruct (getVarByName s (NDir nd b)) as [colB|] eqn:EB; [|discriminate].
  rewrite addRow_push in H. rewrite getVarByName_pushRow in H.
  destruct (getVarByName s (NVuln nd i)) as [vc|] eqn:EV; [|discriminate].
  rewrite !addColToRow_last in H. injection H as <-.
  eexists. split; [|reflexivity].
  exists a, b, colA, colB, vc. apply Nat.eqb_neq in Eab.
  repeat split; auto.
Qed.

Lemma orderRows_fold gg nd (ixs : list nat) :
  forall s s',
    foldM (orderRow gg nd (cOrder cg nd)) ixs s = Some s' ->
    exists rs, s' = pushRows s rs /\ Forall2 (ocRowAt gg nd s) ixs rs.
Proof.
  induction ixs as [|i ixs IH]; intros s s' H; simpl in H.
  - injection H as <-. exists []. rewrite pushRows_nil. auto.
  - destruct (orderRow gg nd (cOrder cg nd) s i) as [s1|] eqn:E; [|discriminate].
    destruct (orderRow_spec _ _ _ _ E) as (r & Hr & ->).
    destruct (IH _ _ H) as (rs & -> & Hrs).
    exists (r :: rs). split.
    + unfold pushRows, pushRow. simpl. rewrite <- app_assoc. reflexivity.
    + constructor; auto.
Qed.

(** What one round leaves behind for a node of degree 3 or more. *)
Definition OrderPost (gg : BaseGraph) (nd : CombNode) (lp : Solver) : Prop :=
  (exists base,
      (forall i, i < cDeg cg nd -> nth_error (cols lp) (base + i) = Some (vulnColOf nd i)) /\
      In (mkRow (NVc nd) 1 FIX (unitTerms base (cDeg cg nd))) (rows lp)) /\
  2 < length (cOrder cg nd) /\
  forall i, i < length (cOrder cg nd) ->
            exists r, ocRowAt gg nd lp i r /\ In r (rows lp).

Lemma Forall2_seq_nth {B} (P : nat -> B -> Prop) (n : nat) :
  forall a (l : list B),
    Forall2 P (seq a n) l ->
    forall i, i < n -> exists r, nth_error l i = Some r /\ P (a + i) r.
Proof.
  induction n as [|n IH]; intros a l H i Hi; [lia|].
  simpl in H. inversion H as [|x r xs rs Hx Hxs]; subst.
  destruct i as [|i].
  - exists r. rewrite Nat.add_0_r. auto.
  - destruct (IH _ _ Hxs i ltac:(lia)) as (r' & Hn & Hp).
    exists r'. split; auto. now rewrite Nat.add_succ_r.
Qed.

Lemma Forall2_In_right {A B} (P : A -> B -> Prop) (l : list A) (rs : list B) :
  Forall2 P l rs -> forall r, In r rs -> exists x, In x l /\ P x r.
Proof.
  induction 1 as [|x r l rs Hx Hl IH]; intros r0 Hr; [contradiction|].
  destruct Hr as [<- | Hr].
  - exists x. simpl; auto.
  - destruct (IH _ Hr) as (x' & Hx' & Hp). exists x'. simpl; auto.
Qed.

Lemma orderStep_small gg lp nd lp' :
  orderStep cg gg lp nd = Some lp' -> cDeg cg nd < 3 -> lp' = lp.
Proof.
  unfold orderStep. intros H Hd.
  apply Nat.ltb_lt in Hd. rewrite Hd in H. now injection H.
Qed.

Lemma orderStep_post gg lp nd lp' :
  orderStep cg gg lp nd = Some lp' ->
  visible lp <= length (cols lp) ->
  3 <= cDeg cg nd ->
  OrderPost gg nd lp' /\ Grows ordCol ordRow lp lp' /\ updated lp'.
Proof.
  unfold orderStep. intros H Hwf Hd.
  assert (Hd' : (cDeg cg nd <? 3) = false) by (apply Nat.ltb_ge; exact Hd).
  rewrite Hd' in H. rewrite addRow_push in H. cbv beta iota zeta in H.
  unfold pushRow in H.
  rewrite <- (app_nil_r (cols lp)) in H at 1.
  rewrite vulnFold in H. cbn [app] in H.
  rewrite app_nil_r in H.
  destruct (2 <? length (cOrder cg nd)) eqn:El; [|discriminate].
  cbn [negb] in H.
  apply orderRows_fold in H. destruct H as (rs & -> & Hrs).
  set (vcRow := addTerms (unitTerms (length (cols lp)) (length (seq 0 (cDeg cg nd))))
                         (mkRow (NVc nd) 1 FIX [])) in *.
  set (lpA := update (mkSolver (cols lp ++ map (vulnColOf nd) (seq 0 (cDeg cg nd)))
                               (rows lp ++ [vcRow]) (visible lp))) in *.
  assert (HvcRow : vcRow = mkRow (NVc nd) 1 FIX (unitTerms (length (cols lp)) (cDeg cg nd))).
  { unfold vcRow, addTerms. simpl. now rewrite length_seq. }
  split; [|split].
  - split; [|split].
    + exists (length (cols lp)). split.
      * intros i Hi. simpl. rewrite nth_error_app2 by lia.
        replace (length (cols lp) + i - length (cols lp)) with i by lia.
        rewrite nth_error_map.
        assert (Hs : nth_error (seq 0 (cDeg cg nd)) i = Some i).
        { rewrite nth_error_nth' with (d := 0) by (rewrite length_seq; exact Hi).
          rewrite seq_nth by exact Hi. reflexivity. }
        rewrite Hs. reflexivity.
      * simpl. rewrite <- HvcRow. apply in_or_app. left. apply in_or_app. right.
        simpl; auto.
    + apply Nat.ltb_lt. exact El.
    + intros i Hi.
      destruct (@Forall2_seq_nth _ _ _ _ _ Hrs _ Hi) as (r & Hn & Hp).
      exists r. split.
      * exact Hp.
      * simpl. apply in_or_app. right. eapply nth_error_In; eauto.
  - intros _. simpl. rewrite length_app. split; [lia|]. split; [lia|].
    exists (map (vulnColOf nd) (seq 0 (cDeg cg nd))), (vcRow :: rs).
    split; [reflexivity|]. split; [now rewrite <- app_assoc|]. split.
    + apply Forall_forall. intros c Hc. apply in_map_iff in Hc.
      destruct Hc as (i & <- & _).
      change ((3 <=? cDeg cg nd) = true). now apply Nat.leb_le.
    + constructor.
      * rewrite HvcRow. change ((3 <=? cDeg cg nd) = true). now apply Nat.leb_le.
      * apply Forall_forall. intros r Hr.
        destruct (@Forall2_In_right _ _ _ _ _ Hrs _ Hr) as (i & _ & Hp).
        destruct Hp as (a & b & colA & colB & vc & _ & _ & _ & _ & _ & _ & ->).
        change ((3 <=? cDeg cg nd) = true). now apply Nat.leb_le.
  - reflexivity.
Qed.

Lemma updated_wf lp : updated lp -> visible lp <= length (cols lp).
Proof. unfold updated. lia. Qed.

Lemma OrderPost_Grows (KC KR : Name -> bool) gg nd lp lp' :
  OrderPost gg nd lp -> Grows KC KR lp lp' -> updated lp -> OrderPost gg nd lp'.
Proof.
  intros ((base & Hc & Hr) & Hl & Hoc) HG Hu.
  pose proof (updated_wf Hu) as Hwf.
  split; [|split]; auto.
  - exists base. split.
    + intros i Hi. eapply Grows_cols; eauto.
    + eapply Grows_rows; eauto.
  - intros i Hi. destruct (Hoc i Hi) as (r & Hp & Hin).
    exists r. split; [|eapply Grows_rows; eauto].
    destruct Hp as (a & b & colA & colB & vc & H1 & H2 & H3 & H4 & H5 & H6 & H7).
    exists a, b, colA, colB, vc.
    repeat split; auto; eapply Grows_lookup_some; eauto.
Qed.

Lemma orderPhase_post gg (vs : list CombNode) :
  forall lp lp',
    foldM (orderStep cg gg) vs lp = Some lp' -> updated lp ->
    updated lp' /\ Grows ordCol ordRow lp lp' /\
    forall v, In v vs -> 3 <= cDeg cg v -> OrderPost gg v lp'.
Proof.
  induction vs as [|w vs IH]; intros lp lp' H Hu; simpl in H.
  - injection H as <-. split; [exact Hu|]. split; [apply Grows_refl|].
    intros v [].
  - destruct (orderStep cg gg lp w) as [lp1|] eqn:E; [|discriminate].
    destruct (le_lt_dec 3 (cDeg cg w)) as [Hd | Hd].
    + destruct (orderStep_post _ _ _ E (updated_wf Hu) Hd) as (Hpost & HG1 & Hu1).
      destruct (IH _ _ H Hu1) as (Hu' & HG & Hall).
      split; [exact Hu'|]. split; [eapply Grows_trans; eauto|].
      intros v [<- | Hv] Hdv.
      * eapply OrderPost_Grows; eauto.
      * apply Hall; auto.
    + pose proof (orderStep_small _ _ _ E Hd) as ->.
      destruct (IH _ _ H Hu) as (Hu' & HG & Hall).
      split; [exact Hu'|]. split; [exact HG|].
      intros v [<- | Hv] Hdv; [lia | apply Hall; auto].
Qed.

End Order.

End OrderFacts.

(* ================================================================== *)
(** * Bend angle rows *)

Module AngleFacts.

Import Vec Names LP Grid Comb ILP ListFacts LPFacts PhaseFacts FlowFacts StatPosFacts
       OrderFacts.

Lemma addColToRow_at cs (rs blk : list Row) v k c x :
  addColToRow (mkSolver cs (rs ++ blk) v) (length rs + k) c x
  = mkSolver cs (rs ++ upd blk k (addTerms [(c, x)])) v.
Proof.
  unfold addColToRow. simpl. rewrite upd_app_r. reflexivity.
Qed.

Lemma getVarByName_pushCol lp c nm :
  visible lp <= length (cols lp) ->
  getVarByName (pushCol lp c) nm = getVarByName lp nm.
Proof. intros Hwf. apply (getVarByName_pushCols lp [c] nm Hwf). Qed.

Lemma addColToRow_at0 cs (rs blk : list Row) v c x :
  addColToRow (mkSolver cs (rs ++ blk) v) (length rs) c x
  = mkSolver cs (rs ++ upd blk 0 (addTerms [(c, x)])) v.
Proof.
  rewrite <- (Nat.add_0_r (length rs)) at 1. apply addColToRow_at.
Qed.

Lemma getVarByName_mk lp cs rs nm :
  visible lp <= length (cols lp) ->
  getVarByName (mkSolver (cols lp ++ cs) rs (visible lp)) nm = getVarByName lp nm.
Proof. intros Hwf. apply (getVarByName_pushCols lp cs nm Hwf). Qed.

(** States are brought to the form [mkSolver cols (rows ++ block) visible]. *)
Ltac normState H :=
  repeat (first [ rewrite addColToRow_at0 in H
                | rewrite addColToRow_at in H
                | rewrite <- app_assoc in H
                | rewrite length_app in H
                | progress cbn [upd cols rows visible app length fst snd] in H ]).

Section Angle.

Variable cg : CombGraph.

(** The names this part may add: they belong to pairs that share a line. *)
Definition angCol (nm : Name) : bool :=
  match nm with
  | NNegdist a b | NBucket _ _ a b => negb (sharedLines cg a b =? 0)
  | _ => false
  end.

Definition angRow (nm : Name) : bool :=
  match nm with
  | NNcLo a b | NNcUp a b | NAc a b | NAsc a b => negb (sharedLines cg a b =? 0)
  | _ => false
  end.

(** The column of round [k] of the bucket loop. *)
Definition bucketColAt (pens : list Q) (a b : CombEdge) (k : nat) (c : Col) : Prop :=
  exists pen,
    nth_error pens (fst (bucketIdx (length pens) k)) = Some pen /\
    c = mkCol (NBucket (snd (bucketIdx (length pens) k))
                       (fst (bucketIdx (length pens) k)) a b) BIN pen None.

Definition angTerms (cn : nat) (ks : list nat) : list (nat * Z) :=
  map (fun k => (cn + 1 + k, (- (Z.of_nat k + 1))%Z)) ks.

Definition sumTerms (cn : nat) (ks : list nat) : list (nat * Z) :=
  map (fun k => (cn + 1 + k, 1%Z)) ks.

Lemma bucketStep_spec (pens : list Q) (a b : CombEdge) (cs : list Col) (rows0 : list Row)
      (v : nat) (r1 r2 rA rS : Row) (k : nat) s' :
  bucketStep pens a b (length rows0 + 2) (length rows0 + 3)
             (mkSolver cs (rows0 ++ [r1; r2; rA; rS]) v) k = Some s' ->
  exists c,
    bucketColAt pens a b k c /\
    s' = mkSolver (cs ++ [c])
                  (rows0 ++ [r1; r2;
                             addTerms [(length cs, (- (Z.of_nat k + 1))%Z)] rA;
                             addTerms [(length cs, 1%Z)] rS])
                  v.
Proof.
  unfold bucketStep, bucketColAt. intros H.
  destruct (bucketIdx (length pens) k) as [pp primed] eqn:Eb.
  destruct (nth_error pens pp) as [pen|] eqn:Ep; [|discriminate].
  rewrite addCol_push in H. cbv beta iota zeta in H.
  unfold pushCol in H. cbn [cols rows visible] in H.
  rewrite !addColToRow_at in H. cbn [upd] in H.
  injection H as <-.
  exists (mkCol (NBucket primed pp a b) BIN pen None). split; [|reflexivity].
  exists pen. simpl. auto.
Qed.

Lemma bucketFold (pens : list Q) (a b : CombEdge) (cols0 : list Col) (rows0 : list Row)
      (v : nat) (neg : Col) (r1 r2 : Row) (n : nat) :
  forall k0 bc rA rS lp',
    length bc = k0 ->
    foldM (bucketStep pens a b (length rows0 + 2) (length rows0 + 3)) (seq k0 n)
          (mkSolver (cols0 ++ neg :: bc) (rows0 ++ [r1; r2; rA; rS]) v) = Some lp' ->
    exists bc',
      Forall2 (bucketColAt pens a b) (seq k0 n) bc' /\
      lp' = mkSolver (cols0 ++ neg :: bc ++ bc')
                     (rows0 ++ [r1; r2;
                                addTerms (angTerms (length cols0) (seq k0 n)) rA;
                                addTerms (sumTerms (length cols0) (seq k0 n)) rS])
                     v.
Proof.
  induction n as [|n IH]; intros k0 bc rA rS lp' Hlen H.
  - change (seq k0 0) with (@nil nat) in *. cbn [foldM] in H.
    injection H as <-. exists []. split; [apply Forall2_nil|].
    unfold angTerms, sumTerms. simpl. rewrite !addTerms_nil, app_nil_r. reflexivity.
  - cbn [seq foldM] in H.
    destruct (bucketStep _ _ _ _ _ _ k0) as [s1|] eqn:E; [|discriminate].
    apply bucketStep_spec in E. destruct E as (c & Hc & ->).
    rewrite <- app_assoc in H.
    change ((neg :: bc) ++ [c]) with (neg :: (bc ++ [c])) in H.
    apply IH in H; [|rewrite length_app; simpl; lia].
    destruct H as (bc' & Hbc' & ->).
    exists (c :: bc'). split.
    + constructor; auto.
    + f_equal.
      * rewrite <- app_assoc. reflexivity.
      * rewrite !addTerms_addTerms. f_equal. f_equal. f_equal.
        f_equal; [|f_equal]; f_equal.
        -- unfold angTerms. cbn [seq map app]. f_equal. f_equal.
           rewrite length_app. simpl. lia.
        -- unfold sumTerms. cbn [seq map app]. f_equal. f_equal.
           rewrite length_app. simpl. lia.
Qed.

(** What the round for the pair [(a, b)] at node [nd] leaves behind: the
    column [negdist], the bucket columns right after it, and the four rows.
    [base] is the state the direction columns are looked up in. *)
Definition AnglePost (gg : BaseGraph) (nd : CombNode) (ab : CombEdge * CombEdge)
           (base lp : Solver) : Prop :=
  let a := fst ab in
  let b := snd ab in
  sharedLines cg a b <> 0 ->
  exists colA colB cn,
    getVarByName base (NDir nd a) = Some colA /\
    getVarByName base (NDir nd b) = Some colB /\
    nth_error (cols lp) cn = Some (mkCol (NNegdist a b) BIN 0%Q None) /\
    (forall k, k < maxDeg gg - 1 ->
               exists c, nth_error (cols lp) (cn + 1 + k) = Some c /\
                         bucketColAt (getCosts gg) a b k c) /\
    let md := Z.of_nat (maxDeg gg) in
    let dTerms := [(colA, 1%Z); (colB, (-1)%Z); (cn, md)] in
    In (mkRow (NNcLo a b) 0 LO dTerms) (rows lp) /\
    In (mkRow (NNcUp a b) (Z.of_nat (maxDeg gg - 1)) UP dTerms) (rows lp) /\
    In (mkRow (NAc a b) 0 FIX (dTerms ++ angTerms cn (seq 0 (maxDeg gg - 1)))) (rows lp) /\
    In (mkRow (NAsc a b) 1 UP (sumTerms cn (seq 0 (maxDeg gg - 1)))) (rows lp).

Lemma anglePair_post gg nd a lp b lp' :
  anglePair cg gg nd a lp b = Some lp' ->
  visible lp <= length (cols lp) ->
  Adds angCol angRow lp lp' /\ a <> b /\ AnglePost gg nd (a, b) lp lp'.
Proof.
  unfold anglePair. intros H Hwf.
  destruct (a =? b) eqn:Eab; [discriminate|]. apply Nat.eqb_neq in Eab.
  destruct (sharedLines cg a b =? 0) eqn:Esh.
  { injection H as <-. split; [apply Adds_refl|]. split; [exact Eab|].
    intros Hs. apply Nat.eqb_eq in Esh. simpl in Hs. contradiction. }
  unfold addCol, addColB, addRow in H. cbv beta iota zeta in H.
  cbn [cols rows visible fst snd] in H.
  rewrite <- !app_assoc in H. cbn [app] in H.
  rewrite (getVarByName_mk lp _ _ _ Hwf) in H.
  destruct (getVarByName lp (NDir nd a)) as [colA|] eqn:EA; [|discriminate].
  normState H.
  rewrite (getVarByName_mk lp _ _ _ Hwf) in H.
  destruct (getVarByName lp (NDir nd b)) as [colB|] eqn:EB; [|discriminate].
  normState H.
  apply (@bucketFold (getCosts gg) a b (cols lp) (rows lp) (visible lp) _ _ _
                     (maxDeg gg - 1) 0 [] _ _ lp' eq_refl) in H.
  destruct H as (bc & Hbc & ->).
  unfold addTerms. cbn [rowName rowRhs rowType rowTerms app].
  split; [|split; [exact Eab|]].
  - split; [reflexivity|]. cbn [cols rows].
    eexists. eexists. split; [reflexivity|]. split; [reflexivity|].
    assert (Hk : negb (sharedLines cg a b =? 0) = true) by (rewrite Esh; reflexivity).
    split.
    + constructor; [exact Hk|].
      apply Forall_forall. intros c Hc.
      destruct (@Forall2_In_right _ _ _ _ _ Hbc _ Hc) as (k & _ & pen & _ & ->).
      exact Hk.
    + repeat constructor; exact Hk.
  - intros _. cbn [fst snd].
    exists colA, colB, (length (cols lp)).
    split; [exact EA|]. split; [exact EB|]. cbn [cols rows]. split; [|split].
    + rewrite nth_error_app2 by lia. rewrite Nat.sub_diag. reflexivity.
    + intros k Hk.
      destruct (@Forall2_seq_nth _ _ _ _ _ Hbc _ Hk) as (c & Hn & Hp).
      exists c. split; [|exact Hp].
      rewrite nth_error_app2 by lia.
      replace (length (cols lp) + 1 + k - length (cols lp)) with (S k) by lia.
      exact Hn.
    + cbv zeta. repeat split; apply in_or_app; right; simpl; auto.
Qed.

(** The pairs [(adj[i], adj[j])], [i < j], in loop order. *)
Fixpoint pairsOf (l : list CombEdge) : list (CombEdge * CombEdge) :=
  match l with
  | [] => []
  | a :: rest => map (pair a) rest ++ pairsOf rest
  end.

Lemma foldM_map {S X Y} (f : S -> Y -> option S) (g : X -> Y) (l : list X) :
  forall s, foldM f (map g l) s = foldM (fun s x => f s (g x)) l s.
Proof.
  induction l as [|x l IH]; intros s; simpl; auto.
  destruct (f s (g x)); auto.
Qed.

Lemma angleNode_pairs gg nd (adj : list CombEdge) :
  forall lp,
    angleNode cg gg nd adj lp
    = foldM (fun lp ab => anglePair cg gg nd (fst ab) lp (snd ab)) (pairsOf adj) lp.
Proof.
  induction adj as [|a rest IH]; intros lp; simpl; auto.
  rewrite foldM_app, foldM_map. simpl.
  destruct (foldM _ rest lp); auto.
Qed.

Lemma AnglePost_mono gg nd ab base s s' :
  AnglePost gg nd ab base s -> Adds angCol angRow s s' -> AnglePost gg nd ab base s'.
Proof.
  intros H Ha Hsh.
  destruct (H Hsh) as (colA & colB & cn & HA & HB & Hn & Hb & H1 & H2 & H3 & H4).
  exists colA, colB, cn. repeat split; auto.
  - eapply Adds_cols; eauto.
  - intros k Hk. destruct (Hb k Hk) as (c & Hc & Hp). exists c. split; auto.
    eapply Adds_cols; eauto.
  - eapply Adds_rows; eauto.
  - eapply Adds_rows; eauto.
  - eapply Adds_rows; eauto.
  - eapply Adds_rows; eauto.
Qed.

Lemma AnglePost_base gg nd ab base base' s :
  AnglePost gg nd ab base' s -> Adds angCol angRow base base' ->
  visible base <= length (cols base) -> AnglePost gg nd ab base s.
Proof.
  intros H Ha Hwf Hsh.
  destruct (H Hsh) as (colA & colB & cn & HA & HB & Hrest).
  exists colA, colB, cn.
  rewrite (Adds_lookup _ Ha Hwf) in HA. rewrite (Adds_lookup _ Ha Hwf) in HB. auto.
Qed.

(** All pairs of one node. *)
Definition NodePost (gg : BaseGraph) (nd : CombNode) (base lp : Solver) : Prop :=
  forall ab, In ab (pairsOf (cAdjList cg nd)) ->
             fst ab <> snd ab /\ AnglePost gg nd ab base lp.

Lemma angleNode_post gg nd lp lp' :
  angleNode cg gg nd (cAdjList cg nd) lp = Some lp' ->
  visible lp <= length (cols lp) ->
  Adds angCol angRow lp lp' /\ NodePost gg nd lp lp'.
Proof.
  rewrite angleNode_pairs. intros H Hwf.
  apply (foldM_adds (KC := angCol) (KR := angRow)
           (fun ab b s => fst ab <> snd ab /\ AnglePost gg nd ab b s)) in H; auto.
  - intros s [a b] s' E Hs. cbn [fst snd] in *.
    destruct (anglePair_post _ _ _ _ _ E Hs) as (Ha & Hab & Hp). auto.
  - intros ab b s s' [Hne Hp] Ha. split; auto. eapply AnglePost_mono; eauto.
  - intros ab b b' s [Hne Hp] Ha Hb. split; auto. eapply AnglePost_base; eauto.
Qed.

Lemma anglePhase_post gg lp lp' :
  anglePhase cg gg lp = Some lp' ->
  visible lp <= length (cols lp) ->
  Adds angCol angRow lp lp' /\ forall v, In v (cgNds cg) -> NodePost gg v lp lp'.
Proof.
  unfold anglePhase. intros H Hwf.
  apply (foldM_adds (KC := angCol) (KR := angRow)
           (fun v b s => NodePost gg v b s)) in H; auto.
  - intros s v s' E Hs. apply angleNode_post; auto.
  - intros v b s s' Hp Ha ab Hab. destruct (Hp ab Hab) as [Hne H1].
    split; auto. eapply AnglePost_mono; eauto.
  - intros v b b' s Hp Ha Hb ab Hab. destruct (Hp ab Hab) as [Hne H1].
    split; auto. eapply AnglePost_base; eauto.
Qed.

End Angle.

End AngleFacts.

(* ================================================================== *)
(** * [createProblem] as a whole *)

Module CreateProblemFacts.

Import Vec Names LP Grid Comb ILP ListFacts LPFacts PhaseFacts FlowFacts StatPosFacts
       OrderFacts AngleFacts.

Section Whole.

Variables INF SOFT_INF : Q.
Variable dist : Q * Q -> Q * Q -> Q.
Variable cg : CombGraph.
Variable geoPensMap : option (CombEdge -> nat -> Q).
Variable maxGrDist : Q.

Local Notation "'createProblem'" :=
  (ILP.createProblem INF SOFT_INF dist cg geoPensMap maxGrDist).

(** The names of the station position part belong to nodes with edges. *)
Definition spColK (nm : Name) : bool :=
  match nm with
  | NSp _ v => negb (cDeg cg v =? 0)
  | _ => false
  end.

Definition oneassRowK (nm : Name) : bool :=
  match nm with
  | NOneass v => negb (cDeg cg v =? 0)
  | _ => false
  end.

(** Every name the model can hold. *)
Definition allCol (nm : Name) : bool :=
  spColK nm || isEdg nm || isDir nm || ordCol cg nm || angCol cg nm.

Definition allRow (nm : Name) : bool :=
  oneassRowK nm || isUe nm || isAs nm || isSs nm || isIu nm || isNc nm || isDc nm
  || ordRow cg nm || angRow cg nm.

(** The intermediate states of a successful run. *)
Inductive Run (gg gg' : BaseGraph) (lp : Solver) : Prop :=
| mkRun (st : GridEdge -> EdgeSt) (cands : Cands)
        (lp1 lp2 lp3 lp4 lp8 lp9 lp10 : Solver) :
    gg' = withEdgeSt gg st ->
    lp1 = mkSolver (statPosCols dist cg maxGrDist gg (cgNds cg))
                   (statPosRows dist cg maxGrDist gg (cgNds cg) 0) 0 ->
    lp2 = update (edgUsePhase INF SOFT_INF cg geoPensMap gg' cands lp1) ->
    uniqueEdgePhase INF SOFT_INF cg gg' lp2 = Some lp3 ->
    lp4 = update (flowPhase INF SOFT_INF cg gg' lp3) ->
    Grows isDir (fun nm => isSs nm || isIu nm || isNc nm || isDc nm) lp4 lp8 ->
    updated lp8 ->
    orderPhase cg gg' lp8 = Some lp9 ->
    anglePhase cg gg' (update lp9) = Some lp10 ->
    lp = update lp10 ->
    Run gg gg' lp.

Lemma orb_intro_l (a b : bool) : a = true -> a || b = true.
Proof. intros ->. reflexivity. Qed.

Lemma orb_intro_r (a b : bool) : b = true -> a || b = true.
Proof. intros ->. apply orb_true_r. Qed.

Lemma createProblem_Run gg gg' lp :
  createProblem gg = Some (gg', lp) -> Run gg gg' lp.
Proof.
  unfold ILP.createProblem. intros H.
  destruct (statPosPhase_spec dist cg maxGrDist gg) as (st & cands & E1).
  rewrite E1 in H.
  set (g1 := withEdgeSt gg st) in *.
  set (lp1 := mkSolver (statPosCols dist cg maxGrDist gg (cgNds cg))
                       (statPosRows dist cg maxGrDist gg (cgNds cg) 0) 0) in *.
  set (lp2 := update (edgUsePhase INF SOFT_INF cg geoPensMap g1 cands lp1)) in *.
  destruct (uniqueEdgePhase INF SOFT_INF cg g1 lp2) as [lp3|] eqn:E3; [|discriminate].
  set (lp4 := update (flowPhase INF SOFT_INF cg g1 lp3)) in *.
  destruct (sinkEdgePhase cg g1 cands lp4) as [lp5|] eqn:E5; [|discriminate].
  destruct (innerUsePhase cg g1 lp5) as [lp6|] eqn:E6; [|discriminate].
  set (lp7 := update (crossPhase cg g1 (update lp6))) in *.
  destruct (dirPhase cg g1 lp7) as [lp8|] eqn:E8; [|discriminate].
  destruct (orderPhase cg g1 (update lp8)) as [lp9|] eqn:E9; [|discriminate].
  destruct (anglePhase cg g1 (update lp9)) as [lp10|] eqn:E10; [|discriminate].
  injection H as <- <-.
  apply (@mkRun gg g1 (update lp10) st cands lp1 lp2 lp3 lp4 (update lp8) lp9 lp10);
    auto.
  - (* from the flow part to the direction part *)
    set (KR := fun nm => isSs nm || isIu nm || isNc nm || isDc nm).
    apply Grows_trans with lp5.
    { eapply Grows_weaken; [| |eapply sinkEdgePhase_Grows; eauto].
      - discriminate.
      - intros nm Hn. unfold KR. rewrite Hn. reflexivity. }
    apply Grows_trans with lp6.
    { eapply Grows_weaken; [| |eapply innerUsePhase_Grows; eauto].
      - discriminate.
      - intros nm Hn. unfold KR. rewrite Hn. now rewrite orb_true_r. }
    apply Grows_trans with (update lp6); [apply Grows_update|].
    apply Grows_trans with (crossPhase cg g1 (update lp6)).
    { eapply Grows_weaken; [| |apply crossPhase_Grows].
      - discriminate.
      - intros nm Hn. unfold KR. rewrite Hn. now rewrite !orb_true_r. }
    apply Grows_trans with lp7; [apply Grows_update|].
    apply Grows_trans with lp8; [|apply Grows_update].
    eapply Grows_weaken; [| |eapply dirPhase_Grows; eauto].
    + auto.
    + intros nm Hn. unfold KR. rewrite Hn. now rewrite !orb_true_r.
  - apply updated_update.
Qed.

(** ** Facts about the intermediate states *)

Lemma statPos_Grows gg :
  Grows spColK oneassRowK emptySolver
        (mkSolver (statPosCols dist cg maxGrDist gg (cgNds cg))
                  (statPosRows dist cg maxGrDist gg (cgNds cg) 0) 0).
Proof.
  intros _. simpl. split; [lia|]. split; [lia|].
  eexists. eexists. split; [reflexivity|]. split; [reflexivity|]. split.
  - apply Forall_forall. intros c Hc.
    destruct (@statPosCols_names dist cg maxGrDist gg (cgNds cg) c Hc)
      as (v & n & _ & Hd & _ & ->).
    simpl. apply Nat.eqb_neq in Hd. now rewrite Hd.
  - apply Forall_forall. intros r Hr.
    destruct (@statPosRows_names dist cg maxGrDist gg (cgNds cg) 0 r Hr)
      as (v & _ & Hd & Hn).
    rewrite Hn. simpl. apply Nat.eqb_neq in Hd. now rewrite Hd.
Qed.

Lemma edgUse_Grows gg cands lp :
  Grows isEdg noName lp (update (edgUsePhase INF SOFT_INF cg geoPensMap gg cands lp)).
Proof.
  eapply Grows_trans; [apply edgUsePhase_Grows | apply Grows_update].
Qed.

Lemma flow_Grows gg lp :
  Grows noName isAs lp (update (flowPhase INF SOFT_INF cg gg lp)).
Proof.
  eapply Grows_trans; [apply flowPhase_Grows | apply Grows_update].
Qed.

Lemma angle_Grows gg lp9 lp10 :
  anglePhase cg gg (update lp9) = Some lp10 ->
  Grows (angCol cg) (angRow cg) lp9 (update lp10).
Proof.
  intros H.
  apply Grows_trans with (update lp9); [apply Grows_update|].
  apply Grows_trans with lp10; [|apply Grows_update].
  apply Adds_Grows.
  exact (proj1 (@anglePhase_post cg gg (update lp9) lp10 H
                  (updated_wf (updated_update lp9)))).
Qed.

Ltac orb_solve :=
  repeat rewrite orb_true_iff; tauto.

(** Every column and every row of the finished model has one of the names
    of the nine parts. *)
Lemma Run_names gg gg' lp :
  Run gg gg' lp ->
  updated lp /\
  (forall c, In c (cols lp) -> allCol (colName c) = true) /\
  (forall r, In r (rows lp) -> allRow (rowName r) = true).
Proof.
  intros [st cands lp1 lp2 lp3 lp4 lp8 lp9 lp10 Hgg H1 H2 H3 H4 H8 H8u H9 H10 Hend].
  assert (G : Grows allCol allRow emptySolver lp).
  { apply Grows_trans with lp1.
    { rewrite H1. eapply Grows_weaken; [| |apply statPos_Grows];
        intros nm Hn; unfold allCol, allRow; rewrite Hn; reflexivity. }
    apply Grows_trans with lp2.
    { rewrite H2. eapply Grows_weaken; [| |apply edgUse_Grows];
        intros nm Hn; unfold allCol, allRow; try discriminate;
        rewrite Hn; orb_solve. }
    apply Grows_trans with lp3.
    { eapply Grows_weaken; [| |eapply uniqueEdgePhase_Grows; eauto];
        intros nm Hn; unfold allCol, allRow; try discriminate;
        rewrite Hn; orb_solve. }
    apply Grows_trans with lp4.
    { rewrite H4. eapply Grows_weaken; [| |apply flow_Grows];
        intros nm Hn; unfold allCol, allRow; try discriminate;
        rewrite Hn; orb_solve. }
    apply Grows_trans with lp8.
    { eapply Grows_weaken; [| |exact H8];
        intros nm Hn; unfold allCol, allRow.
      - rewrite Hn. orb_solve.
      - rewrite !orb_true_iff in Hn. orb_solve. }
    apply Grows_trans with lp9.
    { destruct (@orderPhase_post cg gg' (cgNds cg) lp8 lp9 H9 H8u) as (_ & G9 & _).
      eapply Grows_weaken; [| |exact G9];
        intros nm Hn; unfold allCol, allRow; rewrite Hn; orb_solve. }
    rewrite Hend.
    eapply Grows_weaken; [| |eapply angle_Grows; eauto];
      intros nm Hn; unfold allCol, allRow; rewrite Hn; orb_solve. }
  destruct (G ltac:(simpl; lia)) as (_ & _ & cs & rs & Hc & Hr & Hkc & Hkr).
  simpl in Hc, Hr. split; [rewrite Hend; apply updated_update|].
  rewrite Hc, Hr. split.
  - intros c Hin. rewrite Forall_forall in Hkc. auto.
  - intros r Hin. rewrite Forall_forall in Hkr. auto.
Qed.

(** What a term of a row stands for: the lookup either finds no column of
    that name, and none exists, or it yields a column that bears the name. *)
Lemma optTerm_meaning lp coef nm :
  updated lp ->
  (optTerm lp coef nm = [] /\ forall col, In col (cols lp) -> colName col <> nm) \/
  (exists c col, optTerm lp coef nm = [(c, coef)] /\
                 nth_error (cols lp) c = Some col /\ colName col = nm).
Proof.
  intros Hu. unfold optTerm.
  destruct (getVarByName lp nm) as [c|] eqn:E.
  - right. destruct (getVarByName_some _ _ E) as (col & Hn & Hc).
    exists c, col. auto.
  - left. split; auto. apply getVarByName_none; auto.
Qed.

(** ** Flow conservation *)

(** C1.  For every grid node [n] with at least one adjacent edge of cost
    below [SOFT_INF] and every comb edge [f], the model holds the row
    [as(n, f)]: an upper bound 0 whose terms are, in this order,
    [-2 sp(n, from f)] and [+1 sp(n, to f)] if [n] is a sink and these
    columns exist, [-1 edg(e, f)] for every incoming edge [e] that has such a
    column, and [+1 edg(e, f)] (at a sink: [+2]) for every outgoing one. *)
Theorem createProblem_flow_rows (gg gg' : BaseGraph) (lp : Solver) :
  createProblem gg = Some (gg', lp) ->
  forall n f,
    In n (getNds gg') -> nonInfDeg INF SOFT_INF gg' n <> 0 -> In f (combEdges cg) ->
    In (mkRow (NAs (getId gg' n) f) 0 UP (flowTerms cg lp gg' n f)) (rows lp) /\
    updated lp.
Proof.
  intros Hrun n f Hn Hd Hf.
  apply createProblem_Run in Hrun.
  pose proof (Run_names Hrun) as (Hu & _ & _).
  destruct Hrun as [st cands lp1 lp2 lp3 lp4 lp8 lp9 lp10 Hgg H1 H2 H3 H4 H8 H8u H9 H10 Hend].
  split; [|exact Hu].
  assert (Hu2 : updated lp2) by (rewrite H2; apply updated_update).
  destruct (Grows_noCols (@uniqueEdgePhase_Grows INF SOFT_INF cg gg' lp2 lp3 H3) Hu2)
    as (Hc3 & Hu3).
  assert (Hu4 : updated lp4) by (rewrite H4; apply updated_update).
  (* the later parts add no station position or edge use columns *)
  set (late := fun nm => negb (isRoute nm)).
  assert (G : Grows late (fun _ => true) lp3 lp).
  { apply Grows_trans with lp4.
    { rewrite H4. eapply Grows_weaken; [| |apply flow_Grows]; auto; discriminate. }
    apply Grows_trans with lp8.
    { eapply Grows_weaken; [| |exact H8]; auto.
      intros nm Hnm. destruct nm; try discriminate; reflexivity. }
    apply Grows_trans with lp9.
    { destruct (@orderPhase_post cg gg' (cgNds cg) lp8 lp9 H9 H8u) as (_ & G9 & _).
      eapply Grows_weaken; [| |exact G9]; auto.
      intros nm Hnm. destruct nm; try discriminate; reflexivity. }
    rewrite Hend.
    eapply Grows_weaken; [| |eapply angle_Grows; eauto]; auto.
    intros nm Hnm. destruct nm; try discriminate; reflexivity. }
  assert (Hterms : flowTerms cg lp gg' n f = flowTerms cg lp3 gg' n f).
  { apply flowTerms_ext. intros nm Hr.
    eapply Grows_lookup; [exact G | exact Hu3 |]. unfold late. now rewrite Hr. }
  rewrite Hterms.
  assert (Hin4 : In (flowRowOf cg lp3 gg' n f) (rows lp4)).
  { rewrite H4, flowPhase_spec. simpl. apply in_or_app. right.
    apply flowRowsOf_In; auto. }
  assert (G4 : Grows (fun _ => true) (fun _ => true) lp4 lp).
  { apply Grows_trans with lp8.
    { eapply Grows_weaken; [| |exact H8]; auto. }
    apply Grows_trans with lp9.
    { destruct (@orderPhase_post cg gg' (cgNds cg) lp8 lp9 H9 H8u) as (_ & G9 & _).
      eapply Grows_weaken; [| |exact G9]; auto. }
    rewrite Hend.
    eapply Grows_weaken; [| |eapply angle_Grows; eauto]; auto. }
  eapply Grows_rows; [exact G4 | exact (updated_wf Hu4) | exact Hin4].
Qed.

(** ** Unique station *)

Lemma filter_none {A} (p : A -> bool) (l : list A) :
  (forall x, In x l -> p x = false) -> filter p l = [].
Proof.
  induction l as [|a l IH]; intros H; simpl; auto.
  rewrite (H a (or_introl eq_refl)). apply IH. intros x Hx. apply H. simpl; auto.
Qed.

(** C4.  A comb node [v] of positive degree owns one row [oneass(v)], an
    equality with right-hand side 1; its terms have coefficient 1 and are
    the columns [base, base + 1, ...], one binary column [sp(g, v)] with
    objective [ndMovePen(v, g)] for each admitted sink [g], in grid order.
    Admitted are exactly the grid nodes that are sinks, have at least the
    degree of [v] and lie closer to [v] than [cellSize * maxGrDist].  A node
    of degree 0 has no such row and no [sp] column. *)
Theorem createProblem_unique_station (gg gg' : BaseGraph) (lp : Solver) :
  createProblem gg = Some (gg', lp) ->
  forall v, In v (cgNds cg) ->
    (forall n, In n (candsOf dist cg maxGrDist gg v) <->
               In n (getNds gg) /\ isSink gg n = true /\ cDeg cg v <= getDeg gg n /\
               (dist (getGeom gg n) (cGeom cg v) < getCellSize gg * maxGrDist)%Q) /\
    (cDeg cg v <> 0 ->
     exists base,
       In (mkRow (NOneass v) 1 FIX
                 (unitTerms base (length (candsOf dist cg maxGrDist gg v)))) (rows lp) /\
       (forall k, k < length (candsOf dist cg maxGrDist gg v) ->
                  nth_error (cols lp) (base + k)
                  = option_map (spCol cg gg v)
                               (nth_error (candsOf dist cg maxGrDist gg v) k)) /\
       (NoDup (cgNds cg) ->
        length (filter (fun r => name_eqb (rowName r) (NOneass v)) (rows lp)) = 1)) /\
    (cDeg cg v = 0 ->
     (forall r, In r (rows lp) -> rowName r <> NOneass v) /\
     (forall c, In c (cols lp) -> forall gid, colName c <> NSp gid v)).
Proof.
  intros Hrun v Hv.
  apply createProblem_Run in Hrun.
  pose proof (Run_names Hrun) as (Hu & Hcols & Hrows).
  destruct Hrun as [st cands lp1 lp2 lp3 lp4 lp8 lp9 lp10 Hgg H1 H2 H3 H4 H8 H8u H9 H10 Hend].
  split; [|split].
  - intros n. unfold candsOf. rewrite filter_In, isCand_iff. tauto.
  - intros Hd.
    (* everything after the first part keeps its columns and rows, and adds
       no row named [oneass] *)
    set (KR := fun nm => negb (isOneass nm)).
    assert (G : Grows (fun _ => true) KR lp1 lp).
    { apply Grows_trans with lp2.
      { rewrite H2. eapply Grows_weaken; [| |apply edgUse_Grows]; auto; discriminate. }
      apply Grows_trans with lp3.
      { eapply Grows_weaken; [| |eapply uniqueEdgePhase_Grows; eauto]; auto.
        intros nm Hn. destruct nm; try discriminate; reflexivity. }
      apply Grows_trans with lp4.
      { rewrite H4. eapply Grows_weaken; [| |apply flow_Grows]; auto.
        intros nm Hn. destruct nm; try discriminate; reflexivity. }
      apply Grows_trans with lp8.
      { eapply Grows_weaken; [| |exact H8]; auto.
        intros nm Hn. destruct nm; try discriminate; reflexivity. }
      apply Grows_trans with lp9.
      { destruct (@orderPhase_post cg gg' (cgNds cg) lp8 lp9 H9 H8u) as (_ & G9 & _).
        eapply Grows_weaken; [| |exact G9]; auto.
        intros nm Hn. destruct nm; try discriminate; reflexivity. }
      rewrite Hend.
      eapply Grows_weaken; [| |eapply angle_Grows; eauto]; auto.
      intros nm Hn. destruct nm; try discriminate; reflexivity. }
    assert (Hwf1 : visible lp1 <= length (cols lp1)) by (rewrite H1; simpl; lia).
    destruct (@statPosRows_In dist cg maxGrDist gg (cgNds cg) v 0 Hv Hd)
      as (base & _ & Hrow & Hcol).
    exists base. split; [|split].
    + eapply Grows_rows; [exact G | exact Hwf1 |]. rewrite H1. exact Hrow.
    + intros k Hk. specialize (Hcol k Hk).
      rewrite Nat.sub_0_r in Hcol. rewrite <- Hcol.
      destruct (nth_error (skipn base (statPosCols dist cg maxGrDist gg (cgNds cg))) k)
        as [c|] eqn:E.
      * eapply Grows_cols; [exact G | exact Hwf1 |]. rewrite H1. simpl.
        rewrite <- E. rewrite nth_error_skipn. reflexivity.
      * exfalso. rewrite Hcol in E.
        destruct (nth_error (candsOf dist cg maxGrDist gg v) k) eqn:E'; [discriminate|].
        apply nth_error_None in E'. lia.
    + intros Hnd.
      destruct (G Hwf1) as (_ & _ & cs & rs & _ & Hr & _ & Hkr).
      rewrite Hr, filter_app, length_app.
      rewrite (filter_none _ rs).
      * rewrite H1. simpl. rewrite Nat.add_0_r. apply statPosRows_count; auto.
      * intros r Hr'. rewrite Forall_forall in Hkr. specialize (Hkr r Hr').
        unfold KR in Hkr. destruct (rowName r); try discriminate; reflexivity.
  - intros Hd. split.
    + intros r Hr Hn. specialize (Hrows r Hr). rewrite Hn in Hrows.
      unfold allRow in Hrows. simpl in Hrows. rewrite Hd in Hrows. discriminate.
    + intros c Hc gid Hn. specialize (Hcols c Hc). rewrite Hn in Hcols.
      unfold allCol in Hcols. simpl in Hcols. rewrite Hd in Hcols. discriminate.
Qed.

(** ** Circular ordering *)

(** C2.  On an octilinear grid ([maxDeg] = 8) a comb node [v] of degree 3 or
    more gets the binary columns [vuln(v, 0 .. deg - 1)], objective 0, at
    [base, base + 1, ...], and the row [vc(v)], an equality with right-hand
    side 1 that sums them.  For every index [i] of its edge ordering, with
    [b] the [i]-th edge and [a] its predecessor (for [i = 0] the last one),
    there is the row [oc(v, i)]: a lower bound 1 on
    [d(v, b) - d(v, a) + 8 vuln(v, i)].  Nodes of degree below 3 have none of
    these columns and rows. *)
Theorem createProblem_circular_order (gg gg' : BaseGraph) (lp : Solver) :
  createProblem gg = Some (gg', lp) ->
  maxDeg gg = 8 ->
  forall v, In v (cgNds cg) ->
    (3 <= cDeg cg v ->
     (exists base,
         (forall i, i < cDeg cg v ->
                    nth_error (cols lp) (base + i) = Some (mkCol (NVuln v i) BIN 0%Q None)) /\
         In (mkRow (NVc v) 1 FIX (unitTerms base (cDeg cg v))) (rows lp)) /\
     (forall i, i < length (cOrder cg v) ->
        exists a b colA colB vc,
          orderPred (cOrder cg v) i = Some a /\
          nth_error (cOrder cg v) i = Some b /\
          getVarByName lp (NDir v a) = Some colA /\
          getVarByName lp (NDir v b) = Some colB /\
          getVarByName lp (NVuln v i) = Some vc /\
          In (mkRow (NOc v i) 1 LO [(colB, 1%Z); (colA, (-1)%Z); (vc, 8%Z)]) (rows lp))) /\
    (cDeg cg v < 3 ->
     (forall c, In c (cols lp) -> forall i, colName c <> NVuln v i) /\
     (forall r, In r (rows lp) -> rowName r <> NVc v /\ forall i, rowName r <> NOc v i)).
Proof.
  intros Hrun Hmd v Hv.
  apply createProblem_Run in Hrun.
  pose proof (Run_names Hrun) as (Hu & Hcols & Hrows).
  destruct Hrun as [st cands lp1 lp2 lp3 lp4 lp8 lp9 lp10 Hgg H1 H2 H3 H4 H8 H8u H9 H10 Hend].
  split.
  - intros Hd.
    destruct (@orderPhase_post cg gg' (cgNds cg) lp8 lp9 H9 H8u) as (Hu9 & _ & Hall).
    pose proof (Hall v Hv Hd) as Hpost.
    pose proof (@angle_Grows gg' lp9 lp10 H10) as G.
    rewrite <- Hend in G.
    destruct (OrderPost_Grows Hpost G Hu9) as (Hvc & _ & Hoc).
    split; [exact Hvc|].
    intros i Hi. destruct (Hoc i Hi) as (r & Hp & Hin).
    destruct Hp as (a & b & colA & colB & vc & Ha & Hb & _ & HA & HB & HV & ->).
    exists a, b, colA, colB, vc.
    assert (Hmd' : maxDeg gg' = 8) by (rewrite Hgg; exact Hmd).
    rewrite Hmd' in Hin. repeat split; auto.
  - intros Hd. apply Nat.leb_gt in Hd. split.
    + intros c Hc i Hn. specialize (Hcols c Hc). rewrite Hn in Hcols.
      unfold allCol in Hcols. cbn -[Nat.leb] in Hcols. rewrite Hd in Hcols. discriminate.
    + intros r Hr. split; [|intros i]; intros Hn; specialize (Hrows r Hr);
        rewrite Hn in Hrows; unfold allRow in Hrows; cbn -[Nat.leb] in Hrows;
        rewrite Hd in Hrows; discriminate.
Qed.

(** ** Bend angles *)




End Whole.

End CreateProblemFacts.

(* ================================================================== *)
(** * The model of a small star *)

Module DemoFacts.

Import Vec Names LP Grid Comb ILP OctiHanan Impl Demo
       ListFacts LPFacts PhaseFacts FlowFacts StatPosFacts OrderFacts AngleFacts
       CreateProblemFacts.

Lemma demoRun_some : demoRun = Some (demoGG, demoLP).
Proof.
  assert (H : isSome demoRun = true) by (vm_compute; reflexivity).
  unfold demoGG, demoLP. destruct demoRun as [[gg lp]|]; [reflexivity|discriminate].
Qed.

Lemma demoRun_def :
  createProblem dINF dSOFT_INF distOnAxis cgStar None 5%Q bgDemo = demoRun.
Proof.
  exact (@eq_refl _ (createProblem dINF dSOFT_INF distOnAxis cgStar None 5%Q bgDemo)).
Qed.

Lemma demoRun_ok :
  createProblem dINF dSOFT_INF distOnAxis cgStar None 5%Q bgDemo
  = Some (demoGG, demoLP).
Proof. exact (eq_trans demoRun_def demoRun_some). Qed.

Lemma demo_sink_listed : In 0 (getNds demoGG).
Proof. vm_compute. auto. Qed.

Lemma demo_sink_open : nonInfDeg dINF dSOFT_INF demoGG 0 <> 0.
Proof. vm_compute. discriminate. Qed.

Lemma demo_edge_listed : In 501 (combEdges cgStar).
Proof. vm_compute. auto. Qed.

Lemma createProblem_flow_rows_witness :
  In (mkRow (NAs (getId demoGG 0) 501) 0 UP (flowTerms cgStar demoLP demoGG 0 501))
     (rows demoLP) /\
  updated demoLP.
Proof.
  exact (@createProblem_flow_rows dINF dSOFT_INF distOnAxis cgStar None 5%Q
           bgDemo demoGG demoLP demoRun_ok 0 501
           demo_sink_listed demo_sink_open demo_edge_listed).
Defined.

End DemoFacts.

(* ================================================================== *)
(** * OctiHananGraph: the nodes of a cluster and the node index *)

Module HananFacts.

Import MachInt Vec OctiHanan ILP Hanan ListFacts LPFacts.

(** ** Port directions *)

(** The eight compass directions, clockwise from north. *)
Definition compass : list (Z * Z) :=
  [(0, 1); (1, 1); (1, 0); (1, -1); (0, -1); (-1, -1); (-1, 0); (-1, 1)]%Z.

Lemma oppPort_lt p : oppPort p < 8.
Proof. unfold oppPort, maxDeg. apply Nat.mod_upper_bound. discriminate. Qed.

(** The offset of port [i] as computed in [writeNd] is the [i]-th compass
    direction, a unit step in both norms of the grid; the port
    [(i + 4) % 8] points the opposite way, and no two ports share a
    direction. *)
Theorem port_offsets (i : nat) :
  i < 8 ->
  (portDx (Z.of_nat i), portDy (Z.of_nat i)) = nth i compass (0, 0)%Z /\
  Z.max (Z.abs (portDx (Z.of_nat i))) (Z.abs (portDy (Z.of_nat i))) = 1%Z /\
  portDx (Z.of_nat (oppPort i)) = (- portDx (Z.of_nat i))%Z /\
  portDy (Z.of_nat (oppPort i)) = (- portDy (Z.of_nat i))%Z /\
  (forall j, j < 8 ->
             portDx (Z.of_nat j) = portDx (Z.of_nat i) ->
             portDy (Z.of_nat j) = portDy (Z.of_nat i) -> j = i).
Proof.
  intros Hi.
  do 8 (destruct i as [|i];
        [ repeat split; try reflexivity;
          intros j Hj;
          do 8 (destruct j as [|j]; [vm_compute; intros; congruence|]); lia
        | ]).
  lia.
Qed.

Lemma port_offsets_witness :
  (portDx (Z.of_nat 3), portDy (Z.of_nat 3)) = nth 3 compass (0, 0)%Z /\
  Z.max (Z.abs (portDx (Z.of_nat 3))) (Z.abs (portDy (Z.of_nat 3))) = 1%Z /\
  portDx (Z.of_nat (oppPort 3)) = (- portDx (Z.of_nat 3))%Z /\
  portDy (Z.of_nat (oppPort 3)) = (- portDy (Z.of_nat 3))%Z /\
  (forall j, j < 8 ->
             portDx (Z.of_nat j) = portDx (Z.of_nat 3) ->
             portDy (Z.of_nat j) = portDy (Z.of_nat 3) -> j = 3).
Proof. apply (@port_offsets 3). lia. Defined.


(* ------------------------------------------------------------------ *)
(** ** The nodes written by [writeNd] *)

Lemma upd_app_l {A} (l l' : list A) (k : nat) (f : A -> A) :
  k < length l -> upd (l ++ l') k f = upd l k f ++ l'.
Proof.
  revert k. induction l as [|a l IH]; intros [|k] Hk; simpl in *; try lia; auto.
  rewrite IH by lia. reflexivity.
Qed.

Lemma upd_at {A} (l : list A) (a : A) (r : list A) (f : A -> A) :
  upd (l ++ a :: r) (length l) f = l ++ f a :: r.
Proof.
  rewrite <- (Nat.add_0_r (length l)). rewrite upd_app_r. reflexivity.
Qed.

Section Nodes.

Variable INF : Q.
Variable g : Graph.
Variables x y : nat.

(** The position of the cell [(x, y)]. *)
Definition cellPos : Q * Q :=
  ((fst (lowerLeft g) + inject_Z (Z.of_nat x) * cellSize g)%Q,
   (snd (lowerLeft g) + inject_Z (Z.of_nat y) * cellSize g)%Q).

(** The new sink when [k] of its ports are installed, and its [i]-th port. *)
Definition sinkNode (k : nat) : GridNodePL :=
  mkGridNodePL (length (ndsVec g)) true x y (Some (length (nodes g)))
               (map Some (seq (length (nodes g) + 1) k) ++ repeat None (8 - k))
               cellPos.

Definition portNode (i : nat) : GridNodePL :=
  mkGridNodePL (length (ndsVec g) + 1 + i) false 0 0 (Some (length (nodes g)))
               (repeat None 8)
               ((fst cellPos + inject_Z (portDx (Z.of_nat i)) * spacer g)%Q,
                (snd cellPos + inject_Z (portDy (Z.of_nat i)) * spacer g)%Q).

Definition nodesAfter (k : nat) (g' : Graph) : Prop :=
  nodes g' = nodes g ++ sinkNode k :: map portNode (seq 0 k) /\
  ndsVec g' = ndsVec g ++ seq (length (nodes g)) (S k) /\
  ndIdx g' = upd (ndIdx g) (x * yHeight g + y) (fun _ => length (ndsVec g) + 1) /\
  spacer g' = spacer g /\ yHeight g' = yHeight g /\ xWidth g' = xWidth g.

Lemma sinkNode_setPort k :
  k < 8 ->
  setPort k (length (nodes g) + 1 + k) (sinkNode k) = sinkNode (S k).
Proof.
  intros Hk. unfold setPort, sinkNode. cbn [ndId ndSink ndX ndY ndParent ndPorts ndPos].
  f_equal.
  replace (8 - k) with (S (8 - S k)) by lia. cbn [repeat].
  replace k with (length (map Some (seq (length (nodes g) + 1) k))) at 3
    by (rewrite length_map, length_seq; reflexivity).
  rewrite upd_at. rewrite seq_S, map_app. cbn [map].
  rewrite <- app_assoc. reflexivity.
Qed.

Lemma writePort_nodesAfter k gk :
  k < 8 -> nodesAfter k gk ->
  nodesAfter (S k) (writePort INF (fst cellPos) (snd cellPos) (length (nodes g)) gk k).
Proof.
  intros Hk (Hn & Hv & Hi & Hs & Hy & Hx).
  assert (Hlen : length (nodes gk) = length (nodes g) + 1 + k).
  { rewrite Hn, length_app. cbn [length]. rewrite length_map, length_seq. lia. }
  assert (Hvl : length (ndsVec gk) = length (ndsVec g) + 1 + k).
  { rewrite Hv, length_app, length_seq. lia. }
  split; [|split; [|repeat split; assumption]].
  - rewrite (@OctiHananFacts.writePort_nodes INF (fst cellPos) (snd cellPos)
               (length (nodes g)) gk k).
    rewrite upd_last. rewrite upd_last.
    rewrite Hn at 1. rewrite <- app_assoc. cbn [app].
    rewrite upd_at. rewrite Hlen, sinkNode_setPort by exact Hk.
    rewrite seq_S, map_app. cbn [map]. f_equal. f_equal. f_equal.
    unfold portNode, setParent, setId, blankNode. cbn. rewrite Hvl, Hs. reflexivity.
  - change (ndsVec (writePort INF (fst cellPos) (snd cellPos) (length (nodes g)) gk k))
      with (ndsVec gk ++ [length (nodes gk)]).
    rewrite Hv, Hlen, <- app_assoc. f_equal.
    rewrite (seq_S (S k) (length (nodes g))). f_equal. f_equal. lia.
Qed.

Lemma writeBend_same gk ij :
  nodes (writeBend INF x y (length (nodes g)) gk ij) = nodes gk /\
  ndsVec (writeBend INF x y (length (nodes g)) gk ij) = ndsVec gk /\
  ndIdx (writeBend INF x y (length (nodes g)) gk ij) = ndIdx gk /\
  spacer (writeBend INF x y (length (nodes g)) gk ij) = spacer gk /\
  yHeight (writeBend INF x y (length (nodes g)) gk ij) = yHeight gk /\
  xWidth (writeBend INF x y (length (nodes g)) gk ij) = xWidth gk.
Proof.
  destruct ij as [i j]. unfold writeBend.
  destruct (getPort gk (length (nodes g)) i); [|repeat split].
  destruct (getPort gk (length (nodes g)) j); repeat split.
Qed.

(** The nodes, [_nds] and [_ndIdx] after [writeNd(x, y)]. *)
Lemma writeNd_nodesAfter :
  snd (OctiHananFacts.writeNdAt INF g x y) = length (nodes g) /\
  nodesAfter 8 (fst (OctiHananFacts.writeNdAt INF g x y)).
Proof.
  split; [reflexivity|].
  unfold OctiHananFacts.writeNdAt. cbv zeta.
  change (addNd g ((fst (lowerLeft g) + inject_Z (Z.of_nat x) * cellSize g)%Q,
                   (snd (lowerLeft g) + inject_Z (Z.of_nat y) * cellSize g)%Q))
    with (setNodes g (nodes g ++ [blankNode cellPos]), length (nodes g)).
  cbv iota beta. cbn [fst].
  match goal with
  | |- nodesAfter 8 (fold_left _ portPairs (fold_left _ (seq 0 8) ?g1)) =>
      assert (H0 : nodesAfter 0 g1)
  end.
  { unfold nodesAfter. cbn [nodes ndsVec ndIdx spacer yHeight xWidth updNd setVecs setNodes].
    split; [|split; [|repeat split]].
    - rewrite !upd_last. reflexivity.
    - reflexivity.
    - rewrite length_app. reflexivity. }
  match goal with
  | |- nodesAfter 8 (fold_left _ portPairs (fold_left _ (seq 0 8) ?g1)) =>
      assert (H8 : nodesAfter 8 (fold_left (writePort INF (fst cellPos) (snd cellPos)
                                                      (length (nodes g))) (seq 0 8) g1))
  end.
  { cbn [seq fold_left].
    do 8 (match goal with
          | H : nodesAfter ?k ?gk |- _ =>
              let H' := fresh "H" in
              pose proof (@writePort_nodesAfter k gk ltac:(lia) H) as H'; clear H
          end).
    assumption. }
  clear H0.
  apply fold_left_inv; [exact H8|].
  intros gk ij _ (Hn & Hv & Hi & Hs & Hy & Hx).
  destruct (writeBend_same gk ij) as (En & Ev & Ei & Es & Ey & Ex).
  unfold nodesAfter. rewrite En, Ev, Ei, Es, Ey, Ex. repeat split; assumption.
Qed.

End Nodes.


Lemma nth_error_portNodes g x y k :
  k < 8 -> nth_error (map (portNode g x y) (seq 0 8)) k = Some (portNode g x y k).
Proof.
  intros Hk. rewrite nth_error_map, nth_error_seq.
  replace (k <? 8) with true by (symmetry; apply Nat.ltb_lt; exact Hk). reflexivity.
Qed.

Lemma portOf_sinkNode g x y p :
  p < 8 -> portOf (sinkNode g x y 8) p = Some (length (nodes g) + 1 + p).
Proof.
  intros Hp. unfold portOf. cbn [sinkNode ndPorts Nat.sub repeat]. rewrite app_nil_r.
  rewrite (nth_indep _ None (Some 0)) by (rewrite length_map, length_seq; exact Hp).
  rewrite (map_nth Some), seq_nth by exact Hp. reflexivity.
Qed.

(** [writeNd(x, y)] on a cell that has its slot in the index goes through
    and hands back the fresh sink.  It leaves the old nodes alone and appends
    nine: the sink, whose id is the old size of [_nds] and which carries the
    sink flag, the cell coordinates, the position of the cell, itself as
    parent and the next eight arena slots as ports; then the ports 0 .. 7,
    with consecutive ids, the sink as parent and the position of the sink
    moved by [_spacer] in the direction of the port.  [_nds] gains the nine
    nodes in this order, and the index entry of the cell is set to the size
    of [_nds] with the sink in it; no other entry changes.  For a cell with
    no slot in the index the write to [_ndIdx] is out of range: there is no
    result. *)
Theorem writeNd_nodes (INF : Q) (g : Graph) (x y : nat) :
  (x * yHeight g + y < length (ndIdx g) ->
   exists g',
     writeNd INF g x y = Some (g', length (nodes g)) /\
     length (nodes g') = length (nodes g) + 9 /\
     (forall i, i < length (nodes g) -> nth_error (nodes g') i = nth_error (nodes g) i) /\
     (exists s,
         nth_error (nodes g') (length (nodes g)) = Some s /\
         ndId s = length (ndsVec g) /\ ndSink s = true /\ ndX s = x /\ ndY s = y /\
         ndParent s = Some (length (nodes g)) /\ ndPos s = cellPos g x y /\
         forall p, p < 8 -> portOf s p = Some (length (nodes g) + 1 + p)) /\
     (forall p, p < 8 ->
        exists q,
          nth_error (nodes g') (length (nodes g) + 1 + p) = Some q /\
          ndId q = length (ndsVec g) + 1 + p /\
          ndParent q = Some (length (nodes g)) /\
          ndPos q = ((fst (cellPos g x y) + inject_Z (portDx (Z.of_nat p)) * spacer g)%Q,
                     (snd (cellPos g x y) + inject_Z (portDy (Z.of_nat p)) * spacer g)%Q)) /\
     ndsVec g' = ndsVec g ++ seq (length (nodes g)) 9 /\
     nth_error (ndIdx g') (x * yHeight g + y) = Some (length (ndsVec g) + 1) /\
     (forall k, k <> x * yHeight g + y -> nth_error (ndIdx g') k = nth_error (ndIdx g) k)) /\
  (length (ndIdx g) <= x * yHeight g + y -> writeNd INF g x y = None).
Proof.
  split.
  - intros Hin. exists (fst (OctiHananFacts.writeNdAt INF g x y)).
    destruct (writeNd_nodesAfter INF g x y) as (Hs & Hn & Hv & Hi & _).
    split.
    { rewrite (OctiHananFacts.writeNd_some INF g x y Hin), <- Hs. now destruct (OctiHananFacts.writeNdAt INF g x y). }
    split; [rewrite Hn, length_app; cbn [length]; rewrite length_map, length_seq; lia|].
    split; [intros i Hi0; rewrite Hn; apply nth_error_app1; exact Hi0|].
    split.
    { exists (sinkNode g x y 8). rewrite Hn, nth_error_app2, Nat.sub_diag by lia.
      split; [reflexivity|]. repeat split. apply portOf_sinkNode. }
    split.
    { intros p Hp. exists (portNode g x y p). rewrite Hn, nth_error_app2 by lia.
      replace (length (nodes g) + 1 + p - length (nodes g)) with (S p) by lia.
      cbn [nth_error]. rewrite nth_error_portNodes by exact Hp. repeat split. }
    split; [exact Hv|]. rewrite Hi. split.
    + rewrite nth_error_upd_same.
      destruct (nth_error (ndIdx g) (x * yHeight g + y)) eqn:E; [reflexivity|].
      apply nth_error_None in E. lia.
    + intros k Hk. apply nth_error_upd_other. congruence.
  - intros Hout. rewrite OctiHananFacts.writeNd_eq.
    replace (x * yHeight g + y <? length (ndIdx g)) with false; [reflexivity|].
    symmetry. apply Nat.ltb_ge. exact Hout.
Qed.

Lemma writeNd_nodes_witness :
  (exists g', writeNd 1000%Q Demo.g0 1 1 = Some (g', 0) /\ length (nodes g') = 9) /\
  writeNd 1000%Q Demo.g0 3 0 = None.
Proof.
  destruct (@writeNd_nodes 1000%Q Demo.g0 1 1) as [Hin _].
  destruct (@writeNd_nodes 1000%Q Demo.g0 3 0) as [_ Hout].
  split.
  - destruct (Hin ltac:(vm_compute; lia)) as (g' & H1 & H2 & _).
    exists g'. exact (conj H1 H2).
  - apply Hout. vm_compute. lia.
Defined.

(* ------------------------------------------------------------------ *)
(** ** The node index *)

Lemma getNode_empty g x y :
  getNode g x y = Some None <-> nth_error (ndIdx g) (x * yHeight g + y) = Some 0.
Proof.
  unfold getNode. destruct (nth_error (ndIdx g) (x * yHeight g + y)) as [a|]; [|split; discriminate].
  destruct (a =? 0) eqn:E.
  - apply Nat.eqb_eq in E. subst. tauto.
  - apply Nat.eqb_neq in E.
    destruct (nth_error (ndsVec g) (a - 1)); split; intros H; try discriminate;
      injection H as H; contradiction.
Qed.

Lemma writeNdAt_getNode (INF : Q) (g : Graph) (x y : nat) :
  x * yHeight g + y < length (ndIdx g) ->
  getNode (fst (OctiHananFacts.writeNdAt INF g x y)) x y
  = Some (Some (snd (OctiHananFacts.writeNdAt INF g x y))) /\
  forall x' y' r,
    y < yHeight g -> y' < yHeight g -> (x', y') <> (x, y) ->
    getNode g x' y' = Some r ->
    getNode (fst (OctiHananFacts.writeNdAt INF g x y)) x' y' = Some r.
Proof.
  intros Hin.
  destruct (writeNd_nodesAfter INF g x y) as (Hs & _ & Hv & Hi & _ & Hy & _).
  split.
  - unfold getNode. rewrite Hi, Hy, nth_error_upd_same.
    destruct (nth_error (ndIdx g) (x * yHeight g + y)) as [a|] eqn:E.
    2:{ apply nth_error_None in E. lia. }
    cbn [option_map]. replace (length (ndsVec g) + 1 =? 0) with false
      by (symmetry; apply Nat.eqb_neq; lia).
    rewrite Hv, Hs. rewrite nth_error_app2 by lia.
    replace (length (ndsVec g) + 1 - 1 - length (ndsVec g)) with 0 by lia.
    reflexivity.
  - intros x' y' r Hy0 Hy' Hne H.
    unfold getNode in *. rewrite Hi, Hy.
    rewrite nth_error_upd_other.
    2:{ intros E. apply Hne.
        assert (x = x') by nia. subst. f_equal. lia. }
    destruct (nth_error (ndIdx g) (x' * yHeight g + y')) as [a|]; [|discriminate].
    destruct (a =? 0); [exact H|].
    destruct (nth_error (ndsVec g) (a - 1)) as [m|] eqn:E; [|discriminate].
    rewrite Hv, nth_error_app1, E; [exact H|].
    apply nth_error_Some. congruence.
Qed.

(** Lookup after insert: if the index has a slot for the cell [(x, y)],
    [writeNd(x, y)] goes through and [getNode(x, y)] answers the sink it has
    made; the answers for all other cells of the grid stay as they are. *)
Theorem writeNd_getNode (INF : Q) (g : Graph) (x y : nat) :
  x * yHeight g + y < length (ndIdx g) ->
  exists g' n,
    writeNd INF g x y = Some (g', n) /\
    getNode g' x y = Some (Some n) /\
    forall x' y' r,
      y < yHeight g -> y' < yHeight g -> (x', y') <> (x, y) ->
      getNode g x' y' = Some r -> getNode g' x' y' = Some r.
Proof.
  intros Hin.
  exists (fst (OctiHananFacts.writeNdAt INF g x y)), (snd (OctiHananFacts.writeNdAt INF g x y)).
  split.
  - rewrite (OctiHananFacts.writeNd_some INF g x y Hin).
    now destruct (OctiHananFacts.writeNdAt INF g x y).
  - apply writeNdAt_getNode. exact Hin.
Qed.

Lemma writeNd_getNode_witness :
  exists g' n,
    writeNd 1000%Q Demo.g0 1 2 = Some (g', n) /\
    getNode g' 1 2 = Some (Some n) /\
    forall x' y' r,
      2 < yHeight Demo.g0 -> y' < yHeight Demo.g0 -> (x', y') <> (1, 2) ->
      getNode Demo.g0 x' y' = Some r -> getNode g' x' y' = Some r.
Proof. apply (@writeNd_getNode 1000%Q Demo.g0 1 2). vm_compute. lia. Defined.

(** What the functions below need of the node arena: [_nds] lists the arena
    in order, every node's id is its place, the size of the arena is a
    multiple of nine, and every node that is a sink stands at a multiple of
    nine, is registered in the index under its own cell with its id plus
    one, and has the eight nodes after it as ports.  (Which nodes are sinks
    is left open here; see [ClustersOk].) *)
Definition NodesOk (g : Graph) : Prop :=
  ndsVec g = seq 0 (length (nodes g)) /\
  length (nodes g) mod 9 = 0 /\
  forall i pl, nth_error (nodes g) i = Some pl ->
    ndId pl = i /\
    (ndSink pl = true ->
       i + 9 <= length (nodes g) /\ i mod 9 = 0 /\
       nth_error (ndIdx g) (ndX pl * yHeight g + ndY pl) = Some (i + 1) /\
       forall p, p < 8 -> portOf pl p = Some (i + 1 + p)).

Lemma NodesOk_writeNd INF g x y :
  NodesOk g ->
  x * yHeight g + y < length (ndIdx g) ->
  getNode g x y = Some None ->
  NodesOk (fst (OctiHananFacts.writeNdAt INF g x y)).
Proof.
  intros (Hvec & Hmod & Hall) Hin Hfree.
  destruct (writeNd_nodesAfter INF g x y) as (_ & Hn & Hv & Hi & _ & Hy & _).
  apply getNode_empty in Hfree.
  assert (Hlv : length (ndsVec g) = length (nodes g)) by (rewrite Hvec, length_seq; reflexivity).
  assert (Hlen : length (nodes (fst (OctiHananFacts.writeNdAt INF g x y))) = length (nodes g) + 9).
  { rewrite Hn, length_app. cbn [length]. rewrite length_map, length_seq. lia. }
  split; [|split].
  - rewrite Hv, Hlen, Hvec, seq_app. reflexivity.
  - rewrite Hlen. rewrite <- Nat.Div0.add_mod_idemp_l, Hmod. reflexivity.
  - intros i pl Hi'. rewrite Hn in Hi'.
    destruct (Nat.lt_ge_cases i (length (nodes g))) as [Hlt | Hge].
    + rewrite nth_error_app1 in Hi' by exact Hlt.
      destruct (Hall i pl Hi') as (Hid & Hsink).
      split; [exact Hid|]. intros Hs. destruct (Hsink Hs) as (H9 & Hm & Hix & Hp).
      split; [rewrite Hlen; lia|]. split; [exact Hm|]. split; [|exact Hp].
      rewrite Hi, Hy, nth_error_upd_other; [exact Hix|].
      intros E. rewrite E in Hfree. rewrite Hfree in Hix. injection Hix as Hix. lia.
    + rewrite nth_error_app2 in Hi' by exact Hge.
      destruct (i - length (nodes g)) as [|k] eqn:Ek.
      * cbn [nth_error] in Hi'. injection Hi' as <-.
        assert (i = length (nodes g)) by lia. subst i.
        cbn [sinkNode ndId ndSink ndX ndY ndPorts]. split; [exact Hlv|].
        intros _. split; [rewrite Hlen; lia|]. split; [exact Hmod|]. split.
        -- rewrite Hi, Hy, nth_error_upd_same, Hfree. cbn [option_map]. now rewrite Hlv.
        -- intros p Hp. unfold portOf. cbn [sinkNode ndPorts Nat.sub repeat].
           rewrite app_nil_r.
           rewrite (nth_indep _ None (Some 0)) by (rewrite length_map, length_seq; exact Hp).
           rewrite (map_nth Some), seq_nth by exact Hp. reflexivity.
      * cbn [nth_error] in Hi'.
        destruct (nth_error (map (portNode g x y) (seq 0 8)) k) as [q|] eqn:Eq;
          [|discriminate].
        injection Hi' as <-.
        assert (Hk : k < 8).
        { assert (k < length (map (portNode g x y) (seq 0 8)))
            by (apply nth_error_Some; congruence).
          rewrite length_map, length_seq in H. exact H. }
        rewrite nth_error_map, nth_error_seq in Eq.
        replace (k <? 8) with true in Eq by (symmetry; apply Nat.ltb_lt; exact Hk).
        cbn in Eq. injection Eq as <-. cbn [portNode ndId ndSink].
        split; [lia | discriminate].
Qed.

(** The arena is made of clusters of nine: on top of [NodesOk], every slot
    that is a multiple of nine holds a sink, and the eight slots after it
    hold its ports, which are no sinks, have that sink as parent and no
    ports of their own. *)
Definition ClustersOk (g : Graph) : Prop :=
  NodesOk g /\
  forall i pl, nth_error (nodes g) i = Some pl ->
    (i mod 9 = 0 -> ndSink pl = true) /\
    (i mod 9 <> 0 ->
     ndSink pl = false /\ ndParent pl = Some (i - i mod 9) /\
     forall p, portOf pl p = None).

Lemma ClustersOk_writeNdAt INF g x y :
  ClustersOk g ->
  x * yHeight g + y < length (ndIdx g) ->
  getNode g x y = Some None ->
  ClustersOk (fst (OctiHananFacts.writeNdAt INF g x y)).
Proof.
  intros (Hok & Hcl) Hin Hfree.
  split; [apply NodesOk_writeNd; assumption|].
  destruct Hok as (_ & Hmod & _).
  destruct (writeNd_nodesAfter INF g x y) as (_ & Hn & _).
  intros i pl Hi. rewrite Hn in Hi.
  destruct (Nat.lt_ge_cases i (length (nodes g))) as [Hlt | Hge].
  - rewrite nth_error_app1 in Hi by exact Hlt. apply Hcl. exact Hi.
  - rewrite nth_error_app2 in Hi by exact Hge.
    assert (Hm : i mod 9 = (i - length (nodes g)) mod 9).
    { replace i with ((i - length (nodes g)) + length (nodes g)) at 1 by lia.
      rewrite <- Nat.Div0.add_mod_idemp_r, Hmod, Nat.add_0_r. reflexivity. }
    destruct (i - length (nodes g)) as [|k] eqn:Ek.
    + cbn [nth_error] in Hi. injection Hi as <-. split; [reflexivity|].
      intros H. rewrite Hm in H. contradiction.
    + cbn [nth_error] in Hi.
      assert (Hk : k < 8).
      { assert (H : k < length (map (portNode g x y) (seq 0 8)))
          by (apply nth_error_Some; congruence).
        rewrite length_map, length_seq in H. exact H. }
      rewrite nth_error_portNodes in Hi by exact Hk. injection Hi as <-.
      assert (Hsk : S k mod 9 = S k) by (apply Nat.mod_small; lia).
      split.
      * intros H. rewrite Hm, Hsk in H. discriminate.
      * intros _. split; [reflexivity|]. split.
        -- cbn [portNode ndParent]. f_equal. rewrite Hm, Hsk. lia.
        -- intros p. unfold portOf. cbn [portNode ndPorts]. apply nth_repeat.
Qed.

(** The cluster invariant is kept.  On a grid made of clusters,
    [writeNd(x, y)] for a cell that has its slot in the index and no node
    yet goes through and leaves a grid made of clusters: the new sink stands
    at a multiple of nine with its eight ports, no sinks, behind it, its id
    is its place, and the index holds its id plus one under the cell. *)
Theorem writeNd_keeps_ClustersOk (INF : Q) (g : Graph) (x y : nat) :
  ClustersOk g ->
  x * yHeight g + y < length (ndIdx g) ->
  getNode g x y = Some None ->
  exists g' n, writeNd INF g x y = Some (g', n) /\ ClustersOk g'.
Proof.
  intros Hok Hin Hfree.
  exists (fst (OctiHananFacts.writeNdAt INF g x y)), (snd (OctiHananFacts.writeNdAt INF g x y)).
  split.
  - rewrite (OctiHananFacts.writeNd_some INF g x y Hin).
    now destruct (OctiHananFacts.writeNdAt INF g x y).
  - apply ClustersOk_writeNdAt; assumption.
Qed.

Lemma NodesOk_g0 : NodesOk Demo.g0.
Proof.
  split; [reflexivity|]. split; [reflexivity|].
  intros [|i] pl H; discriminate.
Qed.

Lemma ClustersOk_g0 : ClustersOk Demo.g0.
Proof.
  split; [exact NodesOk_g0|]. intros [|i] pl H; discriminate.
Qed.

Lemma writeNd_keeps_ClustersOk_witness :
  exists g' n, writeNd 1000%Q Demo.g0 0 0 = Some (g', n) /\ ClustersOk g'.
Proof.
  apply (@writeNd_keeps_ClustersOk 1000%Q Demo.g0 0 0 ClustersOk_g0).
  - vm_compute. lia.
  - reflexivity.
Defined.


(* ------------------------------------------------------------------ *)
(** ** Major edges and the neighbour table *)

Lemma find_app {A} (p : A -> bool) (l l' : list A) :
  find p (l ++ l') = match find p l with Some a => Some a | None => find p l' end.
Proof.
  induction l as [|a l IH]; simpl; auto. destruct (p a); auto.
Qed.

Lemma edgeIs_setEdgeId fr to id e : edgeIs fr to (setEdgeId id e) = edgeIs fr to e.
Proof. reflexivity. Qed.

Lemma find_setFirstId_same fr to id es :
  find (edgeIs fr to) (setFirstId fr to id es)
  = option_map (setEdgeId id) (find (edgeIs fr to) es).
Proof.
  induction es as [|e es IH]; simpl; auto.
  destruct (edgeIs fr to e) eqn:E; simpl.
  - rewrite edgeIs_setEdgeId, E. reflexivity.
  - rewrite E. exact IH.
Qed.

Lemma edgeIs_both fr to fr' to' e :
  edgeIs fr to e = true -> edgeIs fr' to' e = true -> (fr', to') = (fr, to).
Proof.
  unfold edgeIs. rewrite !andb_true_iff, !Nat.eqb_eq. intros [-> ->] [-> ->]. reflexivity.
Qed.

Lemma find_setFirstId_other fr to fr' to' id es :
  (fr', to') <> (fr, to) ->
  find (edgeIs fr' to') (setFirstId fr to id es) = find (edgeIs fr' to') es.
Proof.
  intros Hne. induction es as [|e es IH]; simpl; auto.
  destruct (edgeIs fr to e) eqn:E; simpl.
  - rewrite edgeIs_setEdgeId.
    destruct (edgeIs fr' to' e) eqn:E'; auto.
    exfalso. apply Hne. eapply edgeIs_both; eauto.
  - rewrite IH. reflexivity.
Qed.

(** The edge between two nodes right after [addEdg] and [setId]. *)
Lemma getEdg_addEdgId_same g fr to c sec cl :
  getEdg (addEdgId g fr to c sec cl) fr to
  = Some (match getEdg g fr to with
          | Some e => setEdgeId (edgeCount g) e
          | None => mkGridEdge fr to (mkGridEdgePL c sec cl (edgeCount g))
          end).
Proof.
  unfold getEdg, addEdgId, edgeState, addE.
  destruct (find (edgeIs fr to) (edges g)) as [e|] eqn:E; cbn [fst snd setEdges edges].
  - rewrite find_setFirstId_same, E. reflexivity.
  - rewrite find_app, E. cbn [find]. unfold edgeIs at 1. cbn [eFrom eTo].
    rewrite !Nat.eqb_refl. reflexivity.
Qed.

Lemma getEdg_addEdgId_other g fr to c sec cl fr' to' :
  (fr', to') <> (fr, to) ->
  getEdg (addEdgId g fr to c sec cl) fr' to' = getEdg g fr' to'.
Proof.
  intros Hne. unfold getEdg, addEdgId, edgeState, addE.
  destruct (find (edgeIs fr to) (edges g)) as [e|] eqn:E; cbn [fst snd setEdges edges].
  - apply find_setFirstId_other. exact Hne.
  - rewrite find_app. destruct (find (edgeIs fr' to') (edges g)); auto.
    cbn [find]. destruct (edgeIs fr' to' _) eqn:E'; auto.
    exfalso. apply Hne. apply OctiHananFacts.edgeIs_true in E'. cbn in E'. destruct E'; subst. reflexivity.
Qed.

Lemma NodesOk_addEdgId g fr to c sec cl : NodesOk g -> NodesOk (addEdgId g fr to c sec cl).
Proof. intros H. exact H. Qed.

Lemma mod9_apart a b p q :
  a mod 9 = 0 -> b mod 9 = 0 -> a <> b -> p < 8 -> q < 8 -> a + p <> b + q.
Proof.
  intros Ha Hb Hne Hp Hq E.
  apply Nat.Div0.div_exact in Ha. apply Nat.Div0.div_exact in Hb. lia.
Qed.

(** [connectNodes(a, b, p)] on two different sinks of a well-formed arena
    whose neighbour table has its eight slots per node: the call goes
    through; afterwards [b] is the neighbour of [a] in direction [p] and [a]
    the neighbour of [b] in the opposite direction, all other entries of the
    table are as before, port [p] of [a] and the opposite port of [b] are
    joined by an edge in each direction, and the edge counter has moved by
    two.  An edge that was not there before is a major edge of cost 9 whose
    id is the counter at the time of its creation.  Nodes and index are not
    touched. *)
Theorem connectNodes_neigh (h : HananGraph) (a b p : nat) (plA plB : GridNodePL) :
  NodesOk (hg h) ->
  length (neighs h) = 8 * length (nodes (hg h)) ->
  nth_error (nodes (hg h)) a = Some plA -> ndSink plA = true ->
  nth_error (nodes (hg h)) b = Some plB -> ndSink plB = true ->
  a <> b -> p < 8 ->
  exists h',
    connectNodes h (Some a) (Some b) p = Some h' /\
    neigh h' (ndX plA) (ndY plA) p = Some (Some b) /\
    neigh h' (ndX plB) (ndY plB) (oppPort p) = Some (Some a) /\
    (forall i, i <> a + p -> i <> b + oppPort p ->
               nth_error (neighs h') i = nth_error (neighs h) i) /\
    (exists e f,
        getEdg (hg h') (a + 1 + p) (b + 1 + oppPort p) = Some e /\
        getEdg (hg h') (b + 1 + oppPort p) (a + 1 + p) = Some f /\
        (getEdg (hg h) (a + 1 + p) (b + 1 + oppPort p) = None ->
         e = mkGridEdge (a + 1 + p) (b + 1 + oppPort p)
                        (mkGridEdgePL 9%Q false false (edgeCount (hg h)))) /\
        (getEdg (hg h) (b + 1 + oppPort p) (a + 1 + p) = None ->
         f = mkGridEdge (b + 1 + oppPort p) (a + 1 + p)
                        (mkGridEdgePL 9%Q false false (edgeCount (hg h) + 1)))) /\
    edgeCount (hg h') = edgeCount (hg h) + 2 /\
    nodes (hg h') = nodes (hg h) /\ ndsVec (hg h') = ndsVec (hg h) /\
    ndIdx (hg h') = ndIdx (hg h) /\
    length (neighs h') = length (neighs h).
Proof.
  intros Hok Hlen HA HsA HB HsB Hab Hp.
  pose proof Hok as (Hvec & Hmod & Hall).
  destruct (Hall a plA HA) as (HidA & HsinkA). destruct (HsinkA HsA) as (HA9 & HmA & HixA & HpA).
  destruct (Hall b plB HB) as (HidB & HsinkB). destruct (HsinkB HsB) as (HB9 & HmB & HixB & HpB).
  pose proof (oppPort_lt p) as Hq.
  set (q := oppPort p) in *.
  assert (Hslot : a + p <> b + q) by (apply mod9_apart; assumption).
  assert (Hports : a + 1 + p <> b + 1 + q) by lia.
  set (ns1 := upd (neighs h) (a + p) (fun _ => Some b)).
  set (ns2 := upd ns1 (b + q) (fun _ => Some a)).
  set (g1 := addEdgId (hg h) (a + 1 + p) (b + 1 + q) 9%Q false false).
  set (g2 := addEdgId g1 (b + 1 + q) (a + 1 + p) 9%Q false false).
  exists (mkHananGraph g2 ns2 (heurHopCost h)).
  assert (Hrun : connectNodes h (Some a) (Some b) p
                 = Some (mkHananGraph g2 ns2 (heurHopCost h))).
  { unfold connectNodes. replace (a =? b) with false by (symmetry; apply Nat.eqb_neq; exact Hab).
    rewrite HA, HB, (HpA p Hp). fold q. rewrite (HpB q Hq).
    unfold setNeigh. rewrite HidA, HidB.
    replace (a + p <? length (neighs h)) with true by (symmetry; apply Nat.ltb_lt; lia).
    fold ns1.
    replace (b + q <? length ns1) with true
      by (symmetry; apply Nat.ltb_lt; unfold ns1; rewrite upd_length; lia).
    reflexivity. }
  split; [exact Hrun|].
  assert (Hn2 : forall i, nth_error ns2 i =
                          if i =? b + q then option_map (fun _ => Some a) (nth_error ns1 i)
                          else nth_error ns1 i).
  { intros i. unfold ns2. destruct (i =? b + q) eqn:E.
    - apply Nat.eqb_eq in E. subst. apply nth_error_upd_same.
    - apply Nat.eqb_neq in E. apply nth_error_upd_other. lia. }
  assert (Hn1 : forall i, nth_error ns1 i =
                          if i =? a + p then option_map (fun _ => Some b) (nth_error (neighs h) i)
                          else nth_error (neighs h) i).
  { intros i. unfold ns1. destruct (i =? a + p) eqn:E.
    - apply Nat.eqb_eq in E. subst. apply nth_error_upd_same.
    - apply Nat.eqb_neq in E. apply nth_error_upd_other. lia. }
  assert (Hdef : forall i, i < length (neighs h) -> exists v, nth_error (neighs h) i = Some v).
  { intros i Hi. destruct (nth_error (neighs h) i) eqn:E; eauto.
    apply nth_error_None in E. lia. }
  split; [|split; [|split; [|split; [|repeat split]]]].
  - unfold neigh. cbn [hg neighs]. change (ndIdx g2) with (ndIdx (hg h)).
    change (yHeight g2) with (yHeight (hg h)). rewrite HixA.
    replace (a + 1 =? 0) with false by (symmetry; apply Nat.eqb_neq; lia).
    replace (7 <? p) with false by (symmetry; apply Nat.ltb_ge; lia).
    replace (a + 1 - 1 + p) with (a + p) by lia.
    rewrite Hn2. replace (a + p =? b + q) with false by (symmetry; apply Nat.eqb_neq; lia).
    rewrite Hn1, Nat.eqb_refl.
    destruct (Hdef (a + p) ltac:(lia)) as (v & ->). reflexivity.
  - unfold neigh. cbn [hg neighs]. change (ndIdx g2) with (ndIdx (hg h)).
    change (yHeight g2) with (yHeight (hg h)). rewrite HixB.
    replace (b + 1 =? 0) with false by (symmetry; apply Nat.eqb_neq; lia).
    replace (7 <? q) with false by (symmetry; apply Nat.ltb_ge; lia).
    replace (b + 1 - 1 + q) with (b + q) by lia.
    rewrite Hn2, Nat.eqb_refl, Hn1.
    replace (b + q =? a + p) with false by (symmetry; apply Nat.eqb_neq; lia).
    destruct (Hdef (b + q) ltac:(lia)) as (v & ->). reflexivity.
  - intros i Hi1 Hi2. cbn [neighs]. rewrite Hn2, Hn1.
    replace (i =? b + q) with false by (symmetry; apply Nat.eqb_neq; lia).
    replace (i =? a + p) with false by (symmetry; apply Nat.eqb_neq; lia).
    reflexivity.
  - cbn [hg].
    eexists. eexists. split; [|split; [|split]].
    + unfold g2. rewrite getEdg_addEdgId_other by (intros E; injection E; lia).
      unfold g1. apply getEdg_addEdgId_same.
    + unfold g2. apply getEdg_addEdgId_same.
    + intros ->. reflexivity.
    + intros Hnone.
      unfold g1 at 1. rewrite getEdg_addEdgId_other by (intros E; injection E; lia).
      rewrite Hnone. unfold g1, addEdgId, edgeState, addE.
      destruct (find _ _); cbn [snd setEdges edgeCount]; repeat f_equal; lia.
  - cbn [hg]. unfold g2, g1, addEdgId, edgeState, addE.
    repeat (destruct (find _ _); cbn [fst snd setEdges edgeCount edges]); lia.
  - cbn [neighs]. unfold ns2, ns1. rewrite !upd_length. reflexivity.
Qed.


Lemma written_at g x y :
  x * yHeight g + y < length (ndIdx g) ->
  Demo.written g x y = fst (OctiHananFacts.writeNdAt Demo.dINF g x y).
Proof.
  intros H. unfold Demo.written. rewrite (OctiHananFacts.writeNd_some Demo.dINF g x y H).
  now destruct (OctiHananFacts.writeNdAt Demo.dINF g x y).
Qed.

Lemma NodesOk_g2 : NodesOk Demo.g2.
Proof.
  unfold Demo.g2.
  rewrite (@written_at (Demo.written Demo.g0 0 0) 1 0) by (vm_compute; lia).
  rewrite (@written_at Demo.g0 0 0) by (vm_compute; lia).
  apply NodesOk_writeNd.
  - apply NodesOk_writeNd; [apply NodesOk_g0 | vm_compute; lia | reflexivity].
  - vm_compute. lia.
  - vm_compute. reflexivity.
Qed.

Lemma hDemo_neighs :
  length (neighs HananDemo.hDemo) = 8 * length (nodes (hg HananDemo.hDemo)).
Proof. vm_compute. reflexivity. Qed.

Lemma hDemo_node (i : nat) :
  i < 18 -> nth_error (nodes (hg HananDemo.hDemo)) i = Some (Impl.nodeAt Demo.g2 i).
Proof.
  intros Hi. unfold Impl.nodeAt. apply nth_error_nth'. exact Hi.
Qed.

Lemma hDemo_sink0 : ndSink (Impl.nodeAt Demo.g2 0) = true.
Proof. vm_compute. reflexivity. Qed.

Lemma hDemo_sink9 : ndSink (Impl.nodeAt Demo.g2 9) = true.
Proof. vm_compute. reflexivity. Qed.

Lemma connectNodes_neigh_witness :
  exists h',
    connectNodes HananDemo.hDemo (Some 0) (Some 9) 2 = Some h' /\
    neigh h' (ndX (Impl.nodeAt Demo.g2 0)) (ndY (Impl.nodeAt Demo.g2 0)) 2
    = Some (Some 9) /\
    neigh h' (ndX (Impl.nodeAt Demo.g2 9)) (ndY (Impl.nodeAt Demo.g2 9)) (oppPort 2)
    = Some (Some 0).
Proof.
  destruct (@connectNodes_neigh HananDemo.hDemo 0 9 2
              (Impl.nodeAt Demo.g2 0) (Impl.nodeAt Demo.g2 9)
              NodesOk_g2 hDemo_neighs
              (@hDemo_node 0 ltac:(lia)) hDemo_sink0
              (@hDemo_node 9 ltac:(lia)) hDemo_sink9
              ltac:(lia) ltac:(lia))
    as (h' & H1 & H2 & H3 & _).
  exists h'. split; [exact H1|]. split; [exact H2 | exact H3].
Defined.

End HananFacts.

(* ================================================================== *)
(** * The bend edges of the sinks, through the steps of [init] *)

Module BuiltFacts.

Import MachInt Vec OctiHanan Hanan ILP ListFacts OctiHananFacts HananFacts.

(** The angle of two ports does not depend on their order. *)
Lemma angIdx_sym i j : i < 8 -> j < 8 -> Ang.angIdx i j = Ang.angIdx j i.
Proof.
  intros Hi Hj.
  assert (H : forallb (fun i => forallb (fun j => Ang.angIdx i j =? Ang.angIdx j i)
                                        (seq 0 8)) (seq 0 8) = true)
    by (vm_compute; reflexivity).
  rewrite forallb_forall in H. specialize (H i ltac:(apply in_seq; lia)).
  rewrite forallb_forall in H. specialize (H j ltac:(apply in_seq; lia)).
  now apply Nat.eqb_eq.
Qed.

(** The cell lies strictly inside the grid. *)
Definition inside (g : Graph) (x y : nat) : Prop :=
  0 < x /\ x + 1 < xWidth g /\ 0 < y /\ y + 1 < yHeight g.

Definition SizeOk (g : Graph) : Prop :=
  (Z.of_nat (xWidth g) < size_t_mod)%Z /\ (Z.of_nat (yHeight g) < size_t_mod)%Z.

Lemma size_sub_one (w : nat) :
  0 < w -> (Z.of_nat w < size_t_mod)%Z -> size_sub w 1 = Z.of_nat (w - 1).
Proof.
  intros Hw Hb. unfold size_sub, wrap. rewrite Z.mod_small; lia.
Qed.

(** No guard of the in-node loop applies inside the grid. *)
Lemma onBorder_inside g x y i :
  SizeOk g -> inside g x y -> onBorder g x y i = false.
Proof.
  intros (Hw & Hh) (Hx0 & Hx1 & Hy0 & Hy1). unfold onBorder.
  rewrite (size_sub_one (w := xWidth g)) by (lia || exact Hw).
  rewrite (size_sub_one (w := yHeight g)) by (lia || exact Hh).
  replace (x =? 0) with false by (symmetry; apply Nat.eqb_neq; lia).
  replace (y =? 0) with false by (symmetry; apply Nat.eqb_neq; lia).
  replace (Z.of_nat x =? Z.of_nat (xWidth g - 1))%Z with false
    by (symmetry; apply Z.eqb_neq; lia).
  replace (Z.of_nat y =? Z.of_nat (yHeight g - 1))%Z with false
    by (symmetry; apply Z.eqb_neq; lia).
  reflexivity.
Qed.

(** Every sink has, for every two of its ports, a bend edge in each
    direction; the two are secondary and cost the same, and inside the grid
    this cost is the bend penalty of the angle of the two ports. *)
Definition BendOk (g : Graph) : Prop :=
  forall n pl, nth_error (nodes g) n = Some pl -> ndSink pl = true ->
  forall i j, i < 8 -> j < 8 -> i <> j ->
    exists e f,
      getEdg g (n + 1 + i) (n + 1 + j) = Some e /\
      getEdg g (n + 1 + j) (n + 1 + i) = Some f /\
      plSecondary (ePl e) = true /\ plSecondary (ePl f) = true /\
      plCost (ePl e) = plCost (ePl f) /\
      (inside g (ndX pl) (ndY pl) -> plCost (ePl e) = bendCosts g (Ang.angIdx i j)).

(** The invariant of the graph while [init] writes nodes. *)
Definition GridOk (g : Graph) : Prop :=
  ClustersOk g /\ wfGraph g /\ SizeOk g /\ BendOk g.

Lemma emptyGrid_GridOk g : emptyGrid g -> GridOk g.
Proof.
  intros (Hn & He & Hv & _ & Hw & Hh).
  split; [|split; [|split]].
  - split; [split; [|split]|].
    + rewrite Hv, Hn. reflexivity.
    + rewrite Hn. reflexivity.
    + intros i pl H. rewrite Hn in H. destruct i; discriminate.
    + intros i pl H. rewrite Hn in H. destruct i; discriminate.
  - intros e H. rewrite He in H. contradiction.
  - split; assumption.
  - intros n pl H. rewrite Hn in H. destruct n; discriminate.
Qed.

Lemma clusterReqs_bounds INF g x y r :
  In r (clusterReqs INF g x y) ->
  length (nodes g) <= fst (reqKey r) < length (nodes g) + 9 /\
  length (nodes g) <= snd (reqKey r) < length (nodes g) + 9.
Proof.
  unfold clusterReqs. intros H. apply in_app_or in H. destruct H as [H | H].
  - unfold sinkReqs in H. apply in_flat_map in H. destruct H as (i & Hi & Hr).
    apply in_seq in Hi. simpl in Hr. destruct Hr as [<- | [<- | []]]; simpl; lia.
  - unfold bendReqs in H. apply in_flat_map in H. destruct H as ([i j] & Hij & Hr).
    apply in_portPairs in Hij.
    simpl in Hr. destruct Hr as [<- | [<- | []]]; simpl; lia.
Qed.

Lemma mkEdges_in (rs : list Req) :
  forall cnt e, In e (mkEdges cnt rs) -> exists r, In r rs /\ reqKey r = (eFrom e, eTo e).
Proof.
  induction rs as [|r rs IH]; intros cnt e H; [contradiction|].
  destruct r as [[[[fr to] c] sec] cl]. simpl in H. destruct H as [<- | H].
  - exists (fr, to, c, sec, cl). split; [left; reflexivity | reflexivity].
  - destruct (IH _ _ H) as (r & Hr & Hk). exists r. split; [right; exact Hr | exact Hk].
Qed.

(** The bend edges of the sink that [writeNd] has just made. *)
Lemma new_sink_bends INF g x y i j :
  wfGraph g -> i < 8 -> j < 8 -> i <> j ->
  exists c id1 id2,
    getEdg (fst (writeNdAt INF g x y)) (length (nodes g) + 1 + i) (length (nodes g) + 1 + j)
    = Some (mkGridEdge (length (nodes g) + 1 + i) (length (nodes g) + 1 + j)
                       (mkGridEdgePL c true false id1)) /\
    getEdg (fst (writeNdAt INF g x y)) (length (nodes g) + 1 + j) (length (nodes g) + 1 + i)
    = Some (mkGridEdge (length (nodes g) + 1 + j) (length (nodes g) + 1 + i)
                       (mkGridEdgePL c true false id2)) /\
    (onBorder g x y (Nat.min i j) = false -> c = bendCosts g (Ang.angIdx i j)).
Proof.
  intros Hwf Hi Hj Hij.
  destruct (Nat.lt_ge_cases i j) as [Hlt | Hge].
  - destruct (@bendReqs_in INF g x y i j ltac:(lia)) as [H1 H2].
    destruct (getEdg_cluster Hwf H1) as [id1 E1].
    destruct (getEdg_cluster Hwf H2) as [id2 E2].
    exists (bendPenAt INF g x y i j), id1, id2. split; [exact E1|]. split; [exact E2|].
    rewrite Nat.min_l by lia. intros Hb. unfold bendPenAt. rewrite Hb. reflexivity.
  - destruct (@bendReqs_in INF g x y j i ltac:(lia)) as [H1 H2].
    destruct (getEdg_cluster Hwf H1) as [id1 E1].
    destruct (getEdg_cluster Hwf H2) as [id2 E2].
    exists (bendPenAt INF g x y j i), id2, id1. split; [exact E2|]. split; [exact E1|].
    rewrite Nat.min_r by lia. intros Hb. unfold bendPenAt. rewrite Hb.
    unfold getBendPen. rewrite (angIdx_sym Hj Hi). reflexivity.
Qed.

Lemma GridOk_writeNdAt INF g x y :
  GridOk g ->
  x * yHeight g + y < length (ndIdx g) ->
  getNode g x y = Some None ->
  GridOk (fst (writeNdAt INF g x y)).
Proof.
  intros (Hcl & Hwf & Hsz & Hb) Hin Hfree.
  destruct (writeNd_cluster INF x y Hwf) as (_ & _ & He & _ & (Hcx & Hcy & Hcb)).
  destruct (writeNd_nodesAfter INF g x y) as (_ & Hn & _).
  assert (Hlen : length (nodes (fst (writeNdAt INF g x y))) = length (nodes g) + 9).
  { rewrite Hn, length_app. cbn [length]. rewrite length_map, length_seq. lia. }
  split; [apply ClustersOk_writeNdAt; assumption|]. split; [|split].
  - intros e Hine. rewrite He in Hine. rewrite Hlen.
    apply in_app_or in Hine. destruct Hine as [Hine | Hine].
    + destruct (Hwf e Hine). lia.
    + destruct (@mkEdges_in _ _ _ Hine) as (r & Hr & Hk).
      destruct (@clusterReqs_bounds _ _ _ _ _ Hr) as [H1 H2].
      rewrite Hk in H1, H2. cbn [fst snd] in H1, H2. lia.
  - unfold SizeOk. rewrite Hcx, Hcy. exact Hsz.
  - intros n pl Hnd Hs i j Hi Hj Hij. rewrite Hn in Hnd.
    destruct (Nat.lt_ge_cases n (length (nodes g))) as [Hlt | Hge].
    + rewrite nth_error_app1 in Hnd by exact Hlt.
      destruct (Hb n pl Hnd Hs i j Hi Hj Hij) as (e & f & E1 & E2 & S1 & S2 & Hc & Hin').
      exists e, f. unfold getEdg in *. rewrite He, !find_app, E1, E2.
      repeat split; auto. intros Hins. rewrite Hcb. apply Hin'.
      unfold inside in *. rewrite Hcx, Hcy in Hins. exact Hins.
    + rewrite nth_error_app2 in Hnd by exact Hge.
      destruct (n - length (nodes g)) as [|k] eqn:Ek.
      * cbn [nth_error] in Hnd. injection Hnd as <-.
        assert (n = length (nodes g)) by lia. subst n.
        destruct (@new_sink_bends INF g x y i j Hwf Hi Hj Hij) as (c & id1 & id2 & E1 & E2 & Hc).
        eexists. eexists. split; [exact E1|]. split; [exact E2|].
        cbn [ePl plSecondary plCost sinkNode ndX ndY]. repeat split.
        intros Hins. rewrite Hcb. apply Hc. apply onBorder_inside; [exact Hsz|].
        unfold inside in *. rewrite Hcx, Hcy in Hins. exact Hins.
      * cbn [nth_error] in Hnd.
        assert (Hk : k < 8).
        { assert (H : k < length (map (portNode g x y) (seq 0 8)))
            by (apply nth_error_Some; congruence).
          rewrite length_map, length_seq in H. exact H. }
        rewrite nth_error_portNodes in Hnd by exact Hk. injection Hnd as <-.
        discriminate Hs.
Qed.

(** *** Writing nodes *)

Lemma Written_GridOk INF g0 g : GridOk g0 -> Written INF g0 g -> GridOk g.
Proof.
  intros H0 Hw. induction Hw as [|g x y g' n Hw IH Hfree Hrun]; [exact H0|].
  rewrite writeNd_eq in Hrun.
  destruct (x * yHeight g + y <? length (ndIdx g)) eqn:E; [|discriminate].
  apply Nat.ltb_lt in E.
  assert (Hg : g' = fst (writeNdAt INF g x y)).
  { revert Hrun. generalize (writeNdAt INF g x y). intros r Hr.
    injection Hr as Hr. rewrite Hr. reflexivity. }
  rewrite Hg. apply GridOk_writeNdAt; assumption.
Qed.

(** *** Connecting nodes *)

(** No sink is its own neighbour. *)
Definition NeighsOk (h : HananGraph) : Prop :=
  forall n pl p m,
    nth_error (nodes (hg h)) n = Some pl -> ndSink pl = true -> p < 8 ->
    nth_error (neighs h) (n + p) = Some (Some m) -> m <> n.

Definition HananOk (h : HananGraph) : Prop := GridOk (hg h) /\ NeighsOk h.

Lemma NeighsOk_start g k hop : NeighsOk (mkHananGraph g (repeat None k) hop).
Proof.
  intros n pl p m _ _ _ H. cbn [neighs] in H.
  apply nth_error_In, repeat_spec in H. discriminate.
Qed.

(** A node with a port is a sink, and the port is where the cluster has it. *)
Lemma port_of_sink g n pl p q :
  ClustersOk g -> nth_error (nodes g) n = Some pl -> p < 8 -> portOf pl p = Some q ->
  n mod 9 = 0 /\ ndSink pl = true /\ q = n + 1 + p /\ n + 9 <= length (nodes g) /\
  ndId pl = n /\
  nth_error (ndIdx g) (ndX pl * yHeight g + ndY pl) = Some (n + 1).
Proof.
  intros ((_ & _ & Hall) & Hcl) Hn Hp Hq.
  destruct (Hcl n pl Hn) as (Hs & Hport).
  destruct (Nat.eq_dec (n mod 9) 0) as [Hm | Hm].
  - destruct (Hall n pl Hn) as (Hid & Hsink).
    destruct (Hsink (Hs Hm)) as (H9 & _ & Hix & Hps).
    rewrite (Hps p Hp) in Hq. injection Hq as <-. repeat split; auto.
  - destruct (Hport Hm) as (_ & _ & Hnone). rewrite Hnone in Hq. discriminate.
Qed.

Lemma sink_is_base g n pl :
  ClustersOk g -> nth_error (nodes g) n = Some pl -> ndSink pl = true -> n mod 9 = 0.
Proof.
  intros ((_ & _ & Hall) & _) Hn Hs. destruct (Hall n pl Hn) as (_ & Hsink).
  now destruct (Hsink Hs) as (_ & Hm & _).
Qed.

Lemma cluster_apart a b p q :
  a mod 9 = 0 -> b mod 9 = 0 -> a <> b -> p < 9 -> q < 9 -> a + p <> b + q.
Proof.
  intros Ha Hb Hne Hp Hq E.
  apply Nat.Div0.div_exact in Ha. apply Nat.Div0.div_exact in Hb. lia.
Qed.

(** A key between the clusters of two different sinks is no key inside a
    cluster. *)
Lemma cross_key n a b i j p q :
  n mod 9 = 0 -> a mod 9 = 0 -> b mod 9 = 0 -> a <> b ->
  i < 8 -> j < 8 -> p < 8 -> q < 8 ->
  (n + 1 + i, n + 1 + j) <> (a + 1 + p, b + 1 + q).
Proof.
  intros Hn Ha Hb Hab Hi Hj Hp Hq E. injection E as E1 E2.
  destruct (Nat.eq_dec n a) as [-> | Hna].
  - apply (@cluster_apart a b (1 + j) (1 + q)); [assumption|assumption|assumption| | |]; lia.
  - apply (@cluster_apart n a (1 + i) (1 + p)); [assumption|assumption|assumption| | |]; lia.
Qed.

Lemma setFirstId_in fr to id es e :
  In e (setFirstId fr to id es) ->
  exists e0, In e0 es /\ eFrom e = eFrom e0 /\ eTo e = eTo e0.
Proof.
  induction es as [|a es IH]; simpl; [contradiction|].
  destruct (edgeIs fr to a).
  - intros [E | H].
    + exists a. rewrite <- E. simpl. auto.
    + exists e. auto.
  - intros [E | H].
    + exists a. rewrite <- E. auto.
    + destruct (IH H) as (e0 & H0 & HE). exists e0. auto.
Qed.

Lemma wfGraph_addEdgId g fr to c sec cl :
  wfGraph g -> fr < length (nodes g) -> to < length (nodes g) ->
  wfGraph (addEdgId g fr to c sec cl).
Proof.
  intros Hwf Hfr Hto e He. unfold addEdgId, edgeState, addE in He.
  change (nodes (addEdgId g fr to c sec cl)) with (nodes g).
  destruct (find (edgeIs fr to) (edges g)); cbn [fst snd setEdges edges] in He.
  - apply setFirstId_in in He. destruct He as (e0 & H0 & -> & ->). apply Hwf. exact H0.
  - apply in_app_or in He. destruct He as [He | [<- | []]]; [apply Hwf; exact He|].
    cbn [eFrom eTo]. lia.
Qed.

Lemma ClustersOk_edges g g' :
  nodes g' = nodes g -> ndsVec g' = ndsVec g -> ndIdx g' = ndIdx g ->
  yHeight g' = yHeight g -> ClustersOk g -> ClustersOk g'.
Proof.
  intros Hn Hv Hi Hy. unfold ClustersOk, NodesOk. rewrite Hn, Hv, Hi, Hy. tauto.
Qed.

(** A grid that differs from a good one in edges only, the bend edges of
    the sinks being as they were. *)
Lemma GridOk_edges g g' :
  nodes g' = nodes g -> ndsVec g' = ndsVec g -> ndIdx g' = ndIdx g ->
  xWidth g' = xWidth g -> yHeight g' = yHeight g -> bendCosts g' = bendCosts g ->
  wfGraph g' ->
  (forall n pl i j,
      nth_error (nodes g) n = Some pl -> ndSink pl = true -> i < 8 -> j < 8 ->
      getEdg g' (n + 1 + i) (n + 1 + j) = getEdg g (n + 1 + i) (n + 1 + j)) ->
  GridOk g -> GridOk g'.
Proof.
  intros Hn Hv Hi Hx Hy Hb Hwf' Hsame (Hcl & _ & Hsz & Hbend).
  split; [eapply ClustersOk_edges; eauto|]. split; [exact Hwf'|]. split.
  - unfold SizeOk. rewrite Hx, Hy. exact Hsz.
  - intros n pl Hnd Hs i j Hi' Hj' Hij. rewrite Hn in Hnd.
    destruct (Hbend n pl Hnd Hs i j Hi' Hj' Hij) as (e & f & E1 & E2 & S1 & S2 & Hc & Hin).
    exists e, f. rewrite (Hsame n pl i j Hnd Hs Hi' Hj'), (Hsame n pl j i Hnd Hs Hj' Hi').
    repeat split; auto. intros Hins. rewrite Hb. apply Hin.
    unfold inside in *. rewrite Hx, Hy in Hins. exact Hins.
Qed.

Lemma oppPort_lt8 p : oppPort p < 8.
Proof. unfold oppPort, maxDeg. apply Nat.mod_upper_bound. discriminate. Qed.

Lemma connectNodes_HananOk h a b p h' :
  HananOk h -> p < 8 -> connectNodes h a b p = Some h' -> HananOk h'.
Proof.
  intros [Hg Hnb] Hp Hrun. unfold connectNodes in Hrun.
  destruct a as [a|]; [|injection Hrun as <-; split; assumption].
  destruct b as [b|]; [|injection Hrun as <-; split; assumption].
  destruct (a =? b) eqn:Eab; [injection Hrun as <-; split; assumption|].
  apply Nat.eqb_neq in Eab.
  destruct (nth_error (nodes (hg h)) a) as [plA|] eqn:EA; [|discriminate].
  destruct (nth_error (nodes (hg h)) b) as [plB|] eqn:EB; [|discriminate].
  destruct (portOf plA p) as [fr|] eqn:Efr; [|discriminate].
  destruct (portOf plB (oppPort p)) as [to|] eqn:Eto; [|discriminate].
  destruct (setNeigh (neighs h) (ndId plA + p) b) as [ns1|] eqn:E1; [|discriminate].
  destruct (setNeigh ns1 (ndId plB + oppPort p) a) as [ns2|] eqn:E2; [|discriminate].
  injection Hrun as <-.
  pose proof (oppPort_lt8 p) as Hq. set (q := oppPort p) in *.
  pose proof Hg as (Hcl & Hwf & _).
  destruct (@port_of_sink _ _ _ _ _ Hcl EA Hp Efr) as (Ha & HsA & -> & HA9 & HidA & _).
  destruct (@port_of_sink _ _ _ _ _ Hcl EB Hq Eto) as (Hb & HsB & -> & HB9 & HidB & _).
  split.
  - cbn [hg].
    apply (@GridOk_edges (hg h)); try reflexivity; [| |exact Hg].
    + apply wfGraph_addEdgId; [apply wfGraph_addEdgId; [exact Hwf | lia | lia] | |];
        change (nodes (addEdgId (hg h) (a + 1 + p) (b + 1 + q) 9%Q false false))
          with (nodes (hg h)); lia.
    + intros n pl i j Hn Hs Hi Hj.
      pose proof (@sink_is_base _ _ _ Hcl Hn Hs) as Hnm.
      rewrite !getEdg_addEdgId_other; [reflexivity | |].
      * apply cross_key; assumption.
      * apply cross_key; auto.
  - intros n pl p' m Hn Hs Hp' Hm. cbn [hg neighs] in *.
    change (nodes (addEdgId (addEdgId (hg h) (a + 1 + p) (b + 1 + q) 9%Q false false)
                            (b + 1 + q) (a + 1 + p) 9%Q false false))
      with (nodes (hg h)) in Hn.
    pose proof (@sink_is_base _ _ _ Hcl Hn Hs) as Hnm.
    unfold setNeigh in E1, E2.
    destruct (ndId plA + p <? length (neighs h)); [|discriminate]. injection E1 as <-.
    destruct (ndId plB + q <? length _); [|discriminate]. injection E2 as <-.
    rewrite HidA, HidB in Hm.
    destruct (Nat.eq_dec (n + p') (b + q)) as [E | E].
    + rewrite E, nth_error_upd_same in Hm.
      destruct (nth_error _ (b + q)); [|discriminate]. cbn in Hm. injection Hm as <-.
      destruct (Nat.eq_dec n b) as [-> | Hnb']; [exact Eab|].
      exfalso. exact (@mod9_apart _ _ _ _ Hnm Hb Hnb' Hp' Hq E).
    + rewrite nth_error_upd_other in Hm by congruence.
      destruct (Nat.eq_dec (n + p') (a + p)) as [E' | E'].
      * rewrite E', nth_error_upd_same in Hm.
        destruct (nth_error _ (a + p)); [|discriminate]. cbn in Hm. injection Hm as <-.
        destruct (Nat.eq_dec n a) as [-> | Hna]; [congruence|].
        exfalso. exact (@mod9_apart _ _ _ _ Hnm Ha Hna Hp' Hp E').
      * rewrite nth_error_upd_other in Hm by congruence.
        eapply Hnb; eauto.
Qed.

Lemma Connected_HananOk INF g0 hop h :
  GridOk g0 -> Connected INF g0 hop h -> HananOk h.
Proof.
  intros H0 Hc. induction Hc as [g Hw | h a b p h' Hc IH Hp Hrun].
  - split; [cbn [hg]; eapply Written_GridOk; eauto | apply NeighsOk_start].
  - apply (@connectNodes_HananOk h a b p h' IH); [lia | exact Hrun].
Qed.

(** *** The ports of the sinks *)

(** Any two ports that a sink has are joined by a bend edge in each
    direction; the two edges are secondary and cost the same, and inside the
    grid this cost is the bend penalty of the angle of the two ports. *)
Definition BendsOk (g : Graph) : Prop :=
  forall n pl, nth_error (nodes g) n = Some pl -> ndSink pl = true ->
  forall i j pi pj, i < 8 -> j < 8 -> i <> j ->
    portOf pl i = Some pi -> portOf pl j = Some pj ->
    pi <> pj /\
    exists e f,
      getEdg g pi pj = Some e /\ getEdg g pj pi = Some f /\
      plSecondary (ePl e) = true /\ plSecondary (ePl f) = true /\
      plCost (ePl e) = plCost (ePl f) /\
      (inside g (ndX pl) (ndY pl) -> plCost (ePl e) = bendCosts g (Ang.angIdx i j)).

(** No node is a port of two nodes. *)
Definition PortOwner (g : Graph) : Prop :=
  forall n m pl pl' i j q,
    nth_error (nodes g) n = Some pl -> nth_error (nodes g) m = Some pl' ->
    i < 8 -> j < 8 -> portOf pl i = Some q -> portOf pl' j = Some q -> n = m.

(** No sink has itself as a neighbour. *)
Definition NoSelfNeigh (h : HananGraph) : Prop :=
  forall n pl p, nth_error (nodes (hg h)) n = Some pl -> ndSink pl = true -> p < 8 ->
    neigh h (ndX pl) (ndY pl) p <> Some (Some n).

(** What is asked of the grid that [prunePorts] leaves. *)
Definition PortsOk (h : HananGraph) : Prop :=
  BendsOk (hg h) /\ PortOwner (hg h) /\ NoSelfNeigh h.

(** The grid has it when the nodes are connected. *)
Lemma HananOk_PortsOk h : HananOk h -> PortsOk h.
Proof.
  intros [(Hcl & _ & _ & Hbend) Hnb].
  pose proof Hcl as ((_ & _ & Hall) & _).
  split; [|split].
  - intros n pl Hn Hs i j pi pj Hi Hj Hij Hpi Hpj.
    destruct (Hall n pl Hn) as (_ & Hsk).
    destruct (Hsk Hs) as (_ & _ & _ & Hports).
    rewrite (Hports i Hi) in Hpi. rewrite (Hports j Hj) in Hpj.
    injection Hpi as <-. injection Hpj as <-.
    split; [lia|]. exact (Hbend n pl Hn Hs i j Hi Hj Hij).
  - intros n m pl pl' i j q Hn Hm Hi Hj Hpi Hpj.
    destruct (@port_of_sink _ _ _ _ _ Hcl Hn Hi Hpi) as (Hn9 & _ & Hq & _).
    destruct (@port_of_sink _ _ _ _ _ Hcl Hm Hj Hpj) as (Hm9 & _ & Hq' & _).
    destruct (Nat.eq_dec n m) as [E | E]; [exact E|].
    exfalso. apply (@cluster_apart n m (1 + i) (1 + j)); [assumption|assumption|assumption| | |]; lia.
  - intros n pl p Hn Hs Hp Hne.
    destruct (Hall n pl Hn) as (_ & Hsk).
    destruct (Hsk Hs) as (_ & _ & Hix & _).
    unfold neigh in Hne. rewrite Hix in Hne.
    replace (n + 1 =? 0) with false in Hne by (symmetry; apply Nat.eqb_neq; lia).
    replace (7 <? p) with false in Hne by (symmetry; apply Nat.ltb_ge; lia).
    replace (n + 1 - 1 + p) with (n + p) in Hne by lia.
    exact (Hnb n pl p n Hn Hs Hp Hne eq_refl).
Qed.

(** *** Writing the costs of the major edges *)

Lemma foldM_keeps {S X} (P : S -> Prop) (f : S -> X -> option S) (l : list X) :
  (forall s x s', In x l -> P s -> f s x = Some s' -> P s') ->
  forall s s', P s -> foldM f l s = Some s' -> P s'.
Proof.
  induction l as [|x l IH]; intros Hstep s s' Hs H; simpl in H.
  - injection H as <-. exact Hs.
  - destruct (f s x) as [s1|] eqn:E; [|discriminate].
    apply (IH (fun s0 x0 s0' Hx0 => Hstep s0 x0 s0' (or_intror Hx0)) s1 s'); auto.
    apply (Hstep s x s1); simpl; auto.
Qed.

Lemma edgeIs_setCost fr to c e : edgeIs fr to (setCost c e) = edgeIs fr to e.
Proof. reflexivity. Qed.

(** [setCost] on one edge leaves the edges between other nodes alone. *)
Lemma setEdgCost_find fr to c fr' to' :
  (fr', to') <> (fr, to) ->
  forall es es', setEdgCost fr to c es = Some es' ->
  find (edgeIs fr' to') es' = find (edgeIs fr' to') es.
Proof.
  intros Hne. induction es as [|e es IH]; intros es' H; simpl in H; [discriminate|].
  destruct (edgeIs fr to e) eqn:E.
  - injection H as <-. simpl. rewrite edgeIs_setCost.
    destruct (edgeIs fr' to' e) eqn:E'; auto.
    exfalso. apply Hne. eapply edgeIs_both; eauto.
  - destruct (setEdgCost fr to c es) as [es1|]; [|discriminate].
    injection H as <-. simpl. rewrite (IH es1 eq_refl). reflexivity.
Qed.

(** The grids that differ from [h] in the edges between ports of two
    different nodes only. *)
Definition sameBends (h h' : HananGraph) : Prop :=
  nodes (hg h') = nodes (hg h) /\ ndsVec (hg h') = ndsVec (hg h) /\
  ndIdx (hg h') = ndIdx (hg h) /\ xWidth (hg h') = xWidth (hg h) /\
  yHeight (hg h') = yHeight (hg h) /\ bendCosts (hg h') = bendCosts (hg h) /\
  neighs h' = neighs h /\
  forall n pl i j pi pj,
    nth_error (nodes (hg h)) n = Some pl -> i < 8 -> j < 8 ->
    portOf pl i = Some pi -> portOf pl j = Some pj ->
    getEdg (hg h') pi pj = getEdg (hg h) pi pj.

Lemma sameBends_refl h : sameBends h h.
Proof. repeat split. Qed.

Lemma sameBends_PortsOk h h' : sameBends h h' -> PortsOk h -> PortsOk h'.
Proof.
  intros (Hn & Hv & Hix & Hx & Hy & Hb & Hnb & Hsame) (Hbend & Hown & Hself).
  split; [|split].
  - intros n pl Hnd Hs i j pi pj Hi Hj Hij Hpi Hpj. rewrite Hn in Hnd.
    destruct (Hbend n pl Hnd Hs i j pi pj Hi Hj Hij Hpi Hpj)
      as (Hne & e & f & E1 & E2 & S1 & S2 & Hc & Hin).
    split; [exact Hne|]. exists e, f.
    rewrite (Hsame n pl i j pi pj Hnd Hi Hj Hpi Hpj),
            (Hsame n pl j i pj pi Hnd Hj Hi Hpj Hpi).
    repeat split; auto. intros Hins. rewrite Hb. apply Hin.
    unfold inside in *. rewrite Hx, Hy in Hins. exact Hins.
  - unfold PortOwner. rewrite Hn. exact Hown.
  - intros n pl p Hnd Hs Hp. rewrite Hn in Hnd.
    unfold neigh. rewrite Hix, Hy, Hv, Hnb. exact (Hself n pl p Hnd Hs Hp).
Qed.

(** The body of the port loop writes to an edge between the ports of two
    different nodes. *)
Lemma writePortCost_PortsOk n h p h' :
  PortsOk h -> p < 8 ->
  (forall pl, nth_error (nodes (hg h)) n = Some pl -> ndSink pl = true) ->
  writePortCost n h p = Some h' ->
  sameBends h h'.
Proof.
  intros (_ & Hown & Hself) Hp Hsink Hrun. unfold writePortCost in Hrun.
  destruct (nth_error (nodes (hg h)) n) as [pl|] eqn:En; [|discriminate].
  pose proof (Hsink pl eq_refl) as Hs.
  pose proof (Hself n pl p En Hs Hp) as Hne.
  destruct (neigh h (ndX pl) (ndY pl) p) as [[m|]|];
    [| injection Hrun as <-; apply sameBends_refl | discriminate].
  destruct (portOf pl p) as [q|] eqn:Eq; [|injection Hrun as <-; apply sameBends_refl].
  destruct (nth_error (nodes (hg h)) m) as [plM|] eqn:EM; [|discriminate].
  pose proof (oppPort_lt8 p) as Hq.
  destruct (portOf plM (oppPort p)) as [oPort|] eqn:Eo; [|discriminate].
  match type of Hrun with
  | match setEdgCost ?a ?b ?c ?es with _ => _ end = _ =>
      destruct (setEdgCost a b c es) as [es'|] eqn:Ese; [|discriminate]
  end.
  injection Hrun as <-. unfold sameBends. cbn [hg neighs].
  repeat split.
  intros n' pl' i j pi pj Hn' Hi Hj Hpi Hpj.
  unfold getEdg. cbn [edges setEdges].
  refine (@setEdgCost_find _ _ _ _ _ _ _ _ Ese).
  intros E. injection E as E1 E2. subst pi pj.
  apply Hne. f_equal. f_equal.
  transitivity n'.
  - symmetry. exact (Hown n' m pl' plM j (oppPort p) oPort Hn' EM Hj Hq Hpj Eo).
  - exact (Hown n' n pl' pl i p q Hn' En Hi Hp Hpi Eq).
Qed.

Lemma sameBends_trans h1 h2 h3 : sameBends h1 h2 -> sameBends h2 h3 -> sameBends h1 h3.
Proof.
  intros (Hn & Hv & Hix & Hx & Hy & Hb & Hnb & Hsame)
         (Hn' & Hv' & Hix' & Hx' & Hy' & Hb' & Hnb' & Hsame').
  unfold sameBends. rewrite Hn', Hv', Hix', Hx', Hy', Hb', Hnb'.
  repeat split; try assumption.
  intros n pl i j pi pj Hnd Hi Hj Hpi Hpj.
  rewrite (Hsame' n pl i j pi pj); [apply (Hsame n pl i j pi pj); assumption| |assumption..].
  rewrite Hn. exact Hnd.
Qed.

Lemma writeInitialCosts_PortsOk h h' :
  PortsOk h -> writeInitialCosts h = Some h' -> PortsOk h'.
Proof.
  intros Hok Hrun. unfold writeInitialCosts in Hrun.
  apply (@foldM_keeps _ _ (fun s => sameBends h s)) in Hrun;
    [exact (sameBends_PortsOk Hrun Hok) | | apply sameBends_refl].
  intros s n s' _ Hs Hstep.
  destruct (nth_error (nodes (hg s)) n) as [pl|] eqn:En; [|discriminate].
  destruct (ndSink pl) eqn:Esk; cbn [negb] in Hstep; [|injection Hstep as <-; exact Hs].
  apply (@foldM_keeps _ _ (fun t => sameBends h t /\ nodes (hg t) = nodes (hg s))) in Hstep.
  - exact (proj1 Hstep).
  - intros t p t' Hp [Ht Hnt] Hport.
    apply in_seq in Hp. unfold maxDeg in Hp.
    assert (Hst : sameBends t t').
    { apply (@writePortCost_PortsOk n t p t' (sameBends_PortsOk Ht Hok) ltac:(lia)); [|exact Hport].
      intros pl' Hpl'. rewrite Hnt, En in Hpl'. injection Hpl' as <-. exact Esk. }
    split; [exact (sameBends_trans Ht Hst)|].
    destruct Hst as (Hn' & _). congruence.
  - split; [exact Hs | reflexivity].
Qed.

(* ------------------------------------------------------------------ *)
(** ** The bend edges, as stated and as built *)

(** Modelled from the spec: "within every sink node, for every pair of
    distinct ports i != j there exist two directed bend edges (one per
    direction), each carrying a cost equal to the configured bend penalty
    for the turn angle ang(i, j)", read on a grid [g]. *)
Definition bendCosts_spec (g : Graph) : Prop :=
  forall n pl, nth_error (nodes g) n = Some pl -> ndSink pl = true ->
  forall i j pi pj, i < 8 -> j < 8 -> i <> j ->
    getPort g n i = Some pi -> getPort g n j = Some pj ->
    hasBendEdge g pi pj (bendCosts g (Ang.angIdx i j)) /\
    hasBendEdge g pj pi (bendCosts g (Ang.angIdx i j)).

(** Modelled from the spec: "... ang(i, j), which lies in {0, 1, 2}", for
    the ports of the sinks of [g]. *)
Definition angRange_spec (g : Graph) : Prop :=
  forall n pl, nth_error (nodes g) n = Some pl -> ndSink pl = true ->
  forall i j pi pj, i < 8 -> j < 8 -> i <> j ->
    getPort g n i = Some pi -> getPort g n j = Some pj ->
    Ang.angIdx i j <= 2.

Section BuiltGrid.

Variable INF : Q.
Variable prunePorts : HananGraph -> option HananGraph.

(** [prunePorts] is not among the sources.  What is asked of it: the ports
    it leaves to the sinks are still joined by their bend edges, no node is
    a port of two nodes, and no sink is its own neighbour. *)
Hypothesis prunePorts_keeps :
  forall h h', PortsOk h -> prunePorts h = Some h' -> PortsOk h'.

Lemma Built_BendsOk g0 hop h :
  emptyGrid g0 -> Built INF prunePorts g0 hop h -> BendsOk (hg h).
Proof.
  intros H0 Hb. destruct Hb as [ns | h h1 h' Hc Hp Hw].
  - destruct H0 as (Hn & _). intros n pl H. cbn [hg] in H. rewrite Hn in H.
    destruct n; discriminate.
  - apply (@writeInitialCosts_PortsOk h1 h'); [|exact Hw].
    apply (prunePorts_keeps (h := h)); [|exact Hp].
    apply HananOk_PortsOk.
    apply (@Connected_HananOk INF g0 hop h); [apply emptyGrid_GridOk; exact H0 | exact Hc].
Qed.

(** C7 (amended).  Take a grid that [init] has built from an empty one: by
    [writeNd], [connectNodes], [prunePorts] and [writeInitialCosts], where
    [prunePorts], which is not among the sources, keeps [PortsOk].  Any two
    ports [i <> j] that a sink has are two different nodes, joined by a bend
    edge in each direction.  The two edges are secondary and carry the same
    cost; the angle [ang(i, j)] is one of 0, 1, 2, 3; and when the sink lies
    strictly inside the grid, the cost is the bend penalty
    [_bendCosts[ang(i, j)]]. *)
Theorem built_bend_edges (g0 : Graph) (hop : Q) (h : HananGraph) :
  emptyGrid g0 -> Built INF prunePorts g0 hop h ->
  forall n pl, nth_error (nodes (hg h)) n = Some pl -> ndSink pl = true ->
  forall i j pi pj, i < 8 -> j < 8 -> i <> j ->
    getPort (hg h) n i = Some pi -> getPort (hg h) n j = Some pj ->
    pi <> pj /\
    exists c,
      hasBendEdge (hg h) pi pj c /\ hasBendEdge (hg h) pj pi c /\
      Ang.angIdx i j <= 3 /\
      (inside (hg h) (ndX pl) (ndY pl) -> c = bendCosts (hg h) (Ang.angIdx i j)).
Proof.
  intros H0 Hb n pl Hn Hs i j pi pj Hi Hj Hij Hpi Hpj.
  unfold getPort in Hpi, Hpj. rewrite Hn in Hpi, Hpj.
  destruct (@Built_BendsOk g0 hop h H0 Hb n pl Hn Hs i j pi pj Hi Hj Hij Hpi Hpj)
    as (Hne & e & f & E1 & E2 & S1 & S2 & Hc & Hin).
  split; [exact Hne|]. exists (plCost (ePl e)).
  split; [exists e; split; [exact E1 | split; [apply Qeq_refl | exact S1]]|].
  split; [exists f; split; [exact E2 | split; [rewrite Hc; apply Qeq_refl | exact S2]]|].
  split; [apply angIdx_le_3; assumption | exact Hin].
Qed.

End BuiltGrid.

End BuiltFacts.

(* ================================================================== *)
(** * Built grids: instances *)

Module BuiltDemoFacts.

Import MachInt Vec OctiHanan Hanan ILP ListFacts OctiHananFacts HananFacts BuiltFacts.
Import Demo BuiltDemo.

Unset Implicit Arguments.

Lemma emptyGrid_g0 : emptyGrid g0.
Proof. repeat split. Qed.

Lemma noPrune_keeps : forall h h', PortsOk h -> noPrune h = Some h' -> PortsOk h'.
Proof. intros h h' H E. injection E as <-. exact H. Qed.

(** One more call of [writeNd], for a cell that has no node. *)
Lemma written_step g x y :
  Written dINF g0 g -> getNode g x y = Some None -> Written dINF g0 (written g x y).
Proof.
  intros Hw Hfree.
  assert (Hin : x * yHeight g + y < length (ndIdx g)).
  { unfold getNode in Hfree.
    destruct (nth_error (ndIdx g) (x * yHeight g + y)) eqn:E; [|discriminate].
    apply nth_error_Some. congruence. }
  rewrite (written_at g x y Hin).
  apply (@written_cell dINF g0 g x y (fst (writeNdAt dINF g x y))
                       (snd (writeNdAt dINF g x y)) Hw Hfree).
  rewrite (writeNd_some dINF g x y Hin). now destruct (writeNdAt dINF g x y).
Qed.

Lemma Built_single x y :
  getNode g0 x y = Some None ->
  writeInitialCosts (mkHananGraph (written g0 x y) (repeat None 72) 1%Q)
  = Some (mkHananGraph (written g0 x y) (repeat None 72) 1%Q) ->
  length (ndsVec (written g0 x y)) * 8 = 72 ->
  Built dINF noPrune g0 1%Q (mkHananGraph (written g0 x y) (repeat None 72) 1%Q).
Proof.
  intros Hfree Hrun Hlen.
  apply (@built_costs dINF noPrune g0 1%Q
           (mkHananGraph (written g0 x y) (repeat None 72) 1%Q)
           (mkHananGraph (written g0 x y) (repeat None 72) 1%Q));
    [|reflexivity|exact Hrun].
  rewrite <- Hlen. apply connected_none. apply written_step; [apply written_none | exact Hfree].
Qed.

Lemma Built_hMid : Built dINF noPrune g0 1%Q hMid.
Proof. apply Built_single; vm_compute; reflexivity. Qed.

Lemma Built_hLeft : Built dINF noPrune g0 1%Q hLeft.
Proof. apply Built_single; vm_compute; reflexivity. Qed.

Lemma Built_hPair : Built dINF noPrune g0 1%Q hPair.
Proof.
  apply (@built_costs dINF noPrune g0 1%Q hPairConn hPairConn);
    [|reflexivity|vm_compute; reflexivity].
  apply (@connected_pair dINF g0 1%Q hPairStart (Some 0) (Some 9) 0);
    [|lia|vm_compute; reflexivity].
  unfold hPairStart.
  replace 144 with (length (ndsVec (written (written g0 1 1) 1 2)) * 8)
    by (vm_compute; reflexivity).
  apply connected_none.
  apply written_step; [apply written_step; [apply written_none|]|]; vm_compute; reflexivity.
Qed.

Lemma hMid_sink : nth_error (nodes (hg hMid)) 0 = Some sinkMid.
Proof. vm_compute. reflexivity. Qed.

Lemma hPair_sink : nth_error (nodes (hg hPair)) 0 = Some sinkMid.
Proof. vm_compute. reflexivity. Qed.

Lemma hLeft_sink : nth_error (nodes (hg hLeft)) 0 = Some sinkLeft.
Proof. vm_compute. reflexivity. Qed.

Lemma hMid_port0 : getPort (hg hMid) 0 0 = Some 1.
Proof. vm_compute. reflexivity. Qed.

Lemma hMid_port3 : getPort (hg hMid) 0 3 = Some 4.
Proof. vm_compute. reflexivity. Qed.

Lemma hPair_port0 : getPort (hg hPair) 0 0 = Some 1.
Proof. vm_compute. reflexivity. Qed.

Lemma hPair_port3 : getPort (hg hPair) 0 3 = Some 4.
Proof. vm_compute. reflexivity. Qed.

Lemma hLeft_port5 : getPort (hg hLeft) 0 5 = Some 6.
Proof. vm_compute. reflexivity. Qed.

Lemma hLeft_port6 : getPort (hg hLeft) 0 6 = Some 7.
Proof. vm_compute. reflexivity. Qed.

Lemma hLeft_edge :
  getEdg (hg hLeft) 6 7 = Some (mkGridEdge 6 7 (mkGridEdgePL 1000%Q true false 66)).
Proof. vm_compute. reflexivity. Qed.

Lemma hLeft_pen : bendCosts (hg hLeft) (Ang.angIdx 5 6) = 1%Q.
Proof. vm_compute. reflexivity. Qed.

Lemma ang_0_3 : Ang.angIdx 0 3 = 3.
Proof. vm_compute. reflexivity. Qed.

Lemma built_bend_edges_witness :
  (forall h h', PortsOk h -> noPrune h = Some h' -> PortsOk h') /\
  emptyGrid g0 /\ Built dINF noPrune g0 1%Q hPair /\
  nth_error (nodes (hg hPair)) 0 = Some sinkMid /\ ndSink sinkMid = true /\
  getPort (hg hPair) 0 0 = Some 1 /\ getPort (hg hPair) 0 3 = Some 4 /\
  1 <> 4 /\
  exists c,
    hasBendEdge (hg hPair) 1 4 c /\ hasBendEdge (hg hPair) 4 1 c /\
    Ang.angIdx 0 3 <= 3 /\
    (inside (hg hPair) (ndX sinkMid) (ndY sinkMid) ->
     c = bendCosts (hg hPair) (Ang.angIdx 0 3)).
Proof.
  split; [exact noPrune_keeps|]. split; [exact emptyGrid_g0|].
  split; [exact Built_hPair|]. split; [exact hPair_sink|]. split; [reflexivity|].
  split; [exact hPair_port0|]. split; [exact hPair_port3|].
  apply (@built_bend_edges dINF noPrune noPrune_keeps g0 1%Q hPair emptyGrid_g0 Built_hPair
                           0 sinkMid hPair_sink eq_refl 0 3 1 4);
    [lia | lia | lia | exact hPair_port0 | exact hPair_port3].
Defined.

(** C7 as stated fails on grids that [init] builds from the empty 3 x 3
    grid when [prunePorts] removes nothing.  With one sink in the middle
    cell, the ports 0 and 3 enclose the angle 3, which is none of 0, 1, 2.
    With one sink in the cell (0, 1) on the left border, the bend edge from
    port 5 to port 6, which both point out of the grid, costs [INF] and not
    [_bendCosts[ang(5, 6)]] = 1. *)
Lemma bendEdges_spec_fails :
  emptyGrid g0 /\ Built dINF noPrune g0 1%Q hMid /\ Built dINF noPrune g0 1%Q hLeft /\
  ~ angRange_spec (hg hMid) /\ ~ bendCosts_spec (hg hLeft).
Proof.
  split; [exact emptyGrid_g0|]. split; [exact Built_hMid|]. split; [exact Built_hLeft|].
  split.
  - intros H.
    pose proof (H 0 sinkMid hMid_sink eq_refl 0 3 1 4 ltac:(lia) ltac:(lia) ltac:(lia)
                  hMid_port0 hMid_port3) as Hr.
    rewrite ang_0_3 in Hr. lia.
  - intros H.
    destruct (H 0 sinkLeft hLeft_sink eq_refl 5 6 6 7 ltac:(lia) ltac:(lia) ltac:(lia)
                hLeft_port5 hLeft_port6) as ((e & He & Hc & _) & _).
    rewrite hLeft_edge in He. injection He as <-.
    rewrite hLeft_pen in Hc. cbn [ePl plCost] in Hc. discriminate Hc.
Qed.

Set Implicit Arguments.

End BuiltDemoFacts.

(* ================================================================== *)
(** * One Hanan iteration ([getIterCoords]) *)

Module IterCoordsFacts.

Import Vec ILP Hanan ListFacts LPFacts HananFacts.

(** ** Loops that never fail *)

(** A loop over [l] whose rounds go through under an invariant, only move
    the state upwards, and each leave a fact behind that moving upwards
    keeps. *)
Lemma foldM_run {S X} (f : S -> X -> option S) (Inv : S -> Prop) (Le : S -> S -> Prop)
      (Est : X -> S -> Prop) (l : list X) :
  (forall s, Le s s) ->
  (forall a b c, Le a b -> Le b c -> Le a c) ->
  (forall x s s', Est x s -> Le s s' -> Est x s') ->
  (forall s x, In x l -> Inv s ->
               exists s', f s x = Some s' /\ Inv s' /\ Le s s' /\ Est x s') ->
  forall s, Inv s ->
            exists s', foldM f l s = Some s' /\ Inv s' /\ Le s s' /\
                       forall x, In x l -> Est x s'.
Proof.
  intros Hrefl Htrans Hmono.
  induction l as [|x l IH]; intros Hstep s Hs.
  - exists s. simpl. repeat split; auto. intros x [].
  - destruct (Hstep s x (or_introl eq_refl) Hs) as (s1 & E1 & I1 & L1 & P1).
    destruct (IH (fun s0 x0 Hx0 => Hstep s0 x0 (or_intror Hx0)) s1 I1)
      as (s' & E' & I' & L' & P').
    exists s'. simpl. rewrite E1. repeat split; auto.
    + eapply Htrans; eauto.
    + intros y [<- | Hy]; [eapply Hmono; eauto | auto].
Qed.

(** ** The ordered set *)

Lemma coordEqb_eq a b : coordEqb a b = true <-> a = b.
Proof.
  destruct a as [a1 a2], b as [b1 b2]. unfold coordEqb. simpl.
  rewrite andb_true_iff, !Nat.eqb_eq. split; [intros [-> ->]; reflexivity|].
  intros E. injection E as -> ->. auto.
Qed.

Lemma setCount_In c s : setCount c s = true <-> In c s.
Proof.
  unfold setCount. rewrite existsb_exists. split.
  - intros (d & Hd & E). apply coordEqb_eq in E. now subst.
  - intros Hc. exists c. split; auto. now apply coordEqb_eq.
Qed.

Lemma setInsert_In c d s : In d (setInsert c s) <-> d = c \/ In d s.
Proof.
  induction s as [|e s IH]; simpl.
  - intuition.
  - destruct (coordLt c e); [simpl; intuition|].
    destruct (coordEqb c e) eqn:E.
    + apply coordEqb_eq in E. subst. simpl. intuition.
    + simpl. rewrite IH. intuition.
Qed.

(** ** The four families of buckets *)

Definition bucket (k : Coord -> nat) (l : list Coord) (i : nat) : list Coord :=
  filter (fun c => k c =? i) l.

Lemma upd_map_seq {A} (f : nat -> A) (g : A -> A) (n j : nat) :
  forall a,
    upd (map f (seq a n)) j g
    = map (fun i => if i =? a + j then g (f i) else f i) (seq a n).
Proof.
  revert j. induction n as [|n IH]; intros j a; [destruct j; reflexivity|].
  destruct j as [|j]; cbn [seq map upd].
  - rewrite Nat.add_0_r, Nat.eqb_refl. f_equal.
    apply map_ext_in. intros i Hi. apply in_seq in Hi.
    replace (i =? a) with false by (symmetry; apply Nat.eqb_neq; lia). reflexivity.
  - replace (a =? a + S j) with false by (symmetry; apply Nat.eqb_neq; lia).
    f_equal. rewrite IH. apply map_ext. intros i.
    replace (S a + j) with (a + S j) by lia. reflexivity.
Qed.

Lemma fill_buckets (k : Coord -> nat) (n : nat) (l : list Coord) :
  (forall c, In c l -> k c < n) ->
  forall pre,
    foldM (fun v c => pushAt v (k c) c) l (map (bucket k pre) (seq 0 n))
    = Some (map (bucket k (pre ++ l)) (seq 0 n)).
Proof.
  induction l as [|c l IH]; intros Hk pre; simpl.
  - now rewrite app_nil_r.
  - unfold pushAt at 1. rewrite length_map, length_seq.
    replace (k c <? n) with true
      by (symmetry; apply Nat.ltb_lt; apply Hk; simpl; auto).
    rewrite upd_map_seq.
    replace (map _ (seq 0 n)) with (map (bucket k (pre ++ [c])) (seq 0 n)).
    + rewrite IH by (intros d Hd; apply Hk; simpl; auto).
      now rewrite <- app_assoc.
    + apply map_ext. intros i. unfold bucket. rewrite filter_app. simpl.
      rewrite (Nat.eqb_sym i (k c)).
      destruct (k c =? i); [reflexivity | now rewrite app_nil_r].
Qed.

Lemma fill_repeat (k : Coord -> nat) (n : nat) (l : list Coord) :
  (forall c, In c l -> k c < n) ->
  foldM (fun v c => pushAt v (k c) c) l (repeat [] n)
  = Some (map (bucket k l) (seq 0 n)).
Proof.
  assert (Hb : forall m, repeat (@nil Coord) m = map (bucket k []) (seq 0 m)).
  { induction m as [|m IH]; [reflexivity|].
    rewrite seq_S, map_app, <- IH. simpl. apply repeat_cons. }
  intros Hk. rewrite Hb. apply (@fill_buckets k n l Hk []).
Qed.

Lemma filter_empty_existsb {A} (p : A -> bool) (l : list A) :
  (length (filter p l) =? 0) = negb (existsb p l).
Proof.
  induction l as [|a l IH]; simpl; auto.
  destruct (p a); simpl; auto.
Qed.

Section Iter.

Variables W H : nat.
Variable cs : list Coord.
Hypothesis Hrange : forall c, In c cs -> fst c < W /\ snd c < H.

(** A line of the family [k] with number [i] holds an input point. *)
Definition used (k : Coord -> nat) (i : nat) : bool := existsb (fun c => k c =? i) cs.

Definition kRow (c : Coord) : nat := snd c.
Definition kCol (c : Coord) : nat := fst c.
Definition kDiag (c : Coord) : nat := fst c + (H - 1 - snd c).
Definition kAnti (c : Coord) : nat := snd c + fst c.

(** A vector of [n] buckets whose empty ones are the unused lines. *)
Definition profile (k : Coord -> nat) (n : nat) (v : list (list Coord)) : Prop :=
  length v = n /\
  forall i, i < n -> exists l, nth_error v i = Some l /\ (length l =? 0) = negb (used k i).

Lemma profile_fill k n :
  profile k n (map (bucket k cs) (seq 0 n)).
Proof.
  split; [now rewrite length_map, length_seq|].
  intros i Hi. exists (bucket k cs i). split.
  - rewrite nth_error_map, nth_error_seq.
    replace (i <? n) with true by (symmetry; apply Nat.ltb_lt; exact Hi). reflexivity.
  - apply filter_empty_existsb.
Qed.

Lemma profile_sizeAt k n v i :
  profile k n v -> i < n ->
  exists sz, sizeAt v i = Some sz /\ negb (sz =? 0) = used k i.
Proof.
  intros (_ & Hp) Hi. destruct (Hp i Hi) as (l & E & Hl).
  exists (length l). unfold sizeAt. rewrite E. split; auto.
  rewrite Hl. apply negb_involutive.
Qed.

Lemma profile_pushAt k n v i c :
  profile k n v -> i < n -> used k i = true ->
  exists v', pushAt v i c = Some v' /\ profile k n v'.
Proof.
  intros (Hlen & Hp) Hi Hu.
  exists (upd v i (fun l => l ++ [c])). unfold pushAt.
  replace (i <? length v) with true by (symmetry; apply Nat.ltb_lt; lia).
  split; [reflexivity|]. split; [now rewrite upd_length|].
  intros j Hj. destruct (Nat.eq_dec i j) as [<- | Hne].
  - destruct (Hp i Hi) as (l & E & _). exists (l ++ [c]).
    rewrite nth_error_upd_same, E. split; [reflexivity|].
    rewrite length_app, Hu. simpl. apply Nat.eqb_neq. lia.
  - rewrite nth_error_upd_other by exact Hne. apply Hp. exact Hj.
Qed.

(** ** The crossings of used columns and used rows *)

Definition State5 : Type := list Coord * list (list Coord) * list (list Coord).

Definition ret5 (st : State5) : list Coord := fst (fst st).

Definition Inv5 (st : State5) : Prop :=
  profile kRow H (snd (fst st)) /\ profile kCol W (snd st) /\
  forall c, In c (ret5 st) ->
            fst c < W /\ snd c < H /\ used kCol (fst c) = true /\ used kRow (snd c) = true.

Definition Le5 (s s' : State5) : Prop := forall c, In c (ret5 s) -> In c (ret5 s').

Lemma Le5_refl s : Le5 s s.
Proof. intros c Hc. exact Hc. Qed.

Lemma Le5_trans a b c : Le5 a b -> Le5 b c -> Le5 a c.
Proof. intros H1 H2 d Hd. auto. Qed.

Lemma hananCell_run x st y :
  x < W -> y < H -> used kCol x = true -> Inv5 st ->
  exists st', hananCell x st y = Some st' /\ Inv5 st' /\ Le5 st st' /\
              (used kRow y = true -> In (x, y) (ret5 st')).
Proof.
  intros Hx Hy Hux (Hpy & Hpx & Hret).
  destruct st as [[ret yAct] xAct]. cbn [fst snd ret5] in *.
  unfold hananCell.
  destruct (profile_sizeAt Hpy Hy) as (sy & -> & Hsy).
  destruct (sy =? 0) eqn:E0.
  { exists (ret, yAct, xAct). split; [reflexivity|].
    split; [exact (conj Hpy (conj Hpx Hret))|]. split; [apply Le5_refl|].
    intros Hu. rewrite Hu in Hsy. discriminate. }
  cbn [negb] in Hsy. symmetry in Hsy.
  destruct (setCount (x, y) ret) eqn:Ec.
  { exists (ret, yAct, xAct). split; [reflexivity|].
    split; [exact (conj Hpy (conj Hpx Hret))|]. split; [apply Le5_refl|].
    intros _. apply setCount_In. exact Ec. }
  destruct (profile_pushAt (x, y) Hpy Hy Hsy) as (yAct' & -> & Hpy').
  destruct (profile_pushAt (x, y) Hpx Hx Hux) as (xAct' & -> & Hpx').
  exists (setInsert (x, y) ret, yAct', xAct'). split; [reflexivity|].
  split; [|split].
  - split; [exact Hpy'|]. split; [exact Hpx'|].
    intros c Hc. cbn [ret5 fst] in Hc. apply setInsert_In in Hc.
    destruct Hc as [-> | Hc]; [cbn; auto | auto].
  - intros c Hc. cbn [ret5 fst] in *. apply setInsert_In. auto.
  - intros _. cbn [ret5 fst]. apply setInsert_In. auto.
Qed.

Lemma hananCol_run st x :
  x < W -> Inv5 st ->
  exists st', hananCol H st x = Some st' /\ Inv5 st' /\ Le5 st st' /\
              (forall y, y < H -> used kCol x = true -> used kRow y = true ->
                         In (x, y) (ret5 st')).
Proof.
  intros Hx Hinv. unfold hananCol.
  pose proof Hinv as (_ & Hpx & _).
  destruct (profile_sizeAt Hpx Hx) as (sx & -> & Hsx).
  destruct (sx =? 0) eqn:E0.
  { exists st. split; [reflexivity|]. split; [exact Hinv|]. split; [apply Le5_refl|].
    intros y _ Hu. rewrite Hu in Hsx. discriminate. }
  cbn [negb] in Hsx. symmetry in Hsx.
  destruct (@foldM_run State5 nat (hananCell x) Inv5 Le5
              (fun y s => used kRow y = true -> In (x, y) (ret5 s)) (seq 0 H)
              Le5_refl Le5_trans) with (s := st) as (st' & E & I & L & P).
  - intros y s s' Hs Hle Hu. apply Hle. auto.
  - intros s y Hy Hs. apply in_seq in Hy. apply hananCell_run; auto. lia.
  - exact Hinv.
  - exists st'. split; [exact E|]. split; [exact I|]. split; [exact L|].
    intros y Hy _ Hu. apply (P y); auto. apply in_seq. lia.
Qed.

(** ** Cells on used diagonals *)

(** The test of the last loop nest. *)
Definition onTwo (x y : nat) : bool :=
  (used kDiag (x + (H - 1 - y))
   && (used kAnti (y + x) || used kRow y || used kCol x))
  || (used kAnti (y + x)
      && (used kDiag (x + (H - 1 - y)) || used kRow y || used kCol x)).

Definition good (c : Coord) : bool :=
  (used kCol (fst c) && used kRow (snd c)) || onTwo (fst c) (snd c).

Definition Inv6 (ret : list Coord) : Prop :=
  forall c, In c ret -> fst c < W /\ snd c < H /\ good c = true.

Lemma diagCell_run yAct xAct x ret y :
  profile kRow H yAct -> profile kCol W xAct ->
  x < W -> y < H -> Inv6 ret ->
  exists ret',
    diagCell H yAct xAct (map (bucket kDiag cs) (seq 0 (W + H)))
             (map (bucket kAnti cs) (seq 0 (W + H))) x ret y = Some ret' /\
    Inv6 ret' /\ incl ret ret' /\ (onTwo x y = true -> In (x, y) ret').
Proof.
  intros Hpy Hpx Hx Hy Hinv. unfold diagCell.
  destruct (@profile_sizeAt kDiag (W + H) _ (x + (H - 1 - y)) (profile_fill kDiag (W + H))
              ltac:(lia)) as (sxy & -> & Hsxy).
  destruct (@profile_sizeAt kAnti (W + H) _ (y + x) (profile_fill kAnti (W + H))
              ltac:(lia)) as (syx & -> & Hsyx).
  destruct (profile_sizeAt Hpy Hy) as (sy & -> & Hsy).
  destruct (profile_sizeAt Hpx Hx) as (sx & -> & Hsx).
  cbv zeta beta. rewrite Hsxy, Hsyx, Hsy, Hsx. fold (onTwo x y).
  destruct (onTwo x y) eqn:E2.
  - destruct (setCount (x, y) ret) eqn:Ec; cbn [negb].
    + exists ret. split; [reflexivity|]. split; [exact Hinv|]. split; [apply incl_refl|].
      intros _. apply setCount_In. exact Ec.
    + exists (setInsert (x, y) ret). split; [reflexivity|]. split; [|split].
      * intros c Hc. apply setInsert_In in Hc. destruct Hc as [-> | Hc]; [|auto].
        cbn [fst snd]. split; [exact Hx|]. split; [exact Hy|]. unfold good. cbn [fst snd].
        rewrite E2. apply orb_true_r.
      * intros c Hc. apply setInsert_In. auto.
      * intros _. apply setInsert_In. auto.
  - exists ret. split; [reflexivity|]. split; [exact Hinv|]. split; [apply incl_refl|].
    discriminate.
Qed.

(** ** The whole iteration, in terms of the four tests *)

Lemma getIterCoords_char :
  exists ret,
    getIterCoords W H cs = Some ret /\
    forall c, In c ret <-> fst c < W /\ snd c < H /\ good c = true.
Proof.
  unfold getIterCoords.
  assert (E1 : foldM (fun v c => pushAt v (snd c) c) cs (repeat [] H)
               = Some (map (bucket kRow cs) (seq 0 H))).
  { apply (@fill_repeat kRow). intros c Hc. apply Hrange. exact Hc. }
  assert (E2 : foldM (fun v c => pushAt v (fst c) c) cs (repeat [] W)
               = Some (map (bucket kCol cs) (seq 0 W))).
  { apply (@fill_repeat kCol). intros c Hc. apply Hrange. exact Hc. }
  assert (E3 : foldM (fun v c => pushAt v (fst c + (H - 1 - snd c)) c) cs (repeat [] (W + H))
               = Some (map (bucket kDiag cs) (seq 0 (W + H)))).
  { apply (@fill_repeat kDiag). intros c Hc. destruct (Hrange c Hc). unfold kDiag. lia. }
  assert (E4 : foldM (fun v c => pushAt v (snd c + fst c) c) cs (repeat [] (W + H))
               = Some (map (bucket kAnti cs) (seq 0 (W + H)))).
  { apply (@fill_repeat kAnti). intros c Hc. destruct (Hrange c Hc). unfold kAnti. lia. }
  rewrite E1, E2, E3, E4. clear E1 E2 E3 E4.
  destruct (@foldM_run State5 nat (hananCol H) Inv5 Le5
              (fun x s => forall y, y < H -> used kCol x = true -> used kRow y = true ->
                                    In (x, y) (ret5 s))
              (seq 0 W) Le5_refl Le5_trans)
    with (s := (@nil Coord, map (bucket kRow cs) (seq 0 H), map (bucket kCol cs) (seq 0 W)))
    as (st5 & E5 & I5 & _ & P5).
  { intros x s s' Hs Hle y Hy Hux Huy. apply Hle. auto. }
  { intros s x Hx Hs. apply in_seq in Hx. apply hananCol_run; auto. lia. }
  { split; [apply profile_fill|]. split; [apply profile_fill|]. intros c []. }
  unfold State5 in E5. rewrite E5. destruct st5 as [[ret5' yAct] xAct].
  destruct I5 as (Hpy & Hpx & Hret5). cbn [fst snd ret5] in *.
  destruct (@foldM_run (list Coord) nat
              (fun ret x => foldM (diagCell H yAct xAct
                                            (map (bucket kDiag cs) (seq 0 (W + H)))
                                            (map (bucket kAnti cs) (seq 0 (W + H))) x)
                                  (seq 0 H) ret)
              Inv6 (@incl Coord)
              (fun x ret => forall y, y < H -> onTwo x y = true -> In (x, y) ret)
              (seq 0 W) (@incl_refl Coord) (@incl_tran Coord))
    with (s := ret5') as (ret & E6 & I6 & L6 & P6).
  { intros x s s' Hs Hle y Hy H2. apply Hle. auto. }
  { intros s x Hx Hs. apply in_seq in Hx.
    destruct (@foldM_run (list Coord) nat
                (diagCell H yAct xAct (map (bucket kDiag cs) (seq 0 (W + H)))
                          (map (bucket kAnti cs) (seq 0 (W + H))) x)
                Inv6 (@incl Coord)
                (fun y ret => onTwo x y = true -> In (x, y) ret)
                (seq 0 H) (@incl_refl Coord) (@incl_tran Coord))
      with (s := s) as (s' & E & I & L & P).
    - intros y s0 s0' Hs0 Hle H2. apply Hle. auto.
    - intros s0 y Hy Hs0. apply in_seq in Hy. apply diagCell_run; auto; lia.
    - exact Hs.
    - exists s'. split; [exact E|]. split; [exact I|]. split; [exact L|].
      intros y Hy H2. apply (P y); auto. apply in_seq. lia. }
  { intros c Hc. destruct (Hret5 c Hc) as (H1 & H2 & H3 & H4).
    repeat split; auto. unfold good. now rewrite H3, H4. }
  exists ret. split; [exact E6|].
  intros [x y]. cbn [fst snd]. split; [apply I6|].
  intros (Hx & Hy & Hg). unfold good in Hg. cbn [fst snd] in Hg.
  apply orb_true_iff in Hg. destruct Hg as [Hg | Hg].
  - apply andb_true_iff in Hg. destruct Hg as [Hc Hr].
    apply L6. apply (P5 x); auto. apply in_seq. lia.
  - apply (P6 x); auto. apply in_seq. lia.
Qed.

End Iter.

(** ** The four lines through a cell *)

Definition onCol (cs : list Coord) (x : nat) : Prop := exists b, In (x, b) cs.
Definition onRow (cs : list Coord) (y : nat) : Prop := exists a, In (a, y) cs.
Definition onDiag (cs : list Coord) (x y : nat) : Prop :=
  exists a b, In (a, b) cs /\ a + y = x + b.
Definition onAnti (cs : list Coord) (x y : nat) : Prop :=
  exists a b, In (a, b) cs /\ a + b = x + y.

(** At least two of the four lines through [(x, y)] hold an input point. *)
Definition onTwoLines (cs : list Coord) (x y : nat) : Prop :=
  (onCol cs x /\ onRow cs y) \/
  (onDiag cs x y /\ (onAnti cs x y \/ onRow cs y \/ onCol cs x)) \/
  (onAnti cs x y /\ (onDiag cs x y \/ onRow cs y \/ onCol cs x)).

Lemma used_iff cs (k : Coord -> nat) i :
  used cs k i = true <-> exists a b, In (a, b) cs /\ k (a, b) = i.
Proof.
  unfold used. rewrite existsb_exists. split.
  - intros ([a b] & Hc & E). apply Nat.eqb_eq in E. eauto.
  - intros (a & b & Hc & E). exists (a, b). split; auto. now apply Nat.eqb_eq.
Qed.

Lemma good_iff W H cs x y :
  (forall c, In c cs -> fst c < W /\ snd c < H) -> y < H ->
  good H cs (x, y) = true <-> onTwoLines cs x y.
Proof.
  intros Hrange Hy.
  assert (Hc : used cs kCol x = true <-> onCol cs x).
  { rewrite used_iff. unfold kCol, onCol. split.
    - intros (a & b & Hin & <-). eauto.
    - intros (b & Hin). eauto. }
  assert (Hr : used cs kRow y = true <-> onRow cs y).
  { rewrite used_iff. unfold kRow, onRow. split.
    - intros (a & b & Hin & <-). eauto.
    - intros (a & Hin). eauto. }
  assert (Hd : used cs (kDiag H) (x + (H - 1 - y)) = true <-> onDiag cs x y).
  { rewrite used_iff. unfold kDiag, onDiag. cbn [fst snd]. split.
    - intros (a & b & Hin & E). exists a, b. split; auto.
      destruct (Hrange _ Hin) as [_ Hb]. cbn in Hb. lia.
    - intros (a & b & Hin & E). exists a, b. split; auto.
      destruct (Hrange _ Hin) as [_ Hb]. cbn in Hb. lia. }
  assert (Ha : used cs kAnti (y + x) = true <-> onAnti cs x y).
  { rewrite used_iff. unfold kAnti, onAnti. cbn [fst snd]. split.
    - intros (a & b & Hin & E). exists a, b. split; auto. lia.
    - intros (a & b & Hin & E). exists a, b. split; auto. lia. }
  unfold good, onTwo, onTwoLines. cbn [fst snd].
  rewrite !orb_true_iff, !andb_true_iff, !orb_true_iff, Hc, Hr, Hd, Ha. tauto.
Qed.

(** One Hanan iteration on a grid of [W] columns and [H] rows, for input
    cells inside the grid: the call goes through, and the set it returns
    holds exactly the cells of the grid through which at least two of the
    four octilinear lines (column, row, the two diagonals) pass over an
    input cell. *)
Theorem getIterCoords_two_lines (W H : nat) (cs : list Coord) :
  (forall c, In c cs -> fst c < W /\ snd c < H) ->
  exists ret,
    getIterCoords W H cs = Some ret /\
    forall x y, In (x, y) ret <-> x < W /\ y < H /\ onTwoLines cs x y.
Proof.
  intros Hrange.
  destruct (@getIterCoords_char W H cs Hrange) as (ret & E & Hret).
  exists ret. split; [exact E|].
  intros x y. rewrite (Hret (x, y)). cbn [fst snd].
  split; intros (Hx & Hy & Hg); repeat split; auto;
    apply (@good_iff W H cs x y Hrange Hy); exact Hg.
Qed.

Lemma getIterCoords_two_lines_witness :
  exists ret,
    getIterCoords 3 3 [(0, 0); (2, 1)] = Some ret /\
    forall x y, In (x, y) ret <-> x < 3 /\ y < 3 /\ onTwoLines [(0, 0); (2, 1)] x y.
Proof.
  apply (@getIterCoords_two_lines 3 3 [(0, 0); (2, 1)]).
  intros c [<- | [<- | []]]; simpl; lia.
Defined.

(** The result of a Hanan iteration holds every input cell and, with two
    input cells, the crossing of the column of the one with the row of the
    other (the Hanan grid); without input cells it is empty. *)
Theorem getIterCoords_hanan_grid (W H : nat) (cs ret : list Coord) :
  (forall c, In c cs -> fst c < W /\ snd c < H) ->
  getIterCoords W H cs = Some ret ->
  (forall c, In c cs -> In c ret) /\
  (forall x y x' y', In (x, y') cs -> In (x', y) cs -> In (x, y) ret) /\
  (cs = [] -> ret = []).
Proof.
  intros Hrange Hrun.
  destruct (@getIterCoords_char W H cs Hrange) as (ret' & E & Hret).
  rewrite Hrun in E. injection E as <-.
  assert (Hgrid : forall x y x' y', In (x, y') cs -> In (x', y) cs -> In (x, y) ret).
  { intros x y x' y' H1 H2. apply Hret. cbn [fst snd].
    destruct (Hrange _ H1) as [Hx _]. destruct (Hrange _ H2) as [_ Hy].
    cbn [fst snd] in *. repeat split; auto.
    apply (@good_iff W H cs x y Hrange Hy). left. split; [exists y' | exists x']; assumption. }
  split; [|split].
  - intros [x y] Hc. eapply Hgrid; eauto.
  - exact Hgrid.
  - intros ->. destruct ret as [|[x y] ret]; auto.
    exfalso. destruct (proj1 (Hret (x, y)) (or_introl eq_refl)) as (_ & Hy & Hg).
    discriminate.
Qed.

Lemma getIterCoords_hanan_grid_witness :
  (forall c, In c [(0, 0); (2, 1)] -> In c [(0, 0); (0, 1); (1, 0); (1, 1); (2, 0); (2, 1); (2, 2)]) /\
  (forall x y x' y', In (x, y') [(0, 0); (2, 1)] -> In (x', y) [(0, 0); (2, 1)] ->
                     In (x, y) [(0, 0); (0, 1); (1, 0); (1, 1); (2, 0); (2, 1); (2, 2)]) /\
  ([(0, 0); (2, 1)] = [] -> [(0, 0); (0, 1); (1, 0); (1, 1); (2, 0); (2, 1); (2, 2)] = []).
Proof.
  apply (@getIterCoords_hanan_grid 3 3 [(0, 0); (2, 1)]).
  - intros c [<- | [<- | []]]; simpl; lia.
  - vm_compute. reflexivity.
Defined.

End IterCoordsFacts.

(* ================================================================== *)
(** * Rows built from lists of weighted names *)

Module RowFacts.

Import Vec Names LP Grid Comb ILP ListFacts LPFacts PhaseFacts FlowFacts.

(** A coefficient and the name of the column it is meant for. *)
Definition WName : Type := (Z * Name)%type.

(** The terms the lookups contribute, in order. *)
Definition wterms (lp : Solver) (l : list WName) : list (nat * Z) :=
  flat_map (fun cn => optTerm lp (fst cn) (snd cn)) l.

(** A run of guarded [addColToRow] calls. *)
Definition addAll (row : nat) (lp : Solver) (l : list WName) : Solver :=
  fold_left (fun s cn => addIfVar row (fst cn) s (snd cn)) l lp.

Lemma addAll_app row lp l l' : addAll row lp (l ++ l') = addAll row (addAll row lp l) l'.
Proof. unfold addAll. apply fold_left_app. Qed.

Lemma wterms_app lp l l' : wterms lp (l ++ l') = wterms lp l ++ wterms lp l'.
Proof. unfold wterms. apply flat_map_app. Qed.

Lemma addAll_last lp r l :
  addAll (length (rows lp)) (pushRow lp r) l = pushRow lp (addTerms (wterms lp l) r).
Proof.
  revert r. induction l as [|cn l IH]; intros r; simpl.
  - now rewrite addTerms_nil.
  - change (addAll (length (rows lp))
                   (addIfVar (length (rows lp)) (fst cn) (pushRow lp r) (snd cn)) l
            = pushRow lp (addTerms (optTerm lp (fst cn) (snd cn) ++ wterms lp l) r)).
    rewrite addIfVar_last, IH, addTerms_addTerms. reflexivity.
Qed.

(** The lists a partial function yields along [xs], joined; [None] as soon
    as one of them is missing. *)
Fixpoint collect {X A} (f : X -> option (list A)) (xs : list X) : option (list A) :=
  match xs with
  | [] => Some []
  | x :: xs' =>
      match f x with
      | Some l =>
          match collect f xs' with
          | Some ls => Some (l ++ ls)
          | None => None
          end
      | None => None
      end
  end.

Lemma collect_In {X A} (f : X -> option (list A)) (xs : list X) (ls : list A) x :
  collect f xs = Some ls -> In x xs -> exists l, f x = Some l /\ incl l ls.
Proof.
  revert ls. induction xs as [|y xs IH]; intros ls H Hx; [contradiction|].
  simpl in H. destruct (f y) as [l|] eqn:E; [|discriminate].
  destruct (collect f xs) as [ls'|] eqn:E'; [|discriminate].
  injection H as <-. destruct Hx as [-> | Hx].
  - exists l. split; auto. apply incl_appl, incl_refl.
  - destruct (IH ls' eq_refl Hx) as (l' & Hl & Hi). exists l'. split; auto.
    apply incl_appr. exact Hi.
Qed.

Lemma collect_inv {X A} (f : X -> option (list A)) (xs : list X) (ls : list A) a :
  collect f xs = Some ls -> In a ls -> exists x l, In x xs /\ f x = Some l /\ In a l.
Proof.
  revert ls. induction xs as [|y xs IH]; intros ls H Ha; simpl in H.
  - injection H as <-. contradiction.
  - destruct (f y) as [l|] eqn:E; [|discriminate].
    destruct (collect f xs) as [ls'|] eqn:E'; [|discriminate].
    injection H as <-. apply in_app_or in Ha. destruct Ha as [Ha | Ha].
    + exists y, l. simpl; auto.
    + destruct (IH ls' eq_refl Ha) as (x & l' & Hx & Hl & Hi).
      exists x, l'. simpl; auto.
Qed.

Lemma collect_ext {X A} (f g : X -> option (list A)) (xs : list X) :
  (forall x, In x xs -> f x = g x) -> collect f xs = collect g xs.
Proof.
  induction xs as [|x xs IH]; intros H; simpl; auto.
  rewrite (H x (or_introl eq_refl)), IH; auto.
  intros y Hy. apply H. simpl; auto.
Qed.

Lemma collect_total {X A} (f : X -> list A) (xs : list X) :
  collect (fun x => Some (f x)) xs = Some (flat_map f xs).
Proof.
  induction xs as [|x xs IH]; simpl; auto. now rewrite IH.
Qed.

Lemma collect_app {X A} (f : X -> option (list A)) (xs ys : list X) :
  collect f (xs ++ ys) =
  match collect f xs with
  | Some l => match collect f ys with Some l' => Some (l ++ l') | None => None end
  | None => None
  end.
Proof.
  induction xs as [|x xs IH]; simpl.
  - destruct (collect f ys); reflexivity.
  - destruct (f x) as [l|]; auto. rewrite IH.
    destruct (collect f xs) as [ls|]; auto.
    destruct (collect f ys) as [ls'|]; auto.
    now rewrite app_assoc.
Qed.

(** A loop of rounds that each add the terms of some names to one row. *)
Lemma foldM_collect {X} (row : nat) (names : X -> option (list WName))
      (step : Solver -> X -> option Solver) (xs : list X) :
  (forall s x, In x xs -> step s x = option_map (addAll row s) (names x)) ->
  forall s, foldM step xs s = option_map (addAll row s) (collect names xs).
Proof.
  induction xs as [|x xs IH]; intros Hstep s; simpl; auto.
  rewrite (Hstep s x (or_introl eq_refl)).
  destruct (names x) as [l|]; simpl; auto.
  rewrite IH by (intros s0 y Hy; apply Hstep; simpl; auto).
  destruct (collect names xs) as [ls|]; simpl; auto.
  now rewrite addAll_app.
Qed.

Lemma pushRows_one lp r : pushRow lp r = pushRows lp [r].
Proof. reflexivity. Qed.

Lemma wterms_pushRows lp rs l : wterms (pushRows lp rs) l = wterms lp l.
Proof. reflexivity. Qed.

(** A loop of rounds that each append some finished rows, the rows depending
    on the state only through the columns. *)
Lemma foldM_rows {X} (Rs : Solver -> X -> option (list Row))
      (step : Solver -> X -> option Solver) (lp : Solver) (xs : list X) :
  (forall s x, In x xs -> step s x = option_map (pushRows s) (Rs s x)) ->
  (forall rs x, Rs (pushRows lp rs) x = Rs lp x) ->
  forall rs0,
    foldM step xs (pushRows lp rs0)
    = option_map (fun rs => pushRows lp (rs0 ++ rs)) (collect (Rs lp) xs).
Proof.
  intros Hstep HR. induction xs as [|x xs IH]; intros rs0; simpl.
  - now rewrite app_nil_r.
  - rewrite (Hstep _ x (or_introl eq_refl)), HR.
    destruct (Rs lp x) as [l|]; simpl; auto.
    rewrite pushRows_pushRows.
    rewrite IH by (intros s0 y Hy; apply Hstep; simpl; auto).
    destruct (collect (Rs lp) xs) as [ls|]; simpl; auto.
    now rewrite app_assoc.
Qed.

(** Names of the routing part are looked up alike in two states. *)
Definition routeStable (s lp : Solver) : Prop :=
  forall nm, isRoute nm = true -> getVarByName s nm = getVarByName lp nm.

Lemma wterms_stable s lp l :
  routeStable s lp -> Forall (fun cn => isRoute (snd cn) = true) l ->
  wterms s l = wterms lp l.
Proof.
  intros Hs Hl. unfold wterms. induction Hl as [|cn l Hcn Hl IH]; simpl; auto.
  rewrite IH. f_equal. unfold optTerm. now rewrite (Hs _ Hcn).
Qed.


Lemma flat_map_ext_in {X A} (f g : X -> list A) (xs : list X) :
  (forall x, In x xs -> f x = g x) -> flat_map f xs = flat_map g xs.
Proof.
  induction xs as [|x xs IH]; intros H; simpl; auto.
  rewrite (H x (or_introl eq_refl)), IH; auto.
  intros y Hy. apply H. simpl; auto.
Qed.

(** When every list that is there is the one [g] names, the joined list is
    [flat_map g]. *)
Lemma collect_flat_map {X A} (f : X -> option (list A)) (g : X -> list A) (xs : list X)
      (ls : list A) :
  (forall x l, In x xs -> f x = Some l -> l = g x) ->
  collect f xs = Some ls -> ls = flat_map g xs.
Proof.
  revert ls. induction xs as [|x xs IH]; intros ls Hfg H; simpl in H.
  - now injection H as <-.
  - destruct (f x) as [l|] eqn:E; [|discriminate].
    destruct (collect f xs) as [ls'|] eqn:E'; [|discriminate].
    injection H as <-. simpl.
    rewrite <- (Hfg x l (or_introl eq_refl) E).
    rewrite <- (IH ls'); auto.
    intros y l' Hy. apply Hfg. simpl; auto.
Qed.

(** A loop that went through: an invariant, a preorder the rounds respect,
    and a fact each round leaves behind that the preorder keeps. *)
Lemma foldM_each {S X} (f : S -> X -> option S) (Inv : S -> Prop) (Le : S -> S -> Prop)
      (Est : X -> S -> Prop) (l : list X) :
  (forall s, Le s s) ->
  (forall a b c, Le a b -> Le b c -> Le a c) ->
  (forall x s s', Est x s -> Le s s' -> Est x s') ->
  (forall s x s', In x l -> Inv s -> f s x = Some s' -> Inv s' /\ Le s s' /\ Est x s') ->
  forall s s', Inv s -> foldM f l s = Some s' ->
               Inv s' /\ Le s s' /\ forall x, In x l -> Est x s'.
Proof.
  intros Hrefl Htrans Hmono.
  induction l as [|x l IH]; intros Hstep s s' Hs H; simpl in H.
  - injection H as <-. repeat split; auto. intros x [].
  - destruct (f s x) as [s1|] eqn:E; [|discriminate].
    destruct (Hstep s x s1 (or_introl eq_refl) Hs E) as (I1 & L1 & P1).
    destruct (IH (fun s0 x0 s0' Hx0 => Hstep s0 x0 s0' (or_intror Hx0)) s1 s' I1 H)
      as (I' & L' & P').
    repeat split; auto.
    + eapply Htrans; eauto.
    + intros y [<- | Hy]; [eapply Hmono; eauto | auto].
Qed.

End RowFacts.

(* ================================================================== *)
(** * [createProblem]: all intermediate models, and the candidate sets *)

Module StageFacts.

Import Vec Names LP Grid Comb ILP ListFacts LPFacts PhaseFacts FlowFacts StatPosFacts
       OrderFacts AngleFacts CreateProblemFacts RowFacts.

Section Stages.

Variables INF SOFT_INF : Q.
Variable dist : Q * Q -> Q * Q -> Q.
Variable cg : CombGraph.
Variable geoPensMap : option (CombEdge -> nat -> Q).
Variable maxGrDist : Q.

(** The model after each of the nine parts of a run that goes through. *)
Inductive Stages (gg gg' : BaseGraph) (lp : Solver) : Prop :=
| mkStages (cands : Cands) (lp1 lp2 lp3 lp4 lp5 lp6 lp7 lp8 lp9 lp10 : Solver) :
    statPosPhase dist cg maxGrDist (gg, emptySolver, []) = (gg', lp1, cands) ->
    lp2 = update (edgUsePhase INF SOFT_INF cg geoPensMap gg' cands lp1) ->
    uniqueEdgePhase INF SOFT_INF cg gg' lp2 = Some lp3 ->
    lp4 = update (flowPhase INF SOFT_INF cg gg' lp3) ->
    sinkEdgePhase cg gg' cands lp4 = Some lp5 ->
    innerUsePhase cg gg' lp5 = Some lp6 ->
    lp7 = update (crossPhase cg gg' (update lp6)) ->
    dirPhase cg gg' lp7 = Some lp8 ->
    orderPhase cg gg' (update lp8) = Some lp9 ->
    anglePhase cg gg' (update lp9) = Some lp10 ->
    lp = update lp10 ->
    Stages gg gg' lp.

Lemma createProblem_stages gg gg' lp :
  ILP.createProblem INF SOFT_INF dist cg geoPensMap maxGrDist gg = Some (gg', lp) ->
  Stages gg gg' lp.
Proof.
  unfold ILP.createProblem. intros H.
  destruct (statPosPhase dist cg maxGrDist (gg, emptySolver, [])) as [[g1 lp1] cands] eqn:E1.
  destruct (uniqueEdgePhase INF SOFT_INF cg g1 _) as [lp3|] eqn:E3; [|discriminate].
  destruct (sinkEdgePhase cg g1 cands _) as [lp5|] eqn:E5; [|discriminate].
  destruct (innerUsePhase cg g1 lp5) as [lp6|] eqn:E6; [|discriminate].
  destruct (dirPhase cg g1 _) as [lp8|] eqn:E8; [|discriminate].
  destruct (orderPhase cg g1 (update lp8)) as [lp9|] eqn:E9; [|discriminate].
  destruct (anglePhase cg g1 (update lp9)) as [lp10|] eqn:E10; [|discriminate].
  injection H as <- <-.
  eapply mkStages; eauto.
Qed.

(** ** The candidate sets *)

(** [cands[nd].count(n)] at the end of the first part. *)
Definition candB (gg : BaseGraph) (nd : CombNode) (n : GridNode) : bool :=
  existsb (Nat.eqb nd) (cgNds cg) && negb (cDeg cg nd =? 0)
  && existsb (Nat.eqb n) (getNds gg) && isCand dist cg maxGrDist gg nd n.

Lemma candCount_app c1 c2 nd n :
  candCount (c1 ++ c2) nd n = candCount c1 nd n || candCount c2 nd n.
Proof. unfold candCount. apply existsb_app. Qed.

Lemma candFold_cands gg nd row (ns : list GridNode) :
  forall st lp cands,
  exists st' lp' cands',
    fold_left (candStep dist cg maxGrDist nd row) ns (withEdgeSt gg st, lp, cands)
    = (withEdgeSt gg st', lp', cands' ++ cands) /\
    forall v n, candCount cands' v n
                = (v =? nd) && existsb (Nat.eqb n) ns && isCand dist cg maxGrDist gg nd n.
Proof.
  induction ns as [|m ns IH]; intros st lp cands.
  - exists st, lp, []. split; [reflexivity|]. intros v n. simpl.
    now rewrite andb_false_r.
  - cbn [fold_left].
    assert (Hskip : forall (b : bool),
               isCand dist cg maxGrDist gg nd m = false ->
               exists st' lp' cands',
                 fold_left (candStep dist cg maxGrDist nd row) ns (withEdgeSt gg st, lp, cands)
                 = (withEdgeSt gg st', lp', cands' ++ cands) /\
                 forall v n, candCount cands' v n
                             = (v =? nd) && existsb (Nat.eqb n) (m :: ns)
                               && isCand dist cg maxGrDist gg nd n).
    { intros _ Hc. destruct (IH st lp cands) as (st' & lp' & cands' & E & Hcc).
      exists st', lp', cands'. split; [exact E|]. intros v n. rewrite Hcc. cbn [existsb].
      destruct (n =? m) eqn:Enm; [|reflexivity].
      apply Nat.eqb_eq in Enm. subst n. rewrite Hc, !andb_false_r. reflexivity. }
    unfold candStep at 2.
    change (isSink (withEdgeSt gg st) m) with (isSink gg m).
    change (getDeg (withEdgeSt gg st) m) with (getDeg gg m).
    change (getGeom (withEdgeSt gg st) m) with (getGeom gg m).
    change (getCellSize (withEdgeSt gg st)) with (getCellSize gg).
    assert (Hc : isCand dist cg maxGrDist gg nd m
                 = isSink gg m && negb (getDeg gg m <? cDeg cg nd)
                   && negb (Qle_bool (getCellSize gg * maxGrDist)%Q
                                     (dist (getGeom gg m) (cGeom cg nd)))) by reflexivity.
    destruct (isSink gg m); [|apply (Hskip true); rewrite Hc; reflexivity].
    destruct (getDeg gg m <? cDeg cg nd); [apply (Hskip true); rewrite Hc; reflexivity|].
    destruct (Qle_bool _ _); [apply (Hskip true); rewrite Hc; reflexivity|].
    cbn [negb andb] in *.
    destruct (openSinkFr_struct gg st m 0%Q) as (st1 & ->).
    destruct (openSinkTo_struct gg st1 m 0%Q) as (st2 & ->).
    destruct (addCol lp _ BIN _) as [col lp1].
    destruct (IH st2 (addColToRow lp1 row col 1) ((nd, m) :: cands))
      as (st' & lp' & cands' & E & Hcc).
    exists st', lp', (cands' ++ [(nd, m)]). split.
    + etransitivity; [exact E|]. now rewrite <- app_assoc.
    + intros v n. rewrite candCount_app, Hcc. cbn [existsb candCount fst snd].
      rewrite orb_false_r, (Nat.eqb_sym nd v), (Nat.eqb_sym n m).
      destruct (v =? nd) eqn:Ev; cbn [andb orb]; [|reflexivity].
      destruct (m =? n) eqn:Em; cbn [orb andb].
      * apply Nat.eqb_eq in Em. subst n. rewrite Hc.
        destruct (existsb (Nat.eqb m) ns); reflexivity.
      * rewrite orb_false_r. reflexivity.
Qed.

Lemma statPosFold_cands gg (vs : list CombNode) :
  forall st lp cands,
  exists st' lp' cands',
    fold_left (statPosStep dist cg maxGrDist) vs (withEdgeSt gg st, lp, cands)
    = (withEdgeSt gg st', lp', cands' ++ cands) /\
    forall v n, candCount cands' v n
                = existsb (Nat.eqb v) vs && negb (cDeg cg v =? 0)
                  && existsb (Nat.eqb n) (getNds gg) && isCand dist cg maxGrDist gg v n.
Proof.
  induction vs as [|w vs IH]; intros st lp cands.
  - exists st, lp, []. split; [reflexivity|]. intros v n. reflexivity.
  - cbn [fold_left]. unfold statPosStep at 2.
    destruct (cDeg cg w =? 0) eqn:Ed.
    + destruct (IH st lp cands) as (st' & lp' & cands' & E & Hcc).
      exists st', lp', cands'. split; [exact E|]. intros v n. rewrite Hcc. cbn [existsb].
      destruct (v =? w) eqn:Ev; [|reflexivity].
      apply Nat.eqb_eq in Ev. subst v. rewrite Ed. cbn.
      destruct (existsb (Nat.eqb w) vs); reflexivity.
    + destruct (addRow lp (NOneass w) 1 FIX) as [rowStat lp0].
      change (getNds (withEdgeSt gg st)) with (getNds gg).
      destruct (candFold_cands gg w rowStat (getNds gg) st lp0 cands)
        as (st1 & lp1 & c1 & -> & Hc1).
      destruct (IH st1 lp1 (c1 ++ cands)) as (st' & lp' & cands' & E & Hcc).
      exists st', lp', (cands' ++ c1). split.
      * etransitivity; [exact E|]. now rewrite <- app_assoc.
      * intros v n. rewrite candCount_app, Hcc, Hc1. cbn [existsb].
        destruct (v =? w) eqn:Ev; cbn [orb andb].
        -- apply Nat.eqb_eq in Ev. subst v. rewrite Ed. cbn [negb andb].
           destruct (existsb (Nat.eqb w) vs); cbn [andb orb];
             destruct (existsb (Nat.eqb n) (getNds gg)); cbn [andb orb];
             destruct (isCand dist cg maxGrDist gg w n); reflexivity.
        -- rewrite orb_false_r. reflexivity.
Qed.

(** After the first part: the graph has only had edge payloads written, the
    model is the one of the station position part, and the candidate sets
    are as the three tests say. *)
Lemma statPosPhase_cands gg gg' lp1 cands :
  statPosPhase dist cg maxGrDist (gg, emptySolver, []) = (gg', lp1, cands) ->
  (exists st, gg' = withEdgeSt gg st) /\
  lp1 = mkSolver (statPosCols dist cg maxGrDist gg (cgNds cg))
                 (statPosRows dist cg maxGrDist gg (cgNds cg) 0) 0 /\
  forall v n, candCount cands v n = candB gg v n.
Proof.
  intros H.
  destruct (statPosPhase_spec dist cg maxGrDist gg) as (st & c0 & E).
  rewrite E in H. injection H as <- <- <-.
  split; [eexists; reflexivity|]. split; [reflexivity|].
  unfold statPosPhase in E.
  destruct (statPosFold_cands gg (cgNds cg) (edgeSt gg) emptySolver [])
    as (st' & lp' & cands' & E' & Hcc).
  rewrite <- (withEdgeSt_self gg) in E'.
  pose proof (eq_trans (eq_sym E) E') as E2.
  injection E2 as _ _ ->. rewrite app_nil_r. exact Hcc.
Qed.


(** ** From every stage to the finished model *)

(** Names the parts after the edge use part may give to columns. *)
Definition late (nm : Name) : bool := negb (isRoute nm).

Definition anyName (nm : Name) : bool := true.

Lemma Grows_late (KC KR : Name -> bool) a b :
  (forall nm, KC nm = true -> isRoute nm = false) ->
  Grows KC KR a b -> Grows late anyName a b.
Proof.
  intros HK. apply Grows_weaken; [|reflexivity].
  intros nm Hn. unfold late. now rewrite (HK nm Hn).
Qed.

(** What is kept on the way from the stage [a] to the finished model. *)
Definition Kept (a lp : Solver) : Prop :=
  routeStable a lp /\
  visible a <= length (cols a) /\
  (forall r, In r (rows a) -> In r (rows lp)) /\
  (forall c col, nth_error (cols a) c = Some col -> nth_error (cols lp) c = Some col) /\
  (forall c, In c (cols lp) -> isRoute (colName c) = true -> In c (cols a)).

Lemma Kept_intro lp2 a lp :
  updated lp2 -> Grows late anyName lp2 a -> Grows late anyName a lp -> Kept a lp.
Proof.
  intros Hu G1 G2.
  pose proof (updated_wf Hu) as Hwf2.
  pose proof (Grows_wf G1 Hwf2) as Hwf.
  split; [|split; [exact Hwf|split; [|split]]].
  - intros nm Hr.
    assert (Hl : late nm = false) by (unfold late; now rewrite Hr).
    rewrite (@Grows_lookup late anyName lp2 a nm G1 Hu Hl).
    symmetry. exact (@Grows_lookup late anyName lp2 lp nm (Grows_trans G1 G2) Hu Hl).
  - intros r Hr. eapply Grows_rows; eauto.
  - intros c col Hc. eapply Grows_cols; eauto.
  - intros c Hc Hr. eapply Grows_new_col; eauto. unfold late. now rewrite Hr.
Qed.

Lemma late_noName nm : noName nm = true -> isRoute nm = false.
Proof. discriminate. Qed.

Lemma late_isDir nm : isDir nm = true -> isRoute nm = false.
Proof. destruct nm; try discriminate; reflexivity. Qed.

Lemma late_ordCol nm : ordCol cg nm = true -> isRoute nm = false.
Proof. destruct nm; try discriminate; reflexivity. Qed.

Lemma late_angCol nm : angCol cg nm = true -> isRoute nm = false.
Proof. destruct nm; try discriminate; reflexivity. Qed.

(** The stages of a run, each with what the finished model keeps of it. *)
Lemma Stages_kept gg' lp cands lp1 lp2 lp3 lp4 lp5 lp6 lp7 lp8 lp9 lp10 :
  lp2 = update (edgUsePhase INF SOFT_INF cg geoPensMap gg' cands lp1) ->
  uniqueEdgePhase INF SOFT_INF cg gg' lp2 = Some lp3 ->
  lp4 = update (flowPhase INF SOFT_INF cg gg' lp3) ->
  sinkEdgePhase cg gg' cands lp4 = Some lp5 ->
  innerUsePhase cg gg' lp5 = Some lp6 ->
  lp7 = update (crossPhase cg gg' (update lp6)) ->
  dirPhase cg gg' lp7 = Some lp8 ->
  orderPhase cg gg' (update lp8) = Some lp9 ->
  anglePhase cg gg' (update lp9) = Some lp10 ->
  lp = update lp10 ->
  Kept lp2 lp /\ Kept lp3 lp /\ Kept lp4 lp /\ Kept lp5 lp /\ Kept (update lp6) lp /\
  Kept lp7 lp /\ Kept lp8 lp /\
  updated lp2 /\ updated lp3 /\ updated lp4 /\ updated lp5 /\ updated lp7.
Proof.
  intros H2 H3 H4 H5 H6 H7 H8 H9 H10 Hend.
  assert (Hu2 : updated lp2) by (rewrite H2; apply updated_update).
  assert (G23 : Grows late anyName lp2 lp3).
  { eapply Grows_late; [apply late_noName | eapply uniqueEdgePhase_Grows; eauto]. }
  assert (G34 : Grows late anyName lp3 lp4).
  { rewrite H4. eapply Grows_late; [apply late_noName | apply flow_Grows]. }
  assert (G45 : Grows late anyName lp4 lp5).
  { eapply Grows_late; [apply late_noName | eapply sinkEdgePhase_Grows; eauto]. }
  assert (G56 : Grows late anyName lp5 (update lp6)).
  { eapply Grows_trans; [|apply Grows_update].
    eapply Grows_late; [apply late_noName | eapply innerUsePhase_Grows; eauto]. }
  assert (G67 : Grows late anyName (update lp6) lp7).
  { rewrite H7. eapply Grows_trans; [|apply Grows_update].
    eapply Grows_late; [apply late_noName | apply crossPhase_Grows]. }
  assert (G78 : Grows late anyName lp7 lp8).
  { eapply Grows_late; [apply late_isDir | eapply dirPhase_Grows; eauto]. }
  assert (G8e : Grows late anyName lp8 lp).
  { apply Grows_trans with (update lp8); [apply Grows_update|].
    apply Grows_trans with lp9.
    { destruct (@orderPhase_post cg gg' (cgNds cg) (update lp8) lp9 H9 (updated_update lp8))
        as (_ & G9 & _).
      eapply Grows_late; [apply late_ordCol | exact G9]. }
    rewrite Hend. eapply Grows_late; [apply late_angCol |].
    eapply (@angle_Grows cg gg' lp9 lp10); eauto. }
  assert (G7e := Grows_trans G78 G8e).
  assert (G6e := Grows_trans G67 G7e).
  assert (G5e := Grows_trans G56 G6e).
  assert (G4e := Grows_trans G45 G5e).
  assert (G3e := Grows_trans G34 G4e).
  assert (G2e := Grows_trans G23 G3e).
  assert (G24 := Grows_trans G23 G34).
  assert (G25 := Grows_trans G24 G45).
  assert (G26 := Grows_trans G25 G56).
  assert (G27 := Grows_trans G26 G67).
  assert (G28 := Grows_trans G27 G78).
  assert (Hu3 : updated lp3).
  { eapply Grows_noCols; [eapply uniqueEdgePhase_Grows; eauto | exact Hu2]. }
  assert (Hu4 : updated lp4) by (rewrite H4; apply updated_update).
  assert (Hu5 : updated lp5).
  { eapply Grows_noCols; [eapply sinkEdgePhase_Grows; eauto | exact Hu4]. }
  assert (Hu7 : updated lp7) by (rewrite H7; apply updated_update).
  split; [eapply Kept_intro; [exact Hu2 | apply Grows_refl | exact G2e]|].
  split; [eapply Kept_intro; [exact Hu2 | exact G23 | exact G3e]|].
  split; [eapply Kept_intro; [exact Hu2 | exact G24 | exact G4e]|].
  split; [eapply Kept_intro; [exact Hu2 | exact G25 | exact G5e]|].
  split; [eapply Kept_intro; [exact Hu2 | exact G26 | exact G6e]|].
  split; [eapply Kept_intro; [exact Hu2 | exact G27 | exact G7e]|].
  split; [eapply Kept_intro; [exact Hu2 | exact G28 | exact G8e]|].
  repeat split; assumption.
Qed.

(* ---------------------------------------------------------------- *)
(** ** The edge use columns *)

Lemma fold_pushCols {X} (F : X -> list Col) (step : Solver -> X -> Solver) (xs : list X) :
  (forall s x, step s x = pushCols s (F x)) ->
  forall lp, fold_left step xs lp = pushCols lp (flat_map F xs).
Proof.
  intros Hstep. induction xs as [|x xs IH]; intros lp; simpl.
  - now rewrite pushCols_nil.
  - rewrite Hstep, IH. unfold pushCols. simpl. now rewrite app_assoc.
Qed.

(** The four tests an edge passes before it gets a column for [edg]. *)
Definition usable (gg : BaseGraph) (cands : Cands) (edg : CombEdge) (n : GridNode)
           (e : GridEdge) : bool :=
  (getFrom gg e =? n)
  && negb (isInf INF SOFT_INF gg e)
  && negb (isSink gg (getFrom gg e) && negb (candCount cands (cFrom cg edg) (getFrom gg e)))
  && negb (isSink gg (getTo gg e) && negb (candCount cands (cTo cg edg) (getTo gg e))).

Definition edgCol (gg : BaseGraph) (e : GridEdge) (edg : CombEdge) : Col :=
  mkCol (getEdgUseVar gg e edg) BIN (edgUseCoef INF geoPensMap gg e edg) None.

Definition edgCols (gg : BaseGraph) (cands : Cands) : list Col :=
  flat_map (fun edg =>
              flat_map (fun n =>
                          flat_map (fun e => if usable gg cands edg n e
                                             then [edgCol gg e edg] else [])
                                   (getAdjList gg n))
                       (getNds gg))
           (combEdges cg).

Lemma edgUsePhase_spec gg cands lp :
  edgUsePhase INF SOFT_INF cg geoPensMap gg cands lp = pushCols lp (edgCols gg cands).
Proof.
  unfold edgUsePhase, edgCols. rewrite forCombEdges_combEdges.
  apply fold_pushCols. intros s edg.
  apply fold_pushCols. intros s1 n.
  apply fold_pushCols. intros s2 e.
  unfold edgUseStep, usable.
  destruct (getFrom gg e =? n); cbn [negb andb]; [|now rewrite pushCols_nil].
  destruct (isInf INF SOFT_INF gg e); cbn [negb andb]; [now rewrite pushCols_nil|].
  destruct (isSink gg (getFrom gg e) && negb _); cbn [negb andb];
    [now rewrite pushCols_nil|].
  destruct (isSink gg (getTo gg e) && negb _); cbn [negb andb];
    [now rewrite pushCols_nil|].
  reflexivity.
Qed.

Lemma candB_withEdgeSt gg st v n : candB (withEdgeSt gg st) v n = candB gg v n.
Proof. reflexivity. Qed.


(** A run that goes through: its stages and what is known about them. *)
Inductive Facts (gg gg' : BaseGraph) (lp : Solver) : Prop :=
| mkFacts (st : GridEdge -> EdgeSt) (cands : Cands)
          (lp1 lp2 lp3 lp4 lp5 lp6 lp7 lp8 lp9 lp10 : Solver) :
    gg' = withEdgeSt gg st ->
    lp1 = mkSolver (statPosCols dist cg maxGrDist gg (cgNds cg))
                   (statPosRows dist cg maxGrDist gg (cgNds cg) 0) 0 ->
    (forall v n, candCount cands v n = candB gg' v n) ->
    lp2 = update (edgUsePhase INF SOFT_INF cg geoPensMap gg' cands lp1) ->
    uniqueEdgePhase INF SOFT_INF cg gg' lp2 = Some lp3 ->
    lp4 = update (flowPhase INF SOFT_INF cg gg' lp3) ->
    sinkEdgePhase cg gg' cands lp4 = Some lp5 ->
    innerUsePhase cg gg' lp5 = Some lp6 ->
    lp7 = update (crossPhase cg gg' (update lp6)) ->
    dirPhase cg gg' lp7 = Some lp8 ->
    orderPhase cg gg' (update lp8) = Some lp9 ->
    anglePhase cg gg' (update lp9) = Some lp10 ->
    lp = update lp10 ->
    Kept lp2 lp -> Kept lp3 lp -> Kept lp4 lp -> Kept lp5 lp -> Kept (update lp6) lp ->
    Kept lp7 lp -> Kept lp8 lp ->
    updated lp2 -> updated lp3 -> updated lp4 -> updated lp5 -> updated lp7 ->
    Facts gg gg' lp.

Lemma createProblem_facts gg gg' lp :
  ILP.createProblem INF SOFT_INF dist cg geoPensMap maxGrDist gg = Some (gg', lp) ->
  Facts gg gg' lp.
Proof.
  intros Hrun. apply createProblem_stages in Hrun.
  destruct Hrun as [cands lp1 lp2 lp3 lp4 lp5 lp6 lp7 lp8 lp9 lp10
                          H1 H2 H3 H4 H5 H6 H7 H8 H9 H10 Hend].
  destruct (statPosPhase_cands _ H1) as ((st & Hgg) & Hlp1 & Hcands).
  destruct (@Stages_kept _ _ _ _ _ _ _ _ _ _ _ _ _ H2 H3 H4 H5 H6 H7 H8 H9 H10 Hend)
    as (K2 & K3 & K4 & K5 & K6 & K7 & K8 & Hu2 & Hu3 & Hu4 & Hu5 & Hu7).
  eapply (@mkFacts gg gg' lp st cands lp1 lp2 lp3 lp4 lp5 lp6 lp7 lp8 lp9 lp10); eauto.
  intros v n. rewrite Hcands, Hgg. reflexivity.
Qed.

Lemma usable_iff gg cands edg n e :
  usable gg cands edg n e = true <->
  getFrom gg e = n /\ isInf INF SOFT_INF gg e = false /\
  (isSink gg (getFrom gg e) = true ->
   candCount cands (cFrom cg edg) (getFrom gg e) = true) /\
  (isSink gg (getTo gg e) = true ->
   candCount cands (cTo cg edg) (getTo gg e) = true).
Proof.
  unfold usable. rewrite !andb_true_iff, !negb_true_iff, !andb_false_iff, !negb_false_iff,
                   Nat.eqb_eq.
  split.
  - intros (((H1 & H2) & H3) & H4). repeat split; auto.
    + intros Hs. destruct H3 as [H3 | H3]; [congruence | exact H3].
    + intros Hs. destruct H4 as [H4 | H4]; [congruence | exact H4].
  - intros (H1 & H2 & H3 & H4). repeat split; auto.
    + destruct (isSink gg (getFrom gg e)); auto.
    + destruct (isSink gg (getTo gg e)); auto.
Qed.

Lemma In_edgCols gg cands c :
  In c (edgCols gg cands) <->
  exists edg n e,
    In edg (combEdges cg) /\ In n (getNds gg) /\ In e (getAdjList gg n) /\
    usable gg cands edg n e = true /\ c = edgCol gg e edg.
Proof.
  unfold edgCols. rewrite in_flat_map. split.
  - intros (edg & Hedg & H). apply in_flat_map in H. destruct H as (n & Hn & H).
    apply in_flat_map in H. destruct H as (e & He & H).
    destruct (usable gg cands edg n e) eqn:Eu; [|contradiction].
    destruct H as [<- | []]. exists edg, n, e. auto.
  - intros (edg & n & e & Hedg & Hn & He & Hu & ->).
    exists edg. split; auto. apply in_flat_map. exists n. split; auto.
    apply in_flat_map. exists e. split; auto. rewrite Hu. simpl; auto.
Qed.

(** The columns [edg(e, f)].  For a comb edge [f] an edge [e] out of a
    listed grid node gets a column if its cost is below [SOFT_INF] and each
    end of [e] that is a sink is a candidate position, the tail for the
    start node of [f], the head for the end node of [f]; the column is
    binary, and its objective coefficient is the cost of [e], with the geo
    penalty of [f] at [e] added if a penalty map is given and [e] is no
    secondary edge.  The finished model has no other [edg] columns.  (The
    graph returned differs from the one passed in by edge payloads only.) *)
Theorem createProblem_edge_columns (gg gg' : BaseGraph) (lp : Solver) :
  ILP.createProblem INF SOFT_INF dist cg geoPensMap maxGrDist gg = Some (gg', lp) ->
  (exists st, gg' = withEdgeSt gg st) /\
  (forall edg n e,
      In edg (combEdges cg) -> In n (getNds gg') -> In e (getAdjList gg' n) ->
      getFrom gg' e = n -> isInf INF SOFT_INF gg' e = false ->
      (isSink gg' (getFrom gg' e) = true ->
       candB gg' (cFrom cg edg) (getFrom gg' e) = true) ->
      (isSink gg' (getTo gg' e) = true ->
       candB gg' (cTo cg edg) (getTo gg' e) = true) ->
      In (mkCol (NEdg (getId gg' (getFrom gg' e)) (getId gg' (getTo gg' e)) edg) BIN
                (edgUseCoef INF geoPensMap gg' e edg) None)
         (cols lp)) /\
  (forall c, In c (cols lp) -> isEdg (colName c) = true ->
     exists edg n e,
       In edg (combEdges cg) /\ In n (getNds gg') /\ In e (getAdjList gg' n) /\
       getFrom gg' e = n /\ isInf INF SOFT_INF gg' e = false /\
       (isSink gg' (getFrom gg' e) = true ->
        candB gg' (cFrom cg edg) (getFrom gg' e) = true) /\
       (isSink gg' (getTo gg' e) = true ->
        candB gg' (cTo cg edg) (getTo gg' e) = true) /\
       c = mkCol (NEdg (getId gg' (getFrom gg' e)) (getId gg' (getTo gg' e)) edg) BIN
                 (edgUseCoef INF geoPensMap gg' e edg) None).
Proof.
  intros Hrun. apply createProblem_facts in Hrun.
  destruct Hrun as [st cands lp1 lp2 lp3 lp4 lp5 lp6 lp7 lp8 lp9 lp10
                       Hgg Hlp1 HcB H2 H3 H4 H5 H6 H7 H8 H9 H10 Hend
                       K2 K3 K4 K5 K6 K7 K8 Hu2 Hu3 Hu4 Hu5 Hu7].
  destruct K2 as (_ & _ & _ & Hcols & Hnew).
  assert (Hc2 : cols lp2 = cols lp1 ++ edgCols gg' cands).
  { rewrite H2, edgUsePhase_spec. reflexivity. }
  split; [exists st; exact Hgg|]. split.
  - intros edg n e Hedg Hn He Hfr Hinf Hs1 Hs2.
    assert (Hin : In (edgCol gg' e edg) (cols lp2)).
    { rewrite Hc2. apply in_or_app. right. apply In_edgCols.
      exists edg, n, e. repeat split; auto.
      apply usable_iff. rewrite !HcB. auto. }
    apply In_nth_error in Hin. destruct Hin as (k & Hk).
    eapply nth_error_In. apply Hcols. exact Hk.
  - intros c Hc Hk.
    assert (Hr : isRoute (colName c) = true) by (destruct (colName c); try discriminate; reflexivity).
    specialize (Hnew c Hc Hr). rewrite Hc2 in Hnew.
    apply in_app_or in Hnew. destruct Hnew as [Hin | Hin].
    + exfalso. rewrite Hlp1 in Hin. cbn [cols] in Hin.
      destruct (@statPosCols_names dist cg maxGrDist gg (cgNds cg) c Hin)
        as (v & n & _ & _ & _ & ->).
      discriminate.
    + apply In_edgCols in Hin. destruct Hin as (edg & n & e & Hedg & Hn & He & Hu & ->).
      apply usable_iff in Hu. rewrite !HcB in Hu.
      destruct Hu as (Hfr & Hinf & Hs1 & Hs2).
      exists edg, n, e. repeat split; auto.
Qed.

End Stages.

(** Unfolds a run into its stages. *)
Ltac run_facts Hrun :=
  apply createProblem_facts in Hrun;
  destruct Hrun as [st cands lp1 lp2 lp3 lp4 lp5 lp6 lp7 lp8 lp9 lp10
                       Hgg Hlp1 HcB H2 H3 H4 H5 H6 H7 H8 H9 H10 Hend
                       K2 K3 K4 K5 K6 K7 K8 Hu2 Hu3 Hu4 Hu5 Hu7].

End StageFacts.

(* ================================================================== *)
(** * [createProblem]: the rows [nc], [ss] and [iu] *)

Module ModelRows.

Import Vec Names LP Grid Comb ILP ListFacts LPFacts PhaseFacts FlowFacts StatPosFacts
       OrderFacts AngleFacts CreateProblemFacts RowFacts StageFacts.

Lemma fold_addAll {X} (row : nat) (F : X -> list WName) (step : Solver -> X -> Solver)
      (xs : list X) :
  (forall s x, step s x = addAll row s (F x)) ->
  forall s, fold_left step xs s = addAll row s (flat_map F xs).
Proof.
  intros Hstep. induction xs as [|x xs IH]; intros s; simpl; auto.
  rewrite Hstep, IH, addAll_app. reflexivity.
Qed.

Lemma collect_default {X A} (f : X -> option (list A)) (xs : list X) (l : list A) :
  collect f xs = Some l ->
  l = flat_map (fun x => match f x with Some a => a | None => [] end) xs.
Proof.
  revert l. induction xs as [|x xs IH]; intros l H; simpl in H.
  - now injection H as <-.
  - destruct (f x) as [a|] eqn:E; [|discriminate].
    destruct (collect f xs) as [ls|]; [|discriminate].
    injection H as <-. simpl. rewrite E. f_equal. now apply IH.
Qed.

Lemma foldM_rows0 {X} (Rs : Solver -> X -> option (list Row))
      (step : Solver -> X -> option Solver) (lp : Solver) (xs : list X) :
  (forall s x, In x xs -> step s x = option_map (pushRows s) (Rs s x)) ->
  (forall rs x, Rs (pushRows lp rs) x = Rs lp x) ->
  foldM step xs lp = option_map (pushRows lp) (collect (Rs lp) xs).
Proof.
  intros Hstep HR.
  rewrite <- (pushRows_nil lp) at 1.
  rewrite (foldM_rows Rs step lp xs Hstep HR []). reflexivity.
Qed.

Section Rows.

Variables INF SOFT_INF : Q.
Variable dist : Q * Q -> Q * Q -> Q.
Variable cg : CombGraph.
Variable geoPensMap : option (CombEdge -> nat -> Q).
Variable maxGrDist : Q.

(* ---------------------------------------------------------------- *)
(** ** No crossings *)

(** The four edges of a pair of crossing edge pairs, for every comb edge. *)
Definition crossNames (gg : BaseGraph)
           (pr : (GridEdge * GridEdge) * (GridEdge * GridEdge)) : list WName :=
  flat_map (fun f => [(1%Z, getEdgUseVar gg (fst (fst pr)) f);
                      (1%Z, getEdgUseVar gg (snd (fst pr)) f);
                      (1%Z, getEdgUseVar gg (fst (snd pr)) f);
                      (1%Z, getEdgUseVar gg (snd (snd pr)) f)])
           (combEdges cg).

Fixpoint crossRows (lp : Solver) (gg : BaseGraph) (k : nat)
         (ps : list ((GridEdge * GridEdge) * (GridEdge * GridEdge))) : list Row :=
  match ps with
  | [] => []
  | pr :: ps' => mkRow (NNc k) 1 UP (wterms lp (crossNames gg pr)) :: crossRows lp gg (S k) ps'
  end.

Lemma crossRow_spec gg lp k pr :
  crossRow cg gg (lp, k) pr
  = (pushRow lp (mkRow (NNc k) 1 UP (wterms lp (crossNames gg pr))), S k).
Proof.
  unfold crossRow. rewrite addRow_push. rewrite forCombEdges_combEdges.
  rewrite (fold_addAll (length (rows lp))
             (fun f => [(1%Z, getEdgUseVar gg (fst (fst pr)) f);
                        (1%Z, getEdgUseVar gg (snd (fst pr)) f);
                        (1%Z, getEdgUseVar gg (fst (snd pr)) f);
                        (1%Z, getEdgUseVar gg (snd (snd pr)) f)]))
    by reflexivity.
  rewrite addAll_last. reflexivity.
Qed.

Lemma crossFold gg lp ps :
  forall rs0 k,
    fold_left (crossRow cg gg) ps (pushRows lp rs0, k)
    = (pushRows lp (rs0 ++ crossRows lp gg k ps), k + length ps).
Proof.
  induction ps as [|pr ps IH]; intros rs0 k.
  - simpl. now rewrite app_nil_r, Nat.add_0_r.
  - cbn [fold_left crossRows length]. rewrite crossRow_spec. rewrite pushRow_pushRows.
    change (wterms (pushRows lp rs0) (crossNames gg pr)) with (wterms lp (crossNames gg pr)).
    rewrite IH, <- app_assoc. cbn [app]. f_equal. lia.
Qed.

Lemma crossPhase_spec gg lp :
  crossPhase cg gg lp = pushRows lp (crossRows lp gg 0 (getCrossEdgPairs gg)).
Proof.
  unfold crossPhase. rewrite <- (pushRows_nil lp) at 1.
  rewrite crossFold. reflexivity.
Qed.

Lemma crossRows_In lp gg ps :
  forall k i pr, nth_error ps i = Some pr ->
                 In (mkRow (NNc (k + i)) 1 UP (wterms lp (crossNames gg pr)))
                    (crossRows lp gg k ps).
Proof.
  induction ps as [|q ps IH]; intros k [|i] pr H; simpl in H; try discriminate.
  - injection H as ->. rewrite Nat.add_0_r. simpl; auto.
  - simpl. right. replace (k + S i) with (S k + i) by lia. apply IH. exact H.
Qed.

Lemma crossNames_route gg pr :
  Forall (fun cn : WName => isRoute (snd cn) = true) (crossNames gg pr).
Proof.
  unfold crossNames. apply Forall_forall. intros cn Hin.
  apply in_flat_map in Hin. destruct Hin as (f & _ & Hin).
  simpl in Hin. intuition; subst; reflexivity.
Qed.

(** The rows [nc(k)].  The [k]-th entry of [getCrossEdgPairs()], two edge
    pairs that cross, gives the row [nc(k)]: an upper bound 1 on the sum,
    over all comb edges [f], of the columns [edg(e, f)] of its four edges
    [e], in the order first pair, second pair; only the columns that exist
    contribute. *)
Theorem createProblem_crossing_rows (gg gg' : BaseGraph) (lp : Solver) :
  ILP.createProblem INF SOFT_INF dist cg geoPensMap maxGrDist gg = Some (gg', lp) ->
  forall k pr,
    nth_error (getCrossEdgPairs gg') k = Some pr ->
    In (mkRow (NNc k) 1 UP
              (wterms lp
                 (flat_map (fun f => [(1%Z, getEdgUseVar gg' (fst (fst pr)) f);
                                      (1%Z, getEdgUseVar gg' (snd (fst pr)) f);
                                      (1%Z, getEdgUseVar gg' (fst (snd pr)) f);
                                      (1%Z, getEdgUseVar gg' (snd (snd pr)) f)])
                           (combEdges cg))))
       (rows lp).
Proof.
  intros Hrun k pr Hk. run_facts Hrun.
  destruct K7 as (_ & _ & Hrows7 & _).
  destruct K6 as (Hst6 & _).
  apply Hrows7. rewrite H7, crossPhase_spec. cbn [update rows pushRows].
  apply in_or_app. right.
  pose proof (crossRows_In (update lp6) gg' (getCrossEdgPairs gg') 0 k Hk) as Hin.
  cbn [Nat.add] in Hin.
  rewrite (wterms_stable Hst6 (crossNames_route gg' pr)) in Hin. exact Hin.
Qed.

(* ---------------------------------------------------------------- *)
(** ** One sink edge per station use *)

(** The station part of the row [ss(n, e)]. *)
Definition ssCandNames (gg : BaseGraph) (cand : CombNode -> GridNode -> bool)
           (n : GridNode) (e : CombEdge) : list WName :=
  (if cand (cTo cg e) n then [((-1)%Z, getStatPosVar gg n (cTo cg e))] else []) ++
  (if cand (cFrom cg e) n then [((-1)%Z, getStatPosVar gg n (cFrom cg e))] else []).

(** The sink edges of port [p], towards the sink and away from it. *)
Definition ssPort (gg : BaseGraph) (n : GridNode) (e : CombEdge) (p : nat)
  : option (list WName) :=
  match getPort gg n p with
  | None => Some []
  | Some portNd =>
      match getEdg gg portNd n, getEdg gg n portNd with
      | Some eTo, Some eFr =>
          Some [(1%Z, getEdgUseVar gg eTo e); (1%Z, getEdgUseVar gg eFr e)]
      | _, _ => None
      end
  end.

Definition ssRowOpt (lp : Solver) (gg : BaseGraph) (cands : Cands) (n : GridNode)
           (e : CombEdge) : option (list Row) :=
  option_map (fun l => [mkRow (NSs (getId gg n) e) 0 FIX
                              (wterms lp (ssCandNames gg (candCount cands) n e ++ l))])
             (collect (ssPort gg n e) (seq 0 (maxDeg gg))).

Lemma sinkEdgeRow_spec gg cands n lp e :
  sinkEdgeRow cg gg cands n lp e = option_map (pushRows lp) (ssRowOpt lp gg cands n e).
Proof.
  unfold sinkEdgeRow, ssRowOpt. rewrite addRow_push.
  set (r0 := mkRow (NSs (getId gg n) e) 0 FIX []).
  assert (Hc : (if negb (candCount cands (cFrom cg e) n) && negb (candCount cands (cTo cg e) n)
                then pushRow lp r0
                else (if candCount cands (cFrom cg e) n
                      then addIfVar (length (rows lp)) (-1)
                             (if candCount cands (cTo cg e) n
                              then addIfVar (length (rows lp)) (-1) (pushRow lp r0)
                                            (getStatPosVar gg n (cTo cg e))
                              else pushRow lp r0)
                             (getStatPosVar gg n (cFrom cg e))
                      else (if candCount cands (cTo cg e) n
                            then addIfVar (length (rows lp)) (-1) (pushRow lp r0)
                                          (getStatPosVar gg n (cTo cg e))
                            else pushRow lp r0)))
               = addAll (length (rows lp)) (pushRow lp r0)
                        (ssCandNames gg (candCount cands) n e)).
  { unfold ssCandNames.
    destruct (candCount cands (cFrom cg e) n), (candCount cands (cTo cg e) n); reflexivity. }
  cbv zeta. rewrite Hc.
  rewrite (foldM_collect (length (rows lp)) (ssPort gg n e)).
  - destruct (collect (ssPort gg n e) (seq 0 (maxDeg gg))) as [l|]; [|reflexivity].
    cbn [option_map]. rewrite <- addAll_app, addAll_last. reflexivity.
  - intros s p _. unfold ssPort.
    destruct (getPort gg n p) as [q|]; [|reflexivity].
    destruct (getEdg gg q n); [|reflexivity].
    destruct (getEdg gg n q); reflexivity.
Qed.

(** The rows of one grid node. *)
Definition ssNodeRows (lp : Solver) (gg : BaseGraph) (cands : Cands) (n : GridNode)
  : option (list Row) :=
  if negb (isSink gg n) then Some []
  else collect (ssRowOpt lp gg cands n) (combEdges cg).

Lemma sinkEdgePhase_spec gg cands lp :
  sinkEdgePhase cg gg cands lp
  = option_map (pushRows lp) (collect (ssNodeRows lp gg cands) (getNds gg)).
Proof.
  unfold sinkEdgePhase.
  apply (@foldM_rows0 GridNode (fun s n => ssNodeRows s gg cands n)); [|reflexivity].
  intros s n _. unfold ssNodeRows.
  destruct (negb (isSink gg n)); [cbn; now rewrite pushRows_nil|].
  rewrite forCombEdgesM_combEdges.
  apply (@foldM_rows0 CombEdge (fun s0 e => ssRowOpt s0 gg cands n e)); [|reflexivity].
  intros s0 e _. apply sinkEdgeRow_spec.
Qed.

Lemma ssPort_route gg n e p l :
  ssPort gg n e p = Some l -> Forall (fun cn : WName => isRoute (snd cn) = true) l.
Proof.
  unfold ssPort. destruct (getPort gg n p) as [q|]; [|intros H; injection H as <-; constructor].
  destruct (getEdg gg q n); [|discriminate].
  destruct (getEdg gg n q); [|discriminate].
  intros H. injection H as <-. repeat constructor.
Qed.

(** The rows [ss(n, e)].  Every sink [n] among the grid nodes has, for every
    comb edge [e], the row [ss(n, e)], an equality with right-hand side 0.
    Its terms are [-1 sp(n, to e)] if [n] is a candidate for the end node of
    [e], [-1 sp(n, from e)] if it is one for the start node, and then, for
    every port of [n] that is there, in the order of the ports, [+1] for the
    sink edge from the port to [n] and [+1] for the one from [n] to the port;
    only the columns that exist contribute.  Both sink edges of every such
    port are in the graph. *)
Theorem createProblem_sink_edge_rows (gg gg' : BaseGraph) (lp : Solver) :
  ILP.createProblem INF SOFT_INF dist cg geoPensMap maxGrDist gg = Some (gg', lp) ->
  forall n e,
    In n (getNds gg') -> isSink gg' n = true -> In e (combEdges cg) ->
    (forall p q, p < maxDeg gg' -> getPort gg' n p = Some q ->
                 exists eTo eFr, getEdg gg' q n = Some eTo /\ getEdg gg' n q = Some eFr) /\
    In (mkRow (NSs (getId gg' n) e) 0 FIX
              (wterms lp
                 ((if candB dist cg maxGrDist gg' (cTo cg e) n
                   then [((-1)%Z, NSp (getId gg' n) (cTo cg e))] else []) ++
                  (if candB dist cg maxGrDist gg' (cFrom cg e) n
                   then [((-1)%Z, NSp (getId gg' n) (cFrom cg e))] else []) ++
                  flat_map (fun p =>
                              match getPort gg' n p with
                              | Some q =>
                                  match getEdg gg' q n, getEdg gg' n q with
                                  | Some eTo, Some eFr =>
                                      [(1%Z, getEdgUseVar gg' eTo e);
                                       (1%Z, getEdgUseVar gg' eFr e)]
                                  | _, _ => []
                                  end
                              | None => []
                              end)
                           (seq 0 (maxDeg gg')))))
       (rows lp).
Proof.
  intros Hrun n e Hn Hs He. run_facts Hrun.
  destruct K5 as (_ & _ & Hrows5 & _).
  destruct K4 as (Hst4 & _).
  rewrite sinkEdgePhase_spec in H5.
  destruct (collect (ssNodeRows lp4 gg' cands) (getNds gg')) as [rs|] eqn:Ers; [|discriminate].
  injection H5 as H5.
  destruct (collect_In _ _ n Ers Hn) as (l1 & El1 & Hi1).
  unfold ssNodeRows in El1. rewrite Hs in El1. cbn [negb] in El1.
  destruct (collect_In _ _ e El1 He) as (l2 & El2 & Hi2).
  unfold ssRowOpt in El2.
  destruct (collect (ssPort gg' n e) (seq 0 (maxDeg gg'))) as [lp'|] eqn:Ep; [|discriminate].
  injection El2 as <-.
  split.
  - intros p q Hp Hq.
    destruct (collect_In _ _ p Ep ltac:(apply in_seq; lia)) as (l & El & _).
    unfold ssPort in El. rewrite Hq in El.
    destruct (getEdg gg' q n) as [a|]; [|discriminate].
    destruct (getEdg gg' n q) as [b|]; [|discriminate].
    eauto.
  - apply Hrows5. rewrite <- H5. cbn [pushRows rows]. apply in_or_app. right.
    apply Hi1, Hi2.
    assert (Hroute : Forall (fun cn : WName => isRoute (snd cn) = true)
                            (ssCandNames gg' (candCount cands) n e ++ lp')).
    { apply Forall_app. split.
      - unfold ssCandNames. apply Forall_app.
        split; [destruct (candCount cands (cTo cg e) n)
               | destruct (candCount cands (cFrom cg e) n)]; repeat constructor.
      - apply Forall_forall. intros cn Hcn.
        destruct (@collect_inv _ _ _ _ _ _ Ep Hcn) as (p & l & _ & El & Hin).
        pose proof (@ssPort_route _ _ _ _ _ El) as Hf.
        rewrite Forall_forall in Hf. auto. }
    rewrite (wterms_stable Hst4 Hroute).
    rewrite (collect_default _ _ Ep).
    unfold ssCandNames. rewrite !HcB, <- app_assoc. left.
    f_equal. f_equal. f_equal. f_equal.
    apply flat_map_ext. intros p. unfold ssPort.
    destruct (getPort gg' n p) as [q|]; [|reflexivity].
    destruct (getEdg gg' q n); [|reflexivity].
    destruct (getEdg gg' n q); reflexivity.
Qed.


(* ---------------------------------------------------------------- *)
(** ** Station or pass-through *)

(** The bend edge from the port [from] to the port [to], for every comb
    edge. *)
Definition iuInner (gg : BaseGraph) (from to : GridNode) : option (list WName) :=
  collect (fun edg => match getEdg gg from to with
                      | Some innerE => Some [(1%Z, getEdgUseVar gg innerE edg)]
                      | None => None
                      end)
          (combEdges cg).

Definition iuTo (gg : BaseGraph) (n from : GridNode) (pt : nat) : option (list WName) :=
  match getPort gg n pt with
  | None => Some []
  | Some to => if from =? to then Some [] else iuInner gg from to
  end.

Definition iuFrom (gg : BaseGraph) (n : GridNode) (pf : nat) : option (list WName) :=
  match getPort gg n pf with
  | None => Some []
  | Some from => collect (iuTo gg n from) (seq 0 (maxDeg gg))
  end.

Definition iuSp (gg : BaseGraph) (n : GridNode) : list WName :=
  flat_map (fun nd => [(1%Z, getStatPosVar gg n nd)]) (cgNds cg).

Definition iuRowOpt (lp : Solver) (gg : BaseGraph) (n : GridNode) : option (list Row) :=
  if negb (isSink gg n) then Some []
  else option_map (fun l => [mkRow (NIu (getId gg n)) 1 UP (wterms lp (iuSp gg n ++ l))])
                  (collect (iuFrom gg n) (seq 0 (maxDeg gg))).

Lemma innerUseRow_spec gg lp n :
  innerUseRow cg gg lp n = option_map (pushRows lp) (iuRowOpt lp gg n).
Proof.
  unfold innerUseRow, iuRowOpt.
  destruct (negb (isSink gg n)); [cbn; now rewrite pushRows_nil|].
  rewrite addRow_push. cbv zeta.
  rewrite (fold_addAll (length (rows lp)) (fun nd => [(1%Z, getStatPosVar gg n nd)]))
    by reflexivity.
  fold (iuSp gg n).
  rewrite (foldM_collect (length (rows lp)) (iuFrom gg n)).
  - destruct (collect (iuFrom gg n) (seq 0 (maxDeg gg))) as [l|]; [|reflexivity].
    cbn [option_map]. rewrite <- addAll_app, addAll_last. reflexivity.
  - intros s pf _. unfold iuFrom.
    destruct (getPort gg n pf) as [from|]; [|reflexivity].
    apply (foldM_collect (length (rows lp)) (iuTo gg n from)).
    intros s1 pt _. unfold iuTo.
    destruct (getPort gg n pt) as [to|]; [|reflexivity].
    destruct (from =? to); [reflexivity|].
    rewrite forCombEdgesM_combEdges.
    apply (foldM_collect (length (rows lp))).
    intros s2 edg _. destruct (getEdg gg from to); reflexivity.
Qed.

Lemma innerUsePhase_spec gg lp :
  innerUsePhase cg gg lp = option_map (pushRows lp) (collect (iuRowOpt lp gg) (getNds gg)).
Proof.
  unfold innerUsePhase.
  apply (@foldM_rows0 GridNode (fun s n => iuRowOpt s gg n)); [|reflexivity].
  intros s n _. apply innerUseRow_spec.
Qed.

(** The same names without the failure cases. *)
Definition innerNames (gg : BaseGraph) (n : GridNode) : list WName :=
  flat_map (fun pf =>
              match getPort gg n pf with
              | None => []
              | Some from =>
                  flat_map (fun pt =>
                              match getPort gg n pt with
                              | None => []
                              | Some to =>
                                  if from =? to then []
                                  else match getEdg gg from to with
                                       | Some innerE =>
                                           map (fun edg => (1%Z, getEdgUseVar gg innerE edg))
                                               (combEdges cg)
                                       | None => []
                                       end
                              end)
                           (seq 0 (maxDeg gg))
              end)
           (seq 0 (maxDeg gg)).

Lemma flat_map_single {X A} (f : X -> A) (xs : list X) :
  flat_map (fun x => [f x]) xs = map f xs.
Proof. induction xs as [|x xs IH]; simpl; [reflexivity | now rewrite IH]. Qed.

Lemma iuInner_total gg from to l :
  iuInner gg from to = Some l ->
  l = match getEdg gg from to with
      | Some innerE => map (fun edg => (1%Z, getEdgUseVar gg innerE edg)) (combEdges cg)
      | None => []
      end /\
  (combEdges cg <> [] -> exists innerE, getEdg gg from to = Some innerE).
Proof.
  unfold iuInner. destruct (getEdg gg from to) as [ie|].
  - rewrite (collect_total (fun edg => [(1%Z, getEdgUseVar gg ie edg)])).
    intros H. injection H as <-. split; [apply flat_map_single | eauto].
  - destruct (combEdges cg) as [|edg es]; simpl.
    + intros H. injection H as <-. split; [reflexivity | congruence].
    + discriminate.
Qed.

Lemma iuFrom_names gg n (ls : list WName) :
  collect (iuFrom gg n) (seq 0 (maxDeg gg)) = Some ls -> ls = innerNames gg n.
Proof.
  apply collect_flat_map. intros pf l _ Hl. unfold iuFrom in Hl.
  destruct (getPort gg n pf) as [from|]; [|now injection Hl as <-].
  revert Hl. apply collect_flat_map. intros pt l' _ Hl'. unfold iuTo in Hl'.
  destruct (getPort gg n pt) as [to|]; [|now injection Hl' as <-].
  destruct (from =? to); [now injection Hl' as <-|].
  apply iuInner_total in Hl'. tauto.
Qed.

Lemma innerNames_route gg n :
  Forall (fun cn : WName => isRoute (snd cn) = true) (iuSp gg n ++ innerNames gg n).
Proof.
  apply Forall_app. split; apply Forall_forall; intros cn Hin.
  - unfold iuSp in Hin. apply in_flat_map in Hin. destruct Hin as (nd & _ & [<- | []]).
    reflexivity.
  - unfold innerNames in Hin. apply in_flat_map in Hin. destruct Hin as (pf & _ & Hin).
    destruct (getPort gg n pf) as [from|]; [|contradiction].
    apply in_flat_map in Hin. destruct Hin as (pt & _ & Hin).
    destruct (getPort gg n pt) as [to|]; [|contradiction].
    destruct (from =? to); [contradiction|].
    destruct (getEdg gg from to); [|contradiction].
    apply in_map_iff in Hin. destruct Hin as (edg & <- & _). reflexivity.
Qed.

(** The rows [iu(n)].  Every sink [n] among the grid nodes has the row
    [iu(n)], an upper bound 1.  Its terms, all with coefficient 1, are the
    columns [sp(n, v)] of all comb nodes [v], in their order, and then, for
    every ordered pair of different ports of [n] that are there, the columns
    [edg(b, f)] of the bend edge [b] from the first port to the second, for
    all comb edges [f]; only the columns that exist contribute.  If there is
    a comb edge at all, all these bend edges are in the graph. *)
Theorem createProblem_inner_use_rows (gg gg' : BaseGraph) (lp : Solver) :
  ILP.createProblem INF SOFT_INF dist cg geoPensMap maxGrDist gg = Some (gg', lp) ->
  forall n,
    In n (getNds gg') -> isSink gg' n = true ->
    (combEdges cg <> [] ->
     forall pf pt from to,
       pf < maxDeg gg' -> pt < maxDeg gg' ->
       getPort gg' n pf = Some from -> getPort gg' n pt = Some to -> from <> to ->
       exists innerE, getEdg gg' from to = Some innerE) /\
    In (mkRow (NIu (getId gg' n)) 1 UP
              (wterms lp
                 (map (fun v => (1%Z, NSp (getId gg' n) v)) (cgNds cg) ++
                  flat_map (fun pf =>
                    match getPort gg' n pf with
                    | None => []
                    | Some from =>
                        flat_map (fun pt =>
                          match getPort gg' n pt with
                          | None => []
                          | Some to =>
                              if from =? to then []
                              else match getEdg gg' from to with
                                   | Some innerE =>
                                       map (fun f => (1%Z, getEdgUseVar gg' innerE f))
                                           (combEdges cg)
                                   | None => []
                                   end
                          end)
                          (seq 0 (maxDeg gg'))
                    end)
                    (seq 0 (maxDeg gg')))))
       (rows lp).
Proof.
  intros Hrun n Hn Hs. run_facts Hrun.
  destruct K6 as (_ & _ & Hrows6 & _).
  destruct K5 as (Hst5 & _).
  rewrite innerUsePhase_spec in H6.
  destruct (collect (iuRowOpt lp5 gg') (getNds gg')) as [rs|] eqn:Ers; [|discriminate].
  injection H6 as H6.
  destruct (@collect_In _ _ _ _ _ n Ers Hn) as (l1 & El1 & Hi1).
  unfold iuRowOpt in El1. rewrite Hs in El1. cbn [negb] in El1.
  destruct (collect (iuFrom gg' n) (seq 0 (maxDeg gg'))) as [ls|] eqn:Els; [|discriminate].
  injection El1 as <-.
  split.
  - intros Hne pf pt from to Hpf Hpt Hfrom Hto Hft.
    destruct (@collect_In _ _ _ _ _ pf Els ltac:(apply in_seq; lia)) as (l & El & _).
    unfold iuFrom in El. rewrite Hfrom in El.
    destruct (@collect_In _ _ _ _ _ pt El ltac:(apply in_seq; lia)) as (l' & El' & _).
    unfold iuTo in El'. rewrite Hto in El'.
    replace (from =? to) with false in El' by (symmetry; apply Nat.eqb_neq; exact Hft).
    apply iuInner_total in El'. destruct El' as [_ He]. auto.
  - apply Hrows6. cbn [update rows]. rewrite <- H6. cbn [pushRows rows].
    apply in_or_app. right. apply Hi1.
    rewrite (iuFrom_names _ _ Els).
    rewrite (wterms_stable Hst5 (innerNames_route gg' n)).
    unfold iuSp. rewrite flat_map_single. left. reflexivity.
Qed.


(* ---------------------------------------------------------------- *)
(** ** An edge is used once *)

(** The names of the row of the edge [e]: for every comb edge the columns of
    [e] and of the edge back. *)
Definition ueNames (gg : BaseGraph) (e : GridEdge) : option (list WName) :=
  collect (fun edg =>
             if isInf INF SOFT_INF gg e then Some []
             else match getEdg gg (getTo gg e) (getFrom gg e) with
                  | Some f => Some [(1%Z, getEdgUseVar gg e edg); (1%Z, getEdgUseVar gg f edg)]
                  | None => None
                  end)
          (combEdges cg).

Definition ueRow (lp : Solver) (gg : BaseGraph) (e : GridEdge) (l : list WName) : Row :=
  mkRow (NUe (getId gg (getFrom gg e)) (getId gg (getTo gg e))) 1 UP (wterms lp l).

Definition ueProced (gg : BaseGraph) (e : GridEdge) (proced : list GridEdge)
  : list GridEdge :=
  match getEdg gg (getTo gg e) (getFrom gg e) with
  | Some f => f :: e :: proced
  | None => e :: proced
  end.

Lemma uniqueEdgeStep_spec gg lp proced e :
  uniqueEdgeStep INF SOFT_INF cg gg (lp, proced) e =
  if isSecondary gg e then Some (lp, proced)
  else if existsb (Nat.eqb e) proced then Some (lp, proced)
  else option_map (fun l => (pushRow lp (ueRow lp gg e l), ueProced gg e proced))
                  (ueNames gg e).
Proof.
  unfold uniqueEdgeStep.
  destruct (isSecondary gg e); [reflexivity|].
  destruct (existsb (Nat.eqb e) proced); [reflexivity|].
  rewrite addRow_push. rewrite forCombEdgesM_combEdges.
  rewrite (foldM_collect (length (rows lp))
             (fun edg =>
                if isInf INF SOFT_INF gg e then Some []
                else match getEdg gg (getTo gg e) (getFrom gg e) with
                     | Some f => Some [(1%Z, getEdgUseVar gg e edg);
                                       (1%Z, getEdgUseVar gg f edg)]
                     | None => None
                     end)).
  - unfold ueNames. destruct (collect _ (combEdges cg)) as [l|]; [|reflexivity].
    cbn [option_map]. rewrite addAll_last. reflexivity.
  - intros s edg _. destruct (isInf INF SOFT_INF gg e); [reflexivity|].
    destruct (getEdg gg (getTo gg e) (getFrom gg e)); reflexivity.
Qed.

Lemma ueNames_total gg e l :
  ueNames gg e = Some l ->
  l = (if isInf INF SOFT_INF gg e then []
       else match getEdg gg (getTo gg e) (getFrom gg e) with
            | Some f => flat_map (fun edg => [(1%Z, getEdgUseVar gg e edg);
                                              (1%Z, getEdgUseVar gg f edg)])
                                 (combEdges cg)
            | None => []
            end) /\
  (isInf INF SOFT_INF gg e = false -> combEdges cg <> [] ->
   exists f, getEdg gg (getTo gg e) (getFrom gg e) = Some f).
Proof.
  unfold ueNames. destruct (isInf INF SOFT_INF gg e).
  - rewrite (collect_total (fun _ : CombEdge => @nil WName)).
    intros H. injection H as <-. split; [|discriminate].
    induction (combEdges cg); simpl; auto.
  - destruct (getEdg gg (getTo gg e) (getFrom gg e)) as [f|].
    + rewrite (collect_total (fun edg => [(1%Z, getEdgUseVar gg e edg);
                                          (1%Z, getEdgUseVar gg f edg)])).
      intros H. injection H as <-. split; [reflexivity | eauto].
    + destruct (combEdges cg) as [|edg es]; simpl.
      * intros H. injection H as <-. split; [reflexivity | congruence].
      * discriminate.
Qed.

Section UniqueEdge.

Variable gg : BaseGraph.
Variable lp : Solver.

(** The edge [e'] is accounted for by the row of some edge [e0]: itself or
    the one it runs back along. *)
Definition Covered (e' : GridEdge) (s : Solver) : Prop :=
  exists e0 l,
    (e0 = e' \/ getEdg gg (getTo gg e0) (getFrom gg e0) = Some e') /\
    isSecondary gg e0 = false /\ ueNames gg e0 = Some l /\
    In (ueRow lp gg e0 l) (rows s).

Definition InvUe (st : Solver * list GridEdge) : Prop :=
  (exists rs, fst st = pushRows lp rs) /\ forall e', In e' (snd st) -> Covered e' (fst st).

Definition LeUe (a b : Solver * list GridEdge) : Prop :=
  incl (rows (fst a)) (rows (fst b)) /\ incl (snd a) (snd b).

Lemma LeUe_refl a : LeUe a a.
Proof. split; apply incl_refl. Qed.

Lemma LeUe_trans a b c : LeUe a b -> LeUe b c -> LeUe a c.
Proof. intros [H1 H2] [H3 H4]. split; eapply incl_tran; eauto. Qed.

Lemma Covered_mono e' s s' : Covered e' s -> incl (rows s) (rows s') -> Covered e' s'.
Proof.
  intros (e0 & l & H1 & H2 & H3 & H4) Hi. exists e0, l. auto.
Qed.

Lemma uniqueEdgeStep_inv st e st' :
  InvUe st -> uniqueEdgeStep INF SOFT_INF cg gg st e = Some st' ->
  InvUe st' /\ LeUe st st' /\ (isSecondary gg e = false -> In e (snd st')).
Proof.
  destruct st as [s proced]. intros ((rs & Hs) & Hcov) H. cbn [fst snd] in *.
  rewrite uniqueEdgeStep_spec in H.
  destruct (isSecondary gg e) eqn:Esec.
  { injection H as <-. split; [split; [eauto | exact Hcov]|].
    split; [apply LeUe_refl | discriminate]. }
  destruct (existsb (Nat.eqb e) proced) eqn:Ein.
  { injection H as <-. split; [split; [eauto | exact Hcov]|].
    split; [apply LeUe_refl|]. intros _. cbn [snd].
    apply existsb_exists in Ein. destruct Ein as (x & Hx & E).
    apply Nat.eqb_eq in E. now subst. }
  destruct (ueNames gg e) as [l|] eqn:El; [|discriminate].
  injection H as <-. cbn [fst snd].
  assert (Hrow : In (ueRow lp gg e l) (rows (pushRow s (ueRow s gg e l)))).
  { cbn [pushRow rows]. apply in_or_app. right. left.
    subst s. reflexivity. }
  assert (Hinc : incl (rows s) (rows (pushRow s (ueRow s gg e l)))).
  { cbn [pushRow rows]. apply incl_appl, incl_refl. }
  split; [split|split].
  - exists (rs ++ [ueRow s gg e l]). subst s. apply pushRow_pushRows.
  - intros e' He'. unfold ueProced in He'.
    assert (Hself : Covered e (pushRow s (ueRow s gg e l))).
    { exists e, l. auto. }
    destruct (getEdg gg (getTo gg e) (getFrom gg e)) as [f|] eqn:Ef.
    + destruct He' as [<- | [<- | He']]; [|exact Hself|].
      * exists e, l. auto.
      * eapply Covered_mono; [apply Hcov; exact He' | exact Hinc].
    + destruct He' as [<- | He']; [exact Hself|].
      eapply Covered_mono; [apply Hcov; exact He' | exact Hinc].
  - split; [exact Hinc|]. cbn [snd]. unfold ueProced.
    destruct (getEdg gg (getTo gg e) (getFrom gg e));
      intros x Hx; simpl; auto.
  - intros _. unfold ueProced.
    destruct (getEdg gg (getTo gg e) (getFrom gg e)); simpl; auto.
Qed.

Lemma uniqueEdgePhase_covered lp' :
  uniqueEdgePhase INF SOFT_INF cg gg lp = Some lp' ->
  forall n e, In n (getNds gg) -> In e (getAdjList gg n) -> isSecondary gg e = false ->
              Covered e lp'.
Proof.
  unfold uniqueEdgePhase. intros H n e Hn He Hsec.
  destruct (foldM _ (getNds gg) (lp, [])) as [st|] eqn:E; [|discriminate].
  injection H as <-.
  destruct (@foldM_each (Solver * list GridEdge) GridNode
              (fun st n => foldM (uniqueEdgeStep INF SOFT_INF cg gg) (getAdjList gg n) st)
              InvUe LeUe
              (fun n st => forall e, In e (getAdjList gg n) -> isSecondary gg e = false ->
                                     In e (snd st))
              (getNds gg) LeUe_refl LeUe_trans)
    with (s := (lp, @nil GridEdge)) (s' := st) as (Hinv & _ & Hest).
  - intros m s s' Hs [_ Hle] e0 He0 Hsec0. apply Hle. auto.
  - intros s m s' _ Hs Hm.
    destruct (@foldM_each (Solver * list GridEdge) GridEdge
                (uniqueEdgeStep INF SOFT_INF cg gg) InvUe LeUe
                (fun e st => isSecondary gg e = false -> In e (snd st))
                (getAdjList gg m) LeUe_refl LeUe_trans)
      with (s := s) (s' := s') as (Hinv' & Hle' & Hest'); auto.
    + intros e0 a b Ha [_ Hle] Hsec0. apply Hle. auto.
    + intros a e0 b _ Ha Hab. apply uniqueEdgeStep_inv; assumption.
  - split; [exists []; cbn; now rewrite pushRows_nil | intros e' []].
  - exact E.
  - destruct Hinv as [_ Hcov]. apply Hcov. apply (Hest n Hn e He Hsec).
Qed.

End UniqueEdge.

Lemma ueNames_route gg e l :
  ueNames gg e = Some l -> Forall (fun cn : WName => isRoute (snd cn) = true) l.
Proof.
  intros H. apply Forall_forall. intros cn Hcn.
  destruct (@collect_inv _ _ _ _ _ _ H Hcn) as (edg & l' & _ & El & Hin).
  destruct (isInf INF SOFT_INF gg e); [injection El as <-; contradiction|].
  destruct (getEdg gg (getTo gg e) (getFrom gg e)); [|discriminate].
  injection El as <-. simpl in Hin. intuition; subst; reflexivity.
Qed.

(** The rows [ue].  Every edge [e] in the adjacency list of a grid node that
    is no secondary edge is accounted for by a row [ue(from, to)] named after
    an edge [e0] that is [e] itself or the edge that [e] runs back along.
    The row is an upper bound 1; if the cost of [e0] is [SOFT_INF] or more it
    has no terms, else its terms are, for every comb edge [f], the columns
    [edg(e0, f)] and [edg(back, f)] of [e0] and of the edge back from its
    head to its tail; only the columns that exist contribute.  If the cost
    is below [SOFT_INF] and there is a comb edge, the edge back is in the
    graph. *)
Theorem createProblem_unique_edge_rows (gg gg' : BaseGraph) (lp : Solver) :
  ILP.createProblem INF SOFT_INF dist cg geoPensMap maxGrDist gg = Some (gg', lp) ->
  forall n e,
    In n (getNds gg') -> In e (getAdjList gg' n) -> isSecondary gg' e = false ->
    exists e0,
      (e0 = e \/ getEdg gg' (getTo gg' e0) (getFrom gg' e0) = Some e) /\
      isSecondary gg' e0 = false /\
      (isInf INF SOFT_INF gg' e0 = false -> combEdges cg <> [] ->
       exists back, getEdg gg' (getTo gg' e0) (getFrom gg' e0) = Some back) /\
      In (mkRow (NUe (getId gg' (getFrom gg' e0)) (getId gg' (getTo gg' e0))) 1 UP
                (wterms lp
                   (if isInf INF SOFT_INF gg' e0 then []
                    else match getEdg gg' (getTo gg' e0) (getFrom gg' e0) with
                         | Some back =>
                             flat_map (fun f => [(1%Z, getEdgUseVar gg' e0 f);
                                                 (1%Z, getEdgUseVar gg' back f)])
                                      (combEdges cg)
                         | None => []
                         end)))
         (rows lp).
Proof.
  intros Hrun n e Hn He Hsec. run_facts Hrun.
  destruct K3 as (_ & _ & Hrows3 & _).
  destruct K2 as (Hst2 & _).
  destruct (@uniqueEdgePhase_covered gg' lp2 lp3 H3 n e Hn He Hsec)
    as (e0 & l & Hor & Hsec0 & El & Hin).
  destruct (ueNames_total _ _ El) as (Hl & Hback).
  exists e0. split; [exact Hor|]. split; [exact Hsec0|]. split; [exact Hback|].
  apply Hrows3. unfold ueRow in Hin.
  rewrite (wterms_stable Hst2 (ueNames_route _ _ El)) in Hin.
  rewrite Hl in Hin. exact Hin.
Qed.

End Rows.

End ModelRows.

(* ================================================================== *)
(** * [createProblem]: the direction columns [d] and rows [dc] *)

Module DirRows.

Import Vec Names LP Grid Comb ILP ListFacts LPFacts PhaseFacts FlowFacts StatPosFacts
       OrderFacts AngleFacts CreateProblemFacts RowFacts StageFacts ModelRows.

Lemma getVarByName_addIfVar row coef s nm nm' :
  getVarByName (addIfVar row coef s nm') nm = getVarByName s nm.
Proof.
  unfold addIfVar. destruct (getVarByName s nm'); reflexivity.
Qed.

Lemma getVarByName_addAll row s l nm :
  getVarByName (addAll row s l) nm = getVarByName s nm.
Proof.
  revert s. induction l as [|cn l IH]; intros s; simpl; auto.
  change (getVarByName (addAll row (addIfVar row (fst cn) s (snd cn)) l) nm
          = getVarByName s nm).
  rewrite IH. apply getVarByName_addIfVar.
Qed.

(** As [foldM_collect], for rounds that read the state through lookups. *)
Lemma foldM_collect_inv {X} (row : nat) (names : X -> option (list WName))
      (step : Solver -> X -> option Solver) (P : Solver -> Prop) (xs : list X) :
  (forall s l, P s -> P (addAll row s l)) ->
  (forall s x, In x xs -> P s -> step s x = option_map (addAll row s) (names x)) ->
  forall s, P s -> foldM step xs s = option_map (addAll row s) (collect names xs).
Proof.
  intros HP. induction xs as [|x xs IH]; intros Hstep s Hs; simpl; auto.
  rewrite (Hstep s x (or_introl eq_refl) Hs).
  destruct (names x) as [l|]; simpl; auto.
  rewrite IH; auto.
  - destruct (collect names xs) as [ls|]; simpl; auto. now rewrite addAll_app.
  - intros s0 y Hy. apply Hstep. simpl; auto.
Qed.

Section Dir.

Variable cg : CombGraph.

(** The sink edge of port [i] that [edg] uses at its end [nd]: out of the
    sink if [edg] leaves [nd], into it otherwise; weighted with [i]. *)
Definition dirPort (gg : BaseGraph) (nd : CombNode) (edg : CombEdge) (n : GridNode)
           (i : nat) : option (list WName) :=
  match getPort gg n i with
  | None => Some []
  | Some portNd =>
      match (if cFrom cg edg =? nd then getEdg gg n portNd else getEdg gg portNd n) with
      | Some e => Some [(Z.of_nat i, getEdgUseVar gg e edg)]
      | None => None
      end
  end.

Definition dirNode (lp : Solver) (gg : BaseGraph) (nd : CombNode) (edg : CombEdge)
           (n : GridNode) : option (list WName) :=
  if negb (isSink gg n) then Some []
  else match getVarByName lp (getStatPosVar gg n nd) with
       | None => Some []
       | Some _ => collect (dirPort gg nd edg n) (seq 1 (maxDeg gg - 1))
       end.

Definition dirNames (lp : Solver) (gg : BaseGraph) (nd : CombNode) (edg : CombEdge)
  : option (list WName) :=
  collect (dirNode lp gg nd edg) (getNds gg).

Definition dirCol (gg : BaseGraph) (nd : CombNode) (edg : CombEdge) : Col :=
  mkCol (NDir nd edg) INT 0%Q (Some (0%Z, Z.of_nat (maxDeg gg - 1))).

Definition dirRowOf (lp : Solver) (gg : BaseGraph) (nd : CombNode) (edg : CombEdge)
           (k : nat) (l : list WName) : Row :=
  mkRow (NDc nd edg) 0 FIX ((k, (-1)%Z) :: wterms lp l).

Lemma getVarByName_pushCol_wf lp c nm :
  visible lp <= length (cols lp) -> getVarByName (pushCol lp c) nm = getVarByName lp nm.
Proof. intros Hwf. apply (@getVarByName_pushCols lp [c] nm Hwf). Qed.

Lemma wterms_lookup s lp l :
  (forall nm, getVarByName s nm = getVarByName lp nm) -> wterms s l = wterms lp l.
Proof.
  intros H. unfold wterms. apply flat_map_ext. intros cn. unfold optTerm. now rewrite H.
Qed.

Lemma dirNames_lookup s lp gg nd edg :
  (forall nm, getVarByName s nm = getVarByName lp nm) ->
  dirNames s gg nd edg = dirNames lp gg nd edg.
Proof.
  intros H. unfold dirNames. apply collect_ext. intros n _. unfold dirNode. now rewrite H.
Qed.

Lemma dirRow_spec gg nd lp edg :
  visible lp <= length (cols lp) ->
  dirRow cg gg nd lp edg
  = option_map (fun l => pushRow (pushCol lp (dirCol gg nd edg))
                                 (dirRowOf lp gg nd edg (length (cols lp)) l))
               (dirNames lp gg nd edg).
Proof.
  intros Hwf. unfold dirRow. rewrite addColB_push. cbv iota beta.
  fold (dirCol gg nd edg). set (lp1 := pushCol lp (dirCol gg nd edg)).
  rewrite addRow_push. cbv iota beta.
  change (length (rows lp1)) with (length (rows lp)).
  rewrite (addColToRow_last lp1).
  set (r1 := addTerms [(length (cols lp), (-1)%Z)] (mkRow (NDc nd edg) 0 FIX [])).
  change (length (rows lp)) with (length (rows lp1)).
  rewrite (@foldM_collect_inv GridNode (length (rows lp1)) (dirNode lp gg nd edg)
             (dirPorts cg gg nd edg (length (rows lp1)))
             (fun s => forall nm, getVarByName s nm = getVarByName lp nm)).
  - fold (dirNames lp gg nd edg).
    destruct (dirNames lp gg nd edg) as [l|]; [|reflexivity].
    cbn [option_map]. rewrite addAll_last. f_equal. f_equal.
    unfold r1, dirRowOf, addTerms. cbn [rowName rowRhs rowType rowTerms app]. f_equal.
    f_equal. apply wterms_lookup. intros nm. apply getVarByName_pushCol_wf. exact Hwf.
  - intros s l Hs nm. rewrite getVarByName_addAll. apply Hs.
  - intros s n _ Hs. unfold dirPorts, dirNode.
    destruct (negb (isSink gg n)); [reflexivity|].
    rewrite Hs. destruct (getVarByName lp (getStatPosVar gg n nd)); [|reflexivity].
    apply (foldM_collect (length (rows lp1)) (dirPort gg nd edg n)).
    intros s1 i _. unfold dirPort.
    destruct (getPort gg n i) as [q|]; [|reflexivity].
    destruct (cFrom cg edg =? nd).
    + destruct (getEdg gg n q); reflexivity.
    + destruct (getEdg gg q n); reflexivity.
  - intros nm. change (getVarByName (pushRow lp1 r1) nm) with (getVarByName lp1 nm).
    apply getVarByName_pushCol_wf. exact Hwf.
Qed.

(** What the round for [(nd, edg)] leaves in the model [s], the lookups
    being those of [base]. *)
Definition DirPost (gg : BaseGraph) (nd : CombNode) (edg : CombEdge) (base s : Solver)
  : Prop :=
  exists k l,
    dirNames base gg nd edg = Some l /\
    nth_error (cols s) k = Some (dirCol gg nd edg) /\
    In (dirRowOf base gg nd edg k l) (rows s).

Lemma DirPost_mono gg nd edg base s s' :
  DirPost gg nd edg base s -> Adds isDir isDc s s' -> DirPost gg nd edg base s'.
Proof.
  intros (k & l & H1 & H2 & H3) Ha. exists k, l. split; [exact H1|]. split.
  - eapply Adds_cols; eauto.
  - eapply Adds_rows; eauto.
Qed.

Lemma DirPost_base gg nd edg b b' s :
  DirPost gg nd edg b' s -> Adds isDir isDc b b' -> visible b <= length (cols b) ->
  DirPost gg nd edg b s.
Proof.
  intros (k & l & H1 & H2 & H3) Ha Hwf.
  assert (Hl : forall nm, getVarByName b' nm = getVarByName b nm).
  { intros nm. eapply Adds_lookup; eauto. }
  exists k, l. rewrite <- (@dirNames_lookup b' b gg nd edg Hl). split; [exact H1|].
  split; [exact H2|]. unfold dirRowOf in *. rewrite <- (@wterms_lookup b' b l Hl). exact H3.
Qed.

Lemma dirRow_adds gg nd s edg s' :
  dirRow cg gg nd s edg = Some s' -> visible s <= length (cols s) ->
  Adds isDir isDc s s' /\ DirPost gg nd edg s s'.
Proof.
  intros H Hwf. rewrite (@dirRow_spec gg nd s edg Hwf) in H.
  destruct (dirNames s gg nd edg) as [l|] eqn:El; [|discriminate].
  injection H as <-. split.
  - split; [reflexivity|]. eexists [_], [_]. cbn [pushRow pushCol cols rows].
    repeat split; repeat constructor.
  - exists (length (cols s)), l. split; [exact El|]. cbn [pushRow pushCol cols rows]. split.
    + rewrite nth_error_app2 by lia. now rewrite Nat.sub_diag.
    + apply in_or_app. right. left. reflexivity.
Qed.

Lemma dirPhase_post gg lp lp' :
  dirPhase cg gg lp = Some lp' -> visible lp <= length (cols lp) ->
  forall nd edg, In nd (cgNds cg) -> 2 <= cDeg cg nd -> In edg (cAdjList cg nd) ->
                 DirPost gg nd edg lp lp'.
Proof.
  unfold dirPhase. intros H Hwf nd edg Hnd Hdeg Hedg.
  destruct (@foldM_adds CombNode isDir isDc
              (fun nd base s => 2 <= cDeg cg nd ->
                                forall edg, In edg (cAdjList cg nd) -> DirPost gg nd edg base s)
              (fun lp nd => if cDeg cg nd <? 2 then Some lp
                            else foldM (dirRow cg gg nd) (cAdjList cg nd) lp))
    with (l := cgNds cg) (lp := lp) (lp' := lp') as (_ & Hall); auto.
  - intros s v s' Hs Hwfs.
    destruct (cDeg cg v <? 2) eqn:Ed.
    + injection Hs as <-. split; [apply Adds_refl|].
      intros Hd. apply Nat.ltb_lt in Ed. lia.
    + destruct (@foldM_adds CombEdge isDir isDc (fun e base s0 => DirPost gg v e base s0)
                  (dirRow cg gg v))
        with (l := cAdjList cg v) (lp := s) (lp' := s') as (Ha & Hp); auto.
      * intros s0 e s0' He Hw. apply dirRow_adds; assumption.
      * intros e b s0 s0' Hp Ha. eapply DirPost_mono; eauto.
      * intros e b b' s0 Hp Ha Hw. eapply DirPost_base; eauto.
  - intros v b s s' Hp Ha Hd e He. eapply DirPost_mono; eauto.
  - intros v b b' s Hp Ha Hw Hd e He. eapply DirPost_base; eauto.
Qed.

(** The names without the failure cases, the lookups being those of [lp]. *)
Definition dirNamesOf (lp : Solver) (gg : BaseGraph) (nd : CombNode) (edg : CombEdge)
  : list WName :=
  flat_map (fun n =>
              if negb (isSink gg n) then []
              else match getVarByName lp (NSp (getId gg n) nd) with
                   | None => []
                   | Some _ =>
                       flat_map (fun i =>
                                   match getPort gg n i with
                                   | None => []
                                   | Some portNd =>
                                       match (if cFrom cg edg =? nd
                                              then getEdg gg n portNd
                                              else getEdg gg portNd n) with
                                       | Some e => [(Z.of_nat i, getEdgUseVar gg e edg)]
                                       | None => []
                                       end
                                   end)
                                (seq 1 (maxDeg gg - 1))
                   end)
           (getNds gg).

Lemma dirNames_total lp gg nd edg l :
  dirNames lp gg nd edg = Some l -> l = dirNamesOf lp gg nd edg.
Proof.
  apply collect_flat_map. intros n l1 _ Hl1. unfold dirNode in Hl1.
  destruct (negb (isSink gg n)); [now injection Hl1 as <-|].
  change (getStatPosVar gg n nd) with (NSp (getId gg n) nd) in Hl1.
  destruct (getVarByName lp (NSp (getId gg n) nd)); [|now injection Hl1 as <-].
  revert Hl1. apply collect_flat_map. intros i l2 _ Hl2. unfold dirPort in Hl2.
  destruct (getPort gg n i) as [q|]; [|now injection Hl2 as <-].
  destruct (if cFrom cg edg =? nd then getEdg gg n q else getEdg gg q n);
    [now injection Hl2 as <- | discriminate].
Qed.

Lemma dirNamesOf_route lp gg nd edg :
  Forall (fun cn : WName => isRoute (snd cn) = true) (dirNamesOf lp gg nd edg).
Proof.
  apply Forall_forall. intros cn Hin. unfold dirNamesOf in Hin.
  apply in_flat_map in Hin. destruct Hin as (n & _ & Hin).
  destruct (negb (isSink gg n)); [contradiction|].
  destruct (getVarByName lp (NSp (getId gg n) nd)); [|contradiction].
  apply in_flat_map in Hin. destruct Hin as (i & _ & Hin).
  destruct (getPort gg n i) as [q|]; [|contradiction].
  destruct (if cFrom cg edg =? nd then getEdg gg n q else getEdg gg q n); [|contradiction].
  destruct Hin as [<- | []]. reflexivity.
Qed.

Lemma dirNamesOf_stable s lp gg nd edg :
  routeStable s lp -> dirNamesOf s gg nd edg = dirNamesOf lp gg nd edg.
Proof.
  intros Hs. unfold dirNamesOf. apply flat_map_ext. intros n.
  rewrite (Hs (NSp (getId gg n) nd) eq_refl). reflexivity.
Qed.

End Dir.

Section DirTheorem.

Variables INF SOFT_INF : Q.
Variable dist : Q * Q -> Q * Q -> Q.
Variable cg : CombGraph.
Variable geoPensMap : option (CombEdge -> nat -> Q).
Variable maxGrDist : Q.

(** The direction of an edge at a node.  A comb node [v] of degree 2 or more
    has for every edge [edg] of its adjacency list an integer column
    [d(v, edg)] with bounds 0 and [maxDeg - 1] and objective 0, and the row
    [dc(v, edg)], an equality with right-hand side 0: [-1] times that
    column, plus, for every sink [n] that has a column [sp(n, v)], and every
    port [i] from 1 on of [n] that is there, [i] times the column of the sink
    edge of that port (from [n] to the port if [edg] starts at [v], else from
    the port to [n]); only the columns that exist contribute.  These sink
    edges are all in the graph. *)
Theorem createProblem_direction_rows (gg gg' : BaseGraph) (lp : Solver) :
  ILP.createProblem INF SOFT_INF dist cg geoPensMap maxGrDist gg = Some (gg', lp) ->
  forall v edg,
    In v (cgNds cg) -> 2 <= cDeg cg v -> In edg (cAdjList cg v) ->
    (forall n i q,
        In n (getNds gg') -> isSink gg' n = true ->
        getVarByName lp (NSp (getId gg' n) v) <> None ->
        1 <= i < maxDeg gg' -> getPort gg' n i = Some q ->
        exists e, (if cFrom cg edg =? v then getEdg gg' n q else getEdg gg' q n) = Some e) /\
    exists k,
      nth_error (cols lp) k
      = Some (mkCol (NDir v edg) INT 0%Q (Some (0%Z, Z.of_nat (maxDeg gg' - 1)))) /\
      In (mkRow (NDc v edg) 0 FIX
                ((k, (-1)%Z) ::
                 wterms lp
                   (flat_map (fun n =>
                      if negb (isSink gg' n) then []
                      else match getVarByName lp (NSp (getId gg' n) v) with
                           | None => []
                           | Some _ =>
                               flat_map (fun i =>
                                 match getPort gg' n i with
                                 | None => []
                                 | Some portNd =>
                                     match (if cFrom cg edg =? v
                                            then getEdg gg' n portNd
                                            else getEdg gg' portNd n) with
                                     | Some e => [(Z.of_nat i, getEdgUseVar gg' e edg)]
                                     | None => []
                                     end
                                 end)
                                 (seq 1 (maxDeg gg' - 1))
                           end)
                      (getNds gg'))))
         (rows lp).
Proof.
  intros Hrun v edg Hv Hdeg Hedg. run_facts Hrun.
  destruct K8 as (_ & _ & Hrows8 & Hcols8 & _).
  destruct K7 as (Hst7 & Hwf7 & _).
  destruct (@dirPhase_post cg gg' lp7 lp8 H8 Hwf7 v edg Hv Hdeg Hedg)
    as (k & l & El & Hcol & Hrow).
  split.
  - intros n i q Hn Hs Hsp Hi Hq.
    destruct (@collect_In _ _ _ _ _ n El Hn) as (l1 & El1 & _).
    unfold dirNode in El1. rewrite Hs in El1. cbn [negb] in El1.
    change (getStatPosVar gg' n v) with (NSp (getId gg' n) v) in El1.
    rewrite (Hst7 (NSp (getId gg' n) v) eq_refl) in El1.
    destruct (getVarByName lp (NSp (getId gg' n) v)); [|contradiction].
    destruct (@collect_In _ _ _ _ _ i El1 ltac:(apply in_seq; lia)) as (l2 & El2 & _).
    unfold dirPort in El2. rewrite Hq in El2.
    destruct (if cFrom cg edg =? v then getEdg gg' n q else getEdg gg' q n) as [e|];
      [eauto | discriminate].
  - exists k. split; [apply Hcols8; exact Hcol|].
    apply Hrows8. unfold dirRowOf in Hrow.
    rewrite (dirNames_total _ _ _ _ _ El) in Hrow.
    rewrite (wterms_stable Hst7 (dirNamesOf_route cg lp7 gg' v edg)) in Hrow.
    rewrite (dirNamesOf_stable cg gg' v edg Hst7) in Hrow. exact Hrow.
Qed.

End DirTheorem.

End DirRows.

(* ================================================================== *)
(** * The rows and columns of the small star *)

Module DemoRows.

Import Vec Names LP Grid Comb ILP OctiHanan Impl Demo CrossDemo
       ListFacts LPFacts RowFacts StageFacts ModelRows DirRows DemoFacts.

Unset Implicit Arguments.

Lemma crossRun_some : crossRun = Some (crossGG, crossLP).
Proof.
  assert (H : isSome crossRun = true) by (vm_compute; reflexivity).
  unfold crossGG, crossLP. destruct crossRun as [[gg lp]|]; [reflexivity|discriminate].
Qed.

Lemma crossRun_def :
  createProblem dINF dSOFT_INF distOnAxis cgStar None 5%Q bgCross = crossRun.
Proof.
  exact (@eq_refl _ (createProblem dINF dSOFT_INF distOnAxis cgStar None 5%Q bgCross)).
Qed.

Lemma crossRun_ok :
  createProblem dINF dSOFT_INF distOnAxis cgStar None 5%Q bgCross
  = Some (crossGG, crossLP).
Proof. exact (eq_trans crossRun_def crossRun_some). Qed.

(** The graph a run returns reads like the one passed in, edge payloads
    apart. *)
Lemma demoGG_shape : exists st, demoGG = withEdgeSt bgDemo st.
Proof.
  destruct (@createProblem_facts dINF dSOFT_INF distOnAxis cgStar None 5%Q
              bgDemo demoGG demoLP demoRun_ok).
  eexists; eassumption.
Qed.

Lemma crossGG_shape : exists st, crossGG = withEdgeSt bgCross st.
Proof.
  destruct (@createProblem_facts dINF dSOFT_INF distOnAxis cgStar None 5%Q
              bgCross crossGG crossLP crossRun_ok).
  eexists; eassumption.
Qed.

Ltac by_shape :=
  let st := fresh "st" in
  let E := fresh "E" in
  destruct demoGG_shape as (st & E); rewrite E; vm_compute.

Lemma demo_sink : isSink demoGG 0 = true.
Proof. by_shape. reflexivity. Qed.

Lemma demo_port_listed : In 3 (getNds demoGG).
Proof. by_shape. auto 10. Qed.

Lemma demo_major_listed : In 144 (getAdjList demoGG 3).
Proof. by_shape. auto 10. Qed.

Lemma demo_major_from : getFrom demoGG 144 = 3.
Proof. by_shape. reflexivity. Qed.

Lemma demo_major_open : isInf dINF dSOFT_INF demoGG 144 = false.
Proof. vm_compute. reflexivity. Qed.

Lemma demo_major_primary : isSecondary demoGG 144 = false.
Proof. by_shape. reflexivity. Qed.

Lemma demo_port_from : isSink demoGG (getFrom demoGG 144) = false.
Proof. by_shape. reflexivity. Qed.

Lemma demo_port_to : isSink demoGG (getTo demoGG 144) = false.
Proof. by_shape. reflexivity. Qed.

Lemma cross_pair_listed :
  nth_error (getCrossEdgPairs crossGG) 0 = Some ((144, 145), (145, 144)).
Proof.
  destruct crossGG_shape as (st & E). rewrite E. reflexivity.
Qed.

Lemma demo_centre_listed : In 100 (cgNds cgStar).
Proof. simpl. auto. Qed.

Lemma demo_centre_deg : 2 <= cDeg cgStar 100.
Proof. vm_compute. lia. Qed.

Lemma demo_centre_edge : In 501 (cAdjList cgStar 100).
Proof. simpl. auto. Qed.

Lemma createProblem_edge_columns_witness :
  In (mkCol (NEdg (getId demoGG (getFrom demoGG 144)) (getId demoGG (getTo demoGG 144)) 501)
            BIN (edgUseCoef dINF None demoGG 144 501) None)
     (cols demoLP).
Proof.
  destruct (@createProblem_edge_columns dINF dSOFT_INF distOnAxis cgStar None 5%Q
              bgDemo demoGG demoLP demoRun_ok) as (_ & H & _).
  apply (H 501 3 144 demo_edge_listed demo_port_listed demo_major_listed
           demo_major_from demo_major_open).
  - intros Hs. rewrite demo_port_from in Hs. discriminate.
  - intros Hs. rewrite demo_port_to in Hs. discriminate.
Defined.

Lemma createProblem_crossing_rows_witness :
  In (mkRow (NNc 0) 1 UP
            (wterms crossLP
               (flat_map (fun f => [(1%Z, getEdgUseVar crossGG 144 f);
                                    (1%Z, getEdgUseVar crossGG 145 f);
                                    (1%Z, getEdgUseVar crossGG 145 f);
                                    (1%Z, getEdgUseVar crossGG 144 f)])
                         (combEdges cgStar))))
     (rows crossLP).
Proof.
  exact (@createProblem_crossing_rows dINF dSOFT_INF distOnAxis cgStar None 5%Q
           bgCross crossGG crossLP crossRun_ok 0 ((144, 145), (145, 144))
           cross_pair_listed).
Defined.

Lemma createProblem_sink_edge_rows_witness :
  exists ts, In (mkRow (NSs (getId demoGG 0) 501) 0 FIX ts) (rows demoLP).
Proof.
  destruct (@createProblem_sink_edge_rows dINF dSOFT_INF distOnAxis cgStar None 5%Q
              bgDemo demoGG demoLP demoRun_ok 0 501
              demo_sink_listed demo_sink demo_edge_listed) as (_ & H).
  eexists. exact H.
Defined.

Lemma createProblem_inner_use_rows_witness :
  exists ts, In (mkRow (NIu (getId demoGG 0)) 1 UP ts) (rows demoLP).
Proof.
  destruct (@createProblem_inner_use_rows dINF dSOFT_INF distOnAxis cgStar None 5%Q
              bgDemo demoGG demoLP demoRun_ok 0 demo_sink_listed demo_sink) as (_ & H).
  eexists. exact H.
Defined.

Lemma createProblem_unique_edge_rows_witness :
  exists e0 ts,
    (e0 = 144 \/ Grid.getEdg demoGG (getTo demoGG e0) (getFrom demoGG e0) = Some 144) /\
    In (mkRow (NUe (getId demoGG (getFrom demoGG e0)) (getId demoGG (getTo demoGG e0))) 1 UP ts)
       (rows demoLP).
Proof.
  destruct (@createProblem_unique_edge_rows dINF dSOFT_INF distOnAxis cgStar None 5%Q
              bgDemo demoGG demoLP demoRun_ok 3 144
              demo_port_listed demo_major_listed demo_major_primary)
    as (e0 & Hor & _ & _ & H).
  exists e0. eexists. split; [exact Hor | exact H].
Defined.

Lemma createProblem_direction_rows_witness :
  exists k ts,
    nth_error (cols demoLP) k
    = Some (mkCol (NDir 100 501) INT 0%Q (Some (0%Z, Z.of_nat (Grid.maxDeg demoGG - 1)))) /\
    In (mkRow (NDc 100 501) 0 FIX ((k, (-1)%Z) :: ts)) (rows demoLP).
Proof.
  destruct (@createProblem_direction_rows dINF dSOFT_INF distOnAxis cgStar None 5%Q
              bgDemo demoGG demoLP demoRun_ok 100 501
              demo_centre_listed demo_centre_deg demo_centre_edge)
    as (_ & k & Hc & Hr).
  exists k. eexists. split; [exact Hc | exact Hr].
Defined.

End DemoRows.

Set Implicit Arguments.

(* ================================================================== *)
(** * [extractFeasibleSol]: the starting solution *)

Module StarterFacts.

Import Vec Names LP Grid Comb ILP Starter ListFacts LPFacts PhaseFacts RowFacts.

(** A write: the name and the value. *)
Definition SolWrite : Type := (Name * Q)%type.

(** A run of writes, in order. *)
Definition applyWrites (ws : list SolWrite) (sol : StarterSol) : StarterSol :=
  fold_left (fun s w => setSol s (fst w) (snd w)) ws sol.

Lemma applyWrites_app ws ws' sol :
  applyWrites (ws ++ ws') sol = applyWrites ws' (applyWrites ws sol).
Proof. unfold applyWrites. apply fold_left_app. Qed.

(** The last write to a name. *)
Definition lastWrite (nm : Name) (ws : list SolWrite) : option SolWrite :=
  find (fun w => name_eqb nm (fst w)) (rev ws).

(** The value of a name after a run of writes is that of the last write to
    it. *)
Lemma applyWrites_lookup ws sol nm :
  applyWrites ws sol nm
  = match lastWrite nm ws with
    | Some w => Some (snd w)
    | None => sol nm
    end.
Proof.
  unfold lastWrite.
  induction ws as [|w ws IH] using rev_ind; [reflexivity|].
  rewrite applyWrites_app, rev_app_distr. cbn [rev app find applyWrites fold_left].
  unfold setSol at 1. destruct (name_eqb nm (fst w)); [reflexivity | exact IH].
Qed.

Lemma lastWrite_some nm ws w : lastWrite nm ws = Some w -> In w ws /\ fst w = nm.
Proof.
  unfold lastWrite. intros E. apply find_some in E. destruct E as (Hin & Hn).
  apply name_eqb_eq in Hn. apply in_rev in Hin. auto.
Qed.

Lemma lastWrite_none nm ws w : lastWrite nm ws = None -> In w ws -> fst w <> nm.
Proof.
  unfold lastWrite. intros E Hin Hn.
  pose proof (find_none _ _ E w) as Hf. rewrite <- in_rev in Hf.
  specialize (Hf Hin). subst nm. cbv beta in Hf. rewrite name_eqb_refl in Hf.
  discriminate.
Qed.

Lemma applyWrites_untouched ws sol nm :
  (forall w, In w ws -> fst w <> nm) -> applyWrites ws sol nm = sol nm.
Proof.
  intros H. rewrite applyWrites_lookup.
  destruct (lastWrite nm ws) as [w|] eqn:E; [|reflexivity].
  apply lastWrite_some in E. destruct E as (Hin & Hn).
  exfalso. apply (H w Hin). exact Hn.
Qed.

Lemma applyWrites_const ws sol nm v :
  (exists w, In w ws /\ fst w = nm) ->
  (forall w, In w ws -> fst w = nm -> snd w = v) ->
  applyWrites ws sol nm = Some v.
Proof.
  intros (w0 & Hin0 & Hn0) H. rewrite applyWrites_lookup.
  destruct (lastWrite nm ws) as [w|] eqn:E.
  - apply lastWrite_some in E. destruct E as (Hin & Hn). f_equal. apply H; auto.
  - exfalso. exact (@lastWrite_none nm ws w0 E Hin0 Hn0).
Qed.

Lemma applyWrites_value ws sol nm v :
  applyWrites ws sol nm = Some v ->
  (exists w, In w ws /\ fst w = nm /\ snd w = v) \/
  ((forall w, In w ws -> fst w <> nm) /\ sol nm = Some v).
Proof.
  rewrite applyWrites_lookup.
  destruct (lastWrite nm ws) as [w|] eqn:E; intros H.
  - apply lastWrite_some in E. destruct E as (Hin & Hn). injection H as <-.
    left. exists w. auto.
  - right. split; [|exact H]. intros w Hin. exact (@lastWrite_none nm ws w E Hin).
Qed.

Lemma fold_writes {X} (F : X -> list SolWrite) (step : StarterSol -> X -> StarterSol)
      (xs : list X) :
  (forall s x, In x xs -> step s x = applyWrites (F x) s) ->
  forall s, fold_left step xs s = applyWrites (flat_map F xs) s.
Proof.
  induction xs as [|x xs IH]; intros Hstep s; simpl; auto.
  rewrite (Hstep s x (or_introl eq_refl)), applyWrites_app.
  apply IH. intros s0 y Hy. apply Hstep. simpl; auto.
Qed.

Lemma foldM_writes {X} (F : X -> option (list SolWrite))
      (step : StarterSol -> X -> option StarterSol) (xs : list X) :
  (forall s x, In x xs -> step s x = option_map (fun ws => applyWrites ws s) (F x)) ->
  forall s, foldM step xs s = option_map (fun ws => applyWrites ws s) (collect F xs).
Proof.
  induction xs as [|x xs IH]; intros Hstep s; simpl; auto.
  rewrite (Hstep s x (or_introl eq_refl)).
  destruct (F x) as [l|]; simpl; auto.
  rewrite IH by (intros s0 y Hy; apply Hstep; simpl; auto).
  destruct (collect F xs) as [ls|]; simpl; auto.
  now rewrite applyWrites_app.
Qed.

Lemma collect_some {X A} (f : X -> option (list A)) (xs : list X) :
  collect f xs <> None <-> forall x, In x xs -> f x <> None.
Proof.
  induction xs as [|x xs IH]; simpl.
  - split; [intros _ x [] | discriminate].
  - destruct (f x) as [l|] eqn:E.
    + destruct (collect f xs) as [ls|].
      * split; [|discriminate]. intros _ y [<- | Hy]; [congruence|].
        apply IH; [discriminate | exact Hy].
      * split; [congruence|]. intros H. exfalso.
        assert (Hn : @None (list A) <> None) by (apply IH; intros y Hy; apply H; auto).
        congruence.
    + split; [congruence|]. intros H. exfalso. apply (H x); auto.
Qed.

Section Starter.

Variable dist : Q * Q -> Q * Q -> Q.
Variable cg : CombGraph.
Variable maxGrDist : Q.
Variable gg : BaseGraph.
Variable getSettled : CombNode -> option GridNode.
Variable getEdgPaths : list (CombEdge * list (nat * nat)).
Variable getGrEdgById : nat * nat -> option GridEdge.

Local Notation "'extract'" :=
  (extractFeasibleSol dist cg maxGrDist gg getSettled getEdgPaths getGrEdgById).

(** The sink [gnd] is in reach of the comb node [nd]. *)
Definition inReach (nd : CombNode) (gnd : GridNode) : bool :=
  isSink gg gnd
  && negb (Qle_bool (getCellSize gg * maxGrDist)%Q (dist (cGeom cg nd) (getGeom gg gnd))).

Definition settledAt (nd : CombNode) (gnd : GridNode) : bool :=
  match getSettled nd with Some s => gnd =? s | None => false end.

(** *** The writes of the parts *)

Definition zeroEdgW (nd : CombNode) (e : GridEdge) : list SolWrite :=
  map (fun cEdg => (getEdgUseVar gg e cEdg, 0%Q)) (outEdges cg nd).

Definition settledPortsW (nd : CombNode) (gnd : GridNode) : list SolWrite :=
  flat_map (fun p =>
              match getPort gg gnd p with
              | None => []
              | Some portNd =>
                  flat_map (fun bendEdg => if negb (isSecondary gg bendEdg) then []
                                           else zeroEdgW nd bendEdg)
                           (getAdjList gg portNd)
              end)
           (seq 0 (maxDeg gg)).

Definition unsettledSinkW (nd : CombNode) (gnd : GridNode) : option (list SolWrite) :=
  collect (fun sinkEdg => if isSecondary gg sinkEdg then Some (zeroEdgW nd sinkEdg) else None)
          (getAdjList gg gnd).

Definition statStepW (nd : CombNode) (gnd : GridNode) : option (list SolWrite) :=
  if negb (inReach nd gnd) then Some []
  else if settledAt nd gnd
       then Some ((getStatPosVar gg gnd nd, 1%Q) :: settledPortsW nd gnd)
       else option_map (cons (getStatPosVar gg gnd nd, 0%Q)) (unsettledSinkW nd gnd).

Definition statNodeW (nd : CombNode) : option (list SolWrite) :=
  if cDeg cg nd =? 0 then Some [] else collect (statStepW nd) (getNds gg).

Definition statW : option (list SolWrite) := collect statNodeW (cgNds cg).

Definition initW : list SolWrite :=
  flat_map (fun grNd =>
              flat_map (fun grEdg =>
                          if isSecondary gg grEdg then []
                          else map (fun cEdg => (getEdgUseVar gg grEdg cEdg, 0%Q))
                                   (combEdges cg))
                       (getAdjListOut gg grNd))
           (getNds gg).

Definition pathW : option (list SolWrite) :=
  collect (fun a =>
             collect (fun xy => match getGrEdgById xy with
                                | Some grEdg => Some [(getEdgUseVar gg grEdg (fst a), 1%Q)]
                                | None => None
                                end)
                     (snd a))
          getEdgPaths.

Lemma zeroEdg_spec nd e sol : zeroEdg cg gg nd e sol = applyWrites (zeroEdgW nd e) sol.
Proof.
  unfold zeroEdg, zeroEdgW, outEdges. revert sol.
  induction (cAdjList cg nd) as [|c l IH]; intros sol; simpl; auto.
  destruct (cFrom cg c =? nd); simpl; apply IH.
Qed.

Lemma settledPorts_spec nd gnd sol :
  settledPorts cg gg nd gnd sol = applyWrites (settledPortsW nd gnd) sol.
Proof.
  unfold settledPorts, settledPortsW. apply fold_writes. intros s p _.
  destruct (getPort gg gnd p) as [q|]; [|reflexivity].
  apply fold_writes. intros s0 b _.
  destruct (negb (isSecondary gg b)); [reflexivity | apply zeroEdg_spec].
Qed.

Lemma unsettledSink_spec nd gnd sol :
  unsettledSink cg gg nd gnd sol
  = option_map (fun ws => applyWrites ws sol) (unsettledSinkW nd gnd).
Proof.
  unfold unsettledSink, unsettledSinkW. apply foldM_writes. intros s e _.
  destruct (isSecondary gg e); [|reflexivity]. cbn [option_map]. now rewrite zeroEdg_spec.
Qed.

Lemma statStep_spec nd sol gnd :
  statStep dist cg maxGrDist gg nd (getSettled nd) sol gnd
  = option_map (fun ws => applyWrites ws sol) (statStepW nd gnd).
Proof.
  unfold statStep, statStepW, inReach, settledAt.
  destruct (isSink gg gnd); [|reflexivity]. cbn [negb andb].
  destruct (Qle_bool _ _); [reflexivity|]. cbn [negb].
  destruct (match getSettled nd with Some s => gnd =? s | None => false end).
  - cbn [option_map]. now rewrite settledPorts_spec.
  - rewrite unsettledSink_spec. destruct (unsettledSinkW nd gnd); reflexivity.
Qed.

Lemma statPhase_spec sol :
  statPhase dist cg maxGrDist gg getSettled sol
  = option_map (fun ws => applyWrites ws sol) statW.
Proof.
  unfold statPhase, statW. apply foldM_writes. intros s nd _. unfold statNodeW.
  destruct (cDeg cg nd =? 0); [reflexivity|].
  apply foldM_writes. intros s0 gnd _. apply statStep_spec.
Qed.

Lemma initPhase_spec sol : initPhase cg gg sol = applyWrites initW sol.
Proof.
  unfold initPhase, initW. apply fold_writes. intros s n _.
  apply fold_writes. intros s0 e _.
  destruct (isSecondary gg e); [reflexivity|].
  rewrite forCombEdges_combEdges. unfold applyWrites. revert s0.
  induction (combEdges cg) as [|c l IH]; intros s0; simpl; auto.
Qed.

Lemma pathPhase_spec sol :
  pathPhase gg getEdgPaths getGrEdgById sol
  = option_map (fun ws => applyWrites ws sol) pathW.
Proof.
  unfold pathPhase, pathW. apply foldM_writes. intros s a _.
  apply foldM_writes. intros s0 xy _.
  destruct (getGrEdgById xy); reflexivity.
Qed.

(** The run as one list of writes. *)
Lemma extractFeasibleSol_spec :
  extract
  = match statW, pathW with
    | Some a, Some c => Some (applyWrites (a ++ initW ++ c) emptySol)
    | _, _ => None
    end.
Proof.
  unfold extractFeasibleSol. rewrite statPhase_spec.
  destruct statW as [a|]; [|reflexivity]. cbn [option_map].
  rewrite pathPhase_spec, initPhase_spec.
  destruct pathW as [c|]; [|reflexivity]. cbn [option_map].
  now rewrite !applyWrites_app.
Qed.

(** *** What the writes are *)

(** The name stands for an edge of one of the paths of the drawing. *)
Definition onPath (nm : Name) : Prop :=
  exists a xy e,
    In a getEdgPaths /\ In xy (snd a) /\ getGrEdgById xy = Some e /\
    nm = getEdgUseVar gg e (fst a).

Lemma Qle_bool_false (a b : Q) : Qle_bool a b = false <-> (b < a)%Q.
Proof.
  split.
  - intros H. apply Qnot_le_lt. intros Hle. apply Qle_bool_iff in Hle. congruence.
  - intros H. destruct (Qle_bool a b) eqn:E; auto.
    apply Qle_bool_iff in E. exfalso. apply (Qlt_not_le _ _ H E).
Qed.

Lemma inReach_iff nd gnd :
  inReach nd gnd = true <->
  isSink gg gnd = true /\
  (dist (cGeom cg nd) (getGeom gg gnd) < getCellSize gg * maxGrDist)%Q.
Proof.
  unfold inReach. rewrite andb_true_iff, negb_true_iff, Qle_bool_false. tauto.
Qed.

Lemma settledAt_iff nd gnd : settledAt nd gnd = true <-> getSettled nd = Some gnd.
Proof.
  unfold settledAt. destruct (getSettled nd) as [s|]; [|split; discriminate].
  rewrite Nat.eqb_eq. split; [intros ->; reflexivity | intros H; now injection H].
Qed.

Lemma zeroEdgW_in nd e w :
  In w (zeroEdgW nd e) <-> exists c, In c (outEdges cg nd) /\ w = (getEdgUseVar gg e c, 0%Q).
Proof.
  unfold zeroEdgW. rewrite in_map_iff. split; intros (c & H1 & H2); exists c; auto.
Qed.

Lemma pathW_in c w :
  pathW = Some c ->
  (In w c <-> snd w = 1%Q /\ onPath (fst w)).
Proof.
  intros Hc. split.
  - intros Hin.
    destruct (@collect_inv _ _ _ _ _ _ Hc Hin) as (a & l & Ha & El & Hl).
    destruct (@collect_inv _ _ _ _ _ _ El Hl) as (xy & l' & Hxy & El' & Hl').
    destruct (getGrEdgById xy) as [e|] eqn:Ee; [|discriminate].
    injection El' as <-. destruct Hl' as [<- | []].
    split; [reflexivity|]. exists a, xy, e. auto.
  - intros (Hv & a & xy & e & Ha & Hxy & Ee & Hn).
    destruct (@collect_In _ _ _ _ _ a Hc Ha) as (l & El & Hincl).
    destruct (@collect_In _ _ _ _ _ xy El Hxy) as (l' & El' & Hincl').
    rewrite Ee in El'. injection El' as <-.
    apply Hincl, Hincl'. left. destruct w as [n v]. cbn in *. congruence.
Qed.

Lemma initW_in w :
  In w initW <->
  exists grNd e c,
    In grNd (getNds gg) /\ In e (getAdjListOut gg grNd) /\ isSecondary gg e = false /\
    In c (combEdges cg) /\ w = (getEdgUseVar gg e c, 0%Q).
Proof.
  unfold initW. rewrite in_flat_map. split.
  - intros (n & Hn & Hin). apply in_flat_map in Hin. destruct Hin as (e & He & Hin).
    destruct (isSecondary gg e) eqn:Es; [contradiction|].
    apply in_map_iff in Hin. destruct Hin as (c & <- & Hc).
    exists n, e, c. auto.
  - intros (n & e & c & Hn & He & Es & Hc & ->). exists n. split; auto.
    apply in_flat_map. exists e. split; auto. rewrite Es.
    apply in_map_iff. exists c. auto.
Qed.

(** The writes of the first part: station values for the sinks in reach,
    and zeros for edges. *)
Definition StatWrite (w : SolWrite) : Prop :=
  (exists nd gnd,
      In nd (cgNds cg) /\ cDeg cg nd <> 0 /\ In gnd (getNds gg) /\ inReach nd gnd = true /\
      w = (getStatPosVar gg gnd nd, if settledAt nd gnd then 1%Q else 0%Q)) \/
  (isEdg (fst w) = true /\ snd w = 0%Q).

Lemma statStepW_in nd gnd l w :
  In nd (cgNds cg) -> cDeg cg nd <> 0 -> In gnd (getNds gg) ->
  statStepW nd gnd = Some l -> In w l -> StatWrite w.
Proof.
  intros Hnd Hdeg Hg El Hin. unfold statStepW in El.
  destruct (inReach nd gnd) eqn:Er; cbn [negb] in El; [|injection El as <-; contradiction].
  destruct (settledAt nd gnd) eqn:Es.
  - injection El as <-. destruct Hin as [<- | Hin].
    + left. exists nd, gnd. rewrite Es. auto.
    + right. unfold settledPortsW in Hin. apply in_flat_map in Hin.
      destruct Hin as (p & _ & Hin). destruct (getPort gg gnd p) as [q|]; [|contradiction].
      apply in_flat_map in Hin. destruct Hin as (b & _ & Hin).
      destruct (negb (isSecondary gg b)); [contradiction|].
      apply zeroEdgW_in in Hin. destruct Hin as (c & _ & ->). split; reflexivity.
  - destruct (unsettledSinkW nd gnd) as [l0|] eqn:Eu; [|discriminate].
    injection El as <-. destruct Hin as [<- | Hin].
    + left. exists nd, gnd. rewrite Es. auto.
    + right. destruct (@collect_inv _ _ _ _ _ _ Eu Hin) as (e & l' & _ & El' & Hl').
      destruct (isSecondary gg e); [|discriminate]. injection El' as <-.
      apply zeroEdgW_in in Hl'. destruct Hl' as (c & _ & ->). split; reflexivity.
Qed.

Lemma statW_in a w : statW = Some a -> In w a -> StatWrite w.
Proof.
  intros Ha Hin.
  destruct (@collect_inv _ _ _ _ _ _ Ha Hin) as (nd & l & Hnd & El & Hl).
  unfold statNodeW in El. destruct (cDeg cg nd =? 0) eqn:Ed.
  - injection El as <-. contradiction.
  - apply Nat.eqb_neq in Ed.
    destruct (@collect_inv _ _ _ _ _ _ El Hl) as (gnd & l' & Hg & El' & Hl').
    eapply statStepW_in; eauto.
Qed.

(** The writes of the first part for one sink in reach. *)
Lemma statW_step a nd gnd :
  statW = Some a -> In nd (cgNds cg) -> cDeg cg nd <> 0 -> In gnd (getNds gg) ->
  exists l, statStepW nd gnd = Some l /\ incl l a.
Proof.
  intros Ha Hnd Hdeg Hg.
  destruct (@collect_In _ _ _ _ _ nd Ha Hnd) as (l & El & Hincl).
  unfold statNodeW in El. apply Nat.eqb_neq in Hdeg. rewrite Hdeg in El.
  destruct (@collect_In _ _ _ _ _ gnd El Hg) as (l' & El' & Hincl').
  exists l'. split; auto. intros w Hw. apply Hincl, Hincl'. exact Hw.
Qed.

(** The value of an edge-use name that the first two parts have written. *)
Lemma edge_value a c nm :
  statW = Some a -> pathW = Some c -> isEdg nm = true ->
  (exists w, In w (a ++ initW) /\ fst w = nm) ->
  (onPath nm /\ applyWrites (a ++ initW ++ c) emptySol nm = Some 1%Q) \/
  (~ onPath nm /\ applyWrites (a ++ initW ++ c) emptySol nm = Some 0%Q).
Proof.
  intros Ha Hc Hn Hex. rewrite app_assoc, applyWrites_app.
  rewrite (applyWrites_lookup c).
  destruct (lastWrite nm c) as [w|] eqn:E.
  - apply lastWrite_some in E. destruct E as (Hin & Hnm).
    apply (pathW_in w Hc) in Hin. destruct Hin as (Hv & Hp).
    left. rewrite Hnm in Hp. split; [exact Hp | now rewrite Hv].
  - right. split.
    + intros Hp.
      assert (Hin : In (nm, 1%Q) c) by (apply (pathW_in (nm, 1%Q) Hc); auto).
      exact (@lastWrite_none nm c (nm, 1%Q) E Hin eq_refl).
    + apply applyWrites_const; [exact Hex|].
      intros w Hw Hnm. apply in_app_or in Hw. destruct Hw as [Hw | Hw].
      * destruct (statW_in w Ha Hw) as [(nd & gnd & _ & _ & _ & _ & ->) | [_ Hv]];
          [|exact Hv].
        cbn in Hnm. subst nm. discriminate.
      * apply initW_in in Hw. destruct Hw as (n & e & c0 & _ & _ & _ & _ & ->). reflexivity.
Qed.

(** *** The theorems *)

(** When the call goes through.  [extractFeasibleSol] returns a solution
    exactly if, for every comb node [nd] of positive degree, every sink in
    reach of [nd] other than the one [nd] is settled on has secondary edges
    only in its adjacency list (the assertion in the loop), and every id on
    a path of the drawing names a grid edge. *)
Theorem extractFeasibleSol_goes_through :
  extract <> None <->
  (forall nd gnd e,
      In nd (cgNds cg) -> cDeg cg nd <> 0 ->
      In gnd (getNds gg) -> isSink gg gnd = true ->
      (dist (cGeom cg nd) (getGeom gg gnd) < getCellSize gg * maxGrDist)%Q ->
      getSettled nd <> Some gnd ->
      In e (getAdjList gg gnd) -> isSecondary gg e = true) /\
  (forall a xy, In a getEdgPaths -> In xy (snd a) -> getGrEdgById xy <> None).
Proof.
  rewrite extractFeasibleSol_spec.
  assert (Hs : statW <> None <->
               forall nd gnd e,
                 In nd (cgNds cg) -> cDeg cg nd <> 0 ->
                 In gnd (getNds gg) -> isSink gg gnd = true ->
                 (dist (cGeom cg nd) (getGeom gg gnd) < getCellSize gg * maxGrDist)%Q ->
                 getSettled nd <> Some gnd ->
                 In e (getAdjList gg gnd) -> isSecondary gg e = true).
  { unfold statW. rewrite collect_some. split.
    - intros H nd gnd e Hnd Hdeg Hg Hsink Hd Hset He.
      specialize (H nd Hnd). unfold statNodeW in H.
      apply Nat.eqb_neq in Hdeg. rewrite Hdeg in H.
      rewrite collect_some in H. specialize (H gnd Hg). unfold statStepW in H.
      replace (inReach nd gnd) with true in H
        by (symmetry; apply inReach_iff; auto).
      cbn [negb] in H.
      destruct (settledAt nd gnd) eqn:Es; [apply settledAt_iff in Es; contradiction|].
      destruct (unsettledSinkW nd gnd) as [l|] eqn:Eu; [|contradiction].
      destruct (@collect_In _ _ _ _ _ e Eu He) as (l' & El' & _).
      destruct (isSecondary gg e); [reflexivity | discriminate].
    - intros H nd Hnd. unfold statNodeW.
      destruct (cDeg cg nd =? 0) eqn:Ed; [discriminate|]. apply Nat.eqb_neq in Ed.
      apply collect_some. intros gnd Hg. unfold statStepW.
      destruct (inReach nd gnd) eqn:Er; cbn [negb]; [|discriminate].
      apply inReach_iff in Er. destruct Er as [Hsink Hd].
      destruct (settledAt nd gnd) eqn:Es; [discriminate|].
      assert (Hu : unsettledSinkW nd gnd <> None).
      { apply collect_some. intros e He.
        rewrite (H nd gnd e Hnd Ed Hg Hsink Hd); [discriminate | | exact He].
        intros Hset. apply settledAt_iff in Hset. congruence. }
      destruct (unsettledSinkW nd gnd); [discriminate | contradiction]. }
  assert (Hp : pathW <> None <->
               forall a xy, In a getEdgPaths -> In xy (snd a) -> getGrEdgById xy <> None).
  { unfold pathW. rewrite collect_some. split.
    - intros H a xy Ha Hxy. specialize (H a Ha). rewrite collect_some in H.
      specialize (H xy Hxy). destruct (getGrEdgById xy); [discriminate | contradiction].
    - intros H a Ha. apply collect_some. intros xy Hxy.
      specialize (H a xy Ha Hxy). destruct (getGrEdgById xy); [discriminate | contradiction]. }
  rewrite <- Hs, <- Hp.
  destruct statW as [a|]; [destruct pathW as [c|]|].
  - split; intros _; [split; discriminate | discriminate].
  - split; [intros H; congruence | intros [_ H]; congruence].
  - split; [intros H; congruence | intros [H _]; congruence].
Qed.

(** The edge-use values.  In a solution that [extractFeasibleSol] returns,
    the variable of every edge on a path of the drawing, for the comb edge of
    that path, is 1; an [edg] variable that has a value has 1 if its name is
    that of an edge on a path and 0 if not; and the variable of every edge
    that is not secondary in the list of outgoing edges of a grid node has a
    value, for every comb edge. *)
Theorem extractFeasibleSol_edge_values (sol : StarterSol) :
  extract = Some sol ->
  (forall a xy,
      In a getEdgPaths -> In xy (snd a) ->
      exists e, getGrEdgById xy = Some e /\ sol (getEdgUseVar gg e (fst a)) = Some 1%Q) /\
  (forall f t c v,
      sol (NEdg f t c) = Some v ->
      (onPath (NEdg f t c) /\ v = 1%Q) \/ (~ onPath (NEdg f t c) /\ v = 0%Q)) /\
  (forall grNd e c,
      In grNd (getNds gg) -> In e (getAdjListOut gg grNd) -> isSecondary gg e = false ->
      In c (combEdges cg) -> sol (getEdgUseVar gg e c) <> None).
Proof.
  rewrite extractFeasibleSol_spec.
  destruct statW as [a|] eqn:Ea; [|discriminate].
  destruct pathW as [c|] eqn:Ec; [|discriminate].
  intros H. injection H as <-.
  assert (Hval : forall nm v,
             isEdg nm = true ->
             applyWrites (a ++ initW ++ c) emptySol nm = Some v ->
             (onPath nm /\ v = 1%Q) \/ (~ onPath nm /\ v = 0%Q)).
  { intros nm v Hn Hv.
    pose proof Hv as Hv0. rewrite app_assoc, applyWrites_app in Hv0.
    apply applyWrites_value in Hv0. destruct Hv0 as [(w & Hw & Hnm & Hsw) | [Hno Hv0]].
    - apply (pathW_in w Ec) in Hw. destruct Hw as [H1 Hp].
      left. rewrite Hnm in Hp. split; [exact Hp | congruence].
    - apply applyWrites_value in Hv0. destruct Hv0 as [(w & Hw & Hnm & Hsw) | [_ Hv0]];
        [|discriminate].
      destruct (@edge_value a c nm Ea Ec Hn (ex_intro _ w (conj Hw Hnm)))
        as [[Hp Hs] | [Hp Hs]]; rewrite Hs in Hv; injection Hv as <-; auto. }
  split; [|split].
  - intros p xy Hp Hxy.
    destruct (@collect_In _ _ _ _ _ p Ec Hp) as (l & El & Hincl).
    destruct (@collect_In _ _ _ _ _ xy El Hxy) as (l' & El' & Hincl').
    destruct (getGrEdgById xy) as [e|] eqn:Ee; [|discriminate].
    exists e. split; [reflexivity|].
    rewrite app_assoc, applyWrites_app. apply applyWrites_const.
    + exists (getEdgUseVar gg e (fst p), 1%Q). split; [|reflexivity].
      injection El' as <-. apply Hincl, Hincl'. left. reflexivity.
    + intros w Hw _. apply (pathW_in w Ec) in Hw. tauto.
  - intros f t c0 v Hv. apply Hval; [reflexivity | exact Hv].
  - intros n e c0 Hn He Hs Hc0.
    destruct (@edge_value a c (getEdgUseVar gg e c0) Ea Ec eq_refl) as [[_ Hv] | [_ Hv]];
      try (rewrite Hv; discriminate).
    exists (getEdgUseVar gg e c0, 0%Q). split; [|reflexivity].
    apply in_or_app. right. apply initW_in. exists n, e, c0. auto.
Qed.

(** The station values.  Let the sinks among the grid nodes have different
    ids.  In a solution that [extractFeasibleSol] returns, for a comb node
    [nd] of positive degree and a sink [gnd] in reach, [sp(gnd, nd)] is 1 if
    [nd] is settled on [gnd] and 0 if not; no other [sp] variable has a
    value, and only [sp] and [edg] variables have one. *)
Theorem extractFeasibleSol_station_values (sol : StarterSol) :
  extract = Some sol ->
  (forall n m, In n (getNds gg) -> In m (getNds gg) ->
               isSink gg n = true -> isSink gg m = true ->
               getId gg n = getId gg m -> n = m) ->
  (forall nd gnd,
      In nd (cgNds cg) -> cDeg cg nd <> 0 ->
      In gnd (getNds gg) -> isSink gg gnd = true ->
      (dist (cGeom cg nd) (getGeom gg gnd) < getCellSize gg * maxGrDist)%Q ->
      sol (NSp (getId gg gnd) nd)
      = Some (if match getSettled nd with Some s => gnd =? s | None => false end
              then 1%Q else 0%Q)) /\
  (forall id nd,
      sol (NSp id nd) <> None ->
      exists gnd,
        In nd (cgNds cg) /\ cDeg cg nd <> 0 /\ In gnd (getNds gg) /\ isSink gg gnd = true /\
        (dist (cGeom cg nd) (getGeom gg gnd) < getCellSize gg * maxGrDist)%Q /\
        getId gg gnd = id) /\
  (forall nm, sol nm <> None -> isRoute nm = true).
Proof.
  rewrite extractFeasibleSol_spec.
  destruct statW as [a|] eqn:Ea; [|discriminate].
  destruct pathW as [c|] eqn:Ec; [|discriminate].
  intros H Hinj. injection H as <-.
  assert (Hlate : forall w, In w (initW ++ c) -> isEdg (fst w) = true).
  { intros w Hw. apply in_app_or in Hw. destruct Hw as [Hw | Hw].
    - apply initW_in in Hw. destruct Hw as (n & e & c0 & _ & _ & _ & _ & ->). reflexivity.
    - apply (pathW_in w Ec) in Hw. destruct Hw as (_ & p & xy & e & _ & _ & _ & ->).
      reflexivity. }
  assert (Hsp : forall id nd,
             applyWrites (a ++ initW ++ c) emptySol (NSp id nd)
             = applyWrites a emptySol (NSp id nd)).
  { intros id nd. rewrite applyWrites_app. apply applyWrites_untouched.
    intros w Hw Hn. apply Hlate in Hw. rewrite Hn in Hw. discriminate. }
  split; [|split].
  - intros nd gnd Hnd Hdeg Hg Hsink Hd. rewrite Hsp.
    assert (Hr : inReach nd gnd = true) by (apply inReach_iff; auto).
    apply applyWrites_const.
    + destruct (@statW_step a nd gnd Ea Hnd Hdeg Hg) as (l & El & Hincl).
      unfold statStepW in El. rewrite Hr in El. cbn [negb] in El.
      fold (settledAt nd gnd).
      destruct (settledAt nd gnd) eqn:Es.
      * injection El as <-. eexists. split; [apply Hincl; left; reflexivity|]. reflexivity.
      * destruct (unsettledSinkW nd gnd) as [l0|]; [|discriminate].
        injection El as <-. eexists. split; [apply Hincl; left; reflexivity|]. reflexivity.
    + intros w Hw Hn.
      destruct (statW_in w Ea Hw) as [(nd' & gnd' & Hnd' & _ & Hg' & Hr' & ->) | [He _]].
      * cbn in Hn. injection Hn as Hid ->. apply inReach_iff in Hr'.
        assert (gnd' = gnd) by (apply Hinj; tauto). subst gnd'. reflexivity.
      * rewrite Hn in He. discriminate.
  - intros id nd Hv. rewrite Hsp in Hv.
    destruct (applyWrites a emptySol (NSp id nd)) as [v|] eqn:E; [|contradiction].
    apply applyWrites_value in E. destruct E as [(w & Hw & Hn & _) | [_ E]]; [|discriminate].
    destruct (statW_in w Ea Hw) as [(nd' & gnd' & Hnd' & Hdeg' & Hg' & Hr' & ->) | [He _]].
    + cbn in Hn. injection Hn as Hid ->. apply inReach_iff in Hr'.
      exists gnd'. tauto.
    + rewrite Hn in He. discriminate.
  - intros nm Hv.
    destruct (applyWrites (a ++ initW ++ c) emptySol nm) as [v|] eqn:E; [|contradiction].
    apply applyWrites_value in E. destruct E as [(w & Hw & Hn & _) | [_ E]]; [|discriminate].
    apply in_app_or in Hw. destruct Hw as [Hw | Hw].
    + destruct (statW_in w Ea Hw) as [(nd' & gnd' & _ & _ & _ & _ & ->) | [He _]].
      * cbn in Hn. subst nm. reflexivity.
      * rewrite Hn in He. destruct nm; try discriminate; reflexivity.
    + apply Hlate in Hw. rewrite Hn in Hw. destruct nm; try discriminate; reflexivity.
Qed.

(** Edges at the sinks.  In a solution that [extractFeasibleSol] returns,
    for a comb node [nd] of positive degree, an edge [c] that starts at [nd]
    and a sink [gnd] in reach: if [nd] is settled on [gnd], the variable of
    every secondary edge in the adjacency list of a port of [gnd] has a
    value for [c]; if not, every edge in the adjacency list of [gnd] is
    secondary and its variable has a value for [c].  That value is 0 unless
    the name is that of an edge on a path. *)
Theorem extractFeasibleSol_sink_edges (sol : StarterSol) :
  extract = Some sol ->
  forall nd gnd c,
    In nd (cgNds cg) -> cDeg cg nd <> 0 ->
    In gnd (getNds gg) -> isSink gg gnd = true ->
    (dist (cGeom cg nd) (getGeom gg gnd) < getCellSize gg * maxGrDist)%Q ->
    In c (cAdjList cg nd) -> cFrom cg c = nd ->
    (getSettled nd = Some gnd ->
     forall p portNd bendEdg,
       p < maxDeg gg -> getPort gg gnd p = Some portNd ->
       In bendEdg (getAdjList gg portNd) -> isSecondary gg bendEdg = true ->
       (onPath (getEdgUseVar gg bendEdg c) /\ sol (getEdgUseVar gg bendEdg c) = Some 1%Q) \/
       (~ onPath (getEdgUseVar gg bendEdg c) /\ sol (getEdgUseVar gg bendEdg c) = Some 0%Q)) /\
    (getSettled nd <> Some gnd ->
     forall sinkEdg,
       In sinkEdg (getAdjList gg gnd) ->
       isSecondary gg sinkEdg = true /\
       ((onPath (getEdgUseVar gg sinkEdg c) /\ sol (getEdgUseVar gg sinkEdg c) = Some 1%Q) \/
        (~ onPath (getEdgUseVar gg sinkEdg c) /\ sol (getEdgUseVar gg sinkEdg c) = Some 0%Q))).
Proof.
  rewrite extractFeasibleSol_spec.
  destruct statW as [a|] eqn:Ea; [|discriminate].
  destruct pathW as [cw|] eqn:Ec; [|discriminate].
  intros H nd gnd c Hnd Hdeg Hg Hsink Hd Hc Hfr. injection H as <-.
  assert (Hr : inReach nd gnd = true) by (apply inReach_iff; auto).
  assert (Hout : In c (outEdges cg nd)).
  { unfold outEdges. apply filter_In. split; [exact Hc|]. now apply Nat.eqb_eq. }
  destruct (@statW_step a nd gnd Ea Hnd Hdeg Hg) as (l & El & Hincl).
  unfold statStepW in El. rewrite Hr in El. cbn [negb] in El.
  split.
  - intros Hset p q b Hp Hq Hb Hsec.
    apply settledAt_iff in Hset. rewrite Hset in El. injection El as <-.
    apply (@edge_value a cw (getEdgUseVar gg b c) Ea Ec eq_refl).
    exists (getEdgUseVar gg b c, 0%Q). split; [|reflexivity].
    apply in_or_app. left. apply Hincl. right.
    unfold settledPortsW. apply in_flat_map. exists p. split; [apply in_seq; lia|].
    rewrite Hq. apply in_flat_map. exists b. split; [exact Hb|].
    rewrite Hsec. cbn [negb]. apply zeroEdgW_in. exists c. auto.
  - intros Hset e He.
    destruct (settledAt nd gnd) eqn:Es; [apply settledAt_iff in Es; contradiction|].
    destruct (unsettledSinkW nd gnd) as [l0|] eqn:Eu; [|discriminate].
    injection El as <-.
    destruct (@collect_In _ _ _ _ _ e Eu He) as (l' & El' & Hincl').
    destruct (isSecondary gg e) eqn:Esec; [|discriminate].
    injection El' as <-. split; [reflexivity|].
    apply (@edge_value a cw (getEdgUseVar gg e c) Ea Ec eq_refl).
    exists (getEdgUseVar gg e c, 0%Q). split; [|reflexivity].
    apply in_or_app. left. apply Hincl. right. apply Hincl'.
    apply zeroEdgW_in. exists c. auto.
Qed.

End Starter.

End StarterFacts.

(* ================================================================== *)
(** * The starting solution of the small star *)

Module DemoStarter.

Import Vec Names LP Grid Comb ILP Starter Demo StarterDemo StarterFacts.

Unset Implicit Arguments.

Lemma demoStarter_some : demoStarter = Some demoSol.
Proof.
  assert (H : isSome demoStarter = true) by (vm_compute; reflexivity).
  unfold demoSol. destruct demoStarter as [sol|]; [reflexivity | discriminate].
Qed.

Lemma demoStarter_def :
  extractFeasibleSol distOnAxis cgStar 5%Q bgDemo demoSettled demoPaths demoEdgById
  = demoStarter.
Proof.
  exact (@eq_refl _ (extractFeasibleSol distOnAxis cgStar 5%Q bgDemo demoSettled
                                        demoPaths demoEdgById)).
Qed.

Lemma demoStarter_ok :
  extractFeasibleSol distOnAxis cgStar 5%Q bgDemo demoSettled demoPaths demoEdgById
  = Some demoSol.
Proof. exact (eq_trans demoStarter_def demoStarter_some). Qed.

Lemma star_centre_listed : In 100 (cgNds cgStar).
Proof. simpl. auto. Qed.

Lemma star_centre_deg : cDeg cgStar 100 <> 0.
Proof. vm_compute. discriminate. Qed.

Lemma star_edge_listed : In 501 (cAdjList cgStar 100).
Proof. simpl. auto. Qed.

Lemma star_edge_from : cFrom cgStar 501 = 100.
Proof. reflexivity. Qed.

Lemma grid_sink0_listed : In 0 (getNds bgDemo).
Proof. vm_compute. auto. Qed.

Lemma grid_sink9_listed : In 9 (getNds bgDemo).
Proof. vm_compute. auto 12. Qed.

Lemma grid_sink0 : isSink bgDemo 0 = true.
Proof. vm_compute. reflexivity. Qed.

Lemma grid_sink9 : isSink bgDemo 9 = true.
Proof. vm_compute. reflexivity. Qed.

Lemma grid_sink0_near :
  (distOnAxis (cGeom cgStar 100%nat) (getGeom bgDemo 0%nat) < getCellSize bgDemo * 5)%Q.
Proof. vm_compute. reflexivity. Qed.

Lemma grid_sink9_near :
  (distOnAxis (cGeom cgStar 100%nat) (getGeom bgDemo 9%nat) < getCellSize bgDemo * 5)%Q.
Proof. vm_compute. reflexivity. Qed.

Lemma grid_sink9_free : demoSettled 100 <> Some 9.
Proof. vm_compute. discriminate. Qed.

Lemma grid_sink9_edge : In 72 (getAdjList bgDemo 9).
Proof. vm_compute. auto. Qed.

Lemma grid_sink_ids_check :
  forallb (fun n =>
             forallb (fun m =>
                        implb (isSink bgDemo n && isSink bgDemo m
                               && (getId bgDemo n =? getId bgDemo m))
                              (n =? m))
                     (getNds bgDemo))
          (getNds bgDemo) = true.
Proof. vm_compute. reflexivity. Qed.

Lemma grid_sink_ids (n m : GridNode) :
  In n (getNds bgDemo) -> In m (getNds bgDemo) ->
  isSink bgDemo n = true -> isSink bgDemo m = true ->
  getId bgDemo n = getId bgDemo m -> n = m.
Proof.
  intros Hn Hm Hsn Hsm Hid.
  pose proof grid_sink_ids_check as H.
  rewrite forallb_forall in H. specialize (H n Hn).
  rewrite forallb_forall in H. specialize (H m Hm).
  rewrite Hsn, Hsm, Hid, Nat.eqb_refl in H. cbn in H.
  apply Nat.eqb_eq. exact H.
Qed.

Lemma extractFeasibleSol_edge_values_witness :
  exists e,
    demoEdgById (3, 16) = Some e /\
    demoSol (getEdgUseVar bgDemo e (fst (501, [(3, 16)]))) = Some 1%Q.
Proof.
  destruct (@extractFeasibleSol_edge_values distOnAxis cgStar 5%Q bgDemo demoSettled
              demoPaths demoEdgById demoSol demoStarter_ok) as (H & _ & _).
  exact (H (501, [(3, 16)]) (3, 16) (or_introl eq_refl) (or_introl eq_refl)).
Defined.

Lemma extractFeasibleSol_station_values_witness :
  demoSol (NSp (getId bgDemo 0) 100)
  = Some (if match demoSettled 100 with Some s => 0 =? s | None => false end
          then 1%Q else 0%Q).
Proof.
  destruct (@extractFeasibleSol_station_values distOnAxis cgStar 5%Q bgDemo demoSettled
              demoPaths demoEdgById demoSol demoStarter_ok grid_sink_ids) as (H & _ & _).
  exact (H 100 0 star_centre_listed star_centre_deg grid_sink0_listed grid_sink0
           grid_sink0_near).
Defined.

Lemma extractFeasibleSol_sink_edges_witness :
  isSecondary bgDemo 72 = true /\
  ((onPath bgDemo demoPaths demoEdgById (getEdgUseVar bgDemo 72 501) /\
    demoSol (getEdgUseVar bgDemo 72 501) = Some 1%Q) \/
   (~ onPath bgDemo demoPaths demoEdgById (getEdgUseVar bgDemo 72 501) /\
    demoSol (getEdgUseVar bgDemo 72 501) = Some 0%Q)).
Proof.
  destruct (@extractFeasibleSol_sink_edges distOnAxis cgStar 5%Q bgDemo demoSettled
              demoPaths demoEdgById demoSol demoStarter_ok 100 9 501
              star_centre_listed star_centre_deg grid_sink9_listed grid_sink9
              grid_sink9_near star_edge_listed star_edge_from) as (_ & H).
  exact (H grid_sink9_free 72 grid_sink9_edge).
Defined.

End DemoStarter.

Set Implicit Arguments.

(* ================================================================== *)
(** * The station, ordering and angle rows of the small star *)

Module DemoClaims.

Import Vec Names LP Grid Comb ILP OctiHanan Impl Demo
       ListFacts LPFacts PhaseFacts FlowFacts StatPosFacts OrderFacts AngleFacts
       CreateProblemFacts DemoFacts DemoRows.

Unset Implicit Arguments.

Lemma demo_centre_used : cDeg cgStar 100 <> 0.
Proof. vm_compute. discriminate. Qed.

Lemma demo_centre_deg3 : 3 <= cDeg cgStar 100.
Proof. vm_compute. lia. Qed.

Lemma demo_nodes_nodup : NoDup (cgNds cgStar).
Proof. simpl. repeat constructor; simpl; intuition discriminate. Qed.

Lemma demo_octilinear : Grid.maxDeg bgDemo = 8.
Proof. reflexivity. Qed.




Lemma createProblem_unique_station_witness :
  exists base,
    In (mkRow (NOneass 100) 1 FIX
              (unitTerms base (length (candsOf distOnAxis cgStar 5%Q bgDemo 100))))
       (rows demoLP) /\
    length (filter (fun r => name_eqb (rowName r) (NOneass 100)) (rows demoLP)) = 1.
Proof.
  destruct (@createProblem_unique_station dINF dSOFT_INF distOnAxis cgStar None 5%Q
              bgDemo demoGG demoLP demoRun_ok 100 demo_centre_listed) as (_ & H & _).
  destruct (H demo_centre_used) as (base & Hrow & _ & Hone).
  exists base. exact (conj Hrow (Hone demo_nodes_nodup)).
Defined.

Lemma createProblem_circular_order_witness :
  exists a b colA colB vc,
    orderPred (cOrder cgStar 100) 0 = Some a /\
    nth_error (cOrder cgStar 100) 0 = Some b /\
    getVarByName demoLP (NDir 100 a) = Some colA /\
    getVarByName demoLP (NDir 100 b) = Some colB /\
    getVarByName demoLP (NVuln 100 0) = Some vc /\
    In (mkRow (NOc 100 0) 1 LO [(colB, 1%Z); (colA, (-1)%Z); (vc, 8%Z)]) (rows demoLP).
Proof.
  destruct (@createProblem_circular_order dINF dSOFT_INF distOnAxis cgStar None 5%Q
              bgDemo demoGG demoLP demoRun_ok demo_octilinear 100 demo_centre_listed)
    as (H & _).
  destruct (H demo_centre_deg3) as (_ & Hoc).
  apply (Hoc 0). vm_compute. lia.
Defined.


Set Implicit Arguments.

End DemoClaims.

